(* Linux music playlist manager: the playlist (a circular singly linked
   list, link.cpp), the classifier of file names and the playback sessions
   with their key controls (audio.cpp), and the traversals that drive the
   sessions over a playlist.

   Part 1 holds the model: the C++ functions as Rocq functions over an
   explicit heap (the nodes of the lists, the nodes of the stack) and an
   explicit world (terminal, file status flags, the calls made so far and
   what the outside answers to them); then the names of the songs
   (link.h), display, search and the sorts (link.cpp), the play of one
   entry, saving and loading, and the handlers of the menus (main.cpp).
   Part 2 holds the facts. *)

From stdpp Require Import gmap strings list sorting.
From Stdlib Require Import ZArith Lia Ascii Bool DecimalString SpecFloat.
Open Scope Z_scope.
#[local] Set Warnings "-clear-no-such-hyp".

(* ================================================================== *)
(* Part 1: the model                                                   *)
(* ================================================================== *)

(* ---- audio.cpp:94  isMP3File, and the regular expressions it needs:
   matching by derivatives, [nullable true] being nullability at the end
   of the input, where $ holds ---- *)
Module Regex.
#[local] Open Scope char_scope.

Inductive regex : Type :=
| RNone
| REps
| RAny
| RChar (c : ascii)
| RSet (cs : list ascii)
| REol
| RCat (r1 r2 : regex)
| RAlt (r1 r2 : regex)
| RStar (r : regex).

Definition is_line_terminator (c : ascii) : bool :=
  Ascii.eqb c "010" || Ascii.eqb c "013".

Definition mem_ascii (c : ascii) (cs : list ascii) : bool :=
  existsb (Ascii.eqb c) cs.

Fixpoint nullable (at_end : bool) (r : regex) : bool :=
  match r with
  | RNone => false
  | REps => true
  | RAny => false
  | RChar _ => false
  | RSet _ => false
  | REol => at_end
  | RCat r1 r2 => nullable at_end r1 && nullable at_end r2
  | RAlt r1 r2 => nullable at_end r1 || nullable at_end r2
  | RStar _ => true
  end.

Fixpoint deriv (c : ascii) (r : regex) : regex :=
  match r with
  | RNone => RNone
  | REps => RNone
  | RAny => if is_line_terminator c then RNone else REps
  | RChar d => if Ascii.eqb c d then REps else RNone
  | RSet cs => if mem_ascii c cs then REps else RNone
  | REol => RNone
  | RCat r1 r2 =>
      RAlt (RCat (deriv c r1) r2)
           (if nullable false r1 then deriv c r2 else RNone)
  | RAlt r1 r2 => RAlt (deriv c r1) (deriv c r2)
  | RStar r1 => RCat (deriv c r1) (RStar r1)
  end.

Fixpoint matches (r : regex) (s : list ascii) : bool :=
  match s with
  | [] => nullable true r
  | c :: s' => matches (deriv c r) s'
  end.

Inductive mt : regex -> list ascii -> list ascii -> Prop :=
| mt_eps k : mt REps [] k
| mt_any c k : is_line_terminator c = false -> mt RAny [c] k
| mt_char c k : mt (RChar c) [c] k
| mt_set cs c k : mem_ascii c cs = true -> mt (RSet cs) [c] k
| mt_eol : mt REol [] []
| mt_cat r1 r2 s1 s2 k :
    mt r1 s1 (s2 ++ k) -> mt r2 s2 k -> mt (RCat r1 r2) (s1 ++ s2) k
| mt_alt_l r1 r2 s k : mt r1 s k -> mt (RAlt r1 r2) s k
| mt_alt_r r1 r2 s k : mt r2 s k -> mt (RAlt r1 r2) s k
| mt_star_nil r k : mt (RStar r) [] k
| mt_star_cons r s1 s2 k :
    s1 <> [] -> mt r s1 (s2 ++ k) -> mt (RStar r) s2 k ->
    mt (RStar r) (s1 ++ s2) k.

(* audio.cpp:95  std::regex mp3Pattern(".*\\.[mM][pP]3$"); *)
Definition mp3Pattern : regex :=
  RCat (RStar RAny)
    (RCat (RChar ".")
       (RCat (RSet ["m"; "M"])
          (RCat (RSet ["p"; "P"])
             (RCat (RChar "3") REol)))).

Definition regex_match (s : string) (r : regex) : bool :=
  matches r (String.list_ascii_of_string s).

Definition isMP3File (filename : string) : bool :=
  regex_match filename mp3Pattern.

Definition to_lower (c : ascii) : ascii :=
  let n := nat_of_ascii c in
  if (65 <=? n)%nat && (n <=? 90)%nat then ascii_of_nat (n + 32) else c.

Definition ends_in_mp3_ci (l : list ascii) : bool :=
  match rev l with
  | c3 :: c2 :: c1 :: c0 :: _ =>
      Ascii.eqb c0 "." && Ascii.eqb (to_lower c1) "m" &&
      Ascii.eqb (to_lower c2) "p" && Ascii.eqb c3 "3"
  | _ => false
  end.

Definition stem (l : list ascii) : list ascii := rev (skipn 4 (rev l)).

Definition no_line_terminator (l : list ascii) : bool :=
  forallb (fun c => negb (is_line_terminator c)) l.

Definition is_nil (k : list ascii) : bool :=
  match k with [] => true | _ => false end.

(* a name that ends in .mp3 with a line feed before the extension *)
Definition name_with_line_feed : string :=
  String "a" (String "010" "b.mp3").

End Regex.

(* ---- link.cpp:75-300  LinkedList over a heap of nodes; a dereference of
   a pointer that is null or freed, a second delete and an overflow of int
   are [Undefined] ---- *)
Module Mem.

(* what running a piece of code gives: a value, undefined behaviour, or
   a loop cut short by the fuel *)
Inductive outcome (A : Type) : Type :=
| Ok (a : A)
| Undefined
| OutOfFuel.
Arguments Ok {A} a.
Arguments Undefined {A}.
Arguments OutOfFuel {A}.

#[global] Instance outcome_ret : MRet outcome := @Ok.
#[global] Instance outcome_bind : MBind outcome := fun A B f m =>
  match m with
  | Ok a => f a
  | Undefined => Undefined
  | OutOfFuel => OutOfFuel
  end.

Definition INT_MAX : Z := 2147483647.
Definition INT_MIN : Z := -2147483648.

(* arithmetic on int: an overflow is undefined *)
Definition int_add (a b : Z) : outcome Z :=
  if decide (INT_MIN <= a + b <= INT_MAX) then Ok (a + b) else Undefined.

Abbreviation addr := positive.

(* link.h:16  struct node *)
Record node : Type := Node {
  song : string;
  artist : string;
  next : option addr
}.

Abbreviation heap := (gmap positive node).

(* link.h:27  class LinkedList *)
Record LinkedList : Type := mkLinkedList {
  head : option addr;
  listName : string;
  len : Z;
  taken : bool
}.

Definition set_head (L : LinkedList) (p : option addr) : LinkedList :=
  mkLinkedList p (listName L) (len L) (taken L).
Definition set_len (L : LinkedList) (n : Z) : LinkedList :=
  mkLinkedList (head L) (listName L) n (taken L).

(* link.cpp:22  LinkedList::LinkedList() *)
Definition LinkedList_new : LinkedList := mkLinkedList None "" 0 false.

(* p->field: the pointer must be that of a live node *)
Definition deref (h : heap) (p : option addr) : outcome node :=
  match p with
  | None => Undefined
  | Some a => match h !! a with Some nd => Ok nd | None => Undefined end
  end.

(* p->next = n *)
Definition store_next (h : heap) (p : option addr) (n : option addr) : outcome heap :=
  match p with
  | None => Undefined
  | Some a =>
      match h !! a with
      | Some nd => Ok (<[a := Node (song nd) (artist nd) n]> h)
      | None => Undefined
      end
  end.

(* delete p: nothing for nullptr, undefined for a node already freed *)
Definition free (h : heap) (p : option addr) : outcome heap :=
  match p with
  | None => Ok h
  | Some a => match h !! a with Some _ => Ok (delete a h) | None => Undefined end
  end.

(* new node(s, a): a fresh address, next is nullptr *)
Definition new_node (h : heap) (s a : string) : addr * heap :=
  let p := fresh (dom h) in (p, <[p := Node s a None]> h).

(* while (last->next != head) last = last->next; *)
Fixpoint find_last (fuel : nat) (h : heap) (hd last : option addr) : outcome (option addr) :=
  match fuel with
  | O => OutOfFuel
  | S f =>
      nd ← deref h last;
      if decide (next nd = hd) then Ok last else find_last f h hd (next nd)
  end.

(* link.cpp:75  void LinkedList::add_beg(song, artist) *)
Definition add_beg (fuel : nat) (s a : string) (st : heap * LinkedList)
  : outcome (heap * LinkedList) :=
  let '(h, L) := st in
  let '(newNode, h) := new_node h s a in
  st ← match head L with
       | None =>
           let L := set_head L (Some newNode) in
           h ← store_next h (Some newNode) (head L);
           Ok (h, L)
       | Some _ =>
           last ← find_last fuel h (head L) (head L);
           h ← store_next h (Some newNode) (head L);
           let L := set_head L (Some newNode) in
           h ← store_next h last (head L);
           Ok (h, L)
       end;
  n ← int_add (len st.2) 1;
  Ok (st.1, set_len st.2 n).


(* link.cpp:98  void LinkedList::add_end(song, artist) *)
Definition add_end (fuel : nat) (s a : string) (st : heap * LinkedList)
  : outcome (heap * LinkedList) :=
  let '(h, L) := st in
  let '(newNode, h) := new_node h s a in
  st ← match head L with
       | None =>
           let L := set_head L (Some newNode) in
           h ← store_next h (Some newNode) (head L);
           Ok (h, L)
       | Some _ =>
           temp ← find_last fuel h (head L) (head L);
           h ← store_next h temp (Some newNode);
           h ← store_next h (Some newNode) (head L);
           Ok (h, L)
       end;
  n ← int_add (len st.2) 1;
  Ok (st.1, set_len st.2 n).

(* for (int i = 1; i < pos - 1; ++i) { if (temp->next == head) break;
     temp = temp->next; }  run for [n] iterations *)
Fixpoint advance (n : nat) (h : heap) (hd temp : option addr)
  : outcome (option addr) :=
  match n with
  | O => Ok temp
  | S n' =>
      nd ← deref h temp;
      if decide (next nd = hd) then Ok temp else advance n' h hd (next nd)
  end.

(* link.cpp:120  void LinkedList::add_at(song, artist, pos) *)
Definition add_at (fuel : nat) (s a : string) (pos : Z) (st : heap * LinkedList)
  : outcome (heap * LinkedList) :=
  let '(h, L) := st in
  lim ← int_add (len L) 1;
  if decide (pos < 1 ∨ pos > lim) then Ok st
  else if decide (pos = 1) then add_beg fuel s a st
  else if decide (pos = lim) then add_end fuel s a st
  else
    let '(newNode, h) := new_node h s a in
    temp ← advance (Z.to_nat (pos - 2)) h (head L) (head L);
    nd ← deref h temp;
    h ← store_next h (Some newNode) (next nd);
    h ← store_next h temp (Some newNode);
    n ← int_add (len L) 1;
    Ok (h, set_len L n).

(* link.cpp:150  void LinkedList::del_beg() *)
Definition del_beg (fuel : nat) (st : heap * LinkedList)
  : outcome (heap * LinkedList) :=
  let '(h, L) := st in
  match head L with
  | None => Ok st
  | Some _ =>
      n ← int_add (len L) (-1);
      let L := set_len L n in
      hd ← deref h (head L);
      if decide (next hd = head L) then
        h ← free h (head L);
        Ok (h, set_head L None)
      else
        last ← find_last fuel h (head L) (head L);
        let temp := head L in
        let L := set_head L (next hd) in
        h ← store_next h last (head L);
        h ← free h temp;
        Ok (h, L)
  end.

(* while (temp->next != head) { follow = temp; temp = temp->next; } *)
Fixpoint find_last_follow (fuel : nat) (h : heap) (hd follow temp : option addr)
  : outcome (option addr * option addr) :=
  match fuel with
  | O => OutOfFuel
  | S f =>
      nd ← deref h temp;
      if decide (next nd = hd) then Ok (follow, temp)
      else find_last_follow f h hd temp (next nd)
  end.

(* link.cpp:176  void LinkedList::del_end() *)
Definition del_end (fuel : nat) (st : heap * LinkedList)
  : outcome (heap * LinkedList) :=
  let '(h, L) := st in
  match head L with
  | None => Ok st
  | Some _ =>
      n ← int_add (len L) (-1);
      let L := set_len L n in
      hd ← deref h (head L);
      if decide (next hd = head L) then
        h ← free h (head L);
        Ok (h, set_head L None)
      else
        ft ← find_last_follow fuel h (head L) None (head L);
        h ← store_next h ft.1 (head L);
        h ← free h ft.2;
        Ok (h, L)
  end.

(* for (int i = 1; i < pos; ++i) { if (temp->next == head) break;
     follow = temp; temp = temp->next; }  run for [n] iterations *)
Fixpoint advance_follow (n : nat) (h : heap) (hd follow temp : option addr)
  : outcome (option addr * option addr) :=
  match n with
  | O => Ok (follow, temp)
  | S n' =>
      nd ← deref h temp;
      if decide (next nd = hd) then Ok (follow, temp)
      else advance_follow n' h hd temp (next nd)
  end.

(* link.cpp:204  void LinkedList::del_at(pos) *)
Definition del_at (fuel : nat) (pos : Z) (st : heap * LinkedList)
  : outcome (heap * LinkedList) :=
  let '(h, L) := st in
  match head L with
  | None => Ok st
  | Some _ =>
      if decide (pos < 1 ∨ pos > len L) then Ok st
      else if decide (pos = 1) then del_beg fuel st
      else if decide (pos = len L) then del_end fuel st
      else
        ft ← advance_follow (Z.to_nat (pos - 1)) h (head L) None (head L);
        nd ← deref h ft.2;
        h ← store_next h ft.1 (next nd);
        h ← free h ft.2;
        n ← int_add (len L) (-1);
        Ok (h, set_len L n)
  end.

(* while (current != nullptr) { nodeToDelete = current;
     current = current->next; delete nodeToDelete; } *)
Fixpoint free_chain (fuel : nat) (h : heap) (current : option addr)
  : outcome heap :=
  match current with
  | None => Ok h
  | Some _ =>
      match fuel with
      | O => OutOfFuel
      | S f =>
          nd ← deref h current;
          h ← free h current;
          free_chain f h (next nd)
      end
  end.

(* link.cpp:271  void LinkedList::clear() *)
Definition clear (fuel : nat) (st : heap * LinkedList)
  : outcome (heap * LinkedList) :=
  let '(h, L) := st in
  match head L with
  | None => Ok st
  | Some _ =>
      hd ← deref h (head L);
      match next hd with
      | None =>
          h ← free h (head L);
          Ok (h, set_len (set_head L None) 0)
      | Some _ =>
          let current := next hd in
          h ← store_next h (head L) None;
          h ← free_chain fuel h current;
          h ← free h (head L);
          Ok (h, set_len (set_head L None) 0)
      end
  end.

(* link.cpp:304  bool LinkedList::isEmpty() const *)
Definition isEmpty (L : LinkedList) : bool :=
  match head L with None => true | Some _ => false end.

Inductive op : Type :=
| OpAddBeg (s a : string)
| OpAddEnd (s a : string)
| OpAddAt (s a : string) (pos : Z)
| OpDelBeg
| OpDelEnd
| OpDelAt (pos : Z)
| OpClear.

Definition apply_op (fuel : nat) (o : op) (st : heap * LinkedList)
  : outcome (heap * LinkedList) :=
  match o with
  | OpAddBeg s a => add_beg fuel s a st
  | OpAddEnd s a => add_end fuel s a st
  | OpAddAt s a pos => add_at fuel s a pos st
  | OpDelBeg => del_beg fuel st
  | OpDelEnd => del_end fuel st
  | OpDelAt pos => del_at fuel pos st
  | OpClear => clear fuel st
  end.

Fixpoint run_ops (fuel : nat) (ops : list op) (st : heap * LinkedList)
  : outcome (heap * LinkedList) :=
  match ops with
  | [] => Ok st
  | o :: ops' => st' ← apply_op fuel o st; run_ops fuel ops' st'
  end.

(* following the next pointer [k] times *)
Fixpoint follow (h : heap) (k : nat) (p : option addr) : option addr :=
  match k with
  | O => p
  | S k' => match p with
            | None => None
            | Some a => match h !! a with
                        | Some nd => follow h k' (next nd)
                        | None => None
                        end
            end
  end.


Abbreviation entry := (string * string)%type.

Definition hd_or (cells : list (positive * entry)) (tl : option addr) : option addr :=
  match cells with
  | [] => tl
  | c :: _ => Some c.1
  end.

Fixpoint lseg (h : heap) (cells : list (positive * entry)) (tl : option addr) : Prop :=
  match cells with
  | [] => True
  | c :: rest =>
      h !! c.1 = Some (Node c.2.1 c.2.2 (hd_or rest tl)) ∧ lseg h rest tl
  end.

(* the heap holds the nodes of the list, each once, and nothing else *)
Definition circular (h : heap) (L : LinkedList) (cells : list (positive * entry)) : Prop :=
  NoDup cells.*1 ∧
  lseg h cells (hd_or cells None) ∧
  head L = hd_or cells None ∧
  len L = Z.of_nat (length cells) ∧
  dom h = list_to_set cells.*1.

(* the nodes of the list are in the heap, which may hold other lists *)
Definition linked (h : heap) (L : LinkedList) (cells : list (positive * entry)) : Prop :=
  NoDup cells.*1 ∧
  lseg h cells (hd_or cells None) ∧
  head L = hd_or cells None ∧
  len L = Z.of_nat (length cells).

Definition Rep (h : heap) (L : LinkedList) (es : list entry) : Prop :=
  ∃ cells, cells.*2 = es ∧ circular h L cells.

Definition abs_op (o : op) (es : list entry) : list entry :=
  match o with
  | OpAddBeg s a => (s, a) :: es
  | OpAddEnd s a => es ++ [(s, a)]
  | OpAddAt s a pos =>
      if decide (1 ≤ pos ≤ Z.of_nat (length es) + 1)
      then take (Z.to_nat (pos - 1)) es ++ (s, a) :: drop (Z.to_nat (pos - 1)) es
      else es
  | OpDelBeg => tail es
  | OpDelEnd => take (length es - 1) es
  | OpDelAt pos =>
      if decide (1 ≤ pos ≤ Z.of_nat (length es))
      then delete (Z.to_nat (pos - 1)) es
      else es
  | OpClear => []
  end.

(* the sequences on which clear() only ever meets an empty list *)
Fixpoint abs_run (ops : list op) (es : list entry) : option (list entry) :=
  match ops with
  | [] => Some es
  | OpClear :: ops' =>
      match es with
      | [] => abs_run ops' []
      | _ :: _ => None
      end
  | o :: ops' => abs_run ops' (abs_op o es)
  end.

Definition delete_all (l : list positive) (h : heap) : heap :=
  foldl (λ h a, delete a h) h l.

Definition well_formed (h : heap) (L : LinkedList) : Prop :=
  (head L = None ∧ len L = 0) ∨
  (∃ a, head L = Some a ∧ 0 < len L ∧
        follow h (Z.to_nat (len L)) (Some a) = Some a ∧
        (∀ k, (0 < k < Z.to_nat (len L))%nat → follow h k (Some a) ≠ Some a) ∧
        len L = Z.of_nat (size h)).

End Mem.

(* ---- audio.cpp  the sessions and the traversals ---- *)
Module Audio.
Import Regex Mem.

(* ---- machine integers ---- *)
Definition s32 (z : Z) : Z := (z + 2147483648) mod 4294967296 - 2147483648.
Definition s64 (z : Z) : Z :=
  (z + 9223372036854775808) mod 18446744073709551616 - 9223372036854775808.

(* ---- <termios.h>, <fcntl.h> ---- *)
Record termios : Type := mkTermios {
  c_lflag : Z;
  c_cc_VMIN : Z;
  c_cc_VTIME : Z;
  c_rest : Z
}.
Definition ICANON : Z := 2.
Definition ECHO : Z := 8.
Definition O_NONBLOCK : Z := 2048.

(* ---- <mpg123.h> ---- *)
Definition MPG123_DONE : Z := -12.
Definition MPG123_NEW_FORMAT : Z := -11.
Definition MPG123_OK : Z := 0.

Definition AUDIO_BUFFER_SIZE : Z := 8192.

Variant Whence : Type := SEEK_SET | SEEK_CUR.

(* what is written to the console; the banners of the traversals show
   getCleanSongName(song), here the song itself *)
Variant Msg : Type :=
| ErrFileNotFound (f : string)
| ErrMpgInit | ErrMpgNew | ErrMpgOpen | ErrGetFormat | ErrSetFormat
| ErrPaNew | ErrSfOpen
| WarnScan | WarnDrain | InfoNewFormat | ErrDecode | ErrWrite
| NowPlaying (f : string) | Duration | ControlsHelp | Rule
| Paused | Playing | Stopped | JumpedBack | JumpedForward
| Progress (pos percent : Z) | DurationUnknown | Newline
| Finished | StoppedByUser | StoppedOnError
| PlaylistEmpty
| PlaylistHeader (name : string) (n : Z)
| RepeatHeader (name : string) (rounds n : Z)
| ReverseHeader (name : string) (n : Z)
| ReverseStarting
| TrackBanner (i n : Z) (song artist : string)
| ReverseBanner (count n : Z) (song artist : string)
| RepeatBanner (track n round rounds : Z) (song artist : string)
| PlaylistStopped | PlaybackStopped | PromptContinue | Skipping
| SkippingReverse
| NextTrackIn2s | PlaylistComplete | ReverseComplete | RepeatComplete
| RoundsNotPositive | NullNode
| SinglePrompt (n : Z) | SingleInvalid (n : Z) | SingleBanner (song artist : string).

(* the calls a session makes to the C library, the decoders, the sound
   server and the console, in the order it makes them; tcgetattr,
   fcntl(F_GETFL), mpg123_param and mpg123_format_none, which change
   nothing that is modelled, are left out.  [EvMpgNew ok]: mpg123_new
   gives a handle and MPG123_OK, or NULL and an error code. *)
Variant Event : Type :=
| EvFopen (f : string) (ok : bool)
| EvFclose
| EvTcsetattr (t : termios)
| EvFcntlSetfl (flags : Z)
| EvKbhit (ready : bool)
| EvRead (c : option ascii)
| EvUsleep (us : Z)
| EvSleep (s : Z)
| EvCin (c : ascii)
| EvCinInt (n : option Z)
| EvMpgInit (ok : bool)
| EvMpgExit
| EvMpgNew (ok : bool)
| EvMpgDelete
| EvMpgOpen (ok : bool)
| EvMpgClose
| EvMpgGetformat (r : option (Z * Z))
| EvMpgFormat (ok : bool)
| EvMpgScan (ok : bool)
| EvMpgLength (n : Z)
| EvMpgRead (result bytes : Z)
| EvMpgSeekFrame (target : Z) (ret : Z)
| EvMpgFramepos (ret : Z)
| EvSfOpen (ok : bool)
| EvSfClose
| EvSfSeek (offset : Z) (whence : Whence) (ret : Z)
| EvSfTell (ret : Z)
| EvSfRead (asked frames : Z)
| EvPaNew (rate channels : Z) (ok : bool)
| EvPaFree
| EvPaWrite (ok : bool)
| EvPaDrain (ok : bool)
| EvOut (m : Msg).

(* what the outside answers during one pass through the playback loop *)
Record Tick : Type := mkTick {
  tk_kbhit : bool;
  tk_read : option ascii;
  tk_seek : Z;
  tk_seek0 : Z;
  tk_mpg_result : Z;
  tk_bytes : Z;
  tk_newformat : option (Z * Z);
  tk_frames_read : Z;
  tk_write : bool;
  tk_pos : Z
}.

(* what the outside answers during one session *)
Record Script : Type := mkScript {
  ss_fopen : bool;
  ss_mpg_init : bool;
  ss_mpg_new : bool;
  ss_mpg_open : bool;
  ss_getformat : option (Z * Z);
  ss_format : bool;
  ss_sf_open : option (Z * Z * Z);
  ss_pa_new : bool;
  ss_scan : bool;
  ss_length : Z;
  ss_ticks : list Tick;
  ss_drain : bool
}.

(* link.h:69  struct stackNode *)
Record stackNode : Type := StackNode {
  item : option positive;
  snext : option positive
}.

(* link.h:78  class Stack *)
Record Stack : Type := mkStack { topPtr : option positive }.

(* the state of the process and of what surrounds it: the terminal, the
   file status flags of standard input, the calls made so far, what the
   outside will answer (one script for each session to come, the characters
   and the numbers typed at the prompts), the nodes of the playlists and the
   nodes of the stack of the reverse traversal *)
Record World : Type := mkWorld {
  tty : termios;
  stdin_flags : Z;
  trace : list Event;
  sessions : list Script;
  answers : list ascii;
  numbers : list (option Z);
  mem : gmap positive node;
  stack_mem : gmap positive stackNode
}.

Definition emit (e : Event) (w : World) : World :=
  mkWorld (tty w) (stdin_flags w) (trace w ++ [e]) (sessions w) (answers w)
    (numbers w) (mem w) (stack_mem w).
Definition say (m : Msg) (w : World) : World := emit (EvOut m) w.

Definition tcsetattr (t : termios) (w : World) : World :=
  emit (EvTcsetattr t)
    (mkWorld t (stdin_flags w) (trace w) (sessions w) (answers w)
       (numbers w) (mem w) (stack_mem w)).
Definition fcntl_setfl (fl : Z) (w : World) : World :=
  emit (EvFcntlSetfl fl)
    (mkWorld (tty w) fl (trace w) (sessions w) (answers w)
       (numbers w) (mem w) (stack_mem w)).

Definition raw_mode (t : termios) : termios :=
  mkTermios (Z.land (c_lflag t) (Z.lnot (Z.lor ICANON ECHO)))
            (c_cc_VMIN t) (c_cc_VTIME t) (c_rest t).

(* audio.cpp:40  bool kbhit() *)
Definition kbhit (tk : Tick) (w : World) : bool * World :=
  (tk_kbhit tk, emit (EvKbhit (tk_kbhit tk)) w).

(* audio.cpp:50  char getch() *)
Definition getch (tk : Tick) (w : World) : ascii * World :=
  let old_term := tty w in
  let new_term :=
    mkTermios (c_lflag (raw_mode old_term)) 1 0 (c_rest old_term) in
  let w := tcsetattr new_term w in
  let w := emit (EvRead (tk_read tk)) w in
  let w := tcsetattr old_term w in
  match tk_read tk with
  | Some c => (c, w)
  | None => ("000"%char, w)
  end.


Definition set_sessions (ss : list Script) (w : World) : World :=
  mkWorld (tty w) (stdin_flags w) (trace w) ss (answers w) (numbers w)
    (mem w) (stack_mem w).
Definition set_answers (a : list ascii) (w : World) : World :=
  mkWorld (tty w) (stdin_flags w) (trace w) (sessions w) a (numbers w)
    (mem w) (stack_mem w).
Definition set_numbers (ns : list (option Z)) (w : World) : World :=
  mkWorld (tty w) (stdin_flags w) (trace w) (sessions w) (answers w) ns
    (mem w) (stack_mem w).
Definition set_stack_mem (sm : gmap positive stackNode) (w : World) : World :=
  mkWorld (tty w) (stdin_flags w) (trace w) (sessions w) (answers w)
    (numbers w) (mem w) sm.

Section Playback.

(* [scale cur total k] stands for the C++ expression
     static_cast<int>(static_cast<double>(cur) / total * k)
   of the progress display (k is 100.0 for the percentage and 25 for the
   bar). The sessions take it as a parameter: what is proved of them for
   every [scale] holds of the code, whose conversion is [double_scale]
   below. *)
Context (scale : Z → Z → Z → Z).

(* how a pass ends: with continue or at the end of the body, with break,
   or with the process killed by a signal in the middle of the pass *)
Variant Flow : Type := Continue | Break | Killed.

(* the local variables of the playback loops *)
Record Loop : Type := mkLoop {
  rate : Z;
  channels : Z;
  OUTPUT_RATE : Z;
  total_frames : Z;
  frames_played : Z;
  current_frame_pos : Z;
  last_percent : Z;
  playback_error : bool;
  is_paused : bool;
  should_stop : bool
}.

Definition set_format (rc : Z * Z) (st : Loop) : Loop :=
  mkLoop rc.1 rc.2 (OUTPUT_RATE st) (total_frames st) (frames_played st)
    (current_frame_pos st) (last_percent st) (playback_error st)
    (is_paused st) (should_stop st).
Definition set_position (played pos : Z) (st : Loop) : Loop :=
  mkLoop (rate st) (channels st) (OUTPUT_RATE st) (total_frames st) played
    pos (last_percent st) (playback_error st) (is_paused st) (should_stop st).
Definition set_last_percent (p : Z) (st : Loop) : Loop :=
  mkLoop (rate st) (channels st) (OUTPUT_RATE st) (total_frames st)
    (frames_played st) (current_frame_pos st) p (playback_error st)
    (is_paused st) (should_stop st).
Definition set_error (st : Loop) : Loop :=
  mkLoop (rate st) (channels st) (OUTPUT_RATE st) (total_frames st)
    (frames_played st) (current_frame_pos st) (last_percent st) true
    (is_paused st) (should_stop st).
Definition toggle_pause (st : Loop) : Loop :=
  mkLoop (rate st) (channels st) (OUTPUT_RATE st) (total_frames st)
    (frames_played st) (current_frame_pos st) (last_percent st)
    (playback_error st) (negb (is_paused st)) (should_stop st).
Definition set_stop (st : Loop) : Loop :=
  mkLoop (rate st) (channels st) (OUTPUT_RATE st) (total_frames st)
    (frames_played st) (current_frame_pos st) (last_percent st)
    (playback_error st) (is_paused st) true.

Definition init_loop (r c total : Z) : Loop :=
  mkLoop r c r total 0 0 (-1) false false false.

(* the progress display; [cur] is current_frame_pos in the MP3 loops and
   frames_played in the libsndfile loop *)
Definition show_progress (cur : Z) (st : Loop) (w : World) : Loop * World :=
  if decide (total_frames st > 0) then
    let percent := Z.min 100 (Z.max 0 (scale cur (total_frames st) 100)) in
    if decide (percent ≠ last_percent st) then
      let progress_bar_width := 25 in
      let pos := Z.min progress_bar_width
                   (Z.max 0 (scale cur (total_frames st) progress_bar_width)) in
      (set_last_percent percent st, say (Progress pos percent) w)
    else (st, w)
  else (st, say DurationUnknown w).

(* the key switch of the MP3 loop, audio.cpp:650-684 *)
Definition mp3_key (tk : Tick) (key : ascii) (st : Loop) (w : World) : Loop * World :=
  if decide (key = " "%char) then
    let st := toggle_pause st in
    (st, say (if is_paused st then Paused else Playing) w)
  else if decide (key = "s"%char ∨ key = "S"%char) then
    (set_stop st, say Stopped w)
  else if decide (key = "j"%char) then
    if decide (current_frame_pos st > 0) then
      let jump_frames := s64 (OUTPUT_RATE st * 10) in
      let target_frame := s64 (current_frame_pos st - jump_frames) in
      let target_frame := if decide (target_frame < 0) then 0 else target_frame in
      let w := emit (EvMpgSeekFrame target_frame (tk_seek tk)) w in
      (st, say JumpedBack w)
    else (st, w)
  else if decide (key = "k"%char) then
    if decide (total_frames st > 0) then
      let jump_frames := s64 (OUTPUT_RATE st * 10) in
      let target_frame := s64 (current_frame_pos st + jump_frames) in
      let target_frame :=
        if decide (target_frame >= total_frames st)
        then s64 (total_frames st - 1) else target_frame in
      let w := emit (EvMpgSeekFrame target_frame (tk_seek tk)) w in
      (st, say JumpedForward w)
    else (st, w)
  else (st, w).

(* the key switch of the libsndfile loop, audio.cpp:855-894 (and 383-422) *)
Definition sf_key (tk : Tick) (key : ascii) (st : Loop) (w : World) : Loop * World :=
  if decide (key = " "%char) then
    let st := toggle_pause st in
    (st, say (if is_paused st then Paused else Playing) w)
  else if decide (key = "s"%char ∨ key = "S"%char) then
    (set_stop st, say Stopped w)
  else if decide (key = "j"%char) then
    let jump_frames := s32 (rate st * 10) in
    let pos := tk_seek tk in
    let w := emit (EvSfSeek (s64 (- jump_frames)) SEEK_CUR pos) w in
    let '(pos, w) :=
      if decide (pos < 0)
      then (0, emit (EvSfSeek 0 SEEK_SET (tk_seek0 tk)) w) else (pos, w) in
    (set_position pos pos st, say JumpedBack w)
  else if decide (key = "k"%char) then
    let jump_frames := s32 (rate st * 10) in
    let pos := tk_seek tk in
    let w := emit (EvSfSeek jump_frames SEEK_CUR pos) w in
    let '(pos, w) :=
      if decide (pos < 0)
      then (0, emit (EvSfSeek 0 SEEK_SET (tk_seek0 tk)) w) else (pos, w) in
    (set_position pos pos st, say JumpedForward w)
  else (st, w).

(* if (kbhit()) { char key = getch(); switch (key) ... } *)
Definition poll_keys (on_key : Tick → ascii → Loop → World → Loop * World)
    (tk : Tick) (st : Loop) (w : World) : Loop * World :=
  let '(ready, w) := kbhit tk w in
  if ready then
    let '(key, w) := getch tk w in on_key tk key st w
  else (st, w).

(* decode one chunk and write it: audio.cpp:693-744, and 230-281 in
   player() *)
Definition mp3_chunk (tk : Tick) (st : Loop) (w : World) : Flow * Loop * World :=
  let w := emit (EvMpgRead (tk_mpg_result tk) (tk_bytes tk)) w in
  if decide (tk_mpg_result tk = MPG123_DONE) then (Break, st, w)
  else if decide (tk_mpg_result tk = MPG123_NEW_FORMAT) then
    let w := say InfoNewFormat w in
    let w := emit (EvMpgGetformat (tk_newformat tk)) w in
    let st := match tk_newformat tk with
              | Some rc => set_format rc st
              | None => st
              end in
    (Continue, st, w)
  else if decide (tk_mpg_result tk ≠ MPG123_OK) then
    (Break, set_error st, say ErrDecode w)
  else if decide (tk_bytes tk = 0) then (Continue, st, w)
  else
    let w := emit (EvPaWrite (tk_write tk)) w in
    if negb (tk_write tk) then (Break, set_error st, say ErrWrite w)
    else
      let w := emit (EvMpgFramepos (tk_pos tk)) w in
      let st := set_position (frames_played st) (tk_pos tk) st in
      let '(st, w) := show_progress (current_frame_pos st) st w in
      (Continue, st, w).

(* audio.cpp:903-945 (and 431-473). The number of frames asked of
   sf_readf_short is buffer.size() / sfinfo.channels, a division in size_t
   (sfinfo.channels, an int, is converted): with 0 channels it is a
   division by zero, which kills the process (SIGFPE) *)
Definition sf_chunk (tk : Tick) (st : Loop) (w : World) : Flow * Loop * World :=
  let chans := channels st mod 18446744073709551616 in
  if decide (chans = 0) then (Killed, st, w)
  else
  let frames_to_read := AUDIO_BUFFER_SIZE / chans in
  let frames_read := tk_frames_read tk in
  let w := emit (EvSfRead frames_to_read frames_read) w in
  if decide (frames_read <= 0) then (Break, st, w)
  else
    let w := emit (EvPaWrite (tk_write tk)) w in
    if negb (tk_write tk) then (Break, set_error st, say ErrWrite w)
    else
      let played := s64 (frames_played st + frames_read) in
      let w := emit (EvSfSeek 0 SEEK_CUR (tk_pos tk)) w in
      let st := set_position played (tk_pos tk) st in
      let '(st, w) := show_progress (frames_played st) st w in
      (Continue, st, w).

(* one pass through a loop with controls *)
Definition controlled_pass
    (on_key : Tick → ascii → Loop → World → Loop * World)
    (chunk : Tick → Loop → World → Flow * Loop * World)
    (tk : Tick) (st : Loop) (w : World) : Flow * Loop * World :=
  let '(st, w) := poll_keys on_key tk st w in
  if is_paused st then (Continue, st, emit (EvUsleep 100000) w)
  else chunk tk st w.

(* while (!should_stop) { pass }   /   while (true) { pass } ;
   one tick of the script is consumed by each pass; None when the loop
   does not come to its end: the script ends while the loop is still
   running, or the process is killed in a pass *)
Fixpoint run_loop (stoppable : bool)
    (pass : Tick → Loop → World → Flow * Loop * World)
    (ticks : list Tick) (st : Loop) (w : World) : option (Loop * World) :=
  if stoppable && should_stop st then Some (st, w)
  else
    match ticks with
    | [] => None
    | tk :: ticks' =>
        match pass tk st w with
        | (Break, st, w) => Some (st, w)
        | (Continue, st, w) => run_loop stoppable pass ticks' st w
        | (Killed, _, _) => None
        end
    end.

Definition result_code (st : Loop) : Z :=
  if playback_error st then 1 else if should_stop st then 2 else 0.

(* the messages and the drain after a loop with controls *)
Definition finish_controls (s : Script) (st : Loop) (w : World) : World :=
  if negb (playback_error st) && negb (should_stop st) then
    let w := emit (EvPaDrain (ss_drain s)) w in
    let w := if ss_drain s then w else say WarnDrain w in
    say Finished w
  else if should_stop st then say StoppedByUser w
  else say StoppedOnError w.

Definition print_banner (filename : string) (show_duration controls : bool)
    (w : World) : World :=
  let w := say (NowPlaying filename) w in
  let w := if show_duration then say Duration w else w in
  let w := if controls then say ControlsHelp w else w in
  say Rule w.

(* steps 2 to 8 of the MP3 branch, the same in player() and
   playerWithControls(): None when the session has ended with code 1 *)
Definition mp3_open (s : Script) (w : World) : option (Z * Z) * World :=
  let w := emit (EvMpgInit (ss_mpg_init s)) w in
  if negb (ss_mpg_init s) then (None, say ErrMpgInit w)
  else
    let w := emit (EvMpgNew (ss_mpg_new s)) w in
    if negb (ss_mpg_new s) then (None, emit EvMpgExit (say ErrMpgNew w))
    else
      let w := emit (EvMpgOpen (ss_mpg_open s)) w in
      if negb (ss_mpg_open s) then
        (None, emit EvMpgExit (emit EvMpgDelete (say ErrMpgOpen w)))
      else
        let w := emit (EvMpgGetformat (ss_getformat s)) w in
        match ss_getformat s with
        | None =>
            (None, emit EvMpgExit (emit EvMpgDelete (emit EvMpgClose
                     (say ErrGetFormat w))))
        | Some rc =>
            let w := emit (EvMpgFormat (ss_format s)) w in
            if negb (ss_format s) then
              (None, emit EvMpgExit (emit EvMpgDelete (emit EvMpgClose
                       (say ErrSetFormat w))))
            else
              let w := emit (EvPaNew (rc.1 mod 4294967296) (rc.2 mod 256)
                               (ss_pa_new s)) w in
              if negb (ss_pa_new s) then
                (None, emit EvMpgExit (emit EvMpgDelete (emit EvMpgClose
                         (say ErrPaNew w))))
              else (Some rc, w)
        end.

Definition mp3_scan (s : Script) (w : World) : World :=
  let w := emit (EvMpgScan (ss_scan s)) w in
  let w := if ss_scan s then w else say WarnScan w in
  emit (EvMpgLength (ss_length s)) w.

Definition mp3_close (w : World) : World :=
  emit EvMpgExit (emit EvMpgDelete (emit EvMpgClose (emit EvPaFree w))).

(* the libsndfile branch, the same in player() and playerWithControls()
   but for the line that lists the controls *)
Definition sf_session (controls : bool) (filename : string) (s : Script)
    (w : World) : option (Z * World) :=
  let w := emit (EvSfOpen (bool_decide (is_Some (ss_sf_open s)))) w in
  match ss_sf_open s with
  | None => Some (1, say ErrSfOpen w)
  | Some (frames, samplerate, chans) =>
      let w := emit (EvPaNew (samplerate mod 4294967296) (chans mod 256)
                       (ss_pa_new s)) w in
      if negb (ss_pa_new s) then
        Some (1, emit EvSfClose (say ErrPaNew w))
      else
        let old_tio := tty w in
        let w := tcsetattr (raw_mode old_tio) w in
        let old_flags := stdin_flags w in
        let w := fcntl_setfl (Z.lor old_flags O_NONBLOCK) w in
        let w := print_banner filename
                   (bool_decide ((0 < frames ∧ 0 ≤ samplerate) ∨
                                 (frames < 0 ∧ samplerate < 0)))
                   controls w in
        '(st, w) ← run_loop true (controlled_pass sf_key sf_chunk)
                     (ss_ticks s) (init_loop samplerate chans frames) w;
        let w := say Newline w in
        let w := tcsetattr old_tio w in
        let w := fcntl_setfl old_flags w in
        let w := finish_controls s st w in
        let w := emit EvSfClose (emit EvPaFree w) in
        Some (result_code st, w)
  end.

(* audio.cpp:100  int player(const std::string& filename), its script given *)
Definition player_session (filename : string) (s : Script) (w : World)
  : option (Z * World) :=
  let w := emit (EvFopen filename (ss_fopen s)) w in
  if negb (ss_fopen s) then Some (1, say (ErrFileNotFound filename) w)
  else
    let w := emit EvFclose w in
    if isMP3File filename then
      match mp3_open s w with
      | (None, w) => Some (1, w)
      | (Some rc, w) =>
          let w := mp3_scan s w in
          let total := ss_length s in
          let w := print_banner filename
                     (bool_decide (rc.1 > 0 ∧ total > 0)) false w in
          '(st, w) ← run_loop false mp3_chunk (ss_ticks s)
                       (init_loop rc.1 rc.2 total) w;
          let w := say Newline w in
          let w :=
            if negb (playback_error st) then
              let w := emit (EvPaDrain (ss_drain s)) w in
              let w := if ss_drain s then w else say WarnDrain w in
              say Finished w
            else say StoppedOnError w in
          let w := mp3_close w in
          Some (if playback_error st then 1 else 0, w)
      end
    else sf_session false filename s w.

(* audio.cpp:502  int playerWithControls(const std::string& filename) *)
Definition controls_session (filename : string) (s : Script) (w : World)
  : option (Z * World) :=
  let w := emit (EvFopen filename (ss_fopen s)) w in
  if negb (ss_fopen s) then Some (1, say (ErrFileNotFound filename) w)
  else
    let w := emit EvFclose w in
    if isMP3File filename then
      match mp3_open s w with
      | (None, w) => Some (1, w)
      | (Some rc, w) =>
          let old_tio := tty w in
          let w := tcsetattr (raw_mode old_tio) w in
          let old_flags := stdin_flags w in
          let w := fcntl_setfl (Z.lor old_flags O_NONBLOCK) w in
          let w := mp3_scan s w in
          let total := ss_length s in
          let w := print_banner filename
                     (bool_decide (rc.1 > 0 ∧ total > 0)) true w in
          '(st, w) ← run_loop true (controlled_pass mp3_key mp3_chunk)
                       (ss_ticks s) (init_loop rc.1 rc.2 total) w;
          let w := say Newline w in
          let w := tcsetattr old_tio w in
          let w := fcntl_setfl old_flags w in
          let w := finish_controls s st w in
          let w := mp3_close w in
          Some (result_code st, w)
      end
    else sf_session true filename s w.

(* a session takes the next script of the world *)
Definition player (filename : string) (w : World) : option (Z * World) :=
  match sessions w with
  | [] => None
  | s :: rest => player_session filename s (set_sessions rest w)
  end.

Definition playerWithControls (filename : string) (w : World)
  : option (Z * World) :=
  match sessions w with
  | [] => None
  | s :: rest => controls_session filename s (set_sessions rest w)
  end.


(* ---- link.cpp:46-71  Stack ---- *)

Definition Stack_isEmpty (s : Stack) : bool :=
  bool_decide (topPtr s = None).

(* link.cpp:54  void Stack::push(node* item) *)
Definition Stack_push (it : option positive) (s : Stack) (w : World)
  : Stack * World :=
  let newStackNode := fresh (dom (stack_mem w)) in
  let w := set_stack_mem
             (<[newStackNode := StackNode it (topPtr s)]> (stack_mem w)) w in
  (mkStack (Some newStackNode), w).

(* link.cpp:62  node* Stack::pop() ; None when the top pointer dangles *)
Definition Stack_pop (s : Stack) (w : World)
  : option (option positive * Stack * World) :=
  if Stack_isEmpty s then Some (None, s, w)
  else
    temp ← topPtr s;
    sn ← stack_mem w !! temp;
    let itemToReturn := item sn in
    let s := mkStack (snext sn) in
    let w := set_stack_mem (delete temp (stack_mem w)) w in
    Some (itemToReturn, s, w).

(* link.cpp:38  Stack::~Stack() *)
Fixpoint Stack_destroy (fuel : nat) (s : Stack) (w : World) : option World :=
  if Stack_isEmpty s then Some w
  else
    match fuel with
    | O => None
    | S f =>
        temp ← topPtr s;
        sn ← stack_mem w !! temp;
        Stack_destroy f (mkStack (snext sn))
          (set_stack_mem (delete temp (stack_mem w)) w)
    end.

(* ---- the traversals, audio.cpp:977-1246 ---- *)

(* std::cin >> choice; std::cin.ignore(...);
   std::toupper(choice) != 'Y'  :  true when the answer is to go on *)
Definition ask_continue (w : World) : option (bool * World) :=
  let w := say PromptContinue w in
  match answers w with
  | [] => None
  | c :: rest =>
      Some (bool_decide (c = "Y"%char ∨ c = "y"%char),
            emit (EvCin c) (set_answers rest w))
  end.

(* the body of the for loop of playWithControls, [k] passes left *)
Fixpoint sequential_loop (k : nat) (i n : Z) (current : option positive)
    (w : World) : option World :=
  match k with
  | O => Some (say PlaylistComplete w)
  | S k' =>
      match current with
      | None => Some (say PlaylistComplete (say NullNode w))
      | Some a =>
          nd ← mem w !! a;
          let songPath := song nd in
          let w := say (TrackBanner (i + 1) n songPath (artist nd)) w in
          '(result, w) ← playerWithControls songPath w;
          if decide (result = 2) then Some (say PlaylistStopped w)
          else
            '(go_on, w) ← (if decide (result ≠ 0) then ask_continue w
                           else Some (true, w));
            if negb go_on then Some (say PlaybackStopped w)
            else
              let w := if decide (result ≠ 0) then say Skipping w else w in
              nd ← mem w !! a;
              let current := next nd in
              let w := if decide (i < n - 1)
                       then emit (EvSleep 2) (say NextTrackIn2s w) else w in
              sequential_loop k' (i + 1) n current w
      end
  end.

(* audio.cpp:977  void playWithControls(LinkedList& list) *)
Definition playWithControls (lst : LinkedList) (w : World) : option World :=
  match head lst with
  | None => Some (say PlaylistEmpty w)
  | Some _ =>
      let n := len lst in
      let current := head lst in
      let w := say (PlaylistHeader (listName lst) n) w in
      sequential_loop (Z.to_nat n) 0 n current w
  end.

(* do { nodeStack.push(temp); temp = temp->next; } while (temp != list.head) *)
Fixpoint push_all (fuel : nat) (hd temp : option positive) (s : Stack)
    (w : World) : option (Stack * World) :=
  match fuel with
  | O => None
  | S f =>
      let '(s, w) := Stack_push temp s w in
      a ← temp;
      nd ← mem w !! a;
      let temp := next nd in
      if decide (temp ≠ hd) then push_all f hd temp s w else Some (s, w)
  end.

(* while ((nodeToPlay = nodeStack.pop()) != nullptr) { ... } ;
   the result tells whether userStopped stayed false *)
Fixpoint reverse_loop (fuel : nat) (count n : Z) (s : Stack) (w : World)
  : option (bool * Stack * World) :=
  match fuel with
  | O => None
  | S f =>
      '(nodeToPlay, s, w) ← Stack_pop s w;
      match nodeToPlay with
      | None => Some (true, s, w)
      | Some a =>
          nd ← mem w !! a;
          let songPath := song nd in
          let w := say (ReverseBanner count n songPath (artist nd)) w in
          let count := s32 (count + 1) in
          '(result, w) ← playerWithControls songPath w;
          if decide (result = 2) then Some (false, s, say PlaybackStopped w)
          else
            '(go_on, w) ← (if decide (result ≠ 0) then ask_continue w
                           else Some (true, w));
            if negb go_on then Some (false, s, say PlaybackStopped w)
            else
              let w := if decide (result ≠ 0) then say SkippingReverse w else w in
              let w := if negb (Stack_isEmpty s)
                       then emit (EvSleep 2) (say NextTrackIn2s w) else w in
              reverse_loop f count n s w
      end
  end.

(* audio.cpp:1092  void playWithControlsReverse(LinkedList& list) *)
Definition playWithControlsReverse (fuel : nat) (lst : LinkedList) (w : World)
  : option World :=
  match head lst with
  | None => Some (say PlaylistEmpty w)
  | Some _ =>
      let w := say (ReverseHeader (listName lst) (len lst)) w in
      let nodeStack := mkStack None in
      let n := len lst in
      let temp := head lst in
      '(nodeStack, w) ← push_all fuel (head lst) temp nodeStack w;
      let w := say ReverseStarting w in
      '(completed, nodeStack, w) ← reverse_loop fuel 1 n nodeStack w;
      let w := if (completed : bool) then say ReverseComplete w else w in
      Stack_destroy fuel nodeStack w
  end.

(* the body of the for loop of playWithControlsRepeat, [k] passes left;
   [bound] is n * rounds *)
Fixpoint repeat_loop (k : nat) (i n rounds bound : Z) (temp : option positive)
    (w : World) : option World :=
  match k with
  | O => Some (say RepeatComplete w)
  | S k' =>
      match temp with
      | None => Some (say RepeatComplete (say NullNode w))
      | Some a =>
          nd ← mem w !! a;
          let songPath := song nd in
          let currentRound := Z.quot i n + 1 in
          let trackInRound := Z.rem i n + 1 in
          let w := say (RepeatBanner trackInRound n currentRound rounds
                          songPath (artist nd)) w in
          '(result, w) ← playerWithControls songPath w;
          if decide (result = 2) then Some (say PlaybackStopped w)
          else
            '(go_on, w) ← (if decide (result ≠ 0) then ask_continue w
                           else Some (true, w));
            if negb go_on then Some (say PlaybackStopped w)
            else
              let w := if decide (result ≠ 0) then say Skipping w else w in
              nd ← mem w !! a;
              let temp := next nd in
              let w := if decide (i < bound - 1)
                       then emit (EvSleep 2) (say NextTrackIn2s w) else w in
              repeat_loop k' (i + 1) n rounds bound temp w
      end
  end.

(* audio.cpp:1170  void playWithControlsRepeat(LinkedList& list, int rounds) *)
Definition playWithControlsRepeat (lst : LinkedList) (rounds : Z) (w : World)
  : option World :=
  match head lst with
  | None => Some (say PlaylistEmpty w)
  | Some _ =>
      if decide (rounds <= 0) then Some (say RoundsNotPositive w)
      else
        let n := len lst in
        let temp := head lst in
        let w := say (RepeatHeader (listName lst) rounds n) w in
        let bound := s32 (n * rounds) in
        repeat_loop (Z.to_nat bound) 0 n rounds bound temp w
  end.

(* while (true) { if (std::cin >> choice && choice >= 1 && choice <= li.len)
   break; ... } : one typed line is consumed by each pass *)
Fixpoint read_choice (inputs : list (option Z)) (n : Z) (w : World)
  : option (Z * World) :=
  match inputs with
  | [] => None
  | x :: inputs' =>
      let w := emit (EvCinInt x) (set_numbers inputs' (say (SinglePrompt n) w)) in
      match x with
      | Some choice =>
          if decide (choice >= 1 ∧ choice <= n) then Some (choice, w)
          else read_choice inputs' n (say (SingleInvalid n) w)
      | None => read_choice inputs' n (say (SingleInvalid n) w)
      end
  end.

(* for (int i = 1; i < choice; i++) current = current->next; *)
Fixpoint walk (k : nat) (h : gmap positive node) (current : option positive)
  : option (option positive) :=
  match k with
  | O => Some current
  | S k' => a ← current; nd ← h !! a; walk k' h (next nd)
  end.

End Playback.


(* ---- vocabulary of the statements ---- *)

(* ---- the conversion of the progress display ---- *)

(* double is IEEE 754 binary64: 53 bits of precision, exponents up to
   1024, every operation rounded to the nearest value, ties to even; the
   operations are those of the specification of floating-point numbers in
   the standard library *)
Definition double : Type := spec_float.

(* static_cast<double>(z), and the conversion of an integer operand *)
Definition double_of_int (z : Z) : double := binary_normalize 53 1024 z 0 false.
Definition double_div (x y : double) : double := SFdiv 53 1024 x y.
Definition double_mul (x y : double) : double := SFmul 53 1024 x y.

(* the value of a double with its fractional part dropped; None for an
   infinity and for what is not a number *)
Definition truncate (x : double) : option Z :=
  match x with
  | S754_zero _ => Some 0
  | S754_finite s m e =>
      let v := if decide (0 ≤ e) then Z.pos m * 2 ^ e
               else Z.pos m `div` 2 ^ (- e) in
      Some (if s then - v else v)
  | S754_infinity _ | S754_nan => None
  end.

(* the truncated value is one of int: the case in which C++ defines
   static_cast<int>(x) *)
Definition fits_int (x : double) : bool :=
  match truncate x with
  | Some z => bool_decide (INT_MIN ≤ z ≤ INT_MAX)
  | None => false
  end.

(* static_cast<int>(x). When the truncated value is not one of int the
   conversion is undefined in C++; the instruction it is compiled to on
   x86-64 (cvttsd2si) then gives 0x80000000, that is INT_MIN, and this is
   the value taken here *)
Definition int_of_double (x : double) : Z :=
  if fits_int x then default 0 (truncate x) else INT_MIN.

(* double fraction_complete = static_cast<double>(cur) / total;
   audio.cpp:725-726 and 926-927 *)
Definition fraction_complete (cur total : Z) : double :=
  double_div (double_of_int cur) (double_of_int total).

(* static_cast<int>(fraction_complete * 100.0) and
   static_cast<int>(fraction_complete * progress_bar_width):
   audio.cpp:727, 733 and 928, 934 *)
Definition double_scale (cur total k : Z) : Z :=
  int_of_double (double_mul (fraction_complete cur total) (double_of_int k)).

(* [w'] is [w] after the calls [evs], nothing else changed *)
Definition grows (w w' : World) (evs : list Event) : Prop :=
  trace w' = trace w ++ evs ∧ tty w' = tty w ∧
  stdin_flags w' = stdin_flags w ∧ sessions w' = sessions w ∧
  answers w' = answers w ∧ numbers w' = numbers w ∧
  mem w' = mem w ∧ stack_mem w' = stack_mem w.

(* the calls made since [w0] *)
Definition since (w0 w : World) : list Event :=
  drop (length (trace w0)) (trace w).

(* the calls a playback loop may make *)
Definition loop_event (e : Event) : bool :=
  match e with
  | EvKbhit _ | EvTcsetattr _ | EvRead _ | EvUsleep _
  | EvMpgRead _ _ | EvMpgGetformat _ | EvMpgSeekFrame _ _ | EvMpgFramepos _
  | EvSfSeek _ _ _ | EvSfRead _ _ | EvPaWrite _ | EvOut _ => true
  | _ => false
  end.

(* the decoder handle: mpg123_new / mpg123_delete, sf_open / sf_close *)
Definition decoder_acquire (e : Event) : bool :=
  match e with EvMpgNew true | EvSfOpen true => true | _ => false end.
Definition decoder_release (e : Event) : bool :=
  match e with EvMpgDelete | EvSfClose => true | _ => false end.
(* the file the mpg123 handle has open: mpg123_open / mpg123_close *)
Definition stream_acquire (e : Event) : bool :=
  match e with EvMpgOpen true => true | _ => false end.
Definition stream_release (e : Event) : bool :=
  match e with EvMpgClose => true | _ => false end.
(* the output stream: pa_simple_new / pa_simple_free *)
Definition output_acquire (e : Event) : bool :=
  match e with EvPaNew _ _ true => true | _ => false end.
Definition output_release (e : Event) : bool :=
  match e with EvPaFree => true | _ => false end.

(* the handles of one kind that are held, and whether a release was ever
   made with none held *)
Definition account (acq rel : Event → bool) (s : nat * bool) (e : Event)
  : nat * bool :=
  if acq e then (S s.1, s.2)
  else if rel e then
    match s.1 with
    | O => (O, true)
    | S n => (n, s.2)
    end
  else s.

Definition ledger (acq rel : Event → bool) (evs : list Event) : nat * bool :=
  foldl (account acq rel) (O, false) evs.

(* the files the sessions were started on, in order *)
Definition plays (evs : list Event) : list string :=
  omap (λ e, match e with EvFopen f _ => Some f | _ => None end) evs.

Definition outputs (evs : list Event) : list Msg :=
  omap (λ e, match e with EvOut m => Some m | _ => None end) evs.

Definition decode_or_write (e : Event) : bool :=
  match e with
  | EvMpgRead _ _ | EvSfRead _ _ | EvPaWrite _ => true
  | _ => false
  end.

(* a request that moves the decoder: every seek but the query
   sf_seek(sndfile, 0, SEEK_CUR) *)
Definition seek_request (e : Event) : bool :=
  match e with
  | EvMpgSeekFrame _ _ => true
  | EvSfSeek off SEEK_CUR _ => negb (bool_decide (off = 0))
  | EvSfSeek _ SEEK_SET _ => true
  | _ => false
  end.

(* ---- vocabulary of the session statements ---- *)

Definition key_event (e : Event) : bool :=
  match e with
  | EvKbhit _ | EvTcsetattr _ | EvRead _ | EvOut _ => true
  | _ => seek_request e
  end.

Definition tty0 : termios := mkTermios 35387 1 0 0.

Definition world0 : World := mkWorld tty0 2 [] [] [] [] ∅ ∅.

Definition key_tick (c : ascii) (seek n pos : Z) (write_ok : bool) : Tick :=
  mkTick true (Some c) seek 0 MPG123_OK n None n write_ok pos.

(* the pass in which the decoder reports the end of the stream *)
Definition end_tick : Tick :=
  mkTick false None 0 0 MPG123_DONE 0 None 0 true 0.

(* a session in which every call before the loop succeeds, on a file of
   1000000 frames at 44100 Hz, two channels *)
Definition good_script (ticks : list Tick) : Script :=
  mkScript true true true true (Some (44100, 2)) true
    (Some (1000000, 44100, 2)) true true 1000000 ticks true.

Definition idle_tick (n pos : Z) : Tick :=
  mkTick false None 0 0 MPG123_OK n None n true pos.

(* the key read in a pass is [c] *)
Definition pressed (c : ascii) (tk : Tick) : Prop :=
  tk_kbhit tk = true ∧ tk_read tk = Some c.

(* no key is read in the pass, or one that is no command *)
Definition no_command (tk : Tick) : Prop :=
  tk_kbhit tk = false ∨
  ∀ c, tk_read tk = Some c →
       c ≠ " "%char ∧ c ≠ "s"%char ∧ c ≠ "S"%char ∧ c ≠ "j"%char ∧ c ≠ "k"%char.

Definition backend_call (e : Event) : bool :=
  decode_or_write e || seek_request e.

(* the decode or the write of the pass fails *)
Definition mp3_chunk_fails (tk : Tick) : Prop :=
  (tk_mpg_result tk ≠ MPG123_DONE ∧ tk_mpg_result tk ≠ MPG123_NEW_FORMAT ∧
   tk_mpg_result tk ≠ MPG123_OK) ∨
  (tk_mpg_result tk = MPG123_OK ∧ tk_bytes tk ≠ 0 ∧ tk_write tk = false).

Definition sf_chunk_fails (tk : Tick) : Prop :=
  tk_frames_read tk > 0 ∧ tk_write tk = false.

Definition is_drain (e : Event) : bool :=
  match e with EvPaDrain _ => true | _ => false end.

(* the key a pass reads: None when kbhit() finds none waiting; getch()
   gives the character 0 when its read fails *)
Definition key_read (tk : Tick) : option ascii :=
  if tk_kbhit tk then Some (default "000"%char (tk_read tk)) else None.

(* the chunk of the pass is decoded and written, and the loop goes on *)
Definition mp3_goes_on (tk : Tick) : bool :=
  bool_decide (tk_mpg_result tk = MPG123_NEW_FORMAT ∨
               (tk_mpg_result tk = MPG123_OK ∧
                (tk_bytes tk = 0 ∨ tk_write tk = true))).
Definition sf_goes_on (tk : Tick) : bool :=
  bool_decide (tk_frames_read tk > 0 ∧ tk_write tk = true).

(* whether a loop with controls is paused after the passes of [ticks],
   the first of them begun with is_paused = [p]; None when one of these
   passes leaves the loop: the stop key is read, or the chunk of a pass
   made in Playing ends the loop *)
Fixpoint paused_after (goes_on : Tick → bool) (p : bool) (ticks : list Tick)
  : option bool :=
  match ticks with
  | [] => Some p
  | tk :: ticks' =>
      if bool_decide (key_read tk = Some "s"%char ∨ key_read tk = Some "S"%char)
      then None
      else
        let p := if bool_decide (key_read tk = Some " "%char)
                 then negb p else p in
        if p || goes_on tk then paused_after goes_on p ticks' else None
  end.

(* every call playerWithControls makes before its loop succeeds, and a
   file that libsndfile plays has a number of channels that is not 0 *)
Definition reaches_loop (f : string) (s : Script) : bool :=
  ss_fopen s && ss_pa_new s &&
  if isMP3File f then
    ss_mpg_init s && ss_mpg_new s && ss_mpg_open s &&
    bool_decide (is_Some (ss_getformat s)) && ss_format s
  else
    match ss_sf_open s with
    | Some (_, _, chans) => bool_decide (chans mod 18446744073709551616 ≠ 0)
    | None => false
    end.

(* the loop of playerWithControls for the file *)
Definition goes_on (f : string) : Tick → bool :=
  if isMP3File f then mp3_goes_on else sf_goes_on.
Definition chunk_fails (f : string) : Tick → Prop :=
  if isMP3File f then mp3_chunk_fails else sf_chunk_fails.

(* the two loops with controls; the libsndfile loop with a number of
   channels that is not 0 *)
Definition loop_of (scale : Z → Z → Z → Z)
    (on_key : Tick → ascii → Loop → World → Loop * World)
    (chunk : Tick → Loop → World → Flow * Loop * World)
    (fails : Tick → Prop) (going : Tick → bool) (ok : Loop → Prop) : Prop :=
  (on_key = mp3_key ∧ chunk = mp3_chunk scale ∧ fails = mp3_chunk_fails ∧
   going = mp3_goes_on ∧ ok = λ _, True) ∨
  (on_key = sf_key ∧ chunk = sf_chunk scale ∧ fails = sf_chunk_fails ∧
   going = sf_goes_on ∧ ok = λ st, channels st mod 18446744073709551616 ≠ 0).

(* a session in which a chunk is played, then 's' is read in a pass whose
   write to the output fails *)
Definition stop_then_failed_write : Script :=
  good_script [idle_tick 4096 500000; key_tick "s" 0 4096 0 false; end_tick].


(* libsndfile does not report 0 channels *)
Definition has_channels (s : Script) : Prop :=
  ∀ frames samplerate chans,
    ss_sf_open s = Some (frames, samplerate, chans) →
    chans mod 18446744073709551616 ≠ 0.

Definition resource (acq rel : Event → bool) : Prop :=
  (acq = decoder_acquire ∧ rel = decoder_release) ∨
  (acq = stream_acquire ∧ rel = stream_release) ∨
  (acq = output_acquire ∧ rel = output_release).

Definition balanced (evs : list Event) : Prop :=
  ledger decoder_acquire decoder_release evs = (O, false) ∧
  ledger stream_acquire stream_release evs = (O, false) ∧
  ledger output_acquire output_release evs = (O, false).

(* ---- vocabulary of the progress display ---- *)



(* the percentages drawn *)
Definition percents (evs : list Event) : list Z :=
  omap (λ e, match e with EvOut (Progress _ p) => Some p | _ => None end) evs.

Definition is_unknown (e : Event) : bool :=
  match e with EvOut DurationUnknown => true | _ => false end.
Definition is_write_ok (e : Event) : bool :=
  match e with EvPaWrite true => true | _ => false end.
Definition count (f : Event → bool) (evs : list Event) : nat :=
  length (List.filter f evs).





(* nothing of the progress display among the calls *)
Definition quiet (evs : list Event) : Prop :=
  percents evs = [] ∧ count is_unknown evs = 0%nat ∧
  count is_write_ok evs = 0%nat.


(* ---- vocabulary of the traversals ---- *)


(* a script on which playerWithControls returns 0 whatever the file *)
Definition clean (scale : Z → Z → Z → Z) (s : Script) : Prop :=
  ∀ f w, ∃ w', controls_session scale f s w = Some (0, w').

(* [w'] is [w] after a traversal that started sessions on the files [fs]:
   the terminal and the nodes of the playlists are as they were *)
Definition drives (w w' : World) (fs : list string) : Prop :=
  ∃ evs, trace w' = trace w ++ evs ∧ plays evs = fs ∧
         tty w' = tty w ∧ stdin_flags w' = stdin_flags w ∧ mem w' = mem w.

Definition songs (cells : list (positive * entry)) : list string :=
  (λ c, c.2.1) <$> cells.

(* [k] entries of the list taken in a circle from index [idx] *)
Fixpoint cycle_from (es : list string) (idx k : nat) : list string :=
  match k with
  | O => []
  | S k' =>
      match es !! (idx mod length es)%nat with
      | Some e => e :: cycle_from es (S idx) k'
      | None => []
      end
  end.

(* the nodes of a stack, the top first, each with its address and its
   item, on top of the stack nodes [sm0] that were there before *)
Definition top_of (frames : list (positive * option positive))
  : option positive :=
  match frames with
  | [] => None
  | fr :: _ => Some fr.1
  end.

Fixpoint stack_mem_of (sm0 : gmap positive stackNode)
    (frames : list (positive * option positive)) : gmap positive stackNode :=
  match frames with
  | [] => sm0
  | fr :: rest =>
      <[fr.1 := StackNode fr.2 (top_of rest)]> (stack_mem_of sm0 rest)
  end.

Fixpoint stack_ok (sm0 : gmap positive stackNode)
    (frames : list (positive * option positive)) : Prop :=
  match frames with
  | [] => True
  | fr :: rest => (fr.1 ∉ dom (stack_mem_of sm0 rest)) ∧ stack_ok sm0 rest
  end.

(* operations on a playlist, clear() meeting the empty list only *)
Definition sample_ops : list op :=
  [OpClear; OpAddBeg "a.mp3" "A"; OpAddEnd "b.wav" "B";
   OpAddAt "c.ogg" "C" 2; OpDelBeg; OpAddEnd "d.flac" "D"; OpDelAt 2;
   OpDelEnd].

(* a playlist of three songs in a heap of its own *)
Definition sample_heap : gmap positive node :=
  <[1%positive := Node "a.mp3" "A" (Some 2%positive)]>
    (<[2%positive := Node "b.wav" "B" (Some 3%positive)]>
       (<[3%positive := Node "c.ogg" "C" (Some 1%positive)]> ∅)).

Definition sample_list : LinkedList :=
  mkLinkedList (Some 1%positive) "mix" 3 false.

Definition sample_cells : list (positive * entry) :=
  [(1%positive, ("a.mp3", "A")); (2%positive, ("b.wav", "B"));
   (3%positive, ("c.ogg", "C"))].

(* a world with that playlist and [n] sessions that play to the end *)
Definition sample_world (n : nat) : World :=
  mkWorld tty0 2 [] (replicate n (good_script [end_tick])) [] []
    sample_heap ∅.

End Audio.

(* ---- link.h:100-145  the names: caseInsensitiveCompareEqual and
   getCleanSongName, over the bytes of the strings ---- *)
Module Text.
Import Regex.
#[local] Open Scope char_scope.

(* a std::string is the list of its bytes *)
Abbreviation chars := String.list_ascii_of_string.
Abbreviation str := String.string_of_list_ascii.

(* s.find_last_of(set): the index of the last byte of [s] that is in [set] *)
Fixpoint find_last_of (set s : list ascii) : option nat :=
  match s with
  | [] => None
  | c :: s' =>
      match find_last_of set s' with
      | Some i => Some (S i)
      | None => if mem_ascii c set then Some O else None
      end
  end.

(* s.rfind(c) *)
Definition rfind (c : ascii) (s : list ascii) : option nat :=
  find_last_of [c] s.

(* s.find_first_of(set) != npos *)
Definition has_any_of (set s : list ascii) : bool :=
  existsb (fun c => mem_ascii c set) s.

(* s.substr(pos, n) and s.substr(pos), for pos <= s.size() *)
Definition substr (pos n : nat) (s : list ascii) : list ascii :=
  take n (drop pos s).
Definition substr_from (pos : nat) (s : list ascii) : list ascii :=
  drop pos s.

Fixpoint is_prefix (p s : list ascii) : bool :=
  match p, s with
  | [], _ => true
  | _ :: _, [] => false
  | a :: p', b :: s' => Ascii.eqb a b && is_prefix p' s'
  end.

(* s.find(sub): the index of the first place where [sub] begins *)
Fixpoint find (s sub : list ascii) : option nat :=
  if is_prefix sub s then Some O
  else match s with
       | [] => None
       | _ :: s' => S <$> find s' sub
       end.

(* the classes \s and \d of std::regex in the "C" locale *)
Definition isspace (c : ascii) : bool :=
  mem_ascii c [" "; "009"; "010"; "011"; "012"; "013"].
Definition isdigit (c : ascii) : bool :=
  let n := nat_of_ascii c in (48 <=? n)%nat && (n <=? 57)%nat.

Fixpoint skip (p : ascii -> bool) (s : list ascii) : list ascii :=
  match s with
  | [] => []
  | c :: s' => if p c then skip p s' else s
  end.

(* link.h:137  std::regex numericPrefix("^\\s*\\d+\\.?\\s*");
   std::regex_replace(temp, numericPrefix, "");
   the pattern is anchored at the start, so it matches once at most; each
   of its quantifiers is greedy and is followed by something that begins
   with a byte it does not take, so the match is: all the white space at
   the start, all the digits that follow (one at least), a dot if there
   is one, all the white space that follows.  Without a digit there,
   nothing matches and the text is unchanged. *)
Definition strip_numericPrefix (temp : list ascii) : list ascii :=
  let s1 := skip isspace temp in
  match s1 with
  | d :: _ =>
      if isdigit d then
        let s2 := skip isdigit s1 in
        let s3 := match s2 with
                  | "." :: r => r
                  | _ => s2
                  end in
        skip isspace s3
      else temp
  | [] => temp
  end.

(* std::tolower of an unsigned char, and ::tolower of a char, in the "C"
   locale: the letters A to Z are folded.  (For a byte above 127, where
   char is signed, ::tolower gets a negative argument; glibc gives it
   back unchanged, as here.) *)
Definition tolower (c : ascii) : ascii := to_lower c.

Definition lower (s : list ascii) : list ascii := tolower <$> s.

(* link.h:100  bool caseInsensitiveCompareEqual(str1, str2) ; std::equal
   over str1 with the bytes of str2 at the same places *)
Fixpoint equal_ci (s1 s2 : list ascii) : bool :=
  match s1, s2 with
  | [], _ => true
  | c1 :: s1', c2 :: s2' => Ascii.eqb (tolower c1) (tolower c2) && equal_ci s1' s2'
  | _ :: _, [] => false
  end.

Definition caseInsensitiveCompareEqual (str1 str2 : string) : bool :=
  (String.length str1 =? String.length str2)%nat &&
  equal_ci (chars str1) (chars str2).

Definition is_dots (temp : list ascii) : bool :=
  match temp with
  | ["."] | ["."; "."] => true
  | _ => false
  end.

(* link.h:112  std::string getCleanSongName(const std::string& fullPath) *)
Definition getCleanSongName (fullPath : string) : string :=
  match chars fullPath with
  | [] => "[Empty Path]"%string
  | temp =>
      let temp :=
        match find_last_of ["/"; "\"] temp with
        | Some lastSlash => substr_from (lastSlash + 1) temp
        | None => temp
        end in
      let temp :=
        match rfind "." temp with
        | Some lastDot =>
            if (0 <? lastDot)%nat then substr 0 lastDot temp else temp
        | None => temp
        end in
      if is_dots temp then fullPath
      else
        let temp := strip_numericPrefix temp in
        match temp with
        | [] => "[Unnamed]"%string
        | _ => str temp
        end
  end.

(* the steps of getCleanSongName before the numeric prefix is removed: what
   follows the last separator, without what follows its last dot *)
Definition stem_of (temp : list ascii) : list ascii :=
  let temp :=
    match find_last_of ["/"; "\"] temp with
    | Some lastSlash => substr_from (lastSlash + 1) temp
    | None => temp
    end in
  match rfind "." temp with
  | Some lastDot =>
      if (0 <? lastDot)%nat then substr 0 lastDot temp else temp
  | None => temp
  end.

(* nothing, or something that ends in a separator *)
Definition is_base (b : string) : bool :=
  match last (chars b) with
  | None => true
  | Some c => mem_ascii c ["/"; "\"]
  end.

(* the first byte of [s] is not one of [p] *)
Definition starts_without (p : ascii -> bool) (s : string) : bool :=
  match chars s with
  | [] => false
  | c :: _ => negb (p c)
  end.

(* std::to_string of an int *)
Definition to_string (z : Z) : string :=
  NilZero.string_of_int (Z.to_int z).

(* operator> of std::string: the bytes are compared as unsigned values,
   and of two strings of which one begins the other the longer is the
   greater *)
Fixpoint string_gt (a b : list ascii) : bool :=
  match a, b with
  | [], _ => false
  | _ :: _, [] => true
  | x :: a', y :: b' =>
      if (nat_of_ascii y <? nat_of_ascii x)%nat then true
      else if (nat_of_ascii x <? nat_of_ascii y)%nat then false
      else string_gt a' b'
  end.

End Text.

(* ---- link.cpp:240-441  display, search and the two sorts ---- *)
Module Library.
Import Regex Mem Text.

(* s.substr(0, n) of a std::string *)
Definition truncated (n : nat) (s : string) : string :=
  str (substr 0 n (chars s)).

(* listName.empty() ? "[Unnamed]" : listName *)
Definition shown_name (listName : string) : string :=
  if decide (listName = ""%string) then "[Unnamed]"%string else listName.

(* what display() and search() write to the console: the title line, the
   rule under it, the line for the empty list (after a blank line), a row
   (the number in a field of 3, the name in a field of 35, the artist),
   a blank line; the lines of search(), a match being three lines *)
Variant Line : Type :=
| DisplayTitle (name : string)
| DisplayRule
| DisplayEmpty
| DisplayRow (count : Z) (name artist : string)
| BlankLine
| SearchListEmpty
| SearchingFor (term : string)
| MatchFound (position : Z) (song artist : string)
| NoSongsFound.

(* do { ... << count++ << ... ; temp = temp->next; } while (temp != head); *)
Fixpoint display_rows (fuel : nat) (h : heap) (hd temp : option addr)
    (count : Z) : outcome (list Line) :=
  match fuel with
  | O => OutOfFuel
  | S f =>
      nd ← deref h temp;
      let cleanName := getCleanSongName (song nd) in
      let row := DisplayRow count (truncated 35 cleanName)
                   (truncated 20 (artist nd)) in
      count ← int_add count 1;
      let temp := next nd in
      if decide (temp = hd) then Ok [row]
      else rows ← display_rows f h hd temp count; Ok (row :: rows)
  end.

(* link.cpp:240  void LinkedList::display() const *)
Definition display (fuel : nat) (h : heap) (L : LinkedList)
  : outcome (list Line) :=
  let out := [DisplayTitle (shown_name (listName L)); DisplayRule] in
  match head L with
  | None => Ok (out ++ [DisplayEmpty])
  | Some _ =>
      rows ← display_rows fuel h (head L) (head L) 1;
      Ok (out ++ rows ++ [BlankLine])
  end.

(* lowerListSong.find(lowerSearchTerm) != std::string::npos *)
Definition found_in (lowerListSong lowerSearchTerm : list ascii) : bool :=
  match find lowerListSong lowerSearchTerm with
  | Some _ => true
  | None => false
  end.

(* do { ... temp = temp->next; position++; } while (temp != head); *)
Fixpoint search_rows (fuel : nat) (h : heap) (hd temp : option addr)
    (lowerSearchTerm : list ascii) (found : bool) (position : Z)
  : outcome (list Line * bool) :=
  match fuel with
  | O => OutOfFuel
  | S f =>
      nd ← deref h temp;
      let cleanListSong := getCleanSongName (song nd) in
      let lowerListSong := lower (chars cleanListSong) in
      let hit := found_in lowerListSong lowerSearchTerm in
      let out := if hit then [MatchFound position cleanListSong (artist nd)]
                 else [] in
      let found := if hit then true else found in
      let temp := next nd in
      position ← int_add position 1;
      if decide (temp = hd) then Ok (out, found)
      else
        '(rows, found) ← search_rows f h hd temp lowerSearchTerm found position;
        Ok (out ++ rows, found)
  end.

(* link.cpp:310  void LinkedList::search(const std::string& searchTerm) const *)
Definition search (fuel : nat) (h : heap) (L : LinkedList) (searchTerm : string)
  : outcome (list Line) :=
  match head L with
  | None => Ok [SearchListEmpty]
  | Some _ =>
      let lowerSearchTerm := lower (chars searchTerm) in
      '(rows, found) ←
        search_rows fuel h (head L) (head L) lowerSearchTerm false 1;
      Ok (SearchingFor searchTerm :: rows ++
          (if negb found then [NoSongsFound] else []))
  end.

(* link.cpp:366  void LinkedList::swapNodesData(node* a, node* b) *)
Definition swapNodesData (h : heap) (a b : option addr) : outcome heap :=
  match a, b with
  | Some x, Some y =>
      if decide (x ≠ y) then
        na ← deref h a;
        nb ← deref h b;
        Ok (<[y := Node (song na) (artist na) (next nb)]>
              (<[x := Node (song nb) (artist nb) (next na)]> h))
      else Ok h
  | _, _ => Ok h
  end.

(* what the two sorts compare: the clean name of the song and the name of
   the artist, in lower case *)
Definition song_key (e : entry) : list ascii :=
  lower (chars (getCleanSongName e.1)).
Definition artist_key (e : entry) : list ascii :=
  lower (chars e.2).

(* for (int i = 0; i < len - 1; ++i) { nextNode = current->next; ...
     if (lowerCurrent > lowerNext) { swapNodesData(current, nextNode);
     swapped = true; }  current = nextNode; }   run for [n] iterations *)
Fixpoint sort_pass (key : entry → list ascii) (n : nat) (h : heap)
    (current : option addr) (swapped : bool) : outcome (heap * bool) :=
  match n with
  | O => Ok (h, swapped)
  | S n' =>
      cur ← deref h current;
      let nextNode := next cur in
      nxt ← deref h nextNode;
      if string_gt (key (song cur, artist cur)) (key (song nxt, artist nxt))
      then
        h ← swapNodesData h current nextNode;
        sort_pass key n' h nextNode true
      else sort_pass key n' h nextNode swapped
  end.

(* do { swapped = false; current = head; for ... } while (swapped); *)
Fixpoint sort_loop (key : entry → list ascii) (fuel : nat) (h : heap)
    (L : LinkedList) : outcome heap :=
  match fuel with
  | O => OutOfFuel
  | S f =>
      n ← int_add (len L) (-1);
      '(h, swapped) ← sort_pass key (Z.to_nat n) h (head L) false;
      if swapped : bool then sort_loop key f h L else Ok h
  end.

Definition sort_by (key : entry → list ascii) (fuel : nat) (h : heap)
    (L : LinkedList) : outcome heap :=
  match head L with
  | None => Ok h
  | Some _ =>
      hd ← deref h (head L);
      if decide (next hd = head L) then Ok h
      else sort_loop key fuel h L
  end.

(* link.cpp:375  void LinkedList::sortBySong() *)
Definition sortBySong : nat → heap → LinkedList → outcome heap :=
  sort_by song_key.

(* link.cpp:412  void LinkedList::sortByArtist() *)
Definition sortByArtist : nat → heap → LinkedList → outcome heap :=
  sort_by artist_key.

(* ---- the vocabulary of the statements ---- *)

(* the row of display() for the entry at index [i] *)
Definition row_of (i : nat) (e : entry) : Line :=
  DisplayRow (Z.of_nat i + 1) (truncated 35 (getCleanSongName e.1))
    (truncated 20 e.2).

(* the rows of display() for the entries from index [i] on *)
Fixpoint rows_from (i : nat) (es : list entry) : list Line :=
  match es with
  | [] => []
  | e :: es' => row_of i e :: rows_from (S i) es'
  end.

(* the entry contains the term, letter case apart *)
Definition matching (searchTerm : string) (e : entry) : bool :=
  found_in (lower (chars (getCleanSongName e.1))) (lower (chars searchTerm)).

(* the lines of search() for the entries from index [i] on *)
Fixpoint matches_from (searchTerm : string) (i : nat) (es : list entry)
  : list Line :=
  match es with
  | [] => []
  | e :: es' =>
      (if matching searchTerm e
       then [MatchFound (Z.of_nat i + 1) (getCleanSongName e.1) e.2]
       else []) ++ matches_from searchTerm (S i) es'
  end.

(* one pass over the entries: the entry in hand is compared with the next
   one and changes places with it when it is greater *)
Fixpoint bubble (key : entry → list ascii) (x : entry) (rest : list entry)
  : list entry * bool :=
  match rest with
  | [] => ([x], false)
  | y :: rest' =>
      if string_gt (key x) (key y)
      then (y :: (bubble key x rest').1, true)
      else (x :: (bubble key y rest').1, (bubble key y rest').2)
  end.

(* the pairs that are out of order *)
Fixpoint inversions (key : entry → list ascii) (es : list entry) : nat :=
  match es with
  | [] => O
  | x :: es' =>
      (length (filter (λ y, string_gt (key x) (key y) = true) es') +
       inversions key es')%nat
  end.

(* not greater: before or equal *)
Definition key_le (key : entry → list ascii) (e1 e2 : entry) : Prop :=
  string_gt (key e1) (key e2) = false.

(* [h'] and [cells'] come from [h] and [cells] by work on that list only:
   the nodes of the list are nodes it had or nodes that were not in the
   heap, and the nodes of the heap that are not of the list are as they
   were *)
Definition aside (h : heap) (cells : list (positive * entry))
    (h' : heap) (cells' : list (positive * entry)) : Prop :=
  (∀ q, q ∈ cells'.*1 → q ∈ cells.*1 ∨ q ∉ dom h) ∧
  (∀ q, q ∈ dom h → q ∉ cells.*1 → h' !! q = h !! q).

(* a playlist of three songs that is not in order *)
Definition shelf_heap : heap :=
  <[1%positive := Node "music/02. Zebra.mp3" "Queen" (Some 2%positive)]>
    (<[2%positive := Node "music/apple.wav" "abba" (Some 3%positive)]>
       (<[3%positive := Node "music/01. Mango.ogg" "Beatles" (Some 1%positive)]> ∅)).

Definition shelf_list : LinkedList :=
  mkLinkedList (Some 1%positive) "shelf" 3 true.

Definition shelf_cells : list (positive * entry) :=
  [(1%positive, ("music/02. Zebra.mp3", "Queen"));
   (2%positive, ("music/apple.wav", "abba"));
   (3%positive, ("music/01. Mango.ogg", "Beatles"))]%string.

End Library.

(* ---- audio.cpp:1043  the play of one entry; the stack from outside ---- *)
Module Drivers.
Import Regex Mem Audio Text Library.

(* what playWithControlsSingle writes before it asks for a number: the
   name of the list, the lines of display(), a rule *)
Variant Shown : Type :=
| SingleTitle (name : string)
| Listed (l : Line)
| SingleRule.

Section Single.
Context (scale : Z → Z → Z → Z).

(* audio.cpp:1043  void playWithControlsSingle(LinkedList& li) ; what is
   written before the first prompt is given apart, the rest is in the
   trace of the world *)
Definition playWithControlsSingle (fuel : nat) (li : LinkedList) (w : World)
  : option (list Shown * World) :=
  match head li with
  | None => Some ([], say PlaylistEmpty w)
  | Some _ =>
      match display fuel (mem w) li with
      | Ok lines =>
          let shown := SingleTitle (shown_name (listName li)) ::
                       (Listed <$> lines) ++ [SingleRule] in
          '(choice, w) ← read_choice (numbers w) (len li) w;
          current ← walk (Z.to_nat (choice - 1)) (mem w) (head li);
          match current with
          | None => Some (shown, w)
          | Some a =>
              nd ← mem w !! a;
              let songPath := song nd in
              let w := say (SingleBanner songPath (artist nd)) w in
              '(_, w) ← playerWithControls scale songPath w;
              Some (shown, w)
          end
      | _ => None
      end
  end.

End Single.

(* the first number typed that is a track number of a list of [n] *)
Fixpoint first_valid (n : Z) (inputs : list (option Z)) : option Z :=
  match inputs with
  | [] => None
  | Some choice :: inputs' =>
      if decide (choice >= 1 ∧ choice <= n) then Some choice
      else first_valid n inputs'
  | None :: inputs' => first_valid n inputs'
  end.

(* a stack used from outside: items pushed one after the other, and a
   number of pops *)
Fixpoint push_items (its : list (option positive)) (s : Stack) (w : World)
  : Stack * World :=
  match its with
  | [] => (s, w)
  | it :: its' =>
      let '(s, w) := Stack_push it s w in push_items its' s w
  end.

Fixpoint pop_times (n : nat) (s : Stack) (w : World)
  : option (list (option positive) * Stack * World) :=
  match n with
  | O => Some ([], s, w)
  | S n' =>
      '(it, s, w) ← Stack_pop s w;
      '(its, s, w) ← pop_times n' s w;
      Some (it :: its, s, w)
  end.

End Drivers.

(* ---- link.cpp:445-605  saveToFile and loadFromFile, over the values of
   the JSON library ---- *)
Module Store.
Import Regex Mem Audio Text.
#[local] Set Warnings "-register-all".

(* a value of nlohmann::json; an object is a map from its keys, a number
   that is not an integer is not looked into *)
Inductive json : Type :=
| JNull
| JBool (b : bool)
| JInt (n : Z)
| JFloat
| JString (s : string)
| JArray (items : list json)
| JObject (fields : gmap string json).

(* j.contains(key): false of a value that is not an object *)
Definition contains (j : json) (key : string) : bool :=
  match j with
  | JObject fields => bool_decide (is_Some (fields !! key))
  | _ => false
  end.

(* j[key], used where j.contains(key) *)
Definition at_key (j : json) (key : string) : json :=
  match j with
  | JObject fields => default JNull (fields !! key)
  | _ => JNull
  end.

Definition is_string (j : json) : bool :=
  match j with JString _ => true | _ => false end.
Definition is_array (j : json) : bool :=
  match j with JArray _ => true | _ => false end.
Definition is_number_integer (j : json) : bool :=
  match j with JInt _ => true | _ => false end.

(* j.get<std::string>(), used where j.is_string() *)
Definition get_string (j : json) : string :=
  match j with JString s => s | _ => ""%string end.

(* j.get<int>(), used where j.is_number_integer(): the stored 64-bit
   number converted to int *)
Definition get_int (j : json) : Z :=
  match j with JInt n => s32 n | _ => 0 end.

(* the elements of an array *)
Definition array_items (j : json) : list json :=
  match j with JArray items => items | _ => [] end.

Definition set_listName (L : LinkedList) (name : string) : LinkedList :=
  mkLinkedList (head L) name (len L) (taken L).
Definition set_taken (L : LinkedList) (t : bool) : LinkedList :=
  mkLinkedList (head L) (listName L) (len L) t.

(* what the two functions write to std::cerr *)
Variant Warning : Type :=
| CannotOpenForWriting (filename : string)
| WriteProblem (filename : string)
| JsonErrorSaving
| ParseFailed (filename : string)
| NameHasNullBytes
| NameTooLong
| SkippedEntry (filename : string)
| LengthMismatch (expectedLen len : Z) (filename : string).

(* json songObj; songObj["song"] = current->song;
   songObj["artist"] = current->artist; *)
Definition song_object (song artist : string) : json :=
  JObject (<["artist"%string := JString artist]>
             (<["song"%string := JString song]> ∅)).

(* do { ... songsArray.push_back(songObj); current = current->next; }
   while (current != head); *)
Fixpoint save_songs (fuel : nat) (h : heap) (hd current : option addr)
    (songsArray : list json) : outcome (list json) :=
  match fuel with
  | O => OutOfFuel
  | S f =>
      nd ← deref h current;
      let songsArray := songsArray ++ [song_object (song nd) (artist nd)] in
      let current := next nd in
      if decide (current = hd) then Ok songsArray
      else save_songs f h hd current songsArray
  end.

(* link.cpp:445  bool LinkedList::saveToFile(filename) const ; from the
   outside: whether the stream opens, whether dump(4) gives the text (it
   throws on a string that is not UTF-8), whether the stream is good after
   the write.  The result is the value whose text is in the file when
   true is returned, and nothing when false is. *)
Definition saveToFile (fuel : nat) (h : heap) (L : LinkedList)
    (filename : string) (opens dumps good : bool)
  : outcome (option json * list Warning) :=
  let playlistJson : gmap string json :=
    <["length"%string := JInt (len L)]>
      (<["listName"%string := JString (listName L)]> ∅) in
  songsArray ← match head L with
               | None => Ok []
               | Some _ => save_songs fuel h (head L) (head L) []
               end;
  let playlistJson := <["songs"%string := JArray songsArray]> playlistJson in
  if negb opens then Ok (None, [CannotOpenForWriting filename])
  else if negb dumps then Ok (None, [JsonErrorSaving])
  else if negb good then Ok (None, [WriteProblem filename])
  else Ok (Some (JObject playlistJson), []).

(* for (const auto& songObj : songsArray) { if (...) add_end(songPath,
   artistName); else warning } *)
Fixpoint load_songs (fuel : nat) (filename : string) (songsArray : list json)
    (st : heap * LinkedList) (warnings : list Warning)
  : outcome (heap * LinkedList * list Warning) :=
  match songsArray with
  | [] => Ok (st, warnings)
  | songObj :: songsArray' =>
      if contains songObj "song" && contains songObj "artist" &&
         is_string (at_key songObj "song") &&
         is_string (at_key songObj "artist")
      then
        let songPath := get_string (at_key songObj "song") in
        let artistName := get_string (at_key songObj "artist") in
        st ← add_end fuel songPath artistName st;
        load_songs fuel filename songsArray' st warnings
      else
        load_songs fuel filename songsArray' st
          (warnings ++ [SkippedEntry filename])
  end.

(* link.cpp:532  the name: listName = "" when the value has no name that
   is a string or when the name holds a null byte, the first 100 bytes of
   a longer name, the name itself otherwise *)
Definition load_name (L : LinkedList) (playlistJson : json)
  : LinkedList * list Warning :=
  if contains playlistJson "listName" &&
     is_string (at_key playlistJson "listName")
  then
    let loadedName := get_string (at_key playlistJson "listName") in
    if has_any_of ["000"%char] (chars loadedName)
    then (set_listName L "", [NameHasNullBytes])
    else if (100 <? String.length loadedName)%nat
    then (set_listName L (str (substr 0 100 (chars loadedName))),
          [NameTooLong])
    else (set_listName L loadedName, [])
  else (set_listName L "", []).

(* link.cpp:577  the check of the length that the value gives *)
Definition check_length (L : LinkedList) (playlistJson : json)
    (filename : string) : list Warning :=
  if contains playlistJson "length" &&
     is_number_integer (at_key playlistJson "length")
  then
    let expectedLen := get_int (at_key playlistJson "length") in
    if decide (len L ≠ expectedLen)
    then [LengthMismatch expectedLen (len L) filename]
    else []
  else [].

(* link.cpp:505  bool LinkedList::loadFromFile(filename) ; from the
   outside: [None] when the file cannot be opened, [Some None] when its
   text is not JSON, [Some (Some v)] when it is the text of [v].  The
   handlers of the exceptions are not reached: the values are looked into
   only after their kinds are tested, and an allocation does not fail. *)
Definition loadFromFile (fuel : nat) (st : heap * LinkedList)
    (filename : string) (file : option (option json))
  : outcome (bool * (heap * LinkedList) * list Warning) :=
  match file with
  | None => Ok (false, st, [])
  | Some None => Ok (false, st, [ParseFailed filename])
  | Some (Some playlistJson) =>
      st ← clear fuel st;
      let '(L, warnings) := load_name st.2 playlistJson in
      r ← (if contains playlistJson "songs" &&
              is_array (at_key playlistJson "songs")
           then load_songs fuel filename
                  (array_items (at_key playlistJson "songs")) (st.1, L) warnings
           else Ok ((st.1, L), warnings));
      let warnings := r.2 ++ check_length r.1.2 playlistJson filename in
      Ok (true, (r.1.1, set_taken r.1.2 true), warnings)
  end.

(* ---- the vocabulary of the statements ---- *)

(* the entry an element of the array stands for, if it is well formed *)
Definition entry_of (songObj : json) : option entry :=
  if contains songObj "song" && contains songObj "artist" &&
     is_string (at_key songObj "song") &&
     is_string (at_key songObj "artist")
  then Some (get_string (at_key songObj "song"),
             get_string (at_key songObj "artist"))
  else None.

(* the entries a value holds *)
Definition entries_of (playlistJson : json) : list entry :=
  if contains playlistJson "songs" && is_array (at_key playlistJson "songs")
  then omap entry_of (array_items (at_key playlistJson "songs"))
  else [].

(* a value with two songs and an element that is no song *)
Definition sample_json : json :=
  JObject (<["songs"%string :=
               JArray [song_object "a.mp3" "A"; JInt 3;
                       song_object "b.wav" "B"]]>
             (<["listName"%string := JString "mix"]> ∅)).

End Store.

(* ---- main.cpp  the validated input, printList, the deletions and the
   clean-up at the exit ---- *)
Module Menu.
Import Regex Mem Audio Text Library.

(* what the handlers of main.cpp write to the console *)
Variant Say : Type :=
| Ask (prompt : string)
| InvalidInput (minVal maxVal : Z)
| ErrorNothingToDelete
| CurrentContents
| Listing (l : Line)
| DeletedFrom (position : Z)
| InfoPlaylistEmpty
| Header (safeTitle : string)
| ContentsTop
| ContentsRow (songCount : Z) (songName artistName : string)
| ContentsBottom
| TotalSongs (songCount : Z)
| WarnDelete (currentName : string) (slot : Z)
| AskConfirm
| ListDeleted (currentName : string) (slot : Z)
| DeletionCancelled.

(* the console: what is typed, as the numbers that std::cin >> int finds
   ([None] for a text that is no number) and the bytes that
   std::cin >> char finds; and what has been written *)
Record Console : Type := mkConsole {
  typed_numbers : list (option Z);
  typed_chars : list ascii;
  screen : list Say
}.

Definition write (m : Say) (c : Console) : Console :=
  mkConsole (typed_numbers c) (typed_chars c) (screen c ++ [m]).

Definition write_all (ms : list Say) (c : Console) : Console :=
  mkConsole (typed_numbers c) (typed_chars c) (screen c ++ ms).

Definition set_typed_numbers (ns : list (option Z)) (c : Console) : Console :=
  mkConsole ns (typed_chars c) (screen c).

Definition set_typed_chars (cs : list ascii) (c : Console) : Console :=
  mkConsole (typed_numbers c) cs (screen c).

(* main.cpp:76  const string MenuUI::DOUBLE_TAB = "\t\t"; *)
Definition DOUBLE_TAB : string := String "009" (String "009" "").

(* main.cpp:110  the title that displayHeader writes under the banner,
   after it has cleared the screen *)
Definition safeTitle (title : string) : string :=
  if has_any_of ["000"%char] (chars title) then "[Corrupted Title]"%string
  else if (58 <? String.length title)%nat
  then (str (substr 0 55 (chars title)) +:+ "...")%string
  else title.

(* if (name.length() > max) name = name.substr(0, max - 3) + "..."; *)
Definition shortened (max : nat) (name : string) : string :=
  if (max <? String.length name)%nat
  then (str (substr 0 (max - 3) (chars name)) +:+ "...")%string
  else name.

(* do { ... << (++songCount) << ... ; temp = temp->next; }
   while (temp != li.head); *)
Fixpoint printList_rows (fuel : nat) (h : heap) (hd temp : option addr)
    (songCount : Z) (c : Console) : outcome (Z * Console) :=
  match fuel with
  | O => OutOfFuel
  | S f =>
      nd ← deref h temp;
      let songName := shortened 30 (getCleanSongName (song nd)) in
      let artistName := shortened 15 (artist nd) in
      songCount ← int_add songCount 1;
      let c := write (ContentsRow songCount songName artistName) c in
      let temp := next nd in
      if decide (temp = hd) then Ok (songCount, c)
      else printList_rows f h hd temp songCount c
  end.

(* main.cpp:1345  void printList(LinkedList& li) *)
Definition printList (fuel : nat) (h : heap) (li : LinkedList) (c : Console)
  : outcome Console :=
  if isEmpty li then Ok (write InfoPlaylistEmpty c)
  else
    let c := write (Header (safeTitle ("Playlist: " +:+ listName li))) c in
    let c := write ContentsTop c in
    r ← printList_rows fuel h (head li) (head li) 0 c;
    let c := write ContentsBottom r.2 in
    Ok (write (TotalSongs r.1) c).

(* main.cpp:126  T MenuUI::getValidatedInput(prompt, minVal, maxVal), for
   int: each pass of the loop takes one thing typed; at the end of the
   input the loop does not end *)
Fixpoint getValidatedInput_loop (inputs : list (option Z)) (prompt : string)
    (minVal maxVal : Z) (c : Console) : outcome (Z * Console) :=
  match inputs with
  | [] => OutOfFuel
  | x :: inputs' =>
      let c := set_typed_numbers inputs' (write (Ask prompt) c) in
      match x with
      | Some choice =>
          if decide (choice >= minVal ∧ choice <= maxVal) then Ok (choice, c)
          else getValidatedInput_loop inputs' prompt minVal maxVal
                 (write (InvalidInput minVal maxVal) c)
      | None =>
          getValidatedInput_loop inputs' prompt minVal maxVal
            (write (InvalidInput minVal maxVal) c)
      end
  end.

Definition getValidatedInput (prompt : string) (minVal maxVal : Z)
    (c : Console) : outcome (Z * Console) :=
  getValidatedInput_loop (typed_numbers c) prompt minVal maxVal c.

(* main.cpp:829  void handleDeleteMiddle(LinkedList& li) *)
Definition handleDeleteMiddle (fuel : nat) (st : heap * LinkedList)
    (c : Console) : outcome (heap * LinkedList * Console) :=
  let '(h, li) := st in
  match head li with
  | None => Ok (st, write ErrorNothingToDelete c)
  | Some _ =>
      let c := write CurrentContents c in
      lines ← display fuel h li;
      let c := write_all (Listing <$> lines) c in
      r ← getValidatedInput
            (DOUBLE_TAB +:+ "Enter position of song to delete (1-" +:+
             to_string (len li) +:+ "): ") 1 (len li) c;
      let '(position, c) := r in
      st ← del_at fuel position st;
      Ok (st, write (DeletedFrom position) c)
  end.

(* std::toupper of an unsigned char in the "C" locale *)
Definition toupper (c : ascii) : ascii :=
  let n := nat_of_ascii c in
  if (97 <=? n)%nat && (n <=? 122)%nat then ascii_of_nat (n - 32) else c.

(* main.cpp:883  void handleDeleteList(LinkedList& li, int listIndex) ;
   at the end of the input nothing is read into confirm, whose value is
   then not defined *)
Definition handleDeleteList (fuel : nat) (st : heap * LinkedList)
    (listIndex : Z) (c : Console) : outcome (heap * LinkedList * Console) :=
  let '(h, li) := st in
  let currentName :=
    if decide (listName li = ""%string)
    then ("[Unnamed List " +:+ to_string (listIndex + 1) +:+ "]")%string
    else listName li in
  slot ← int_add listIndex 1;
  let c := write (WarnDelete currentName slot) c in
  let c := write AskConfirm c in
  match typed_chars c with
  | [] => Undefined
  | confirm :: rest =>
      let c := set_typed_chars rest c in
      if Ascii.eqb (toupper confirm) "Y" then
        st ← clear fuel st;
        let '(h, li) := st in
        let li := mkLinkedList (head li) "" (len li) false in
        Ok ((h, li), write (ListDeleted currentName slot) c)
      else Ok (st, write DeletionCancelled c)
  end.

(* main.cpp:1335  for (auto& playlist : playlists)
     if (playlist.taken) playlist.clear();   at the end of main() *)
Fixpoint clean_up (fuel : nat) (h : heap) (playlists : list LinkedList)
  : outcome (heap * list LinkedList) :=
  match playlists with
  | [] => Ok (h, [])
  | playlist :: rest =>
      st ← (if taken playlist then clear fuel (h, playlist)
            else Ok (h, playlist));
      r ← clean_up fuel st.1 rest;
      Ok (r.1, st.2 :: r.2)
  end.

(* the row of printList for the entry at index [i] *)
Definition contents_row (i : nat) (e : entry) : Say :=
  ContentsRow (Z.of_nat i + 1) (shortened 30 (getCleanSongName e.1))
    (shortened 15 e.2).

Fixpoint contents_from (i : nat) (es : list entry) : list Say :=
  match es with
  | [] => []
  | e :: es' => contents_row i e :: contents_from (S i) es'
  end.

(* the first number typed that is between [lo] and [hi] *)
Fixpoint first_between (lo hi : Z) (inputs : list (option Z)) : option Z :=
  match inputs with
  | [] => None
  | Some choice :: inputs' =>
      if decide (choice >= lo ∧ choice <= hi) then Some choice
      else first_between lo hi inputs'
  | None :: inputs' => first_between lo hi inputs'
  end.

(* what is typed after the first number between [lo] and [hi] *)
Fixpoint after_first_between (lo hi : Z) (inputs : list (option Z))
  : list (option Z) :=
  match inputs with
  | [] => []
  | Some choice :: inputs' =>
      if decide (choice >= lo ∧ choice <= hi) then inputs'
      else after_first_between lo hi inputs'
  | None :: inputs' => after_first_between lo hi inputs'
  end.

End Menu.

(* ================================================================== *)
(* Part 2: the facts                                                   *)
(* ================================================================== *)

Import Regex Mem Audio.

(* ---- the classifier ---- *)

Section RegexFacts.
#[local] Open Scope char_scope.

Ltac invc H := inversion H; subst; clear H.

Lemma nullable_mt r : forall k, nullable (is_nil k) r = true <-> mt r [] k.
Proof.
  induction r; intros k; simpl.
  - split; [discriminate | intros H; invc H].
  - split; [constructor | reflexivity].
  - split; [discriminate | intros H; invc H].
  - split; [discriminate | intros H; invc H].
  - split; [discriminate | intros H; invc H].
  - split; intros H.
    + destruct k; [constructor | discriminate].
    + invc H; reflexivity.
  - split; intros H.
    + apply andb_true_iff in H as [H1 H2].
      change (@nil ascii) with (@nil ascii ++ []). constructor.
      * now apply IHr1.
      * now apply IHr2.
    + inversion H; subst.
      match goal with E : _ ++ _ = [] |- _ => apply app_eq_nil in E as [-> ->] end.
      simpl in *.
      apply andb_true_iff. split; [now apply IHr1 | now apply IHr2].
  - split; intros H.
    + apply orb_true_iff in H as [H|H].
      * apply mt_alt_l. now apply IHr1.
      * apply mt_alt_r. now apply IHr2.
    + apply orb_true_iff.
      invc H; [left; now apply IHr1 | right; now apply IHr2].
  - split; [constructor | reflexivity].
Qed.

Lemma nullable_false_mt r c k : nullable false r = true <-> mt r [] (c :: k).
Proof. apply (nullable_mt r (c :: k)). Qed.

Lemma deriv_mt r : forall c s k, mt (deriv c r) s k <-> mt r (c :: s) k.
Proof.
  induction r; intros a s k; simpl.
  - split; intros H; invc H.
  - split; intros H; invc H.
  - split; intros H.
    + destruct (is_line_terminator a) eqn:E; invc H. now constructor.
    + invc H. match goal with E : is_line_terminator _ = _ |- _ => rewrite E end.
      constructor.
  - split; intros H.
    + destruct (Ascii.eqb a c) eqn:E; invc H.
      apply Ascii.eqb_eq in E as ->. constructor.
    + invc H. rewrite Ascii.eqb_refl. constructor.
  - split; intros H.
    + destruct (mem_ascii a cs) eqn:E; invc H. now constructor.
    + invc H. match goal with E : mem_ascii _ _ = _ |- _ => rewrite E end.
      constructor.
  - split; intros H; invc H.
  - split; intros H.
    + invc H.
      * match goal with E : mt (RCat _ _) _ _ |- _ => invc E end.
        match goal with |- mt _ (a :: ?s1 ++ ?s2) _ =>
          change (a :: s1 ++ s2) with ((a :: s1) ++ s2) end.
        constructor; [|assumption]. now apply IHr1.
      * destruct (nullable false r1) eqn:E;
          [|match goal with E : mt RNone _ _ |- _ => invc E end].
        change (a :: s) with ([] ++ a :: s). constructor.
        -- simpl. now apply nullable_false_mt.
        -- now apply IHr2.
    + inversion H; subst.
      match goal with E : ?s1 ++ ?s2 = a :: s |- _ =>
        destruct s1 as [|b s1]; simpl in E; [subst s2 | injection E as E1 E2; subst] end.
      * apply mt_alt_r.
        match goal with E : mt r1 [] _ |- _ =>
          apply nullable_false_mt in E; rewrite E end.
        now apply IHr2.
      * apply mt_alt_l. constructor; [|assumption]. now apply IHr1.
  - split; intros H.
    + invc H; [apply mt_alt_l; now apply IHr1 | apply mt_alt_r; now apply IHr2].
    + invc H; [apply mt_alt_l; now apply IHr1 | apply mt_alt_r; now apply IHr2].
  - split; intros H.
    + invc H.
      match goal with |- mt _ (a :: ?s1 ++ ?s2) _ =>
        change (a :: s1 ++ s2) with ((a :: s1) ++ s2) end.
      constructor; try assumption.
      * discriminate.
      * now apply IHr.
    + inversion H; subst.
      match goal with E : ?s1 ++ ?s2 = a :: s |- _ =>
        destruct s1 as [|b s1]; [congruence|]; simpl in E; injection E as E1 E2; subst end.
      constructor; [|assumption]. now apply IHr.
Qed.

Lemma matches_mt s : forall r, matches r s = true <-> mt r s [].
Proof.
  induction s as [|c s IH]; intros r; simpl.
  - apply (nullable_mt r []).
  - rewrite IH. apply deriv_mt.
Qed.


Lemma star_any_mt s : forall k,
  mt (RStar RAny) s k <-> no_line_terminator s = true.
Proof.
  induction s as [|c s IH]; intros k; simpl.
  - split; [reflexivity | constructor].
  - rewrite andb_true_iff, <- (IH k), negb_true_iff. split; intros H.
    + inversion H; subst.
      match goal with E : mt RAny _ _ |- _ => invc E end.
      match goal with E : [_] ++ _ = _ |- _ => simpl in E; injection E as E1 E2; subst end.
      split; assumption.
    + destruct H as [H1 H2].
      change (c :: s) with ([c] ++ s). constructor; [discriminate| |assumption].
      now constructor.
Qed.

Lemma mp3Pattern_mt l :
  mt mp3Pattern l [] <->
  exists pre x y, l = pre ++ ["."; x; y; "3"] /\ no_line_terminator pre = true /\
                  mem_ascii x ["m"; "M"] = true /\ mem_ascii y ["p"; "P"] = true.
Proof.
  unfold mp3Pattern. split.
  - intros H. invc H.
    repeat match goal with
           | E : mt (RCat _ _) _ _ |- _ => invc E
           | E : mt (RChar _) _ _ |- _ => invc E
           | E : mt (RSet _) _ _ |- _ => invc E
           | E : mt REol _ _ |- _ => invc E
           end.
    match goal with E : mt (RStar RAny) _ _ |- _ => apply star_any_mt in E end.
    eexists _, _, _. simpl. repeat split; eassumption.
  - intros (pre & x & y & -> & Hp & Hx & Hy).
    constructor; [now apply star_any_mt|].
    change ["."; x; y; "3"] with (["."] ++ [x] ++ [y] ++ ["3"] ++ []).
    repeat (constructor; try assumption).
Qed.

Lemma to_lower_m x : Ascii.eqb (to_lower x) "m" = mem_ascii x ["m"; "M"].
Proof.
  destruct x as [[] [] [] [] [] [] [] []]; reflexivity.
Qed.

Lemma to_lower_p x : Ascii.eqb (to_lower x) "p" = mem_ascii x ["p"; "P"].
Proof.
  destruct x as [[] [] [] [] [] [] [] []]; reflexivity.
Qed.

Lemma no_line_terminator_rev l :
  no_line_terminator (rev l) = no_line_terminator l.
Proof.
  unfold no_line_terminator.
  apply eq_true_iff_eq. rewrite !forallb_forall.
  split; intros H x Hx; apply H; [apply in_rev in Hx | apply in_rev]; now try rewrite rev_involutive.
Qed.

(* The classifier on raw characters: the regular expression holds exactly of
   the names that end in ".mp3" in any letter case and whose stem (what
   precedes the extension) holds no line feed and no carriage return. *)
Lemma matches_mp3Pattern l :
  matches mp3Pattern l = ends_in_mp3_ci l && no_line_terminator (stem l).
Proof.
  apply eq_true_iff_eq. rewrite matches_mt, mp3Pattern_mt, andb_true_iff.
  unfold ends_in_mp3_ci, stem. split.
  - intros (pre & x & y & -> & Hp & Hx & Hy).
    rewrite rev_app_distr. simpl.
    rewrite to_lower_m, to_lower_p, Hx, Hy. rewrite ?drop_0, rev_involutive. auto.
  - intros [H1 H2].
    destruct (rev l) as [|c3 [|c2 [|c1 [|c0 t]]]] eqn:E; try discriminate.
    simpl in H2.
    apply andb_true_iff in H1 as [H1 H3]. apply andb_true_iff in H1 as [H1 Hy].
    apply andb_true_iff in H1 as [H0 Hx].
    apply Ascii.eqb_eq in H0, H3. subst.
    rewrite to_lower_m in Hx. rewrite to_lower_p in Hy.
    exists (rev t), c1, c2. repeat split; try assumption.
    rewrite <- (rev_involutive l), E. simpl.
    rewrite <- !app_assoc. reflexivity.
Qed.

(** C9: isMP3File is true exactly of the names that end in .mp3 in any
    letter case and have no line feed and no carriage return before the
    extension (the dot of the pattern does not match these two
    characters); so Song.MP3 is taken for MP3, track.wav, track.flac,
    track.ogg and noext are not - and neither is the name a, line feed,
    b.mp3, which ends in .mp3 and is handed to libsndfile. *)
Theorem C9_classifier_misses_names_with_line_breaks :
  (forall name : string,
     isMP3File name =
     ends_in_mp3_ci (String.list_ascii_of_string name) &&
     no_line_terminator (stem (String.list_ascii_of_string name))) /\
  isMP3File "Song.MP3"%string = true /\
  isMP3File "track.wav"%string = false /\
  isMP3File "track.flac"%string = false /\
  isMP3File "track.ogg"%string = false /\
  isMP3File "noext"%string = false /\
  ends_in_mp3_ci (String.list_ascii_of_string name_with_line_feed) = true /\
  isMP3File name_with_line_feed = false.
Proof.
  split; [intros name; apply matches_mp3Pattern|].
  repeat split; reflexivity.
Qed.

End RegexFacts.

(* ---- the playlist ---- *)

Section ListFacts.
Implicit Types (h : gmap positive node) (cells : list (positive * entry)).

Lemma hd_or_app cells1 cells2 tl :
  hd_or (cells1 ++ cells2) tl = hd_or cells1 (hd_or cells2 tl).
Proof. by destruct cells1. Qed.

Lemma hd_or_nonempty cells tl tl' : cells ≠ [] → hd_or cells tl = hd_or cells tl'.
Proof. by destruct cells. Qed.

Lemma hd_or_in cells a : hd_or cells None = Some a → a ∈ cells.*1.
Proof. destruct cells as [|c ?]; [done|]. simpl. intros [= <-]. set_solver. Qed.

Lemma lseg_app h cells1 cells2 tl :
  lseg h (cells1 ++ cells2) tl ↔ lseg h cells1 (hd_or cells2 tl) ∧ lseg h cells2 tl.
Proof.
  induction cells1 as [|c cells1 IH]; simpl; [tauto|].
  rewrite IH, hd_or_app. tauto.
Qed.

Lemma lseg_insert_frame h cells tl p nd :
  p ∉ cells.*1 → lseg h cells tl → lseg (<[p := nd]> h) cells tl.
Proof.
  induction cells as [|c cells IH]; simpl; [done|].
  intros Hp [Hc Hl]. split; [|apply IH; [set_solver|done]].
  rewrite lookup_insert_ne; [done|set_solver].
Qed.

Lemma lseg_delete_frame h cells tl p :
  p ∉ cells.*1 → lseg h cells tl → lseg (delete p h) cells tl.
Proof.
  induction cells as [|c cells IH]; simpl; [done|].
  intros Hp [Hc Hl]. split; [|apply IH; [set_solver|done]].
  rewrite lookup_delete_ne; [done|set_solver].
Qed.

Lemma lseg_lookup h cells tl c :
  lseg h cells tl → c ∈ cells → ∃ n, h !! c.1 = Some (Node c.2.1 c.2.2 n).
Proof.
  induction cells as [|c' cells IH]; simpl; [set_solver|].
  intros [Hc Hl] [->|Hin]%elem_of_cons; eauto.
Qed.

Lemma find_last_lseg h hd c front : ∀ fuel,
  lseg h (front ++ [c]) (Some hd) →
  hd ∉ (tail (front ++ [c])).*1 →
  (length front < fuel)%nat →
  find_last fuel h (Some hd) (hd_or (front ++ [c]) None) = Ok (Some c.1).
Proof.
  induction front as [|c0 front IH]; intros fuel Hl Hhd Hf;
    (destruct fuel as [|fuel]; [simpl in Hf; lia|]); simpl in *.
  - destruct Hl as [-> _]. simpl. by rewrite decide_True.
  - destruct Hl as [-> Hl]. simpl.
    rewrite decide_False.
    + rewrite (hd_or_nonempty _ _ None) by (by destruct front).
      apply IH; [done| |lia].
      destruct front; set_solver.
    + destruct front as [|c1 front]; simpl in *; intros [= <-]; set_solver.
Qed.


Lemma snoc_cases {A} (l : list A) : l = [] ∨ ∃ front c, l = front ++ [c].
Proof.
  induction l as [|x l _] using rev_ind.
  - left; reflexivity.
  - right. exists l, x. reflexivity.
Qed.

Lemma circular_fresh h L cells : circular h L cells → fresh (dom h) ∉ cells.*1.
Proof.
  intros (_ & _ & _ & _ & Hd) Hin.
  apply (is_fresh (dom h)). rewrite Hd at 2. by apply elem_of_list_to_set.
Qed.

Lemma int_add_ok a b :
  INT_MIN ≤ a + b ≤ INT_MAX → int_add a b = Ok (a + b).
Proof. intros H. unfold int_add. by rewrite decide_True. Qed.

Lemma add_beg_spec h L cells s a fuel :
  circular h L cells →
  (length cells < fuel)%nat →
  Z.of_nat (length cells) < INT_MAX →
  ∃ h' L' p,
    add_beg fuel s a (h, L) = Ok (h', L') ∧
    circular h' L' ((p, (s, a)) :: cells) ∧
    listName L' = listName L ∧ taken L' = taken L.
Proof.
  intros Hc Hf Hm. pose proof (circular_fresh _ _ _ Hc) as Hp.
  destruct Hc as (Hnd & Hl & Hh & Hlen & Hd).
  set (p := fresh (dom h)) in *.
  unfold add_beg, new_node. fold p. cbv zeta.
  destruct (snoc_cases cells) as [->|(front & c & ->)].
  - simpl in *. rewrite Hh. simpl.
    rewrite lookup_insert_eq. simpl.
    rewrite Hlen, int_add_ok by (unfold INT_MIN, INT_MAX in *; simpl; lia).
    simpl. eexists _, _, p. split; [done|].
    split; [|done]. unfold circular; simpl.
    repeat split.
    + apply NoDup_singleton.
    + by rewrite insert_insert_eq, lookup_insert_eq.
    + rewrite !dom_insert_L, Hd. set_solver.
  - assert (Hne : front ++ [c] ≠ []) by (by destruct front).
    destruct (hd_or (front ++ [c]) None) as [hd|] eqn:Ehd;
      [|by destruct front].
    rewrite Hh. simpl.
    assert (Hhdin : hd ∈ (front ++ [c]).*1) by (by apply hd_or_in).
    opose proof* (find_last_lseg (<[p:=Node s a None]> h) hd c front fuel) as Hfl.
    { apply lseg_insert_frame; done. }
    { revert Hnd Ehd. clear.
      destruct front as [|c0 front]; simpl; [set_solver|].
      intros Hnd [= <-]. by apply NoDup_cons in Hnd as [? _]. }
    { rewrite length_app in Hf. simpl in Hf. lia. }
    rewrite Ehd in Hfl. rewrite Hfl.
    simpl. rewrite lookup_insert_eq. simpl.
    rewrite insert_insert_eq.
    assert (Hcp : c.1 ≠ p) by (intros <-; set_solver).
    rewrite lookup_insert_ne by done.
    apply lseg_app in Hl as [Hl1 Hl2]. simpl in Hl2. destruct Hl2 as [Hl2 _].
    rewrite Hl2. simpl.
    rewrite Hlen, int_add_ok by (unfold INT_MIN, INT_MAX in *; simpl; lia).
    simpl. eexists _, _, p. split; [done|].
    split; [|done]. unfold circular; simpl.
    rewrite fmap_app in *. simpl in *.
    apply NoDup_app in Hnd as Hnd'. destruct Hnd' as (Hnf & Hnfc & _).
    repeat split.
    + apply NoDup_cons. split; [set_solver|done].
    + rewrite lookup_insert_ne by done. rewrite lookup_insert_eq.
      by rewrite (hd_or_nonempty _ _ None), Ehd.
    + apply lseg_app. simpl. split.
      * apply lseg_insert_frame; [set_solver|].
        apply lseg_insert_frame; [set_solver|done].
      * by rewrite lookup_insert_eq.
    + rewrite length_app in *. simpl in *. lia.
    + rewrite !dom_insert_L, Hd. set_solver.
Qed.


Lemma store_next_ok h a nd n :
  h !! a = Some nd →
  store_next h (Some a) n = Ok (<[a := Node (song nd) (artist nd) n]> h).
Proof. intros H. simpl. by rewrite H. Qed.

Lemma free_ok h a nd : h !! a = Some nd → free h (Some a) = Ok (delete a h).
Proof. intros H. simpl. by rewrite H. Qed.

Lemma deref_ok h a nd : h !! a = Some nd → deref h (Some a) = Ok nd.
Proof. intros H. simpl. by rewrite H. Qed.

Lemma hd_notin_tail (cells : list (positive * entry)) hd :
  NoDup cells.*1 → hd_or cells None = Some hd → hd ∉ (tail cells).*1.
Proof.
  destruct cells as [|c0 cells]; simpl; [done|].
  intros Hnd [= <-]. by apply NoDup_cons in Hnd as [? _].
Qed.

Lemma add_end_spec h L cells s a fuel :
  circular h L cells →
  (length cells < fuel)%nat →
  Z.of_nat (length cells) < INT_MAX →
  ∃ h' L' p,
    add_end fuel s a (h, L) = Ok (h', L') ∧
    circular h' L' (cells ++ [(p, (s, a))]) ∧
    listName L' = listName L ∧ taken L' = taken L.
Proof.
  intros Hc Hf Hm. pose proof (circular_fresh _ _ _ Hc) as Hp.
  destruct Hc as (Hnd & Hl & Hh & Hlen & Hd).
  set (p := fresh (dom h)) in *.
  unfold add_end, new_node. fold p. cbv zeta.
  destruct (snoc_cases cells) as [->|(front & c & ->)].
  - simpl in *. rewrite Hh. simpl.
    rewrite lookup_insert_eq. simpl.
    rewrite Hlen, int_add_ok by (unfold INT_MIN, INT_MAX in *; simpl; lia).
    simpl. eexists _, _, p. split; [done|].
    split; [|done]. unfold circular; simpl.
    repeat split.
    + apply NoDup_singleton.
    + by rewrite insert_insert_eq, lookup_insert_eq.
    + rewrite !dom_insert_L, Hd. set_solver.
  - assert (Hne : front ++ [c] ≠ []) by (by destruct front).
    destruct (hd_or (front ++ [c]) None) as [hd|] eqn:Ehd;
      [|by destruct front].
    rewrite Hh. simpl.
    opose proof* (find_last_lseg (<[p:=Node s a None]> h) hd c front fuel) as Hfl.
    { apply lseg_insert_frame; done. }
    { by apply hd_notin_tail. }
    { rewrite length_app in Hf. simpl in Hf. lia. }
    rewrite Ehd in Hfl. rewrite Hfl. simpl.
    assert (Hcp : c.1 ≠ p) by (intros <-; set_solver).
    rewrite lookup_insert_ne by done.
    apply lseg_app in Hl as [Hl1 Hl2]. simpl in Hl2. destruct Hl2 as [Hl2 _].
    rewrite Hl2. simpl.
    rewrite lookup_insert_ne by done. rewrite lookup_insert_eq. simpl.
    rewrite Hlen, int_add_ok by (unfold INT_MIN, INT_MAX in *; simpl; lia).
    simpl. eexists _, _, p. split; [done|].
    split; [|done]. unfold circular; simpl.
    rewrite !hd_or_app, !fmap_app in *. simpl in *.
    rewrite Ehd.
    apply NoDup_app in Hnd as Hnd'. destruct Hnd' as (Hnf & Hnfc & _).
    repeat split.
    + rewrite <- app_assoc. apply NoDup_app. repeat split; [done|set_solver|].
      apply NoDup_cons. split; [set_solver|apply NoDup_singleton].
    + rewrite <- app_assoc. apply lseg_app. simpl. repeat split.
      * apply lseg_insert_frame; [set_solver|].
        apply lseg_insert_frame; [set_solver|].
        apply lseg_insert_frame; [set_solver|done].
      * rewrite lookup_insert_ne by done. by rewrite lookup_insert_eq.
      * by rewrite lookup_insert_eq.
    + done.
    + rewrite !length_app in *. simpl in *. lia.
    + rewrite !dom_insert_L, Hd, !list_to_set_app_L. set_solver.
Qed.


Lemma advance_lseg h hd c post : ∀ pre,
  post ≠ [] →
  lseg h (pre ++ c :: post) (Some hd) →
  hd ∉ (tail (pre ++ c :: post)).*1 →
  advance (length pre) h (Some hd) (hd_or (pre ++ c :: post) None) = Ok (Some c.1).
Proof.
  intros pre Hpost. induction pre as [|c0 pre IH]; intros Hl Hhd; simpl in *; [done|].
  destruct Hl as [-> Hl]. simpl.
  rewrite decide_False.
  - rewrite (hd_or_nonempty _ _ None) by (by destruct pre).
    apply IH; [done|]. destruct pre; set_solver.
  - destruct pre as [|c1 pre]; simpl in *; intros [= <-]; set_solver.
Qed.

Lemma split_at {A} (l : list A) (n : nat) :
  (n < length l)%nat →
  ∃ c, l !! n = Some c ∧ l = take n l ++ c :: drop (S n) l.
Proof.
  intros Hn. destruct (lookup_lt_is_Some_2 l n Hn) as [c Hc].
  exists c. split; [done|]. by rewrite take_drop_middle.
Qed.

Lemma bind_Ok {A B} (x : A) (f : A → outcome B) : Ok x ≫= f = f x.
Proof. done. Qed.

Lemma add_at_spec h L cells s a pos fuel :
  circular h L cells →
  (length cells < fuel)%nat →
  Z.of_nat (length cells) < INT_MAX →
  ∃ h' L' p,
    add_at fuel s a pos (h, L) = Ok (h', L') ∧
    circular h' L'
      (if decide (1 ≤ pos ≤ Z.of_nat (length cells) + 1)
       then take (Z.to_nat (pos - 1)) cells ++ (p, (s, a)) :: drop (Z.to_nat (pos - 1)) cells
       else cells) ∧
    listName L' = listName L ∧ taken L' = taken L.
Proof.
  intros Hc Hf Hm.
  unfold add_at.
  assert (Hlen : len L = Z.of_nat (length cells)) by apply Hc.
  rewrite Hlen, int_add_ok by (unfold INT_MIN, INT_MAX in *; simpl; lia).
  rewrite bind_Ok.
  destruct (decide (pos < 1 ∨ pos > Z.of_nat (length cells) + 1)) as [Hout|Hin].
  { exists h, L, 1%positive. rewrite decide_False by lia. done. }
  destruct (decide (1 ≤ pos ≤ Z.of_nat (length cells) + 1)) as [_|?]; [|lia].
  destruct (decide (pos = 1)) as [->|Hn1].
  { destruct (add_beg_spec h L cells s a fuel) as (h' & L' & p & ? & ? & ?); [done..|].
    exists h', L', p. simpl. rewrite ?take_0, ?drop_0. done. }
  destruct (decide (pos = Z.of_nat (length cells) + 1)) as [->|Hn2].
  { destruct (add_end_spec h L cells s a fuel) as (h' & L' & p & ? & ? & ?); [done..|].
    exists h', L', p.
    replace (Z.to_nat (Z.of_nat (length cells) + 1 - 1)) with (length cells) by lia.
    by rewrite take_ge, drop_ge by lia. }
  pose proof (circular_fresh _ _ _ Hc) as Hp.
  destruct Hc as (Hnd & Hl & Hh & _ & Hd).
  set (p := fresh (dom h)) in *.
  unfold new_node. fold p. cbv zeta.
  set (n := Z.to_nat (pos - 2)).
  replace (Z.to_nat (pos - 1)) with (S n) by lia.
  destruct (split_at cells n) as (c & Hcn & Hsplit); [lia|].
  set (pre := take n cells) in *. set (post := drop (S n) cells) in *.
  assert (Hpost : post ≠ []).
  { intros E. apply (f_equal length) in E. unfold post in E.
    rewrite length_drop in E. simpl in E. lia. }
  assert (Hpre : length pre = n) by (unfold pre; rewrite length_take; lia).
  rewrite (take_S_r _ _ c) by done. fold pre.
  clearbody pre post. subst cells. clear Hcn.
  destruct (hd_or (pre ++ c :: post) None) as [hd|] eqn:Ehd; [|by destruct pre].
  rewrite Hh.
  opose proof* (advance_lseg (<[p:=Node s a None]> h) hd c post pre) as Hadv; [done| | |].
  { apply lseg_insert_frame; done. }
  { by apply hd_notin_tail. }
  rewrite Ehd, Hpre in Hadv. rewrite Hadv. simpl.
  assert (Hcp : c.1 ≠ p) by (intros <-; set_solver).
  assert (Hpc : p ≠ c.1) by done.
  rewrite (lookup_insert_ne _ p c.1) by done.
  apply lseg_app in Hl as [Hl1 Hl2]. simpl in Hl2. destruct Hl2 as [Hl2 Hl3].
  rewrite Hl2. simpl. rewrite lookup_insert_eq. simpl.
  rewrite !(lookup_insert_ne _ p c.1) by done.
  rewrite Hl2. simpl.
  eexists _, _, p. split; [done|].
  split; [|done]. unfold circular; simpl.
  rewrite <- app_assoc. simpl.
  rewrite !fmap_app in *. simpl in *.
  apply NoDup_app in Hnd as Hnd'. destruct Hnd' as (Hnf & Hnfc & Hnd').
  apply NoDup_cons in Hnd' as [Hc1 Hnd'].
  assert (Ehd' : hd_or (pre ++ c :: (p, (s, a)) :: post) None = Some hd).
  { revert Ehd. by destruct pre. }
  rewrite Ehd'.
  repeat split.
  + apply NoDup_app. repeat split; [done|set_solver|].
    apply NoDup_cons. split; [set_solver|]. apply NoDup_cons. split; [set_solver|done].
  + apply lseg_app. simpl. repeat split.
    * do 3 (apply lseg_insert_frame; [set_solver|]). done.
    * by rewrite lookup_insert_eq.
    * rewrite lookup_insert_ne by done. by rewrite lookup_insert_eq.
    * do 3 (apply lseg_insert_frame; [set_solver|]). done.
  + done.
  + rewrite !length_app in *. simpl in *. lia.
  + rewrite !dom_insert_L, Hd, !list_to_set_app_L. set_solver.
Qed.


Lemma del_beg_spec h L cells fuel :
  circular h L cells →
  (length cells < fuel)%nat →
  Z.of_nat (length cells) ≤ INT_MAX →
  ∃ h' L',
    del_beg fuel (h, L) = Ok (h', L') ∧
    circular h' L' (tail cells) ∧
    listName L' = listName L ∧ taken L' = taken L.
Proof.
  intros Hc Hf Hm.
  destruct Hc as (Hnd & Hl & Hh & Hlen & Hd).
  unfold del_beg. destruct L as [hdL nm ln tk]. cbn [head len] in *. subst hdL ln.
  destruct cells as [|c0 rest].
  { eexists _, _. split; [done|]. done. }
  cbn [hd_or head set_len set_head len].
  rewrite int_add_ok by (unfold INT_MIN, INT_MAX in *; simpl in *; lia).
  rewrite bind_Ok.
  destruct Hl as [Hl0 Hl]. cbn [fst snd hd_or] in *.
  rewrite (deref_ok _ _ _ Hl0), bind_Ok. cbn [next].
  destruct (snoc_cases rest) as [->|(front & cl & ->)].
  - cbn [hd_or]. rewrite decide_True by done.
    rewrite (free_ok _ _ _ Hl0), bind_Ok.
    eexists _, _. split; [done|]. split; [|done].
    unfold circular. simpl. repeat split; [apply NoDup_nil_2|].
    rewrite dom_delete_L, Hd. simpl. set_solver.
  - rewrite fmap_cons in Hnd. apply NoDup_cons in Hnd as [Hc0 Hnd].
    assert (Hne : front ++ [cl] ≠ []) by (by destruct front).
    destruct (hd_or (front ++ [cl]) None) as [r|] eqn:Er; [|by destruct front].
    assert (Er' : hd_or (front ++ [cl]) (Some c0.1) = Some r).
    { by rewrite (hd_or_nonempty _ _ None). }
    rewrite Er'.
    assert (Hr : r ∈ (front ++ [cl]).*1) by (by apply hd_or_in).
    rewrite decide_False by (intros [= ->]; done).
    opose proof* (find_last_lseg h c0.1 cl (c0 :: front) fuel) as Hfl.
    { simpl. split; done. }
    { done. }
    { simpl in *. rewrite length_app in Hf. simpl in Hf. lia. }
    cbn [hd_or app fst] in Hfl. rewrite Hfl, bind_Ok.
    pose proof Hl as Hl'. apply lseg_app in Hl' as [Hl1 [Hl2 _]]. cbn [hd_or fst snd] in *.
    rewrite (store_next_ok _ _ _ _ Hl2), bind_Ok. cbn [song artist].
    assert (Hcl : cl.1 ≠ c0.1) by (intros E; rewrite fmap_app in Hc0; set_solver).
    erewrite free_ok by (rewrite lookup_insert_ne; done). rewrite bind_Ok.
    eexists _, _. split; [done|]. split; [|done].
    unfold circular. cbn [tail head len]. rewrite Er.
    rewrite fmap_app in *. simpl in *.
    apply NoDup_app in Hnd as Hnd'. destruct Hnd' as (Hnf & Hnfc & _).
    repeat split; [done| | |..].
    + apply lseg_app. simpl. repeat split.
      * apply lseg_delete_frame; [set_solver|].
        apply lseg_insert_frame; [set_solver|done].
      * rewrite lookup_delete_ne by done. by rewrite lookup_insert_eq.
    + rewrite !length_app in *. simpl in *. lia.
    + rewrite dom_delete_L, dom_insert_L, Hd, !list_to_set_app_L. set_solver.
Qed.

Lemma find_last_follow_lseg h hd f cl : ∀ front fol fuel,
  lseg h (front ++ [f; cl]) (Some hd) →
  hd ∉ (tail (front ++ [f; cl])).*1 →
  (S (length front) < fuel)%nat →
  find_last_follow fuel h (Some hd) fol (hd_or (front ++ [f; cl]) None)
  = Ok (Some f.1, Some cl.1).
Proof.
  induction front as [|c0 front IH]; intros fol fuel Hl Hhd Hf;
    (destruct fuel as [|fuel]; [simpl in Hf; lia|]); simpl in *.
  - destruct Hl as (-> & Hl & _). simpl.
    rewrite decide_False by (intros [= <-]; set_solver).
    destruct fuel as [|fuel]; [lia|]. simpl. rewrite Hl. simpl.
    by rewrite decide_True.
  - destruct Hl as [-> Hl]. simpl.
    rewrite decide_False.
    + rewrite (hd_or_nonempty _ _ None) by (by destruct front).
      apply IH; [done| |lia].
      destruct front; set_solver.
    + destruct front as [|c1 front]; simpl in *; intros [= <-]; set_solver.
Qed.


Lemma del_end_spec h L cells fuel :
  circular h L cells →
  (length cells < fuel)%nat →
  Z.of_nat (length cells) ≤ INT_MAX →
  ∃ h' L',
    del_end fuel (h, L) = Ok (h', L') ∧
    circular h' L' (take (length cells - 1) cells) ∧
    listName L' = listName L ∧ taken L' = taken L.
Proof.
  intros Hc Hf Hm.
  destruct Hc as (Hnd & Hl & Hh & Hlen & Hd).
  unfold del_end. destruct L as [hdL nm ln tk]. cbn [head len] in *. subst hdL ln.
  destruct (snoc_cases cells) as [->|(front' & cl & ->)].
  { eexists _, _. split; [done|]. done. }
  assert (Hne : front' ++ [cl] ≠ []) by (by destruct front').
  destruct (hd_or (front' ++ [cl]) None) as [hd|] eqn:Ehd; [|by destruct front'].
  cbn [head set_len set_head len].
  rewrite int_add_ok
    by (rewrite length_app in *; unfold INT_MIN, INT_MAX in *; simpl in *; lia).
  rewrite bind_Ok.
  replace (length (front' ++ [cl]) - 1)%nat with (length front')
    by (rewrite length_app; simpl; lia).
  rewrite take_app_length.
  destruct (snoc_cases front') as [->|(front & f & ->)].
  - simpl in *. injection Ehd as <-. destruct Hl as [Hl0 _].
    rewrite Hl0. simpl. rewrite decide_True by done.
    rewrite ?Hl0. simpl.
    eexists _, _. split; [done|]. split; [|done].
    unfold circular. simpl. repeat split; [apply NoDup_nil_2|].
    rewrite dom_delete_L, Hd. set_solver.
  - rewrite <- app_assoc in *. cbn [app] in *.
    pose proof (hd_notin_tail _ _ Hnd Ehd) as Hhdt.
    pose proof (hd_or_in _ _ Ehd) as Hhdin.
    assert (Ehd' : hd_or (front ++ [f]) None = Some hd).
    { revert Ehd. by destruct front. }
    assert (Hnext : ∃ nd, h !! hd = Some nd ∧ next nd ≠ Some hd) .
    { revert Hl Ehd Hhdt. clear. destruct front as [|c0 front]; simpl.
      - intros [H0 _] [= <-] ?. eexists; split; [done|]. simpl. intros [= E]. set_solver.
      - intros [H0 _] [= <-] ?. eexists; split; [done|]. simpl.
        destruct front; simpl in *; intros [= E]; set_solver. }
    destruct Hnext as (nd & Hnd0 & Hnn).
    rewrite (deref_ok _ _ _ Hnd0), bind_Ok.
    rewrite decide_False by done.
    opose proof* (find_last_follow_lseg h hd f cl front None fuel) as Hfl; [done..| |].
    { rewrite !length_app in Hf. simpl in Hf. lia. }
    rewrite Ehd in Hfl. rewrite Hfl, bind_Ok. cbn [fst snd].
    apply lseg_app in Hl as [Hl1 (Hl2 & Hl3 & _)]. cbn [hd_or fst snd] in *.
    rewrite (store_next_ok _ _ _ _ Hl2), bind_Ok. cbn [song artist].
    rewrite !fmap_app in *. simpl in Hnd, Hhdin, Hd.
    apply NoDup_app in Hnd as Hnd'. destruct Hnd' as (Hnf & Hnfc & Hnd').
    apply NoDup_cons in Hnd' as [Hfc _].
    assert (Hfcl : f.1 ≠ cl.1) by set_solver.
    erewrite free_ok by (rewrite lookup_insert_ne; done). rewrite bind_Ok.
    eexists _, _. split; [done|]. split; [|done].
    unfold circular. cbn [head len]. rewrite Ehd'.
    rewrite !fmap_app. simpl.
    repeat split.
    + apply NoDup_app. repeat split; [done|set_solver|apply NoDup_singleton].
    + apply lseg_app. simpl. repeat split.
      * apply lseg_delete_frame; [set_solver|].
        apply lseg_insert_frame; [set_solver|done].
      * rewrite lookup_delete_ne by done. by rewrite lookup_insert_eq.
    + rewrite !length_app in *. simpl in *. lia.
    + rewrite dom_delete_L, dom_insert_L, Hd, !list_to_set_app_L. set_solver.
Qed.

Lemma advance_follow_lseg h hd f c post : ∀ pre fol,
  post ≠ [] →
  lseg h (pre ++ f :: c :: post) (Some hd) →
  hd ∉ (tail (pre ++ f :: c :: post)).*1 →
  advance_follow (S (length pre)) h (Some hd) fol (hd_or (pre ++ f :: c :: post) None)
  = Ok (Some f.1, Some c.1).
Proof.
  intros pre. induction pre as [|c0 pre IH]; intros fol Hpost Hl Hhd.
  - simpl in *. destruct Hl as (-> & _). simpl.
    rewrite decide_False by (intros [= <-]; set_solver). done.
  - simpl in Hl. destruct Hl as [Hl0 Hl].
    cbn [app hd_or length]. cbn [advance_follow].
    rewrite (deref_ok _ _ _ Hl0), bind_Ok. cbn [next].
    rewrite decide_False.
    + rewrite (hd_or_nonempty _ _ None) by (by destruct pre).
      apply IH; [done|done|]. simpl in Hhd. destruct pre; set_solver.
    + simpl in Hhd. destruct pre as [|c1 pre]; simpl in *; intros [= <-]; set_solver.
Qed.

Lemma del_at_spec h L cells pos fuel :
  circular h L cells →
  (length cells < fuel)%nat →
  Z.of_nat (length cells) ≤ INT_MAX →
  ∃ h' L',
    del_at fuel pos (h, L) = Ok (h', L') ∧
    circular h' L'
      (if decide (1 ≤ pos ≤ Z.of_nat (length cells))
       then delete (Z.to_nat (pos - 1)) cells else cells) ∧
    listName L' = listName L ∧ taken L' = taken L.
Proof.
  intros Hc Hf Hm.
  unfold del_at.
  assert (Hlen : len L = Z.of_nat (length cells)) by apply Hc.
  assert (Hh : head L = hd_or cells None) by apply Hc.
  destruct (head L) as [hd|] eqn:EhL.
  2:{ exists h, L. destruct cells; [|done]. simpl. rewrite decide_False by lia. done. }
  rewrite Hlen.
  destruct (decide (pos < 1 ∨ pos > Z.of_nat (length cells))) as [Hout|Hin].
  { exists h, L. rewrite decide_False by lia. done. }
  destruct (decide (1 ≤ pos ≤ Z.of_nat (length cells))) as [_|?]; [|lia].
  destruct (decide (pos = 1)) as [->|Hn1].
  { destruct (del_beg_spec h L cells fuel) as (h' & L' & ? & ? & ?); [done..|].
    exists h', L'. simpl. by destruct cells. }
  destruct (decide (pos = Z.of_nat (length cells))) as [->|Hn2].
  { destruct (del_end_spec h L cells fuel) as (h' & L' & ? & Hc' & ?); [done..|].
    exists h', L'. split; [done|]. split; [|done].
    replace (Z.to_nat (Z.of_nat (length cells) - 1)) with (length cells - 1)%nat by lia.
    revert Hc'. clear. destruct (snoc_cases cells) as [->|(front & c & ->)]; [done|].
    rewrite length_app. simpl.
    replace (length front + 1 - 1)%nat with (length front) by lia.
    rewrite take_app_length, delete_middle, app_nil_r. done. }
  destruct Hc as (Hnd & Hl & _ & _ & Hd).
  set (n := Z.to_nat (pos - 2)).
  replace (Z.to_nat (pos - 1)) with (S n) by lia.
  destruct (split_at cells n) as (f & Hfn & Hsplit); [lia|].
  destruct (split_at (drop (S n) cells) 0) as (c & Hc0 & Hsplit2).
  { rewrite length_drop. lia. }
  rewrite take_0, drop_drop in Hsplit2. simpl in Hsplit2.
  rewrite Hsplit2 in Hsplit.
  set (pre := take n cells) in *. set (post := drop (S (n + 1)) cells) in *.
  assert (Hpost : post ≠ []).
  { intros E. apply (f_equal length) in E. unfold post in E.
    rewrite length_drop in E. simpl in E. lia. }
  assert (Hpre : length pre = n) by (unfold pre; rewrite length_take; lia).
  assert (Hdel : delete (S n) cells = pre ++ f :: post).
  { rewrite Hsplit at 1. rewrite <- Hpre.
    change (f :: c :: post) with ([f] ++ c :: post).
    rewrite app_assoc.
    replace (S (length pre)) with (length (pre ++ [f])) by (rewrite length_app; simpl; lia).
    rewrite delete_middle, <- app_assoc. done. }
  rewrite Hdel.
  clearbody pre post. clear Hdel Hsplit2 Hc0 Hfn. subst cells.
  symmetry in Hh. rewrite Hh in Hl.
  opose proof* (advance_follow_lseg h hd f c post pre None) as Hadv; [done|done| |].
  { by apply hd_notin_tail. }
  rewrite Hh, Hpre in Hadv.
  rewrite Hadv, bind_Ok. cbn [fst snd].
  apply lseg_app in Hl as [Hl1 (Hl2 & Hl3 & Hl4)]. cbn [hd_or fst snd] in *.
  rewrite (deref_ok _ _ _ Hl3), bind_Ok. cbn [next].
  rewrite (store_next_ok _ _ _ _ Hl2), bind_Ok. cbn [song artist].
  rewrite !fmap_app in *. simpl in Hnd, Hd.
  apply NoDup_app in Hnd as Hnd'. destruct Hnd' as (Hnf & Hnfc & Hnd').
  apply NoDup_cons in Hnd' as [Hfc Hnd']. apply NoDup_cons in Hnd' as [Hcp Hnd'].
  assert (Hfcl : f.1 ≠ c.1) by set_solver.
  erewrite free_ok by (rewrite lookup_insert_ne; done). rewrite bind_Ok.
  rewrite int_add_ok
    by (rewrite length_app in *; unfold INT_MIN, INT_MAX in *; simpl in *; lia).
  rewrite bind_Ok.
  eexists _, _. split; [done|]. split; [|done].
  unfold circular. cbn [head len set_len].
  assert (Ehd' : hd_or (pre ++ f :: post) None = Some hd).
  { revert Hh. by destruct pre. }
  rewrite Ehd'. rewrite !fmap_app. simpl.
  repeat split.
  + apply NoDup_app. repeat split; [done|set_solver|].
    apply NoDup_cons. split; [set_solver|done].
  + apply lseg_app. simpl. repeat split.
    * apply lseg_delete_frame; [set_solver|].
      apply lseg_insert_frame; [set_solver|done].
    * rewrite lookup_delete_ne by done. by rewrite lookup_insert_eq.
    * apply lseg_delete_frame; [set_solver|].
      apply lseg_insert_frame; [set_solver|done].
  + done.
  + rewrite !length_app in *. simpl in *. lia.
  + rewrite dom_delete_L, dom_insert_L, Hd, !list_to_set_app_L. set_solver.
Qed.


Lemma free_chain_lseg cells : ∀ h fuel tl,
  lseg h cells tl → NoDup cells.*1 →
  free_chain fuel h (hd_or cells tl) =
  if decide (length cells ≤ fuel)%nat
  then free_chain (fuel - length cells) (delete_all cells.*1 h) tl
  else OutOfFuel.
Proof.
  induction cells as [|c cells IH]; intros h fuel tl Hl Hnd.
  - cbn [hd_or length fmap list_fmap delete_all foldl].
    case_decide; [|lia]. by rewrite Nat.sub_0_r.
  - simpl in Hl. destruct Hl as [Hl0 Hl].
    rewrite fmap_cons in Hnd. apply NoDup_cons in Hnd as [Hc Hnd].
    cbn [hd_or]. destruct fuel as [|fuel].
    { cbn [free_chain length]. case_decide; [lia|done]. }
    cbn [free_chain]. rewrite (deref_ok _ _ _ Hl0), bind_Ok.
    rewrite (free_ok _ _ _ Hl0), bind_Ok. cbn [next].
    rewrite IH; [|by apply lseg_delete_frame|done].
    cbn [length]. repeat case_decide; try lia; done.
Qed.

Lemma delete_all_lookup_ne l : ∀ h a, a ∉ l → delete_all l h !! a = h !! a.
Proof.
  induction l as [|b l IH]; intros h a Ha; simpl; [done|].
  rewrite IH by set_solver. rewrite lookup_delete_ne; [done|set_solver].
Qed.

(** X2: clear() on any non-empty circular list: the loop that is meant to
    delete all nodes except the original head reaches the head through the
    last node's next pointer and deletes it; the delete that follows the
    loop is a second delete of the same node. *)
Theorem clear_nonempty_double_free h L cells fuel :
  circular h L cells → cells ≠ [] → (length cells ≤ fuel)%nat →
  clear fuel (h, L) = Undefined.
Proof.
  intros (Hnd & Hl & Hh & Hlen & Hd) Hne Hf.
  unfold clear. destruct cells as [|c0 rest]; [done|]. clear Hne.
  cbn [hd_or] in *. rewrite Hh.
  destruct Hl as [Hl0 Hl]. cbn [fst snd] in *.
  rewrite (deref_ok _ _ _ Hl0), bind_Ok. cbn [next].
  rewrite fmap_cons in Hnd. apply NoDup_cons in Hnd as [Hc0 Hnd].
  assert (Hx : ∃ x, hd_or rest (Some c0.1) = Some x) by (destruct rest; simpl; eauto).
  destruct Hx as [x Hx]. rewrite Hx.
  rewrite (store_next_ok _ _ _ _ Hl0), bind_Ok. cbn [song artist].
  rewrite <- Hx.
  rewrite free_chain_lseg; [|by apply lseg_insert_frame|done].
  simpl in Hf. rewrite decide_True by lia.
  destruct (fuel - length rest)%nat as [|k] eqn:Ek; [lia|].
  cbn [free_chain].
  assert (Hlk : delete_all rest.*1
                  (<[c0.1:={| song := c0.2.1; artist := c0.2.2; next := None |}]> h)
                  !! c0.1 = Some (Node c0.2.1 c0.2.2 None)).
  { rewrite delete_all_lookup_ne by done. by rewrite lookup_insert_eq. }
  rewrite (deref_ok _ _ _ Hlk), bind_Ok.
  rewrite (free_ok _ _ _ Hlk), bind_Ok. cbn [next].
  destruct k; cbn [free_chain]; rewrite bind_Ok; simpl; by rewrite lookup_delete_eq.
Qed.

Lemma clear_empty h L fuel : head L = None → clear fuel (h, L) = Ok (h, L).
Proof. intros H. unfold clear. by rewrite H. Qed.

Lemma follow_lseg h tl pre : ∀ post,
  lseg h (pre ++ post) tl →
  follow h (length pre) (hd_or (pre ++ post) tl) = hd_or post tl.
Proof.
  induction pre as [|c pre IH]; intros post Hl; simpl in *; [done|].
  destruct Hl as [-> Hl]. simpl. by apply IH.
Qed.

Lemma circular_well_formed h L cells : circular h L cells → well_formed h L.
Proof.
  intros (Hnd & Hl & Hh & Hlen & Hd).
  destruct cells as [|c0 rest].
  { left. simpl in *. split; [done|lia]. }
  right. exists c0.1. cbn [hd_or] in *.
  assert (Hsz : size h = length (c0 :: rest)).
  { rewrite <- size_dom, Hd, size_list_to_set by done. by rewrite length_fmap. }
  rewrite Hlen, Nat2Z.id.
  split; [done|]. split; [simpl; lia|]. split; [|split].
  - pose proof (follow_lseg h (Some c0.1) (c0 :: rest) []) as Hfo.
    rewrite app_nil_r in Hfo. by apply Hfo.
  - intros k Hk.
    pose proof (follow_lseg h (Some c0.1) (take k (c0 :: rest)) (drop k (c0 :: rest))) as Hfo.
    rewrite take_drop, length_take in Hfo.
    replace (k `min` length (c0 :: rest))%nat with k in Hfo by lia.
    cbn [hd_or] in Hfo. rewrite Hfo by done.
    destruct k as [|k]; [lia|]. simpl.
    destruct (drop k rest) as [|c' post] eqn:Edrop.
    { apply (f_equal length) in Edrop. rewrite length_drop in Edrop. simpl in *. lia. }
    simpl. intros [= E].
    rewrite fmap_cons in Hnd. apply NoDup_cons in Hnd as [Hc0 _].
    apply Hc0. rewrite <- E.
    assert (c' ∈ rest).
    { rewrite <- (take_drop k rest), Edrop. set_solver. }
    set_solver.
  - by rewrite Hsz.
Qed.

Lemma circular_linked h L cells : circular h L cells → linked h L cells.
Proof. intros (? & ? & ? & ? & _). done. Qed.

Lemma circular_new : circular ∅ LinkedList_new [].
Proof. unfold circular. simpl. repeat split. apply NoDup_nil_2. Qed.

Lemma abs_op_length o es : (length (abs_op o es) ≤ S (length es))%nat.
Proof.
  destruct o; simpl; try case_decide;
    rewrite ?length_app, ?length_take, ?length_delete', ?length_drop; simpl;
    rewrite ?length_drop; try lia.
  - destruct es; simpl; lia.
  - rewrite delete_take_drop, length_app, length_take, length_drop. lia.
Qed.

Lemma apply_op_spec h L cells o fuel :
  circular h L cells →
  (length cells < fuel)%nat →
  Z.of_nat (length cells) < INT_MAX →
  o ≠ OpClear ∨ cells = [] →
  ∃ h' L' cells',
    apply_op fuel o (h, L) = Ok (h', L') ∧
    circular h' L' cells' ∧ cells'.*2 = abs_op o cells.*2 ∧
    listName L' = listName L ∧ taken L' = taken L.
Proof.
  intros Hc Hf Hm Hcl. destruct o; cbn [apply_op abs_op].
  - destruct (add_beg_spec h L cells s a fuel) as (h' & L' & p & ? & ? & ?); [done..|].
    by eexists h', L', _.
  - destruct (add_end_spec h L cells s a fuel) as (h' & L' & p & ? & ? & ?); [done..|].
    eexists h', L', _. split; [done|]. split; [done|]. split; [|done].
    by rewrite fmap_app.
  - destruct (add_at_spec h L cells s a pos fuel) as (h' & L' & p & ? & ? & ?); [done..|].
    eexists h', L', _. split; [done|]. split; [done|]. split; [|done].
    rewrite length_fmap. case_decide; [|done].
    by rewrite fmap_app, fmap_cons, fmap_take, fmap_drop.
  - destruct (del_beg_spec h L cells fuel) as (h' & L' & ? & ? & ?); [done..|lia|].
    eexists h', L', _. split; [done|]. split; [done|]. split; [|done].
    by destruct cells.
  - destruct (del_end_spec h L cells fuel) as (h' & L' & ? & ? & ?); [done..|lia|].
    eexists h', L', _. split; [done|]. split; [done|]. split; [|done].
    by rewrite fmap_take, length_fmap.
  - destruct (del_at_spec h L cells pos fuel) as (h' & L' & ? & ? & ?); [done..|lia|].
    eexists h', L', _. split; [done|]. split; [done|]. split; [|done].
    rewrite length_fmap. case_decide; [|done].
    by rewrite list_fmap_delete.
  - destruct Hcl as [?| ->]; [done|].
    exists h, L, []. split; [|done]. apply clear_empty. apply Hc.
Qed.

Lemma run_ops_spec fuel ops : ∀ h L cells es',
  circular h L cells →
  (length cells + length ops < fuel)%nat →
  Z.of_nat (length cells + length ops) ≤ INT_MAX →
  abs_run ops cells.*2 = Some es' →
  ∃ h' L' cells',
    run_ops fuel ops (h, L) = Ok (h', L') ∧
    circular h' L' cells' ∧ cells'.*2 = es' ∧
    listName L' = listName L ∧ taken L' = taken L.
Proof.
  induction ops as [|o ops IH]; intros h L cells es' Hc Hf Hm Habs.
  - simpl in *. injection Habs as <-. by exists h, L, cells.
  - cbn [run_ops]. cbn [length] in *.
    assert (Hcl : o ≠ OpClear ∨ cells = []).
    { destruct o; try (by left). right. simpl in Habs.
      destruct cells; [done|]. done. }
    destruct (apply_op_spec h L cells o fuel) as (h1 & L1 & cells1 & -> & Hc1 & He1 & Hn1 & Ht1);
      [done|lia|lia|done|].
    rewrite bind_Ok.
    assert (Hlen1 : (length cells1 ≤ S (length cells))%nat).
    { rewrite <- (length_fmap snd cells1), He1, <- (length_fmap snd cells).
      apply abs_op_length. }
    assert (Habs1 : abs_run ops cells1.*2 = Some es').
    { rewrite He1. destruct Hcl as [Hcl| ->].
      - destruct o; try done.
      - destruct o; try done. }
    destruct (IH h1 L1 cells1 es') as (h' & L' & cells' & ? & ? & ? & ? & ?);
      [done|lia|lia|done|].
    exists h', L', cells'. split; [done|]. split; [done|]. split; [done|].
    split; congruence.
Qed.

(** X1: from the empty list, every sequence of add_beg, add_end, add_at,
    del_beg, del_end, del_at and clear() in which clear() only ever meets
    the empty list (given fuel for the loops and fewer than INT_MAX
    operations) runs without undefined behaviour and ends in a list that
    holds the entries the operations describe and is well formed: head
    null and len 0, or following next len times from head leads back to
    head, not before, and len is the number of nodes. *)
Theorem list_operations_keep_the_list_circular fuel ops es' :
  (length ops < fuel)%nat → Z.of_nat (length ops) ≤ INT_MAX →
  abs_run ops [] = Some es' →
  ∃ h' L',
    run_ops fuel ops (∅, LinkedList_new) = Ok (h', L') ∧
    Rep h' L' es' ∧ well_formed h' L'.
Proof.
  intros Hf Hm Habs.
  destruct (run_ops_spec fuel ops ∅ LinkedList_new [] es')
    as (h' & L' & cells' & Hrun & Hc & He & _);
    [apply circular_new|simpl; lia|simpl; lia|done|].
  exists h', L'. split; [done|].
  split; [by exists cells'|by eapply circular_well_formed].
Qed.

(** C10: from the empty list, add_end and then clear(): the loop of
    clear() follows the last node's next pointer to the head and deletes
    it, and the delete of the head after the loop is a second delete of
    the same node; the same after add_beg, add_end, clear(). The run has
    no defined result, so nothing holds of head and len after it. *)
Theorem C10_clear_deletes_the_head_twice :
  run_ops 4 [OpAddEnd "a.mp3" "A"; OpClear] (∅, LinkedList_new) = Undefined ∧
  run_ops 4 [OpAddBeg "a.mp3" "A"; OpAddEnd "b.wav" "B"; OpClear]
    (∅, LinkedList_new) = Undefined.
Proof. by vm_compute. Qed.

End ListFacts.

(* ---- the sessions ---- *)

Section SessionFacts.
Context (scale : Z → Z → Z → Z).

Lemma grows_refl w : grows w w [].
Proof. unfold grows. by rewrite app_nil_r. Qed.

Lemma grows_trans w1 w2 w3 e1 e2 :
  grows w1 w2 e1 → grows w2 w3 e2 → grows w1 w3 (e1 ++ e2).
Proof.
  unfold grows. intros (Ha & ? & ? & ? & ? & ? & ? & ?) (Hb & ? & ? & ? & ? & ? & ? & ?).
  rewrite Hb, Ha, app_assoc. repeat split; congruence.
Qed.

Lemma grows_emit w e : grows w (emit e w) [e].
Proof. by unfold grows. Qed.

Lemma grows_emit_then w w' e evs :
  grows (emit e w) w' evs → grows w w' (e :: evs).
Proof. intros H. apply (grows_trans w (emit e w) w' [e] evs); [apply grows_emit|done]. Qed.

Lemma grows_since w w' evs : grows w w' evs → since w w' = evs.
Proof.
  intros (H & _). unfold since. rewrite H. by rewrite drop_app_length.
Qed.

Ltac wsimpl :=
  cbn [trace tty stdin_flags sessions answers numbers mem stack_mem emit say
       tcsetattr fcntl_setfl set_sessions set_answers set_numbers
       set_stack_mem fst snd].

(* straight-line code: the calls it makes can be read off *)
Ltac grow :=
  eexists; split;
  [ unfold grows; simpl; rewrite <- ?app_assoc;
    first [ by repeat split | split; [symmetry; apply app_nil_r | done] ]
  | simpl; repeat constructor ].

Lemma getch_grows tk w :
  grows w (getch tk w).2
    [EvTcsetattr (mkTermios (c_lflag (raw_mode (tty w))) 1 0 (c_rest (tty w)));
     EvRead (tk_read tk); EvTcsetattr (tty w)].
Proof.
  unfold getch. destruct (tk_read tk); unfold grows; simpl;
    rewrite <- ?app_assoc; by repeat split.
Qed.


Lemma mp3_key_grows tk key st w :
  ∃ evs, grows w (mp3_key tk key st w).2 evs ∧ Forall key_event evs.
Proof.
  unfold mp3_key. repeat case_decide; grow.
Qed.



Lemma s64_id z :
  -9223372036854775808 ≤ z < 9223372036854775808 → s64 z = z.
Proof. intros H. unfold s64. rewrite Z.mod_small; lia. Qed.

Lemma s32_id z : -2147483648 ≤ z < 2147483648 → s32 z = z.
Proof. intros H. unfold s32. rewrite Z.mod_small; lia. Qed.

(** X3: seek-forward in the MP3 loop: nothing is requested when the total
    length is unknown; otherwise mpg123_seek_frame is asked for
    min(total - 1, position + 10 * rate). *)
Theorem mp3_seek_forward tk st w :
  0 ≤ OUTPUT_RATE st ≤ 4294967295 →
  0 ≤ current_frame_pos st < 4611686018427387904 →
  total_frames st < 4611686018427387904 →
  mp3_key tk "k" st w =
  if decide (total_frames st > 0)
  then (st, say JumpedForward
              (emit (EvMpgSeekFrame
                       (Z.min (total_frames st - 1)
                              (current_frame_pos st + 10 * OUTPUT_RATE st))
                       (tk_seek tk)) w))
  else (st, w).
Proof.
  intros Hr Hp Ht. unfold mp3_key.
  rewrite decide_False by done. rewrite decide_False by (intros [?|?]; done).
  rewrite decide_False by done. rewrite decide_True by done.
  case_decide; [|done].
  rewrite (s64_id (OUTPUT_RATE st * 10)) by lia.
  rewrite (s64_id (current_frame_pos st + _)) by lia.
  rewrite (s64_id (total_frames st - 1)) by lia.
  case_decide; do 4 f_equal; lia.
Qed.

(** X4: seek-back in the MP3 loop: mpg123_seek_frame is asked for
    max(0, position - 10 * rate), the target being clamped before the
    request is made; nothing is requested at position 0. *)
Theorem mp3_seek_back tk st w :
  0 ≤ OUTPUT_RATE st ≤ 4294967295 →
  0 ≤ current_frame_pos st < 4611686018427387904 →
  mp3_key tk "j" st w =
  if decide (current_frame_pos st > 0)
  then (st, say JumpedBack
              (emit (EvMpgSeekFrame
                       (Z.max 0 (current_frame_pos st - 10 * OUTPUT_RATE st))
                       (tk_seek tk)) w))
  else (st, w).
Proof.
  intros Hr Hp. unfold mp3_key.
  rewrite decide_False by done. rewrite decide_False by (intros [?|?]; done).
  rewrite decide_True by done.
  case_decide; [|done].
  rewrite (s64_id (OUTPUT_RATE st * 10)) by lia.
  rewrite (s64_id (current_frame_pos st - _)) by lia.
  case_decide; do 4 f_equal; lia.
Qed.

(** C2: in the libsndfile loop a seek-forward is requested of the backend
    although the total length is unknown (first part), and with a known
    length of 1000000 frames and the position 900000 the request is the
    unclamped relative one; when the backend refuses it the position
    becomes 0, not min(T-1, F+10*rate) = 999999 (second part). *)
Theorem C2_sample_coded_seek_forward_unguarded :
  since world0
    (sf_key (key_tick "k" 441000 0 0 true) "k" (init_loop 44100 2 0) world0).2
  = [EvSfSeek 441000 SEEK_CUR 441000; EvOut JumpedForward] ∧
  (let st := set_position 900000 900000 (init_loop 44100 2 1000000) in
   let r := sf_key (key_tick "k" (-1) 0 0 true) "k" st world0 in
   since world0 r.2
   = [EvSfSeek 441000 SEEK_CUR (-1); EvSfSeek 0 SEEK_SET 0; EvOut JumpedForward] ∧
   frames_played r.1 = 0 ∧
   Z.min (total_frames st - 1) (frames_played st + 10 * rate st) = 999999).
Proof. by vm_compute. Qed.

(** C3: in the libsndfile loop, at position 0, seek-back asks the backend
    for a seek to 441000 frames before position 0 (first part); in the MP3
    loop the value mpg123_seek_frame returns is not looked at, so after a
    failed seek (-1) no seek to position 0 follows (second part). *)
Theorem C3_seek_back_differs_by_backend :
  since world0
    (sf_key (key_tick "j" (-1) 0 0 true) "j" (init_loop 44100 2 1000000) world0).2
  = [EvSfSeek (-441000) SEEK_CUR (-1); EvSfSeek 0 SEEK_SET 0; EvOut JumpedBack] ∧
  since world0
    (mp3_key (key_tick "j" (-1) 0 0 true) "j"
       (set_position 0 500000 (init_loop 44100 2 1000000)) world0).2
  = [EvMpgSeekFrame 59000 (-1); EvOut JumpedBack].
Proof. by vm_compute. Qed.





Lemma toggle_pause_twice st : toggle_pause (toggle_pause st) = st.
Proof. destruct st. unfold toggle_pause. simpl. by rewrite negb_involutive. Qed.

Lemma on_key_space on_key tk st w :
  on_key = mp3_key ∨ on_key = sf_key →
  on_key tk " "%char st w =
  (toggle_pause st,
   say (if is_paused (toggle_pause st) then Paused else Playing) w).
Proof. by intros [-> | ->]. Qed.

Lemma on_key_other on_key tk c st w :
  on_key = mp3_key ∨ on_key = sf_key →
  c ≠ " "%char → c ≠ "s"%char → c ≠ "S"%char → c ≠ "j"%char → c ≠ "k"%char →
  on_key tk c st w = (st, w).
Proof.
  intros [-> | ->] ?????; unfold mp3_key, sf_key;
    repeat (rewrite decide_False by (try intros [?|?]; done)); done.
Qed.

Lemma on_key_grows on_key tk key st w :
  on_key = mp3_key ∨ on_key = sf_key →
  ∃ evs, grows w (on_key tk key st w).2 evs ∧
         Forall (λ e, decode_or_write e = false) evs.
Proof.
  intros [-> | ->]; unfold mp3_key, sf_key; repeat case_decide; grow.
Qed.

Lemma poll_keys_grows on_key tk st w :
  on_key = mp3_key ∨ on_key = sf_key →
  ∃ evs, grows w (poll_keys on_key tk st w).2 (EvKbhit (tk_kbhit tk) :: evs) ∧
         Forall (λ e, decode_or_write e = false) evs.
Proof.
  intros Hk. unfold poll_keys, kbhit.
  destruct (tk_kbhit tk) eqn:E.
  - pose proof (getch_grows tk (emit (EvKbhit true) w)) as Hg.
    destruct (getch tk (emit (EvKbhit true) w)) as [key w1]. simpl in Hg.
    destruct (on_key_grows on_key tk key st w1 Hk) as (evs & Hgr & Hev).
    eexists. split.
    + eapply (grows_trans _ _ _ [_]); [apply grows_emit|].
      eapply grows_trans; [apply Hg|apply Hgr].
    + simpl. repeat (constructor; [done|]). done.
  - exists []. split; [apply grows_emit|done].
Qed.

Lemma poll_keys_no_command on_key tk st w :
  on_key = mp3_key ∨ on_key = sf_key →
  no_command tk →
  ∃ evs, poll_keys on_key tk st w = (st, (poll_keys on_key tk st w).2) ∧
         grows w (poll_keys on_key tk st w).2 evs ∧
         Forall (λ e, backend_call e = false) evs.
Proof.
  intros Hk Hn. unfold poll_keys, kbhit.
  destruct (tk_kbhit tk) eqn:E.
  - destruct Hn as [?|Hn]; [congruence|].
    pose proof (getch_grows tk (emit (EvKbhit true) w)) as Hg.
    unfold getch in *. destruct (tk_read tk) as [c|] eqn:Er.
    + destruct (Hn c eq_refl) as (?&?&?&?&?).
      rewrite (on_key_other on_key) by done. simpl in *.
      eexists. split; [done|]. split.
      * eapply (grows_trans _ _ _ [_]); [apply grows_emit|apply Hg].
      * repeat constructor.
    + rewrite (on_key_other on_key) by done. simpl in *.
      eexists. split; [done|]. split.
      * eapply (grows_trans _ _ _ [_]); [apply grows_emit|apply Hg].
      * repeat constructor.
  - exists [EvKbhit false]. split; [done|]. split; [apply grows_emit|].
    repeat constructor.
Qed.

Lemma poll_keys_space on_key tk st w :
  on_key = mp3_key ∨ on_key = sf_key →
  pressed " "%char tk →
  ∃ evs, poll_keys on_key tk st w = (toggle_pause st, (poll_keys on_key tk st w).2) ∧
         grows w (poll_keys on_key tk st w).2 evs ∧
         Forall (λ e, backend_call e = false) evs.
Proof.
  intros Hk [Hh Hr]. unfold poll_keys, kbhit. rewrite Hh.
  pose proof (getch_grows tk (emit (EvKbhit true) w)) as Hg.
  unfold getch in *. rewrite Hr in *.
  rewrite (on_key_space on_key) by done. simpl in *.
  eexists. split; [done|]. split.
  - eapply (grows_trans _ _ _ [_]); [apply grows_emit|].
    eapply grows_trans; [apply Hg|apply grows_emit].
  - repeat constructor.
Qed.

(* the passes made while paused, up to the key that resumes *)
Lemma paused_passes on_key chunk idle : ∀ st w,
  on_key = mp3_key ∨ on_key = sf_key →
  is_paused st = true → should_stop st = false →
  Forall no_command idle →
  ∀ tk_r rest, pressed " "%char tk_r →
  ∃ w1 evs,
    grows w w1 evs ∧ Forall (λ e, backend_call e = false) evs ∧
    run_loop true (controlled_pass on_key chunk) (idle ++ tk_r :: rest) st w =
    match chunk tk_r (toggle_pause st) w1 with
    | (Break, st', w') => Some (st', w')
    | (Continue, st', w') =>
        run_loop true (controlled_pass on_key chunk) rest st' w'
    | (Killed, _, _) => None
    end.
Proof.
  induction idle as [|tk idle IH]; intros st w Hk Hp Hs Hidle tk_r rest Hr.
  - destruct (poll_keys_space on_key tk_r st w Hk Hr) as (evs & Hpk & Hg & Hev).
    exists (poll_keys on_key tk_r st w).2, evs. split; [done|]. split; [done|].
    simpl. rewrite Hs. simpl. unfold controlled_pass. rewrite Hpk.
    destruct st; simpl in *. subst. simpl. done.
  - apply Forall_cons in Hidle as [Htk Hidle].
    destruct (poll_keys_no_command on_key tk st w Hk Htk) as (evs & Hpk & Hg & Hev).
    destruct (IH st (emit (EvUsleep 100000) (poll_keys on_key tk st w).2)
                Hk Hp Hs Hidle tk_r rest Hr) as (w1 & evs1 & Hg1 & Hev1 & Hrun).
    exists w1, (evs ++ [EvUsleep 100000] ++ evs1). split; [|split].
    + eapply grows_trans; [apply Hg|].
      eapply grows_trans; [apply grows_emit|apply Hg1].
    + rewrite !Forall_app. repeat split; try done. repeat constructor.
    + rewrite <- Hrun. simpl. rewrite Hs. simpl.
      unfold controlled_pass. rewrite Hpk, Hp. done.
Qed.

(** C5: in a pass made while paused the keyboard is polled, nothing is
    decoded and nothing is written, and the loop sleeps 100 ms; and when
    the user pauses and later resumes, no command read in between, the
    first chunk decoded after the resume is decoded from the very loop
    state (frames played, position) the pause found, no call having
    reached the decoder or the output in between. Both hold in the MP3
    loop and in the libsndfile loop. *)
Theorem C5_pause_suspends_decoding on_key chunk :
  on_key = mp3_key ∨ on_key = sf_key →
  (∀ tk st w, is_paused (poll_keys on_key tk st w).1 = true →
     ∃ evs,
       since w (controlled_pass on_key chunk tk st w).2
       = EvKbhit (tk_kbhit tk) :: evs ++ [EvUsleep 100000] ∧
       Forall (λ e, decode_or_write e = false) evs ∧
       (controlled_pass on_key chunk tk st w).1
       = (Continue, (poll_keys on_key tk st w).1)) ∧
  (∀ st w tk_p idle tk_r rest,
     is_paused st = false → should_stop st = false →
     pressed " "%char tk_p → Forall no_command idle → pressed " "%char tk_r →
     ∃ w1,
       Forall (λ e, backend_call e = false) (since w w1) ∧
       run_loop true (controlled_pass on_key chunk)
         (tk_p :: idle ++ tk_r :: rest) st w =
       match chunk tk_r st w1 with
       | (Break, st', w') => Some (st', w')
       | (Continue, st', w') =>
           run_loop true (controlled_pass on_key chunk) rest st' w'
       | (Killed, _, _) => None
       end).
Proof.
  intros Hk. split.
  - intros tk st w Hp.
    destruct (poll_keys_grows on_key tk st w Hk) as (evs & Hg & Hev).
    exists evs. unfold controlled_pass.
    destruct (poll_keys on_key tk st w) as [st1 w1]. simpl in *. rewrite Hp.
    split; [|done]. simpl.
    apply grows_since.
    change (EvKbhit (tk_kbhit tk) :: evs ++ [EvUsleep 100000])
      with ((EvKbhit (tk_kbhit tk) :: evs) ++ [EvUsleep 100000]).
    eapply grows_trans; [apply Hg|apply grows_emit].
  - intros st w tk_p idle tk_r rest Hp Hs Hpp Hidle Hr.
    destruct (poll_keys_space on_key tk_p st w Hk Hpp) as (evs & Hpk & Hg & Hev).
    set (w0 := emit (EvUsleep 100000) (poll_keys on_key tk_p st w).2).
    destruct (paused_passes on_key chunk idle (toggle_pause st) w0 Hk)
      with (tk_r := tk_r) (rest := rest) as (w1 & evs1 & Hg1 & Hev1 & Hrun);
      [by destruct st; simpl in *; subst|by destruct st|done|done|].
    rewrite toggle_pause_twice in Hrun.
    exists w1. split.
    + erewrite grows_since.
      2:{ eapply grows_trans; [apply Hg|].
          eapply grows_trans; [apply grows_emit|apply Hg1]. }
      rewrite !Forall_app. repeat split; try done. repeat constructor.
    + rewrite <- Hrun. cbn [run_loop]. rewrite Hs. cbn [andb].
      unfold controlled_pass. rewrite Hpk.
      destruct st; simpl in *. subst. done.
Qed.




Lemma run_loop_cons b pass tk ticks st w :
  run_loop b pass (tk :: ticks) st w =
  if b && should_stop st then Some (st, w)
  else match pass tk st w with
       | (Break, st, w) => Some (st, w)
       | (Continue, st, w) => run_loop b pass ticks st w
       | (Killed, _, _) => None
       end.
Proof. done. Qed.

Lemma run_loop_stopped pass ticks st w :
  should_stop st = true → run_loop true pass ticks st w = Some (st, w).
Proof. intros H. destruct ticks; simpl; by rewrite H. Qed.

Lemma show_progress_flags cur st w :
  should_stop (show_progress scale cur st w).1 = should_stop st ∧
  playback_error (show_progress scale cur st w).1 = playback_error st ∧
  is_paused (show_progress scale cur st w).1 = is_paused st ∧
  channels (show_progress scale cur st w).1 = channels st.
Proof. unfold show_progress. repeat case_decide; done. Qed.

Lemma mp3_chunk_flags tk st w :
  let r := mp3_chunk scale tk st w in
  should_stop r.1.2 = should_stop st ∧
  is_paused r.1.2 = is_paused st ∧
  (mp3_chunk_fails tk → playback_error r.1.2 = true ∧ r.1.1 = Break) ∧
  (¬ mp3_chunk_fails tk → playback_error r.1.2 = playback_error st) ∧
  (mp3_goes_on tk = true → r.1.1 = Continue).
Proof.
  unfold mp3_chunk, mp3_chunk_fails, mp3_goes_on,
    MPG123_DONE, MPG123_NEW_FORMAT, MPG123_OK.
  rewrite bool_decide_eq_true.
  destruct (decide (tk_mpg_result tk = -12)); [simpl; intuition (try lia; try done)|].
  destruct (decide (tk_mpg_result tk = -11));
    [destruct (tk_newformat tk); simpl; intuition (try lia; try done)|].
  destruct (decide (tk_mpg_result tk ≠ 0)); [simpl; intuition (try lia; try done)|].
  destruct (decide (tk_bytes tk = 0)); [simpl; intuition (try lia; try done)|].
  destruct (tk_write tk) eqn:Ew; simpl; [|intuition (try lia; try done)].
  match goal with |- context [show_progress scale ?c ?s ?v] =>
    pose proof (show_progress_flags c s v) as Hs;
    destruct (show_progress scale c s v) as [st1 w1] end.
  simpl in *. intuition (try congruence; try lia).
Qed.

Lemma sf_chunk_flags tk st w :
  let r := sf_chunk scale tk st w in
  should_stop r.1.2 = should_stop st ∧
  is_paused r.1.2 = is_paused st ∧
  channels r.1.2 = channels st ∧
  (¬ sf_chunk_fails tk → playback_error r.1.2 = playback_error st) ∧
  (channels st mod 18446744073709551616 ≠ 0 →
     (sf_chunk_fails tk → playback_error r.1.2 = true ∧ r.1.1 = Break) ∧
     (sf_goes_on tk = true → r.1.1 = Continue) ∧
     r.1.1 ≠ Killed).
Proof.
  unfold sf_chunk, sf_chunk_fails, sf_goes_on.
  rewrite bool_decide_eq_true.
  destruct (decide (channels st mod 18446744073709551616 = 0));
    [simpl; intuition (try lia; try done)|].
  destruct (decide (tk_frames_read tk <= 0)); [simpl; intuition (try lia; try done)|].
  destruct (tk_write tk) eqn:Ew; simpl; [|intuition (try lia; try done)].
  match goal with |- context [show_progress scale ?c ?s ?v] =>
    pose proof (show_progress_flags c s v) as Hs;
    destruct (show_progress scale c s v) as [st1 w1] end.
  simpl in *. intuition (try congruence; try lia).
Qed.

Lemma on_key_stop on_key tk c st w :
  on_key = mp3_key ∨ on_key = sf_key →
  c = "s"%char ∨ c = "S"%char →
  on_key tk c st w = (set_stop st, say Stopped w).
Proof. by intros [-> | ->] [-> | ->]. Qed.

Lemma finish_controls_stopped s st w :
  should_stop st = true → finish_controls s st w = say StoppedByUser w.
Proof.
  intros Hs. unfold finish_controls. by rewrite Hs, andb_false_r.
Qed.

Lemma loop_of_chunk on_key chunk fails going ok :
  loop_of scale on_key chunk fails going ok →
  (on_key = mp3_key ∨ on_key = sf_key) ∧
  ∀ tk st w, ok st →
    let r := chunk tk st w in
    should_stop r.1.2 = should_stop st ∧
    is_paused r.1.2 = is_paused st ∧
    ok r.1.2 ∧
    (fails tk → playback_error r.1.2 = true ∧ r.1.1 = Break) ∧
    (¬ fails tk → playback_error r.1.2 = playback_error st) ∧
    (going tk = true → r.1.1 = Continue ∧ ¬ fails tk) ∧
    r.1.1 ≠ Killed.
Proof.
  intros [(-> & -> & -> & -> & ->)|(-> & -> & -> & -> & ->)]; (split; [auto|]);
    intros tk st w Hok.
  - destruct (mp3_chunk_flags tk st w) as (H1 & H2 & H3 & H4 & H5).
    split_and!; try done.
    + intros Hg. split; [by apply H5|].
      intros Hf. destruct (H3 Hf) as [_ Hb]. rewrite (H5 Hg) in Hb. done.
    + unfold mp3_chunk.
      repeat case_decide; try done.
      destruct (tk_write tk); cbn [negb]; [|by simpl].
        match goal with |- context [show_progress scale ?c ?s ?v] =>
          by destruct (show_progress scale c s v) end.
  - destruct (sf_chunk_flags tk st w) as (H1 & H2 & H3 & H4 & H5).
    destruct (H5 Hok) as (H6 & H7 & H8).
    split_and!; try done.
    + simpl. rewrite H3. done.
    + intros Hg. split; [by apply H7|].
      intros Hf. destruct (H6 Hf) as [_ Hb]. rewrite (H7 Hg) in Hb. done.
Qed.

Lemma on_key_flags on_key tk c st w :
  on_key = mp3_key ∨ on_key = sf_key →
  let r := on_key tk c st w in
  playback_error r.1 = playback_error st ∧ channels r.1 = channels st ∧
  is_paused r.1 = (if bool_decide (c = " "%char)
                   then negb (is_paused st) else is_paused st) ∧
  should_stop r.1 = (if bool_decide (c = "s"%char ∨ c = "S"%char)
                     then true else should_stop st).
Proof.
  intros [-> | ->]; unfold mp3_key, sf_key; repeat case_bool_decide;
    repeat case_decide; subst; simpl; try done;
    try (by destruct_or!);
    try (exfalso; by intuition congruence).
Qed.

Lemma poll_keys_flags on_key tk st w :
  on_key = mp3_key ∨ on_key = sf_key →
  let r := poll_keys on_key tk st w in
  playback_error r.1 = playback_error st ∧ channels r.1 = channels st ∧
  is_paused r.1 = (if bool_decide (key_read tk = Some " "%char)
                   then negb (is_paused st) else is_paused st) ∧
  should_stop r.1 = (if bool_decide (key_read tk = Some "s"%char ∨
                                      key_read tk = Some "S"%char)
                     then true else should_stop st).
Proof.
  intros Hk. unfold poll_keys, kbhit, key_read, getch.
  destruct (tk_kbhit tk); cbn [fst snd].
  2:{ rewrite !bool_decide_eq_false_2; [done| |]; naive_solver. }
  assert (H : ∀ c w0,
            let r := on_key tk c st w0 in
            playback_error r.1 = playback_error st ∧ channels r.1 = channels st ∧
            is_paused r.1 = (if bool_decide (Some c = Some " "%char)
                             then negb (is_paused st) else is_paused st) ∧
            should_stop r.1 = (if bool_decide (Some c = Some "s"%char ∨
                                                Some c = Some "S"%char)
                               then true else should_stop st)).
  { intros c w0. destruct (on_key_flags on_key tk c st w0 Hk) as (? & ? & ? & ?).
    repeat split; try done.
    - rewrite (bool_decide_ext (Some c = Some " "%char) (c = " "%char)); [done|].
      split; congruence.
    - rewrite (bool_decide_ext (Some c = Some "s"%char ∨ Some c = Some "S"%char)
                 (c = "s"%char ∨ c = "S"%char)); [done|].
      split; intros [|]; (left + right); congruence. }
  destruct (tk_read tk); simpl; apply H.
Qed.

(* the passes before the one of interest leave the loop running *)
Lemma passes_before on_key chunk fails going ok :
  loop_of scale on_key chunk fails going ok →
  ∀ pre rest p p' st w,
    paused_after going p pre = Some p' →
    is_paused st = p → should_stop st = false → playback_error st = false →
    ok st →
    ∃ st1 w1,
      run_loop true (controlled_pass on_key chunk) (pre ++ rest) st w
      = run_loop true (controlled_pass on_key chunk) rest st1 w1 ∧
      is_paused st1 = p' ∧ should_stop st1 = false ∧
      playback_error st1 = false ∧ ok st1.
Proof.
  intros Hv. destruct (loop_of_chunk _ _ _ _ _ Hv) as [Hk Hch].
  assert (Hokk : ∀ tk st w, ok st → ok (poll_keys on_key tk st w).1).
  { intros tk st w Hok.
    destruct (poll_keys_flags on_key tk st w Hk) as (_ & Hc & _).
    destruct Hv as [(_ & _ & _ & _ & ->)|(_ & _ & _ & _ & ->)]; [done|].
    simpl in *. by rewrite Hc. }
  induction pre as [|tk pre IH]; intros rest p p' st w Hpa Hp Hs He Hok.
  - simpl in Hpa. injection Hpa as <-. by exists st, w.
  - cbn [paused_after] in Hpa. cbn [app]. rewrite run_loop_cons, Hs. cbn [andb].
    destruct (poll_keys_flags on_key tk st w Hk) as (He1 & _ & Hp1 & Hs1).
    specialize (Hokk tk st w Hok).
    destruct (bool_decide (key_read tk = Some "s"%char ∨ _)); [done|].
    unfold controlled_pass.
    destruct (poll_keys on_key tk st w) as [sta wa]. simpl in He1, Hp1, Hs1, Hokk.
    rewrite Hp in Hp1.
    set (q := if bool_decide (key_read tk = Some " "%char) then negb p else p) in *.
    destruct q eqn:Eq.
    + rewrite Hp1. simpl in Hpa.
      apply (IH rest true p'); try done; congruence.
    + rewrite Hp1. simpl in Hpa.
      destruct (going tk) eqn:Eg; [|done].
      destruct (Hch tk sta wa Hokk) as (H1 & H2 & H3 & _ & H5 & H6 & _).
      destruct (H6 Eg) as [Hfl Hnf].
      destruct (chunk tk sta wa) as [[fl stb] wb]. simpl in *. subst fl.
      apply (IH rest false p'); try done; try congruence.
      rewrite (H5 Hnf). congruence.
Qed.

(* the stop key in Playing: the pass is finished, a chunk is still decoded
   and written, then the loop is left; the code is 2 unless that chunk
   failed *)
Lemma stop_key_in_playing on_key chunk fails going ok :
  loop_of scale on_key chunk fails going ok →
  ∀ c tk rest st w,
    c = "s"%char ∨ c = "S"%char → pressed c tk →
    is_paused st = false → should_stop st = false → playback_error st = false →
    ok st →
    ∃ st' w',
      run_loop true (controlled_pass on_key chunk) (tk :: rest) st w
      = Some (st', w') ∧
      should_stop st' = true ∧
      (fails tk → result_code st' = 1) ∧
      (¬ fails tk → result_code st' = 2).
Proof.
  intros Hv c tk rest st w Hc [Hh Hr] Hp Hs He Hok.
  destruct (loop_of_chunk _ _ _ _ _ Hv) as [Hk Hch].
  assert (Hok' : ok (set_stop st)).
  { destruct Hv as [(_ & _ & _ & _ & ->)|(_ & _ & _ & _ & ->)]; done. }
  cbn [run_loop]. rewrite Hs. cbn [andb].
  unfold controlled_pass, poll_keys, kbhit. rewrite Hh.
  unfold getch. rewrite Hr. rewrite (on_key_stop on_key) by done.
  cbn [is_paused set_stop]. rewrite Hp.
  match goal with |- context [chunk tk ?s0 ?v0] =>
    specialize (Hch tk s0 v0 Hok'); destruct (chunk tk s0 v0) as [[fl st1] w1] end.
  simpl in Hch. destruct Hch as (Hs1 & Hp1 & _ & Hf & Hnf & _ & Hnk).
  exists st1, w1. split.
  { destruct fl; [by apply run_loop_stopped|done|done]. }
  split; [done|].
  unfold result_code. split.
  - intros H. destruct (Hf H) as [-> _]. done.
  - intros H. rewrite (Hnf H), He, Hs1. done.
Qed.

(* only the three codes are returned *)
Lemma result_code_range st :
  result_code st = 0 ∨ result_code st = 1 ∨ result_code st = 2.
Proof. unfold result_code. destruct (playback_error st), (should_stop st); auto. Qed.

Lemma sf_session_codes controls f s w code w' :
  sf_session scale controls f s w = Some (code, w') →
  code = 0 ∨ code = 1 ∨ code = 2.
Proof.
  unfold sf_session. destruct (ss_sf_open s) as [[[fr sr] ch]|]; [|intros [= <- _]; auto].
  destruct (ss_pa_new s); simpl; [|intros [= <- _]; auto].
  destruct (run_loop _ _ _ _ _) as [[st w1]|]; simpl; [|done].
  intros [= <- _]. apply result_code_range.
Qed.

Lemma session_codes f s w code w' :
  player_session scale f s w = Some (code, w') ∨
  controls_session scale f s w = Some (code, w') →
  code = 0 ∨ code = 1 ∨ code = 2.
Proof.
  unfold player_session, controls_session.
  destruct (ss_fopen s); simpl; [|intros [[= <- _]|[= <- _]]; auto].
  destruct (isMP3File f); [|intros [H|H]; by eapply sf_session_codes].
  destruct (mp3_open s _) as [[rc|] w1]; [|intros [[= <- _]|[= <- _]]; auto].
  intros [H|H].
  - destruct (run_loop _ _ _ _ _) as [[st w2]|]; simpl in H; [|done].
    injection H as <- _. destruct (playback_error st); auto.
  - destruct (run_loop _ _ _ _ _) as [[st w2]|]; simpl in H; [|done].
    injection H as <- _. apply result_code_range.
Qed.


(* ---- what the loops call ---- *)

Lemma show_progress_grows cur st w :
  ∃ evs, grows w (show_progress scale cur st w).2 evs ∧ Forall loop_event evs.
Proof. unfold show_progress. repeat case_decide; grow. Qed.

Lemma mp3_chunk_grows tk st w :
  ∃ evs, grows w (mp3_chunk scale tk st w).2 evs ∧ Forall loop_event evs.
Proof.
  unfold mp3_chunk. repeat case_decide; try grow.
  destruct (tk_write tk); simpl; [|grow].
  match goal with |- context [show_progress scale ?c ?s ?v] =>
    destruct (show_progress_grows c s v) as (evs & Hg & Hev);
    destruct (show_progress scale c s v) as [st1 w1] end.
  simpl in *. eexists. split.
  - do 3 apply grows_emit_then. apply Hg.
  - repeat (constructor; [done|]). done.
Qed.

Lemma sf_chunk_grows tk st w :
  ∃ evs, grows w (sf_chunk scale tk st w).2 evs ∧ Forall loop_event evs.
Proof.
  unfold sf_chunk. repeat case_decide; try grow.
  destruct (tk_write tk); simpl; [|grow].
  match goal with |- context [show_progress scale ?c ?s ?v] =>
    destruct (show_progress_grows c s v) as (evs & Hg & Hev);
    destruct (show_progress scale c s v) as [st1 w1] end.
  simpl in *. eexists. split.
  - do 3 apply grows_emit_then. apply Hg.
  - repeat (constructor; [done|]). done.
Qed.

Lemma on_key_loop_events on_key tk key st w :
  on_key = mp3_key ∨ on_key = sf_key →
  ∃ evs, grows w (on_key tk key st w).2 evs ∧ Forall loop_event evs.
Proof.
  intros [-> | ->]; unfold mp3_key, sf_key; repeat case_decide; grow.
Qed.

Lemma controlled_pass_grows on_key chunk tk st w :
  on_key = mp3_key ∨ on_key = sf_key →
  chunk = mp3_chunk scale ∨ chunk = sf_chunk scale →
  ∃ evs, grows w (controlled_pass on_key chunk tk st w).2 evs ∧
         Forall loop_event evs.
Proof.
  intros Hk Hc. unfold controlled_pass, poll_keys, kbhit.
  assert (Hpoll : ∃ evs, grows w
            (if tk_kbhit tk
             then let '(key, w0) := getch tk (emit (EvKbhit (tk_kbhit tk)) w) in
                  on_key tk key st w0
             else (st, emit (EvKbhit (tk_kbhit tk)) w)).2 evs ∧
            Forall loop_event evs).
  { destruct (tk_kbhit tk).
    - pose proof (getch_grows tk (emit (EvKbhit true) w)) as Hg.
      destruct (getch tk (emit (EvKbhit true) w)) as [key w1]. simpl in Hg.
      destruct (on_key_loop_events on_key tk key st w1 Hk) as (evs & Hgr & Hev).
      eexists. split.
      + eapply (grows_trans _ _ _ [_]); [apply grows_emit|].
        eapply grows_trans; [apply Hg|apply Hgr].
      + simpl. repeat (constructor; [done|]). done.
    - exists [EvKbhit false]. split; [apply grows_emit|by repeat constructor]. }
  destruct Hpoll as (evs & Hg & Hev).
  match goal with |- context [if tk_kbhit tk then ?a else ?b] =>
    destruct (if tk_kbhit tk then a else b) as [st1 w1] end.
  simpl in Hg. destruct (is_paused st1).
  - eexists. split; [eapply grows_trans; [apply Hg|apply grows_emit]|].
    apply Forall_app. split; [done|by repeat constructor].
  - assert (Hch : ∃ evs, grows w1 (chunk tk st1 w1).2 evs ∧ Forall loop_event evs).
    { destruct Hc as [-> | ->]; [apply mp3_chunk_grows|apply sf_chunk_grows]. }
    destruct Hch as (evs2 & Hg2 & Hev2).
    eexists. split; [eapply grows_trans; [apply Hg|apply Hg2]|].
    apply Forall_app. done.
Qed.

Lemma run_loop_grows b pass ticks : ∀ st w st' w',
  (∀ tk st w, ∃ evs, grows w (pass tk st w).2 evs ∧ Forall loop_event evs) →
  run_loop b pass ticks st w = Some (st', w') →
  ∃ evs, grows w w' evs ∧ Forall loop_event evs.
Proof.
  induction ticks as [|tk ticks IH]; intros st w st' w' Hpass; simpl.
  - destruct (b && should_stop st); [|done].
    intros [= <- <-]. exists []. split; [apply grows_refl|done].
  - destruct (b && should_stop st).
    { intros [= <- <-]. exists []. split; [apply grows_refl|done]. }
    destruct (Hpass tk st w) as (evs & Hg & Hev).
    destruct (pass tk st w) as [[[] st1] w1]; simpl in Hg.
    + intros Hrun. destruct (IH _ _ _ _ Hpass Hrun) as (evs2 & Hg2 & Hev2).
      exists (evs ++ evs2). split; [by eapply grows_trans|by apply Forall_app].
    + intros [= <- <-]. by exists evs.
    + done.
Qed.

(* ---- the handles ---- *)


Lemma loop_events_neutral acq rel evs : ∀ s,
  resource acq rel → Forall loop_event evs →
  foldl (account acq rel) s evs = s.
Proof.
  induction evs as [|e evs IH]; intros s Hr Hev; [done|].
  apply Forall_cons in Hev as [He Hev]. simpl.
  rewrite IH by done.
  destruct Hr as [(-> & ->)|[(-> & ->)|(-> & ->)]];
    destruct e; try done; unfold account; simpl.
Qed.


Lemma controlled_loop_grows on_key chunk ticks st w st' w' :
  on_key = mp3_key ∨ on_key = sf_key →
  chunk = mp3_chunk scale ∨ chunk = sf_chunk scale →
  run_loop true (controlled_pass on_key chunk) ticks st w = Some (st', w') →
  ∃ evs, grows w w' evs ∧ Forall loop_event evs.
Proof.
  intros Hk Hc. apply run_loop_grows. intros. by apply controlled_pass_grows.
Qed.


(* a list of calls with those of a loop in the middle *)
Lemma ledger_around acq rel pre evs post :
  resource acq rel → Forall loop_event evs →
  ledger acq rel (pre ++ evs ++ post) = ledger acq rel (pre ++ post).
Proof.
  intros Hr Hev. unfold ledger. rewrite !foldl_app.
  by rewrite (loop_events_neutral acq rel evs).
Qed.

Lemma balanced_around pre evs post :
  Forall loop_event evs → balanced (pre ++ post) → balanced (pre ++ evs ++ post).
Proof.
  intros Hev (H1 & H2 & H3). unfold balanced.
  rewrite !ledger_around; try done; unfold resource; auto.
Qed.

Lemma plays_loop evs : Forall loop_event evs → plays evs = [].
Proof.
  induction 1 as [|e evs He _ IH]; [done|].
  unfold plays in *. destruct e; simpl in *; done.
Qed.

Lemma plays_app evs1 evs2 : plays (evs1 ++ evs2) = plays evs1 ++ plays evs2.
Proof. unfold plays. apply omap_app. Qed.

(* the ledger of a list of calls with those of a loop in it *)
Ltac ledger_simpl :=
  cbn [foldl app account decoder_acquire decoder_release stream_acquire
       stream_release output_acquire output_release fst snd].

Ltac settle evs Hev :=
  split;
  [ unfold balanced, ledger; ledger_simpl;
    rewrite ?foldl_app, ?(loop_events_neutral _ _ evs)
      by (try done; unfold resource; auto);
    by ledger_simpl
  | unfold plays; cbn [omap list_omap app]; rewrite ?omap_app;
    fold (plays evs);
    rewrite ?(plays_loop evs Hev); by cbn [omap list_omap app] ].

Ltac session_end evs Hev Ht :=
  eexists; split;
  [ unfold grows; wsimpl; rewrite ?Ht; wsimpl; rewrite <- ?app_assoc;
    cbn [app]; repeat split; try done; reflexivity
  | settle evs Hev ].

Lemma sf_session_grows controls f s w code w' :
  sf_session scale controls f s w = Some (code, w') →
  ∃ evs, grows w w' evs ∧ balanced evs ∧ plays evs = [].
Proof.
  unfold sf_session. destruct (ss_sf_open s) as [[[fr sr] ch]|] eqn:Eo; simpl.
  2:{ intros [= <- <-]. eexists; split;
        [unfold grows; simpl; rewrite <- ?app_assoc; by repeat split|].
      by vm_compute. }
  destruct (ss_pa_new s) eqn:Ep; simpl.
  2:{ intros [= <- <-]. eexists; split;
        [unfold grows; simpl; rewrite <- ?app_assoc; by repeat split|].
      by vm_compute. }
  match goal with |- context [run_loop true ?p ?t ?s0 ?w0] =>
    destruct (run_loop true p t s0 w0) as [[st w1]|] eqn:Erun; [|done] end.
  simpl. intros [= <- <-].
  apply controlled_loop_grows in Erun as (evs & Hg & Hev); auto.
  destruct Hg as (Ht & Htty & Hfl & Hse & Han & Hnu & Hme & Hst).
  revert Ht Htty Hfl Hse Han Hnu Hme Hst.
  unfold print_banner, finish_controls.
  destruct (bool_decide _), controls, (playback_error st), (should_stop st),
    (ss_drain s); cbn [negb andb]; wsimpl; intros;
    session_end evs Hev Ht.
Qed.


#[local] Arguments isMP3File : simpl never.
#[local] Arguments run_loop : simpl never.

Ltac early_exit :=
  intros [= <- <-]; eexists; split;
  [ unfold grows; simpl; rewrite <- ?app_assoc; by repeat split
  | by vm_compute ].

Lemma controls_session_grows f s w code w' :
  controls_session scale f s w = Some (code, w') →
  ∃ evs, grows w w' evs ∧ balanced evs ∧ plays evs = [f].
Proof.
  unfold controls_session. destruct (ss_fopen s) eqn:Ef; simpl.
  2:{ intros [= <- <-]. eexists; split;
        [unfold grows; simpl; rewrite <- ?app_assoc; by repeat split|].
      split; by vm_compute. }
  destruct (isMP3File f).
  2:{ intros H. apply sf_session_grows in H as (evs & Hg & Hb & Hp).
      exists (EvFopen f true :: EvFclose :: evs). split.
      - by do 2 apply grows_emit_then.
      - split; [|change (plays (EvFopen f true :: EvFclose :: evs))
                    with (f :: plays evs); by rewrite Hp].
        destruct Hb as (H1 & H2 & H3). unfold balanced, ledger in *. by simpl. }
  unfold mp3_open.
  destruct (ss_mpg_init s); simpl; [|early_exit].
  destruct (ss_mpg_new s); simpl; [|early_exit].
  destruct (ss_mpg_open s); simpl; [|early_exit].
  destruct (ss_getformat s) as [rc|]; simpl; [|early_exit].
  destruct (ss_format s); simpl; [|early_exit].
  destruct (ss_pa_new s); simpl; [|early_exit].
  match goal with |- context [run_loop true ?p ?t ?s0 ?w0] =>
    destruct (run_loop true p t s0 w0) as [[st w1]|] eqn:Erun; [|done] end.
  simpl. intros [= <- <-].
  apply controlled_loop_grows in Erun as (evs & Hg & Hev); auto.
  destruct Hg as (Ht & Htty & Hfl & Hse & Han & Hnu & Hme & Hst).
  revert Ht Htty Hfl Hse Han Hnu Hme Hst.
  unfold print_banner, finish_controls, mp3_scan, mp3_close.
  destruct (bool_decide _), (ss_scan s), (playback_error st), (should_stop st),
    (ss_drain s); cbn [negb andb]; wsimpl; intros;
    session_end evs Hev Ht.
Qed.

Lemma player_session_grows f s w code w' :
  player_session scale f s w = Some (code, w') →
  ∃ evs, grows w w' evs ∧ balanced evs ∧ plays evs = [f].
Proof.
  unfold player_session. destruct (ss_fopen s) eqn:Ef; simpl.
  2:{ intros [= <- <-]. eexists; split;
        [unfold grows; simpl; rewrite <- ?app_assoc; by repeat split|].
      split; by vm_compute. }
  destruct (isMP3File f).
  2:{ intros H. apply sf_session_grows in H as (evs & Hg & Hb & Hp).
      exists (EvFopen f true :: EvFclose :: evs). split.
      - by do 2 apply grows_emit_then.
      - split; [|change (plays (EvFopen f true :: EvFclose :: evs))
                    with (f :: plays evs); by rewrite Hp].
        destruct Hb as (H1 & H2 & H3). unfold balanced, ledger in *. by simpl. }
  unfold mp3_open.
  destruct (ss_mpg_init s); simpl; [|early_exit].
  destruct (ss_mpg_new s); simpl; [|early_exit].
  destruct (ss_mpg_open s); simpl; [|early_exit].
  destruct (ss_getformat s) as [rc|]; simpl; [|early_exit].
  destruct (ss_format s); simpl; [|early_exit].
  destruct (ss_pa_new s); simpl; [|early_exit].
  match goal with |- context [run_loop false ?p ?t ?s0 ?w0] =>
    destruct (run_loop false p t s0 w0) as [[st w1]|] eqn:Erun; [|done] end.
  simpl. intros [= <- <-].
  apply run_loop_grows in Erun as (evs & Hg & Hev);
    [|intros; apply mp3_chunk_grows].
  destruct Hg as (Ht & Htty & Hfl & Hse & Han & Hnu & Hme & Hst).
  revert Ht Htty Hfl Hse Han Hnu Hme Hst.
  unfold print_banner, mp3_scan, mp3_close.
  destruct (bool_decide _), (ss_scan s), (playback_error st),
    (ss_drain s); cbn [negb andb]; wsimpl; intros;
    session_end evs Hev Ht.
Qed.

(* ---- a session returns when its script ends on the stop key ---- *)

Lemma ok_poll_keys on_key chunk fails going ok tk st w :
  loop_of scale on_key chunk fails going ok →
  ok st → ok (poll_keys on_key tk st w).1.
Proof.
  intros Hv Hok.
  destruct (loop_of_chunk _ _ _ _ _ Hv) as [Hk _].
  destruct (poll_keys_flags on_key tk st w Hk) as (_ & Hc & _).
  destruct Hv as [(_ & _ & _ & _ & ->)|(_ & _ & _ & _ & ->)]; [done|].
  simpl in *. by rewrite Hc.
Qed.

Lemma stop_tick_ends_loop on_key chunk fails going ok c tk : ∀ ticks st w,
  loop_of scale on_key chunk fails going ok →
  c = "s"%char ∨ c = "S"%char → pressed c tk → ok st →
  is_Some (run_loop true (controlled_pass on_key chunk) (ticks ++ [tk]) st w).
Proof.
  intros ticks st w Hv Hc [Hh Hr].
  destruct (loop_of_chunk _ _ _ _ _ Hv) as [Hk Hch].
  revert st w. induction ticks as [|tk0 ticks IH]; intros st w Hok.
  - cbn [app]. rewrite run_loop_cons.
    destruct (should_stop st) eqn:Hs; cbn [andb]; [by eexists|].
    unfold controlled_pass, poll_keys, kbhit. rewrite Hh.
    unfold getch. rewrite Hr. rewrite (on_key_stop on_key) by done.
    destruct (is_paused (set_stop st)); [by eexists|].
    assert (Hok' : ok (set_stop st)).
    { destruct Hv as [(_ & _ & _ & _ & ->)|(_ & _ & _ & _ & ->)]; done. }
    match goal with |- context [chunk tk ?s0 ?v0] =>
      specialize (Hch tk s0 v0 Hok'); destruct (chunk tk s0 v0) as [[fl st1] w1] end.
    simpl in Hch. destruct Hch as (Hs1 & _ & _ & _ & _ & _ & Hnk).
    destruct fl; [|by eexists|done]. rewrite run_loop_stopped by done. by eexists.
  - cbn [app]. rewrite run_loop_cons. destruct (true && should_stop st); [by eexists|].
    pose proof (ok_poll_keys _ _ _ _ _ tk0 st w Hv Hok) as Hok1.
    unfold controlled_pass.
    destruct (poll_keys on_key tk0 st w) as [sta wa]. simpl in Hok1.
    destruct (is_paused sta); [by apply IH|].
    destruct (Hch tk0 sta wa Hok1) as (_ & _ & Hok2 & _ & _ & _ & Hnk).
    destruct (chunk tk0 sta wa) as [[[] stb] wb]; simpl in *;
      [by apply IH|by eexists|done].
Qed.

(** X7: playerWithControls returns on every script whose last pass reads
    the stop key, whatever the other answers of the libraries, for an MP3
    file and for a file of which libsndfile does not report 0 channels. *)
Theorem controls_session_returns f s w c tk ticks :
  ss_ticks s = ticks ++ [tk] → c = "s"%char ∨ c = "S"%char → pressed c tk →
  isMP3File f = true ∨ has_channels s →
  is_Some (controls_session scale f s w).
Proof.
  intros Ht Hc Hp Hch. unfold controls_session, sf_session.
  destruct (ss_fopen s); cbn [negb]; [|by eexists].
  destruct (isMP3File f).
  - destruct (mp3_open s _) as [[rc|] w1]; [|by eexists].
    rewrite Ht.
    match goal with |- context [run_loop true ?p (ticks ++ [tk]) ?st ?v] =>
      destruct (stop_tick_ends_loop mp3_key (mp3_chunk scale) mp3_chunk_fails
                  mp3_goes_on (λ _, True) c tk ticks st v)
        as [[st' w'] ->]; [by left|done|done|done|] end.
    by eexists.
  - destruct Hch as [|Hch]; [done|].
    destruct (ss_sf_open s) as [[[fr sr] ch]|] eqn:Eo; [|by eexists].
    destruct (ss_pa_new s); cbn [negb]; [|by eexists].
    rewrite Ht.
    match goal with |- context [run_loop true ?p (ticks ++ [tk]) ?st ?v] =>
      destruct (stop_tick_ends_loop sf_key (sf_chunk scale) sf_chunk_fails
                  sf_goes_on (λ l, channels l mod 18446744073709551616 ≠ 0)
                  c tk ticks st v)
        as [[st' w'] ->]; [by right|done|done|by apply (Hch fr sr ch)|] end.
    by eexists.
Qed.


(** C1: whenever a session returns - player() or playerWithControls(), with
    any of the three codes and on the early error exits as well - the
    terminal attributes and the file status flags of standard input are the
    ones the session found, and of the calls made since the session started
    every acquisition of the decoder handle (mpg123_new, sf_open), of the
    file the mpg123 handle has open, and of the output stream
    (pa_simple_new) is matched by one release, none being released when
    none is held. *)
Theorem C1_session_restores_and_releases f s w code w' :
  player_session scale f s w = Some (code, w') ∨
  controls_session scale f s w = Some (code, w') →
  tty w' = tty w ∧ stdin_flags w' = stdin_flags w ∧ balanced (since w w').
Proof.
  intros [H|H];
    [apply player_session_grows in H|apply controls_session_grows in H];
    destruct H as (evs & Hg & Hb & _);
    rewrite (grows_since _ _ _ Hg);
    destruct Hg as (_ & ? & ? & _); done.
Qed.

(* the entry points take the next script of the world *)
Lemma playerWithControls_grows f w code w' :
  playerWithControls scale f w = Some (code, w') →
  ∃ s evs,
    sessions w = s :: sessions w' ∧ trace w' = trace w ++ evs ∧
    plays evs = [f] ∧ balanced evs ∧
    tty w' = tty w ∧ stdin_flags w' = stdin_flags w ∧
    answers w' = answers w ∧ numbers w' = numbers w ∧
    mem w' = mem w ∧ stack_mem w' = stack_mem w.
Proof.
  unfold playerWithControls. destruct (sessions w) as [|s rest] eqn:Es; [done|].
  intros H. apply controls_session_grows in H as (evs & Hg & Hb & Hp).
  destruct Hg as (? & ? & ? & ? & ? & ? & ? & ?). simpl in *.
  exists s, evs. split; [congruence|]. by repeat (split; [done|]).
Qed.

Lemma entry_point_codes f w code w' :
  player scale f w = Some (code, w') ∨
  playerWithControls scale f w = Some (code, w') →
  code = 0 ∨ code = 1 ∨ code = 2.
Proof.
  unfold player, playerWithControls.
  destruct (sessions w) as [|s rest]; [intros [|]; done|].
  intros [H|H]; eapply session_codes; eauto.
Qed.

Lemma loop_event_no_drain evs :
  Forall loop_event evs → Forall (λ e, is_drain e = false) evs.
Proof. intros H. eapply Forall_impl; [apply H|]. by intros []. Qed.

Lemma outputs_app a b : outputs (a ++ b) = outputs a ++ outputs b.
Proof. unfold outputs. apply omap_app. Qed.

(* the calls of a session stopped by the user: nothing is drained, and
   the last thing said is that playback was stopped by the user *)
Ltac stopped_end evs Hev :=
  split;
  [ repeat (apply Forall_cons; split; [done|]);
    apply Forall_app; split;
    [by apply loop_event_no_drain|by repeat constructor]
  | unfold outputs; cbn [omap list_omap]; rewrite omap_app;
    cbn [omap list_omap];
    repeat apply suffix_cons_r; by apply suffix_app_r ].

(* the stop key read in a pass made in Playing, in a session that has
   reached its loop *)
Lemma stop_key_in_session f s w c pre tk rest :
  reaches_loop f s = true →
  ss_ticks s = pre ++ tk :: rest →
  paused_after (goes_on f) false pre = Some false →
  c = "s"%char ∨ c = "S"%char → pressed c tk →
  ∃ code w',
    controls_session scale f s w = Some (code, w') ∧
    (chunk_fails f tk → code = 1) ∧
    (¬ chunk_fails f tk → code = 2) ∧
    Forall (λ e, is_drain e = false) (since w w') ∧
    [Newline; StoppedByUser] `suffix_of` outputs (since w w').
Proof.
  intros Hr Ht Hpa Hc Hpr.
  unfold reaches_loop in Hr. unfold goes_on in Hpa. unfold chunk_fails.
  apply andb_true_iff in Hr as [Hr Hr2].
  apply andb_true_iff in Hr as [Hfo Hpn].
  unfold controls_session. rewrite Hfo. cbn [negb].
  destruct (isMP3File f).
  - repeat (apply andb_true_iff in Hr2 as [Hr2 ?]).
    apply bool_decide_eq_true in H0 as [rc Hgf].
    unfold mp3_open. rewrite Hr2, H2, H1, Hgf, H, Hpn. cbn [negb].
    rewrite Ht.
    match goal with |- context [run_loop true ?p (pre ++ tk :: rest) ?st ?v] =>
      destruct (passes_before mp3_key (mp3_chunk scale) mp3_chunk_fails
                  mp3_goes_on (λ _, True) (or_introl (conj eq_refl (conj eq_refl
                    (conj eq_refl (conj eq_refl eq_refl)))))
                  pre (tk :: rest) false false st v Hpa)
        as (st1 & w1 & Hrun1 & Hp1 & Hs1 & He1 & Hok1); try done;
      destruct (stop_key_in_playing mp3_key (mp3_chunk scale) mp3_chunk_fails
                  mp3_goes_on (λ _, True) (or_introl (conj eq_refl (conj eq_refl
                    (conj eq_refl (conj eq_refl eq_refl)))))
                  c tk rest st1 w1 Hc Hpr Hp1 Hs1 He1 Hok1)
        as (st' & w' & Hrun2 & Hs' & Hf & Hnf);
      rewrite <- Hrun1 in Hrun2;
      pose proof (controlled_loop_grows _ _ _ _ _ _ _ (or_introl eq_refl)
                    (or_introl eq_refl) Hrun2) as (evs & Hg & Hev);
      rewrite Hrun2 end.
    cbn [mbind option_bind]. rewrite finish_controls_stopped by done.
    eexists _, _. split; [reflexivity|]. split; [done|]. split; [done|].
    destruct Hg as (Htr & _). revert Htr.
    unfold since, print_banner, mp3_scan, mp3_close.
    destruct (bool_decide _), (ss_scan s); wsimpl; intros Htr; rewrite Htr;
      wsimpl; rewrite <- !app_assoc, drop_app_length; cbn [app].
    all: stopped_end evs Hev.
  - destruct (ss_sf_open s) as [[[fr sr] ch]|] eqn:Eo; [|done].
    apply bool_decide_eq_true in Hr2.
    unfold sf_session. rewrite Eo, Hpn. cbn [negb].
    rewrite Ht.
    match goal with |- context [run_loop true ?p (pre ++ tk :: rest) ?st ?v] =>
      destruct (passes_before sf_key (sf_chunk scale) sf_chunk_fails
                  sf_goes_on (λ l, channels l mod 18446744073709551616 ≠ 0)
                  (or_intror (conj eq_refl (conj eq_refl
                    (conj eq_refl (conj eq_refl eq_refl)))))
                  pre (tk :: rest) false false st v Hpa)
        as (st1 & w1 & Hrun1 & Hp1 & Hs1 & He1 & Hok1); try done;
      destruct (stop_key_in_playing sf_key (sf_chunk scale) sf_chunk_fails
                  sf_goes_on (λ l, channels l mod 18446744073709551616 ≠ 0)
                  (or_intror (conj eq_refl (conj eq_refl
                    (conj eq_refl (conj eq_refl eq_refl)))))
                  c tk rest st1 w1 Hc Hpr Hp1 Hs1 He1 Hok1)
        as (st' & w' & Hrun2 & Hs' & Hf & Hnf);
      rewrite <- Hrun1 in Hrun2;
      pose proof (controlled_loop_grows _ _ _ _ _ _ _ (or_intror eq_refl)
                    (or_intror eq_refl) Hrun2) as (evs & Hg & Hev);
      rewrite Hrun2 end.
    cbn [mbind option_bind]. rewrite finish_controls_stopped by done.
    eexists _, _. split; [reflexivity|]. split; [done|]. split; [done|].
    destruct Hg as (Htr & _). revert Htr.
    unfold since, print_banner.
    destruct (bool_decide _); wsimpl; intros Htr; rewrite Htr;
      wsimpl; rewrite <- !app_assoc, drop_app_length; cbn [app].
    all: stopped_end evs Hev.
Qed.

(** C4: in a session of playerWithControls that has reached its loop,
    when 's' or 'S' is read in a pass made in Playing - the passes before
    it having left the loop running - the session returns, whatever the
    script holds next: nothing is drained, and the last thing the session
    says is that playback was stopped by the user. The code it returns is
    2 unless the decode or the write of the chunk of that pass, which is
    still made after the key is read, failed; then it is 1, the code of
    an error, although the session has just said that the user stopped
    it. This holds for the MP3 loop and for the libsndfile loop. The entry
    points return 0, 1 or 2 only. A driver (sequential, repeat, reverse)
    that gets 2 from playerWithControls says that playback stopped and
    returns: no prompt, no further track. In the two runs given last the
    write of the pass that reads 's' fails: playerWithControls returns 1,
    and the sequential driver does not halt but asks whether to continue
    with the next track. *)
Theorem C4_stop_key_then_failed_chunk_returns_1 :
  (∀ f w s more c pre tk rest,
     sessions w = s :: more →
     reaches_loop f s = true →
     ss_ticks s = pre ++ tk :: rest →
     paused_after (goes_on f) false pre = Some false →
     c = "s"%char ∨ c = "S"%char → pressed c tk →
     ∃ code w',
       playerWithControls scale f w = Some (code, w') ∧
       (chunk_fails f tk → code = 1) ∧
       (¬ chunk_fails f tk → code = 2) ∧
       Forall (λ e, is_drain e = false) (since w w') ∧
       [Newline; StoppedByUser] `suffix_of` outputs (since w w')) ∧
  (∀ f w code w',
     player scale f w = Some (code, w') ∨
     playerWithControls scale f w = Some (code, w') →
     code = 0 ∨ code = 1 ∨ code = 2) ∧
  (∀ a nd w w1,
     mem w !! a = Some nd →
     (∀ k i n,
        playerWithControls scale (song nd)
          (say (TrackBanner (i + 1) n (song nd) (artist nd)) w) = Some (2, w1) →
        sequential_loop scale (S k) i n (Some a) w
        = Some (say PlaylistStopped w1)) ∧
     (∀ k i n rounds bound,
        playerWithControls scale (song nd)
          (say (RepeatBanner (Z.rem i n + 1) n (Z.quot i n + 1) rounds
                  (song nd) (artist nd)) w) = Some (2, w1) →
        repeat_loop scale (S k) i n rounds bound (Some a) w
        = Some (say PlaybackStopped w1)) ∧
     (∀ k count n s0 s1 w0,
        Stack_pop s0 w0 = Some (Some a, s1, w) →
        playerWithControls scale (song nd)
          (say (ReverseBanner count n (song nd) (artist nd)) w) = Some (2, w1) →
        reverse_loop scale (S k) count n s0 w0
        = Some (false, s1, say PlaybackStopped w1))) ∧
  option_map (λ r, (r.1, outputs (trace r.2)))
    (playerWithControls double_scale "a.mp3"
       (set_sessions [stop_then_failed_write] world0))
  = Some (1, [NowPlaying "a.mp3"; Duration; ControlsHelp; Rule;
              Progress 12 50; Stopped; ErrWrite; Newline; StoppedByUser]) ∧
  option_map (λ w', outputs (trace w'))
    (playWithControls double_scale sample_list
       (set_answers ["n"%char]
          (set_sessions [stop_then_failed_write] (sample_world 0))))
  = Some [PlaylistHeader "mix" 3; TrackBanner 1 3 "a.mp3" "A";
          NowPlaying "a.mp3"; Duration; ControlsHelp; Rule;
          Progress 12 50; Stopped; ErrWrite; Newline; StoppedByUser;
          PromptContinue; PlaybackStopped].
Proof.
  split; [|split; [|split; [|split]]].
  - intros f w s more c pre tk rest Hse Hr Ht Hpa Hc Hpr.
    unfold playerWithControls. rewrite Hse.
    destruct (stop_key_in_session f s (set_sessions more w) c pre tk rest)
      as (code & w' & Hrun & H1 & H2 & H3 & H4); try done.
    by exists code, w'.
  - apply entry_point_codes.
  - intros a nd w w1 Hnd. split; [|split].
    + intros k i n H. cbn [sequential_loop]. rewrite Hnd. simpl. rewrite H.
      by simpl.
    + intros k i n rounds bound H. cbn [repeat_loop]. rewrite Hnd. simpl.
      rewrite H. by simpl.
    + intros k count n s0 s1 w0 Hpop H. cbn [reverse_loop]. rewrite Hpop.
      simpl. rewrite Hnd. simpl. rewrite H. by simpl.
  - by vm_compute.
  - by vm_compute.
Qed.

End SessionFacts.


Section SessionSamples.

#[local] Open Scope string_scope.

Lemma C1_witness :
  ∃ w', controls_session double_scale "a.mp3"
          (good_script [idle_tick 4096 1152; end_tick]) world0 = Some (0, w') ∧
        tty w' = tty world0 ∧ stdin_flags w' = stdin_flags world0 ∧
        balanced (since world0 w').
Proof.
  eexists. split; [by vm_compute|].
  apply (C1_session_restores_and_releases double_scale "a.mp3"
           (good_script [idle_tick 4096 1152; end_tick]) world0 0).
  right. by vm_compute.
Defined.

Lemma C4_witness :
  ∃ code w',
    playerWithControls double_scale "b.wav"
      (set_sessions [stop_then_failed_write] world0) = Some (code, w') ∧
    (chunk_fails "b.wav" (key_tick "s" 0 4096 0 false) → code = 1) ∧
    (¬ chunk_fails "b.wav" (key_tick "s" 0 4096 0 false) → code = 2) ∧
    Forall (λ e, is_drain e = false)
      (since (set_sessions [stop_then_failed_write] world0) w') ∧
    [Newline; StoppedByUser] `suffix_of`
      outputs (since (set_sessions [stop_then_failed_write] world0) w').
Proof.
  apply (proj1 (C4_stop_key_then_failed_chunk_returns_1 double_scale)
           "b.wav" (set_sessions [stop_then_failed_write] world0)
           stop_then_failed_write [] "s"%char
           [idle_tick 4096 500000] (key_tick "s" 0 4096 0 false) [end_tick]).
  - reflexivity.
  - by vm_compute.
  - reflexivity.
  - by vm_compute.
  - by left.
  - split; reflexivity.
Defined.

Lemma C5_witness :
  ∃ w1,
    Forall (λ e, backend_call e = false) (since world0 w1) ∧
    run_loop true (controlled_pass mp3_key (mp3_chunk double_scale))
      [key_tick " " 0 4096 1152 true; idle_tick 4096 1152;
       key_tick " " 0 4096 1152 true; end_tick]
      (init_loop 44100 2 1000000) world0 =
    match mp3_chunk double_scale (key_tick " " 0 4096 1152 true)
            (init_loop 44100 2 1000000) w1 with
    | (Break, st', w') => Some (st', w')
    | (Continue, st', w') =>
        run_loop true (controlled_pass mp3_key (mp3_chunk double_scale))
          [end_tick] st' w'
    | (Killed, _, _) => None
    end.
Proof.
  apply (proj2 (C5_pause_suspends_decoding mp3_key
                  (mp3_chunk double_scale) (or_introl eq_refl))
           (init_loop 44100 2 1000000) world0
           (key_tick " " 0 4096 1152 true) [idle_tick 4096 1152]
           (key_tick " " 0 4096 1152 true) [end_tick]).
  - reflexivity.
  - reflexivity.
  - split; reflexivity.
  - repeat constructor.
  - split; reflexivity.
Defined.

Lemma mp3_seek_forward_witness :
  mp3_key (key_tick "k" 941000 4096 941000 true) "k"
    (set_position 0 500000 (init_loop 44100 2 1000000)) world0
  = (set_position 0 500000 (init_loop 44100 2 1000000),
     say JumpedForward (emit (EvMpgSeekFrame 941000 941000) world0)).
Proof.
  rewrite mp3_seek_forward; [reflexivity|simpl; lia|simpl; lia|simpl; lia].
Defined.

Lemma mp3_seek_back_witness :
  mp3_key (key_tick "j" 0 4096 0 true) "j"
    (set_position 0 100000 (init_loop 44100 2 1000000)) world0
  = (set_position 0 100000 (init_loop 44100 2 1000000),
     say JumpedBack (emit (EvMpgSeekFrame 0 0) world0)).
Proof.
  rewrite mp3_seek_back; [reflexivity|simpl; lia|simpl; lia].
Defined.

Lemma controls_session_returns_witness :
  is_Some (controls_session double_scale "b.wav"
             (good_script [idle_tick 4096 4096; key_tick "s" 0 4096 8192 true])
             world0).
Proof.
  apply (controls_session_returns double_scale "b.wav" _ world0 "s"%char
           (key_tick "s" 0 4096 8192 true) [idle_tick 4096 4096]).
  - reflexivity.
  - by left.
  - split; reflexivity.
  - right. intros frames samplerate chans [= <- <- <-]. by vm_compute.
Defined.


End SessionSamples.


(* ---- the progress display ---- *)

Section ProgressFacts.
Context (scale : Z → Z → Z → Z).



Lemma quiet_nil : quiet [].
Proof. done. Qed.












(* ---- the width of the bar ---- *)












End ProgressFacts.



(* ---- the traversals ---- *)

Section TraversalFacts.
Context (scale : Z → Z → Z → Z).

#[local] Arguments playerWithControls : simpl never.
#[local] Arguments ask_continue : simpl never.

Lemma lseg_nth h cells tl : ∀ j c,
  lseg h cells tl → cells !! j = Some c →
  h !! c.1 = Some (Node c.2.1 c.2.2 (hd_or (drop (S j) cells) tl)).
Proof.
  induction cells as [|c0 cells IH]; intros j c Hl Hj; [done|].
  destruct Hl as [Hc Hl]. destruct j as [|j]; simpl in *.
  - injection Hj as <-. by rewrite drop_0.
  - by apply IH.
Qed.

(* in a circular list the node after cell i is cell i + 1, in a circle *)
Lemma linked_next h L cells i c :
  linked h L cells → cells !! (i mod length cells)%nat = Some c →
  ∃ c', cells !! (S i mod length cells)%nat = Some c' ∧
        h !! c.1 = Some (Node c.2.1 c.2.2 (Some c'.1)).
Proof.
  intros (_ & Hl & _) Hc.
  assert (Hlen : (0 < length cells)%nat) by (destruct cells; [done|simpl; lia]).
  pose proof (lseg_nth _ _ _ _ _ Hl Hc) as Hn.
  pose proof (Nat.mod_upper_bound i (length cells)) as Hb.
  replace (S i mod length cells)%nat
    with (S (i mod length cells) mod length cells)%nat.
  2:{ rewrite <- (Nat.add_1_r i), <- (Nat.add_1_r (i mod _)).
      by rewrite Nat.Div0.add_mod_idemp_l. }
  destruct (decide (S (i mod length cells) < length cells)%nat) as [Hlt|Hge].
  - rewrite Nat.mod_small by done.
    destruct (lookup_lt_is_Some_2 cells (S (i mod length cells)) Hlt) as [c' Hc'].
    exists c'. split; [done|]. rewrite Hn.
    by rewrite (drop_S _ _ _ Hc').
  - assert (S (i mod length cells) = length cells) as E by lia.
    rewrite E in Hn |- *.
    rewrite Nat.Div0.mod_same. destruct cells as [|c0 cells]; [done|].
    exists c0. split; [done|]. rewrite Hn. by rewrite drop_all.
Qed.

Lemma cycle_from_S cells idx m c :
  cells !! (idx mod length cells)%nat = Some c →
  cycle_from (songs cells) idx (S m) = c.2.1 :: cycle_from (songs cells) (S idx) m.
Proof.
  intros H. simpl. unfold songs at 1 2. by rewrite length_fmap, list_lookup_fmap, H.
Qed.

(* ---- the calls of a traversal ---- *)

Lemma drives_refl w : drives w w [].
Proof. exists []. by rewrite app_nil_r. Qed.

Lemma drives_trans w1 w2 w3 a b :
  drives w1 w2 a → drives w2 w3 b → drives w1 w3 (a ++ b).
Proof.
  intros (e1 & Ht1 & Hp1 & ? & ? & ?) (e2 & Ht2 & Hp2 & ? & ? & ?).
  exists (e1 ++ e2). rewrite Ht2, Ht1, app_assoc, plays_app, Hp1, Hp2.
  repeat split; congruence.
Qed.

Lemma drives_nil_l w1 w2 w3 fs :
  drives w1 w2 [] → drives w2 w3 fs → drives w1 w3 fs.
Proof. intros H1 H2. apply (drives_trans _ _ _ [] fs H1 H2). Qed.

Lemma drives_nil_r w1 w2 w3 fs :
  drives w1 w2 fs → drives w2 w3 [] → drives w1 w3 fs.
Proof.
  intros H1 H2. rewrite <- (app_nil_r fs). apply (drives_trans _ _ _ fs [] H1 H2).
Qed.

Lemma drives_cons w1 w2 w3 f fs :
  drives w1 w2 [f] → drives w2 w3 fs → drives w1 w3 (f :: fs).
Proof. intros H1 H2. apply (drives_trans _ _ _ [f] fs H1 H2). Qed.

Lemma drives_say w m : drives w (say m w) [].
Proof. by exists [EvOut m]. Qed.

Lemma drives_sleep w n : drives w (emit (EvSleep n) w) [].
Proof. by exists [EvSleep n]. Qed.

Lemma drives_set_stack_mem w sm : drives w (set_stack_mem sm w) [].
Proof. exists []. simpl. by rewrite app_nil_r. Qed.

Lemma drives_mem w w' fs : drives w w' fs → mem w' = mem w.
Proof. by intros (? & ? & ? & ? & ? & ?). Qed.

Lemma last_say w m : last (trace (say m w)) = Some (EvOut m).
Proof. simpl. apply last_snoc. Qed.

Lemma drives_session f w code w' :
  playerWithControls scale f w = Some (code, w') →
  drives w w' [f] ∧ stack_mem w' = stack_mem w ∧
  (∃ s, sessions w = s :: sessions w').
Proof.
  intros H. apply playerWithControls_grows in H
    as (s & evs & ? & ? & ? & ? & ? & ? & ? & ? & ? & ?).
  split; [by exists evs|]. split; [done|by exists s].
Qed.

Lemma ask_continue_drives w b w' :
  ask_continue w = Some (b, w') →
  drives w w' [] ∧ stack_mem w' = stack_mem w ∧ sessions w' = sessions w.
Proof.
  unfold ask_continue. simpl. destruct (answers w) as [|c rest]; [done|].
  intros [= <- <-]. split; [|done].
  exists [EvOut PromptContinue; EvCin c]. simpl. rewrite <- app_assoc. done.
Qed.

(* the prompt after a session that returned 1, and what is said before
   the next track *)
Lemma after_session result w2 go_on w3 :
  (if decide (result ≠ 0) then ask_continue w2 else Some (true, w2))
  = Some (go_on, w3) →
  drives w2 w3 [] ∧ stack_mem w3 = stack_mem w2 ∧ sessions w3 = sessions w2.
Proof.
  case_decide; [apply ask_continue_drives|].
  intros [= <- <-]. split; [apply drives_refl|done].
Qed.

Lemma drives_skipping (b : bool) m w :
  drives w (if b then say m w else w) [].
Proof. destruct b; [apply drives_say|apply drives_refl]. Qed.

Lemma drives_next (b : bool) w :
  drives w (if b then emit (EvSleep 2) (say NextTrackIn2s w) else w) [].
Proof.
  destruct b; [|apply drives_refl].
  eapply drives_nil_l; [apply drives_say|apply drives_sleep].
Qed.

(* ---- playWithControlsRepeat ---- *)

Lemma repeat_loop_plays h lst cells n rounds bound :
  linked h lst cells →
  ∀ k i idx c w w',
    mem w = h → cells !! (idx mod length cells)%nat = Some c →
    repeat_loop scale k i n rounds bound (Some c.1) w = Some w' →
    ∃ m, (m ≤ k)%nat ∧ drives w w' (cycle_from (songs cells) idx m) ∧
         (last (trace w') = Some (EvOut RepeatComplete) → m = k).
Proof.
  intros Hc. induction k as [|k IH]; intros i idx c w w' Hm Hidx.
  { simpl. intros [= <-]. exists 0%nat. split; [done|].
    split; [apply drives_say|done]. }
  cbn [repeat_loop].
  destruct (linked_next _ _ _ _ _ Hc Hidx) as (c' & Hidx' & Hnd).
  rewrite Hm, Hnd. cbn [mbind option_bind song artist next].
  match goal with |- context [playerWithControls scale ?f ?v] =>
    destruct (playerWithControls scale f v) as [[result w2]|] eqn:Ep; [|done];
    assert (Hb : drives w v []) by apply drives_say end.
  apply drives_session in Ep as (Hd2 & _ & _).
  pose proof (drives_nil_l _ _ _ _ Hb Hd2) as Hd. clear Hb Hd2.
  cbn [mbind option_bind].
  case_decide as Hr.
  { intros [= <-]. exists 1%nat. split; [lia|]. split.
    - rewrite (cycle_from_S _ _ _ _ Hidx).
      eapply drives_nil_r; [apply Hd|apply drives_say].
    - rewrite last_say. done. }
  match goal with |- context [if decide (result ≠ 0) then ?a else ?b] =>
    destruct (if decide (result ≠ 0) then a else b) as [[go_on w3]|] eqn:Ea;
      [|done] end.
  apply after_session in Ea as (Hd3 & _ & _).
  pose proof (drives_nil_r _ _ _ _ Hd Hd3) as Hd'. clear Hd Hd3.
  cbn [mbind option_bind]. destruct go_on; cbn [negb].
  2:{ intros [= <-]. exists 1%nat. split; [lia|]. split.
      - rewrite (cycle_from_S _ _ _ _ Hidx).
        eapply drives_nil_r; [apply Hd'|apply drives_say].
      - rewrite last_say. done. }
  pose proof (drives_skipping (bool_decide (result ≠ 0)) Skipping w3) as Hd4.
  assert (Hw4 : (if bool_decide (result ≠ 0) then say Skipping w3 else w3)
                = (if decide (result ≠ 0) then say Skipping w3 else w3))
    by (by rewrite bool_decide_decide; destruct (decide (result ≠ 0))).
  rewrite Hw4 in Hd4. clear Hw4.
  set (w4 := if decide (result ≠ 0) then say Skipping w3 else w3) in *.
  pose proof (drives_nil_r _ _ _ _ Hd' Hd4) as Hd5.
  rewrite (drives_mem _ _ _ Hd5), Hm, Hnd. cbn [mbind option_bind next].
  pose proof (drives_next (bool_decide (i < bound - 1)) w4) as Hd6.
  assert (Hw5 : (if bool_decide (i < bound - 1)
                 then emit (EvSleep 2) (say NextTrackIn2s w4) else w4)
                = (if decide (i < bound - 1)
                   then emit (EvSleep 2) (say NextTrackIn2s w4) else w4))
    by (by rewrite bool_decide_decide; destruct (decide (i < bound - 1))).
  rewrite Hw5 in Hd6. clear Hw5.
  set (w5 := if decide (i < bound - 1)
             then emit (EvSleep 2) (say NextTrackIn2s w4) else w4) in *.
  pose proof (drives_nil_r _ _ _ _ Hd5 Hd6) as Hd7.
  intros Hrun. apply (IH _ (S idx) c') in Hrun as (m & Hmk & Hdr & Hlast);
    [|by rewrite (drives_mem _ _ _ Hd7)|done].
  exists (S m). split; [lia|]. split.
  - rewrite (cycle_from_S _ _ _ _ Hidx). by eapply drives_cons.
  - intros H. by rewrite Hlast.
Qed.

(* with scripts on which every session returns 0 the loop makes all its
   passes *)
Lemma clean_session f w :
  Forall (clean scale) (sessions w) → sessions w ≠ [] →
  ∃ w', playerWithControls scale f w = Some (0, w') ∧
        Forall (clean scale) (sessions w') ∧
        S (length (sessions w')) = length (sessions w).
Proof.
  intros Hcl Hne. unfold playerWithControls.
  destruct (sessions w) as [|s rest] eqn:Es; [done|].
  apply Forall_cons in Hcl as [Hs Hrest].
  destruct (Hs f (set_sessions rest w)) as [w' Hw']. exists w'.
  split; [done|].
  apply controls_session_grows in Hw' as (evs & (_ & _ & _ & Hse & _) & _).
  simpl in Hse. rewrite Hse. done.
Qed.

Lemma repeat_loop_total h lst cells n rounds bound :
  linked h lst cells →
  ∀ k i idx c w,
    mem w = h → cells !! (idx mod length cells)%nat = Some c →
    Forall (clean scale) (sessions w) → (k ≤ length (sessions w))%nat →
    ∃ w', repeat_loop scale k i n rounds bound (Some c.1) w = Some w' ∧
          drives w w' (cycle_from (songs cells) idx k) ∧
          last (trace w') = Some (EvOut RepeatComplete).
Proof.
  intros Hc. induction k as [|k IH]; intros i idx c w Hm Hidx Hcl Hlen.
  { eexists. split; [done|]. split; [apply drives_say|apply last_say]. }
  cbn [repeat_loop].
  destruct (linked_next _ _ _ _ _ Hc Hidx) as (c' & Hidx' & Hnd).
  rewrite Hm, Hnd. cbn [mbind option_bind song artist next].
  match goal with |- context [playerWithControls scale ?f ?v] =>
    destruct (clean_session f v) as (w2 & Ep & Hcl2 & Hlen2);
      [done|simpl; intros E; rewrite E in Hlen; simpl in Hlen; lia|];
    assert (Hb : drives w v []) by apply drives_say end.
  rewrite Ep. cbn [mbind option_bind].
  apply drives_session in Ep as (Hd2 & _ & _).
  pose proof (drives_nil_l _ _ _ _ Hb Hd2) as Hd. clear Hb Hd2.
  rewrite decide_False by done.
  destruct (decide (0 ≠ 0)) as [Hz|_]; [by destruct Hz|].
  cbn [mbind option_bind negb].
  rewrite (drives_mem _ _ _ Hd), Hm, Hnd. cbn [mbind option_bind next].
  pose proof (drives_next (bool_decide (i < bound - 1)) w2) as Hd6.
  assert (Hw5 : (if bool_decide (i < bound - 1)
                 then emit (EvSleep 2) (say NextTrackIn2s w2) else w2)
                = (if decide (i < bound - 1)
                   then emit (EvSleep 2) (say NextTrackIn2s w2) else w2))
    by (by rewrite bool_decide_decide; destruct (decide (i < bound - 1))).
  rewrite Hw5 in Hd6. clear Hw5.
  assert (Hse : sessions (if decide (i < bound - 1)
                 then emit (EvSleep 2) (say NextTrackIn2s w2) else w2)
                = sessions w2) by (by case_decide).
  set (w5 := if decide (i < bound - 1)
             then emit (EvSleep 2) (say NextTrackIn2s w2) else w2) in *.
  pose proof (drives_nil_r _ _ _ _ Hd Hd6) as Hd7.
  destruct (IH (i + 1) (S idx) c' w5) as (w' & Hrun & Hdr & Hlast);
    [by rewrite (drives_mem _ _ _ Hd7)|done|by rewrite Hse|
     rewrite Hse; simpl in Hlen2; lia|].
  exists w'. split; [done|]. split; [|done].
  rewrite (cycle_from_S _ _ _ _ Hidx). by eapply drives_cons.
Qed.

(* ---- playWithControls ---- *)

Lemma sequential_loop_plays h lst cells n :
  linked h lst cells →
  ∀ k i idx c w w',
    mem w = h → cells !! (idx mod length cells)%nat = Some c →
    sequential_loop scale k i n (Some c.1) w = Some w' →
    ∃ m, (m ≤ k)%nat ∧ drives w w' (cycle_from (songs cells) idx m) ∧
         (last (trace w') = Some (EvOut PlaylistComplete) → m = k).
Proof.
  intros Hc. induction k as [|k IH]; intros i idx c w w' Hm Hidx.
  { simpl. intros [= <-]. exists 0%nat. split; [done|].
    split; [apply drives_say|done]. }
  cbn [sequential_loop].
  destruct (linked_next _ _ _ _ _ Hc Hidx) as (c' & Hidx' & Hnd).
  rewrite Hm, Hnd. cbn [mbind option_bind song artist next].
  match goal with |- context [playerWithControls scale ?f ?v] =>
    destruct (playerWithControls scale f v) as [[result w2]|] eqn:Ep; [|done];
    assert (Hb : drives w v []) by apply drives_say end.
  apply drives_session in Ep as (Hd2 & _ & _).
  pose proof (drives_nil_l _ _ _ _ Hb Hd2) as Hd. clear Hb Hd2.
  cbn [mbind option_bind].
  case_decide as Hr.
  { intros [= <-]. exists 1%nat. split; [lia|]. split.
    - rewrite (cycle_from_S _ _ _ _ Hidx).
      eapply drives_nil_r; [apply Hd|apply drives_say].
    - rewrite last_say. done. }
  match goal with |- context [if decide (result ≠ 0) then ?a else ?b] =>
    destruct (if decide (result ≠ 0) then a else b) as [[go_on w3]|] eqn:Ea;
      [|done] end.
  apply after_session in Ea as (Hd3 & _ & _).
  pose proof (drives_nil_r _ _ _ _ Hd Hd3) as Hd'. clear Hd Hd3.
  cbn [mbind option_bind]. destruct go_on; cbn [negb].
  2:{ intros [= <-]. exists 1%nat. split; [lia|]. split.
      - rewrite (cycle_from_S _ _ _ _ Hidx).
        eapply drives_nil_r; [apply Hd'|apply drives_say].
      - rewrite last_say. done. }
  pose proof (drives_skipping (bool_decide (result ≠ 0)) Skipping w3) as Hd4.
  assert (Hw4 : (if bool_decide (result ≠ 0) then say Skipping w3 else w3)
                = (if decide (result ≠ 0) then say Skipping w3 else w3))
    by (by rewrite bool_decide_decide; destruct (decide (result ≠ 0))).
  rewrite Hw4 in Hd4. clear Hw4.
  set (w4 := if decide (result ≠ 0) then say Skipping w3 else w3) in *.
  pose proof (drives_nil_r _ _ _ _ Hd' Hd4) as Hd5.
  rewrite (drives_mem _ _ _ Hd5), Hm, Hnd. cbn [mbind option_bind next].
  pose proof (drives_next (bool_decide (i < n - 1)) w4) as Hd6.
  assert (Hw5 : (if bool_decide (i < n - 1)
                 then emit (EvSleep 2) (say NextTrackIn2s w4) else w4)
                = (if decide (i < n - 1)
                   then emit (EvSleep 2) (say NextTrackIn2s w4) else w4))
    by (by rewrite bool_decide_decide; destruct (decide (i < n - 1))).
  rewrite Hw5 in Hd6. clear Hw5.
  set (w5 := if decide (i < n - 1)
             then emit (EvSleep 2) (say NextTrackIn2s w4) else w4) in *.
  pose proof (drives_nil_r _ _ _ _ Hd5 Hd6) as Hd7.
  intros Hrun. apply (IH _ (S idx) c') in Hrun as (m & Hmk & Hdr & Hlast);
    [|by rewrite (drives_mem _ _ _ Hd7)|done].
  exists (S m). split; [lia|]. split.
  - rewrite (cycle_from_S _ _ _ _ Hidx). by eapply drives_cons.
  - intros H. by rewrite Hlast.
Qed.

Lemma sequential_loop_total h lst cells n :
  linked h lst cells →
  ∀ k i idx c w,
    mem w = h → cells !! (idx mod length cells)%nat = Some c →
    Forall (clean scale) (sessions w) → (k ≤ length (sessions w))%nat →
    ∃ w', sequential_loop scale k i n (Some c.1) w = Some w' ∧
          drives w w' (cycle_from (songs cells) idx k) ∧
          last (trace w') = Some (EvOut PlaylistComplete).
Proof.
  intros Hc. induction k as [|k IH]; intros i idx c w Hm Hidx Hcl Hlen.
  { eexists. split; [done|]. split; [apply drives_say|apply last_say]. }
  cbn [sequential_loop].
  destruct (linked_next _ _ _ _ _ Hc Hidx) as (c' & Hidx' & Hnd).
  rewrite Hm, Hnd. cbn [mbind option_bind song artist next].
  match goal with |- context [playerWithControls scale ?f ?v] =>
    destruct (clean_session f v) as (w2 & Ep & Hcl2 & Hlen2);
      [done|simpl; intros E; rewrite E in Hlen; simpl in Hlen; lia|];
    assert (Hb : drives w v []) by apply drives_say end.
  rewrite Ep. cbn [mbind option_bind].
  apply drives_session in Ep as (Hd2 & _ & _).
  pose proof (drives_nil_l _ _ _ _ Hb Hd2) as Hd. clear Hb Hd2.
  rewrite decide_False by done.
  destruct (decide (0 ≠ 0)) as [Hz|_]; [by destruct Hz|].
  cbn [mbind option_bind negb].
  rewrite (drives_mem _ _ _ Hd), Hm, Hnd. cbn [mbind option_bind next].
  pose proof (drives_next (bool_decide (i < n - 1)) w2) as Hd6.
  assert (Hw5 : (if bool_decide (i < n - 1)
                 then emit (EvSleep 2) (say NextTrackIn2s w2) else w2)
                = (if decide (i < n - 1)
                   then emit (EvSleep 2) (say NextTrackIn2s w2) else w2))
    by (by rewrite bool_decide_decide; destruct (decide (i < n - 1))).
  rewrite Hw5 in Hd6. clear Hw5.
  assert (Hse : sessions (if decide (i < n - 1)
                 then emit (EvSleep 2) (say NextTrackIn2s w2) else w2)
                = sessions w2) by (by case_decide).
  set (w5 := if decide (i < n - 1)
             then emit (EvSleep 2) (say NextTrackIn2s w2) else w2) in *.
  pose proof (drives_nil_r _ _ _ _ Hd Hd6) as Hd7.
  destruct (IH (i + 1) (S idx) c' w5) as (w' & Hrun & Hdr & Hlast);
    [by rewrite (drives_mem _ _ _ Hd7)|done|by rewrite Hse|
     rewrite Hse; simpl in Hlen2; lia|].
  exists w'. split; [done|]. split; [|done].
  rewrite (cycle_from_S _ _ _ _ Hidx). by eapply drives_cons.
Qed.

(* ---- the stack of playWithControlsReverse ---- *)

Lemma Stack_push_spec sm0 frames it w :
  stack_mem w = stack_mem_of sm0 frames → stack_ok sm0 frames →
  ∃ a,
    Stack_push it (mkStack (top_of frames)) w
    = (mkStack (top_of ((a, it) :: frames)),
       set_stack_mem (stack_mem_of sm0 ((a, it) :: frames)) w) ∧
    stack_ok sm0 ((a, it) :: frames).
Proof.
  intros Hs Hok. exists (fresh (dom (stack_mem w))). unfold Stack_push.
  simpl. rewrite <- Hs. split; [done|]. split; [apply is_fresh|done].
Qed.

Lemma Stack_pop_cons sm0 a it frames w :
  stack_mem w = stack_mem_of sm0 ((a, it) :: frames) →
  stack_ok sm0 ((a, it) :: frames) →
  Stack_pop (mkStack (Some a)) w
  = Some (it, mkStack (top_of frames),
          set_stack_mem (stack_mem_of sm0 frames) w).
Proof.
  intros Hs [Ha Hok]. unfold Stack_pop, Stack_isEmpty. simpl in *.
  rewrite Hs, lookup_insert_eq. simpl.
  rewrite delete_insert_id; [done|]. by apply not_elem_of_dom.
Qed.

Lemma set_stack_mem_id w sm : stack_mem w = sm → set_stack_mem sm w = w.
Proof. destruct w. simpl. by intros ->. Qed.

Lemma Stack_destroy_spec sm0 : ∀ frames fuel w,
  stack_mem w = stack_mem_of sm0 frames → stack_ok sm0 frames →
  (length frames ≤ fuel)%nat →
  Stack_destroy fuel (mkStack (top_of frames)) w = Some (set_stack_mem sm0 w).
Proof.
  induction frames as [|[a it] frames IH]; intros fuel w Hs Hok Hf.
  { destruct fuel; simpl; by rewrite set_stack_mem_id. }
  destruct fuel as [|fuel]; [simpl in Hf; lia|].
  destruct Hok as [Ha Hok]. simpl in *.
  rewrite Hs, lookup_insert_eq. simpl.
  rewrite delete_insert_id by (by apply not_elem_of_dom).
  rewrite IH; [done|done|done|lia].
Qed.

Lemma first_notin_rest (cells : list (positive * entry)) hd pre c c2 rest :
  NoDup cells.*1 → hd_or cells None = Some hd →
  cells = pre ++ c :: c2 :: rest → c2.1 ≠ hd.
Proof.
  intros Hnd Hhd ->. destruct pre as [|c0 pre]; simpl in *.
  - injection Hhd as <-. apply NoDup_cons in Hnd as [Hn _]. set_solver.
  - injection Hhd as <-. apply NoDup_cons in Hnd as [Hn _].
    rewrite fmap_app in Hn. set_solver.
Qed.

(* do { push } while (temp != list.head): every cell is pushed, the head
   first, so that the stack holds them the tail first *)
Lemma push_all_spec h hd cells sm0 :
  NoDup cells.*1 → lseg h cells (Some hd) → hd_or cells None = Some hd →
  ∀ todo pre frames fuel w,
    cells = pre ++ todo → todo ≠ [] → mem w = h →
    stack_mem w = stack_mem_of sm0 frames → stack_ok sm0 frames →
    (length todo ≤ fuel)%nat →
    ∃ new,
      push_all fuel (Some hd) (hd_or todo None) (mkStack (top_of frames)) w
      = Some (mkStack (top_of (new ++ frames)),
              set_stack_mem (stack_mem_of sm0 (new ++ frames)) w) ∧
      stack_ok sm0 (new ++ frames) ∧
      new.*2 = Some <$> reverse todo.*1.
Proof.
  intros Hnd Hl Hhd.
  induction todo as [|c rest IH]; intros pre frames fuel w Hcells Hne Hm Hs Hok Hf;
    [done|].
  destruct fuel as [|fuel]; [simpl in Hf; lia|].
  cbn [push_all hd_or].
  destruct (Stack_push_spec sm0 frames (Some c.1) w Hs Hok) as (a & Hpush & Hok1).
  rewrite Hpush. cbn [mbind option_bind].
  assert (Hc : h !! c.1 = Some (Node c.2.1 c.2.2 (hd_or rest (Some hd)))).
  { rewrite Hcells in Hl. apply lseg_app in Hl as [_ [Hc _]]. done. }
  change (mem (set_stack_mem (stack_mem_of sm0 ((a, Some c.1) :: frames)) w))
    with (mem w).
  rewrite Hm, Hc. cbn [mbind option_bind next].
  destruct rest as [|c2 rest].
  - cbn [hd_or]. rewrite decide_False by (intros H; by apply H).
    exists [(a, Some c.1)]. done.
  - cbn [hd_or]. rewrite decide_True.
    2:{ intros [= E]. by eapply first_notin_rest. }
    destruct (IH (pre ++ [c]) ((a, Some c.1) :: frames) fuel
                (set_stack_mem (stack_mem_of sm0 ((a, Some c.1) :: frames)) w))
      as (new & Hrun & Hok2 & Hit);
      [by rewrite <- app_assoc|done|done|done|done|simpl in *; lia|].
    exists (new ++ [(a, Some c.1)]). rewrite <- app_assoc. cbn [app].
    cbn [hd_or] in Hrun. split; [by rewrite Hrun|]. split; [done|].
    rewrite fmap_app, Hit. rewrite (fmap_cons fst c), reverse_cons, fmap_app. done.
Qed.

(* the cells whose nodes are in the heap *)
Lemma reverse_loop_plays h sm0 n : ∀ todo frames fuel count w b s' w',
  Forall (λ c : positive * entry,
            ∃ nx, h !! c.1 = Some (Node c.2.1 c.2.2 nx)) todo →
  frames.*2 = Some <$> todo.*1 → mem w = h →
  stack_mem w = stack_mem_of sm0 frames → stack_ok sm0 frames →
  reverse_loop scale fuel count n (mkStack (top_of frames)) w
  = Some (b, s', w') →
  ∃ m frames',
    (m ≤ length todo)%nat ∧ drives w w' (take m (songs todo)) ∧
    s' = mkStack (top_of frames') ∧
    stack_mem w' = stack_mem_of sm0 frames' ∧ stack_ok sm0 frames' ∧
    (length frames' ≤ length frames)%nat ∧
    (b = true → m = length todo) ∧
    (b = false → last (trace w') = Some (EvOut PlaybackStopped)).
Proof.
  induction todo as [|c rest IH];
    intros frames fuel count w b s' w' Hnodes Hit Hm Hs Hok.
  { apply fmap_nil_inv in Hit as ->.
    destruct fuel as [|fuel]; [done|]. cbn. intros [= <- <- <-].
    exists 0%nat, []. repeat split; try done. apply drives_refl. }
  destruct frames as [|[a it] frames]; [done|].
  injection Hit as -> Hit.
  apply Forall_cons in Hnodes as [[nx Hc] Hnodes].
  destruct fuel as [|fuel]; [done|].
  cbn [reverse_loop top_of fst].
  rewrite (Stack_pop_cons sm0 a (Some c.1) frames w Hs Hok).
  cbn [mbind option_bind].
  change (mem (set_stack_mem (stack_mem_of sm0 frames) w)) with (mem w).
  rewrite Hm, Hc. cbn [mbind option_bind song artist].
  destruct Hok as [_ Hok].
  match goal with |- context [playerWithControls scale ?f ?v] =>
    destruct (playerWithControls scale f v) as [[result w2]|] eqn:Ep; [|done];
    assert (Hb : drives w v [])
      by (eapply drives_nil_l; [apply drives_set_stack_mem|apply drives_say]);
    assert (Hsv : stack_mem v = stack_mem_of sm0 frames) by done end.
  apply drives_session in Ep as (Hd2 & Hs2 & _).
  pose proof (drives_nil_l _ _ _ _ Hb Hd2) as Hd. clear Hb Hd2.
  rewrite Hsv in Hs2. clear Hsv.
  cbn [mbind option_bind].
  case_decide as Hr.
  { intros [= <- <- <-]. exists 1%nat, frames.
    split; [simpl; lia|]. split.
    { eapply drives_nil_r; [apply Hd|apply drives_say]. }
    repeat split; try done; [simpl; lia|]. intros _. apply last_say. }
  match goal with |- context [if decide (result ≠ 0) then ?x else ?y] =>
    destruct (if decide (result ≠ 0) then x else y) as [[go_on w3]|] eqn:Ea;
      [|done] end.
  apply after_session in Ea as (Hd3 & Hs3 & _).
  pose proof (drives_nil_r _ _ _ _ Hd Hd3) as Hd'. clear Hd Hd3.
  rewrite Hs2 in Hs3. clear Hs2.
  cbn [mbind option_bind]. destruct go_on; cbn [negb].
  2:{ intros [= <- <- <-]. exists 1%nat, frames.
      split; [simpl; lia|]. split.
      { eapply drives_nil_r; [apply Hd'|apply drives_say]. }
      repeat split; try done; [simpl; lia|]. intros _. apply last_say. }
  pose proof (drives_skipping (bool_decide (result ≠ 0)) SkippingReverse w3) as Hd4.
  assert (Hw4 : (if bool_decide (result ≠ 0) then say SkippingReverse w3 else w3)
                = (if decide (result ≠ 0) then say SkippingReverse w3 else w3))
    by (by rewrite bool_decide_decide; destruct (decide (result ≠ 0))).
  rewrite Hw4 in Hd4. clear Hw4.
  assert (Hs4 : stack_mem (if decide (result ≠ 0) then say SkippingReverse w3 else w3)
                = stack_mem_of sm0 frames) by (by case_decide).
  set (w4 := if decide (result ≠ 0) then say SkippingReverse w3 else w3) in *.
  pose proof (drives_nil_r _ _ _ _ Hd' Hd4) as Hd5.
  pose proof (drives_next (negb (Stack_isEmpty (mkStack (top_of frames)))) w4) as Hd6.
  assert (Hs5 : stack_mem (if negb (Stack_isEmpty (mkStack (top_of frames)))
                           then emit (EvSleep 2) (say NextTrackIn2s w4) else w4)
                = stack_mem_of sm0 frames)
    by (by destruct (negb _)).
  set (w5 := if negb (Stack_isEmpty (mkStack (top_of frames)))
             then emit (EvSleep 2) (say NextTrackIn2s w4) else w4) in *.
  pose proof (drives_nil_r _ _ _ _ Hd5 Hd6) as Hd7.
  intros Hrun. apply IH in Hrun
    as (m & frames' & Hmk & Hdr & -> & Hs' & Hok' & Hlen' & Hb1 & Hb2);
    [|done|done|by rewrite (drives_mem _ _ _ Hd7)|done|done].
  exists (S m), frames'. split; [simpl; lia|]. split.
  { simpl. by eapply drives_cons. }
  repeat split; try done; [simpl; lia|].
  intros H. simpl. by rewrite Hb1.
Qed.

Lemma reverse_loop_total h sm0 n : ∀ todo frames fuel count w,
  Forall (λ c : positive * entry,
            ∃ nx, h !! c.1 = Some (Node c.2.1 c.2.2 nx)) todo →
  frames.*2 = Some <$> todo.*1 → mem w = h →
  stack_mem w = stack_mem_of sm0 frames → stack_ok sm0 frames →
  (length todo < fuel)%nat →
  Forall (clean scale) (sessions w) → (length todo ≤ length (sessions w))%nat →
  ∃ w',
    reverse_loop scale fuel count n (mkStack (top_of frames)) w
    = Some (true, mkStack None, w') ∧
    drives w w' (songs todo) ∧ stack_mem w' = sm0.
Proof.
  induction todo as [|c rest IH];
    intros frames fuel count w Hnodes Hit Hm Hs Hok Hf Hcl Hlen.
  { apply fmap_nil_inv in Hit as ->.
    destruct fuel as [|fuel]; [lia|]. exists w. cbn.
    split; [done|]. split; [apply drives_refl|done]. }
  destruct frames as [|[a it] frames]; [done|].
  injection Hit as -> Hit.
  apply Forall_cons in Hnodes as [[nx Hc] Hnodes].
  destruct fuel as [|fuel]; [lia|].
  cbn [reverse_loop top_of fst].
  rewrite (Stack_pop_cons sm0 a (Some c.1) frames w Hs Hok).
  cbn [mbind option_bind].
  change (mem (set_stack_mem (stack_mem_of sm0 frames) w)) with (mem w).
  rewrite Hm, Hc. cbn [mbind option_bind song artist].
  destruct Hok as [_ Hok].
  match goal with |- context [playerWithControls scale ?f ?v] =>
    destruct (clean_session f v) as (w2 & Ep & Hcl2 & Hlen2);
      [done|simpl; intros E; rewrite E in Hlen; simpl in Hlen; lia|];
    assert (Hb : drives w v [])
      by (eapply drives_nil_l; [apply drives_set_stack_mem|apply drives_say]);
    assert (Hsv : stack_mem v = stack_mem_of sm0 frames) by done end.
  rewrite Ep. cbn [mbind option_bind].
  apply drives_session in Ep as (Hd2 & Hs2 & _).
  pose proof (drives_nil_l _ _ _ _ Hb Hd2) as Hd. clear Hb Hd2.
  rewrite Hsv in Hs2. clear Hsv.
  rewrite decide_False by done.
  destruct (decide (0 ≠ 0)) as [Hz|_]; [by destruct Hz|].
  cbn [mbind option_bind negb].
  pose proof (drives_next (negb (Stack_isEmpty (mkStack (top_of frames)))) w2) as Hd6.
  assert (Hs5 : stack_mem (if negb (Stack_isEmpty (mkStack (top_of frames)))
                           then emit (EvSleep 2) (say NextTrackIn2s w2) else w2)
                = stack_mem_of sm0 frames)
    by (by destruct (negb _)).
  assert (Hse : sessions (if negb (Stack_isEmpty (mkStack (top_of frames)))
                          then emit (EvSleep 2) (say NextTrackIn2s w2) else w2)
                = sessions w2) by (by destruct (negb _)).
  set (w5 := if negb (Stack_isEmpty (mkStack (top_of frames)))
             then emit (EvSleep 2) (say NextTrackIn2s w2) else w2) in *.
  pose proof (drives_nil_r _ _ _ _ Hd Hd6) as Hd7.
  destruct (IH frames fuel (s32 (count + 1)) w5) as (w' & Hrun & Hdr & Hs');
    [done|done|by rewrite (drives_mem _ _ _ Hd7)|done|done|simpl in Hf; lia|
     by rewrite Hse|rewrite Hse; simpl in Hlen, Hlen2; lia|].
  exists w'. split; [done|]. split; [|done].
  simpl. by eapply drives_cons.
Qed.

(* ---- the two traversals ---- *)

Lemma drives_plays w w' fs : drives w w' fs → plays (since w w') = fs.
Proof.
  intros (evs & Ht & Hp & _). unfold since. by rewrite Ht, drop_app_length.
Qed.

Lemma cycle_from_length es : ∀ k idx,
  es ≠ [] → length (cycle_from es idx k) = k.
Proof.
  induction k as [|k IH]; intros idx Hne; [done|]. simpl.
  destruct (lookup_lt_is_Some_2 es (idx mod length es)) as [e ->].
  { apply Nat.mod_upper_bound. by destruct es. }
  simpl. by rewrite IH.
Qed.

Lemma cycle_from_lookup es : ∀ k idx i,
  es ≠ [] → (i < k)%nat →
  cycle_from es idx k !! i = es !! ((idx + i) mod length es)%nat.
Proof.
  induction k as [|k IH]; intros idx i Hne Hi; [lia|]. simpl.
  destruct (lookup_lt_is_Some_2 es (idx mod length es)) as [e He].
  { apply Nat.mod_upper_bound. by destruct es. }
  rewrite He. destruct i as [|i]; simpl.
  - by rewrite Nat.add_0_r.
  - rewrite IH by (done || lia). f_equal. f_equal. lia.
Qed.

Lemma cycle_from_take es : ∀ k m idx,
  (m ≤ k)%nat → take m (cycle_from es idx k) = cycle_from es idx m.
Proof.
  induction k as [|k IH]; intros m idx Hm.
  - by replace m with 0%nat by lia.
  - destruct m as [|m]; [done|]. simpl.
    destruct (es !! (idx mod length es)%nat); [|done].
    simpl. rewrite IH by lia. done.
Qed.

Lemma cycle_from_app es : ∀ a b idx,
  es ≠ [] →
  cycle_from es idx (a + b) = cycle_from es idx a ++ cycle_from es (idx + a) b.
Proof.
  induction a as [|a IH]; intros b idx Hne; simpl.
  - by rewrite Nat.add_0_r.
  - destruct (lookup_lt_is_Some_2 es (idx mod length es)) as [e ->].
    { apply Nat.mod_upper_bound. by destruct es. }
    simpl. rewrite IH by done. by rewrite Nat.add_succ_r.
Qed.

Lemma cycle_from_period es : ∀ k idx,
  cycle_from es (idx + length es) k = cycle_from es idx k.
Proof.
  induction k as [|k IH]; intros idx; [done|]. simpl.
  replace ((idx + length es) mod length es)%nat with (idx mod length es)%nat.
  2:{ rewrite <- (Nat.Div0.add_mod_idemp_r idx), Nat.Div0.mod_same.
      by rewrite Nat.add_0_r. }
  destruct (es !! (idx mod length es)%nat); [|done].
  f_equal. apply (IH (S idx)).
Qed.

Lemma cycle_from_full es : es ≠ [] → cycle_from es 0 (length es) = es.
Proof.
  intros Hne. apply list_eq. intros i.
  destruct (decide (i < length es)%nat) as [Hi|Hi].
  - rewrite cycle_from_lookup by done. simpl. by rewrite Nat.mod_small.
  - rewrite !lookup_ge_None_2; [done|lia|].
    rewrite cycle_from_length by done. lia.
Qed.

(* the rounds follow one another *)
Lemma cycle_from_rounds es : ∀ n,
  es ≠ [] → cycle_from es 0 (n * length es) = mjoin (replicate n es).
Proof.
  induction n as [|n IH]; intros Hne; [done|].
  simpl. rewrite cycle_from_app by done.
  rewrite cycle_from_full by done.
  rewrite (cycle_from_period es _ 0). by rewrite IH.
Qed.

(** X8: on a circular list of at least one node playWithControls starts
    sessions on the entries in list order: on all of them when every
    session returns 0, and whenever it returns on the first m entries,
    with m the length if it ends on the message of completion; the nodes
    of the list are left as they were. *)
Theorem playWithControls_plays_in_list_order lst cells w :
  linked (mem w) lst cells → cells ≠ [] →
  (∀ w', playWithControls scale lst w = Some w' →
     mem w' = mem w ∧
     ∃ m, (m ≤ length cells)%nat ∧
       plays (since w w') = take m (songs cells) ∧
       (last (trace w') = Some (EvOut PlaylistComplete) → m = length cells)) ∧
  (Forall (clean scale) (sessions w) →
   (length cells ≤ length (sessions w))%nat →
   ∃ w', playWithControls scale lst w = Some w' ∧
     plays (since w w') = songs cells ∧
     last (trace w') = Some (EvOut PlaylistComplete)).
Proof.
  intros Hc Hne.
  pose proof Hc as (_ & _ & Hhd & Hlen).
  destruct cells as [|c0 cells'] eqn:Ecells; [done|]. rewrite <- Ecells in *.
  assert (Hidx : cells !! (0 mod length cells)%nat = Some c0).
  { rewrite Nat.Div0.mod_0_l. by rewrite Ecells. }
  assert (Hhd' : head lst = Some c0.1) by (by rewrite Hhd, Ecells).
  assert (Hsne : songs cells ≠ []) by (by rewrite Ecells).
  assert (Hsl : length (songs cells) = length cells)
    by (unfold songs; by rewrite length_fmap).
  assert (Hk : Z.to_nat (len lst) = length cells) by (rewrite Hlen; lia).
  assert (Hfull : cycle_from (songs cells) 0 (length cells) = songs cells)
    by (rewrite <- Hsl; by apply cycle_from_full).
  unfold playWithControls. rewrite Hhd', Hk.
  split.
  - intros w' Hrun.
    eapply (sequential_loop_plays (mem w) lst cells) with (idx := 0%nat) in Hrun
      as (m & Hm & Hd & Hlast); [|done|done|done].
    pose proof (drives_nil_l _ _ _ _ (drives_say _ _) Hd) as Hd'.
    split; [by eapply drives_mem|].
    exists m. split; [done|].
    rewrite (drives_plays _ _ _ Hd').
    split; [|done]. rewrite <- Hfull at 2. by rewrite cycle_from_take.
  - intros Hcl Hse.
    destruct (sequential_loop_total (mem w) lst cells (len lst) Hc
                (length cells) 0 0%nat c0
                (say (PlaylistHeader (listName lst) (len lst)) w))
      as (w' & Hrun & Hd & Hlast); [done|done|done|done|].
    exists w'. split; [done|].
    pose proof (drives_nil_l _ _ _ _ (drives_say _ _) Hd) as Hd'.
    rewrite (drives_plays _ _ _ Hd'). by rewrite Hfull.
Qed.

(** C8: on a circular list of L >= 1 nodes, with rounds >= 1 and L * rounds
    within int, playWithControlsRepeat starts sessions on the entries in
    list order over and over, play i (from 0) being entry i mod L: when
    every session returns 0 (scripts for at least rounds * L sessions being
    there) it returns having made exactly rounds * L plays and says that
    the repeat is complete; whenever it returns, the plays made are the
    first m of that sequence, with m = rounds * L if it ends on the message
    of completion; the nodes of the list are left as they were. *)
Theorem C8_repeat_plays_rounds lst cells rounds w :
  linked (mem w) lst cells → cells ≠ [] → 1 ≤ rounds →
  Z.of_nat (length cells) * rounds ≤ INT_MAX →
  (∀ w', playWithControlsRepeat scale lst rounds w = Some w' →
     mem w' = mem w ∧
     ∃ m, (m ≤ Z.to_nat rounds * length cells)%nat ∧
       length (plays (since w w')) = m ∧
       (∀ i, (i < m)%nat →
          plays (since w w') !! i = songs cells !! (i mod length cells)%nat) ∧
       (last (trace w') = Some (EvOut RepeatComplete) →
        m = (Z.to_nat rounds * length cells)%nat)) ∧
  (Forall (clean scale) (sessions w) →
   (Z.to_nat rounds * length cells ≤ length (sessions w))%nat →
   ∃ w', playWithControlsRepeat scale lst rounds w = Some w' ∧
     length (plays (since w w')) = (Z.to_nat rounds * length cells)%nat ∧
     (∀ i, (i < Z.to_nat rounds * length cells)%nat →
        plays (since w w') !! i = songs cells !! (i mod length cells)%nat) ∧
     plays (since w w') = mjoin (replicate (Z.to_nat rounds) (songs cells)) ∧
     last (trace w') = Some (EvOut RepeatComplete)).
Proof.
  intros Hc Hne Hr Hmax.
  pose proof Hc as (_ & _ & Hhd & Hlen).
  destruct cells as [|c0 cells'] eqn:Ecells; [done|]. rewrite <- Ecells in *.
  assert (Hidx : cells !! (0 mod length cells)%nat = Some c0).
  { rewrite Nat.Div0.mod_0_l. by rewrite Ecells. }
  assert (Hhd' : head lst = Some c0.1) by (by rewrite Hhd, Ecells).
  assert (Hsne : songs cells ≠ []) by (by rewrite Ecells).
  assert (Hsl : length (songs cells) = length cells)
    by (unfold songs; by rewrite length_fmap).
  assert (Hb : s32 (len lst * rounds) = len lst * rounds).
  { apply s32_id. unfold INT_MAX in Hmax. rewrite Hlen. lia. }
  assert (Hk : Z.to_nat (len lst * rounds)
               = (Z.to_nat rounds * length cells)%nat).
  { rewrite Hlen. lia. }
  unfold playWithControlsRepeat. rewrite Hhd'.
  rewrite decide_False by lia. rewrite Hb, Hk.
  split.
  - intros w' Hrun.
    eapply (repeat_loop_plays (mem w) lst cells) with (idx := 0%nat) in Hrun
      as (m & Hm & Hd & Hlast); [|done|done|done].
    pose proof (drives_nil_l _ _ _ _ (drives_say _ _) Hd) as Hd'.
    split; [by eapply drives_mem|].
    exists m. split; [done|].
    rewrite (drives_plays _ _ _ Hd').
    split; [by apply cycle_from_length|]. split; [|done].
    intros i Hi. rewrite cycle_from_lookup by done. by rewrite Hsl.
  - intros Hcl Hse.
    destruct (repeat_loop_total (mem w) lst cells (len lst) rounds
                (len lst * rounds) Hc
                (Z.to_nat rounds * length cells) 0 0%nat c0
                (say (RepeatHeader (listName lst) rounds (len lst)) w))
      as (w' & Hrun & Hd & Hlast); [done|done|done|done|].
    exists w'. split; [done|].
    pose proof (drives_nil_l _ _ _ _ (drives_say _ _) Hd) as Hd'.
    rewrite (drives_plays _ _ _ Hd').
    split; [by apply cycle_from_length|]. split; [|split; [|done]].
    + intros i Hi. rewrite cycle_from_lookup by done. by rewrite Hsl.
    + rewrite <- Hsl. by apply cycle_from_rounds.
Qed.

(** C7: on a circular list of at least one node, with fuel for its length,
    playWithControlsReverse pushes every node from the head to the tail, so
    that the stack holds the nodes the tail first; the sessions started are
    then those of the entries in reversed order: all of them when every
    session returns 0, and whenever the traversal returns the first m of
    the reversed list, with m the length if it ends on the message of
    completion; the nodes of the list are left as they were and every
    stack node is freed. *)
Theorem C7_reverse_plays_reversed fuel lst cells w :
  linked (mem w) lst cells → cells ≠ [] → (length cells < fuel)%nat →
  (∃ frames,
     push_all fuel (head lst) (head lst) (mkStack None) w
     = Some (mkStack (top_of frames),
             set_stack_mem (stack_mem_of (stack_mem w) frames) w) ∧
     stack_ok (stack_mem w) frames ∧
     frames.*2 = Some <$> reverse cells.*1) ∧
  (∀ w', playWithControlsReverse scale fuel lst w = Some w' →
     mem w' = mem w ∧ stack_mem w' = stack_mem w ∧
     ∃ m, (m ≤ length cells)%nat ∧
       plays (since w w') = take m (reverse (songs cells)) ∧
       (last (trace w') = Some (EvOut ReverseComplete) → m = length cells)) ∧
  (Forall (clean scale) (sessions w) →
   (length cells ≤ length (sessions w))%nat →
   ∃ w', playWithControlsReverse scale fuel lst w = Some w' ∧
     mem w' = mem w ∧ stack_mem w' = stack_mem w ∧
     plays (since w w') = reverse (songs cells) ∧
     last (trace w') = Some (EvOut ReverseComplete)).
Proof.
  intros Hc Hne Hf.
  pose proof Hc as (Hnd & Hl & Hhd & Hlen).
  destruct cells as [|c0 cells'] eqn:Ecells; [done|]. rewrite <- Ecells in *.
  assert (Hhdc : hd_or cells None = Some c0.1) by (by rewrite Ecells).
  rewrite Hhdc in Hl, Hhd.
  assert (Hpush : ∀ w0, mem w0 = mem w → stack_mem w0 = stack_mem w →
            ∃ frames,
              push_all fuel (Some c0.1) (Some c0.1) (mkStack None) w0
              = Some (mkStack (top_of frames),
                      set_stack_mem (stack_mem_of (stack_mem w) frames) w0) ∧
              stack_ok (stack_mem w) frames ∧
              frames.*2 = Some <$> (reverse cells).*1).
  { intros w0 Hm0 Hs0.
    destruct (push_all_spec (mem w) c0.1 cells (stack_mem w) Hnd Hl Hhdc
                cells [] [] fuel w0) as (new & Hrun & Hok & Hit);
      [done|done|done|done|done|lia|].
    rewrite app_nil_r in *. rewrite Hhdc in Hrun. exists new.
    by rewrite fmap_reverse. }
  assert (Hnodes : Forall (λ c : positive * entry,
            ∃ nx, mem w !! c.1 = Some (Node c.2.1 c.2.2 nx)) (reverse cells)).
  { apply Forall_forall. intros c Hin. rewrite elem_of_reverse in Hin.
    by eapply lseg_lookup. }
  assert (Hsongs : songs (reverse cells) = reverse (songs cells))
    by (unfold songs; by rewrite fmap_reverse).
  split; [|split].
  - rewrite Hhd. destruct (Hpush w) as (frames & ? & ? & Hit); [done|done|].
    exists frames. by rewrite <- fmap_reverse.
  - intros w'. unfold playWithControlsReverse. rewrite Hhd.
    destruct (Hpush (say (ReverseHeader (listName lst) (len lst)) w))
      as (frames & -> & Hok & Hit); [done|done|].
    cbn [mbind option_bind].
    match goal with |- context [reverse_loop scale fuel 1 ?n ?s ?v] =>
      destruct (reverse_loop scale fuel 1 n s v) as [[[b s'] w3]|] eqn:Erun;
        [|done];
      assert (Hb : drives w v []) by
        (eapply drives_nil_l; [apply drives_say|];
         eapply drives_nil_l; [apply drives_set_stack_mem|apply drives_say])
    end.
    eapply (reverse_loop_plays (mem w) (stack_mem w)) in Erun
      as (m & frames' & Hm & Hd & -> & Hs' & Hok' & Hlen' & Hb1 & Hb2);
      [|done|done|done|done|done].
    pose proof (drives_nil_l _ _ _ _ Hb Hd) as Hd'. clear Hb Hd.
    cbn [mbind option_bind].
    assert (Hfr : (length frames' ≤ fuel)%nat).
    { apply (f_equal length) in Hit. rewrite !length_fmap, length_reverse in Hit.
      lia. }
    rewrite length_reverse in Hm. rewrite Hsongs in Hd'.
    destruct b.
    + rewrite (Stack_destroy_spec (stack_mem w) frames') by done.
      intros [= <-].
      pose proof (drives_nil_r _ _ _ _ Hd' (drives_say w3 ReverseComplete)) as Hd.
      split; [by eapply drives_mem|]. split; [done|].
      exists m. split; [done|]. split; [|intros _; rewrite Hb1 by done;
                                         by rewrite length_reverse].
      apply drives_plays. eapply drives_nil_r; [apply Hd|].
      apply drives_set_stack_mem.
    + rewrite (Stack_destroy_spec (stack_mem w) frames') by done.
      intros [= <-].
      split; [by eapply drives_mem|]. split; [done|].
      exists m. split; [done|]. split.
      * apply drives_plays. eapply drives_nil_r; [apply Hd'|].
        apply drives_set_stack_mem.
      * simpl. rewrite Hb2 by done. done.
  - intros Hcl Hse. unfold playWithControlsReverse. rewrite Hhd.
    destruct (Hpush (say (ReverseHeader (listName lst) (len lst)) w))
      as (frames & -> & Hok & Hit); [done|done|].
    cbn [mbind option_bind].
    match goal with |- context [reverse_loop scale fuel 1 ?n ?s ?v] =>
      destruct (reverse_loop_total (mem w) (stack_mem w) n (reverse cells)
                  frames fuel 1 v) as (w3 & -> & Hd & Hs3);
        [done|done|done|done|done|by rewrite length_reverse|done
        |by rewrite length_reverse|];
      assert (Hb : drives w v []) by
        (eapply drives_nil_l; [apply drives_say|];
         eapply drives_nil_l; [apply drives_set_stack_mem|apply drives_say])
    end.
    pose proof (drives_nil_l _ _ _ _ Hb Hd) as Hd'. clear Hb Hd.
    cbn [mbind option_bind].
    rewrite (Stack_destroy_spec (stack_mem w) []) by (done || simpl; lia).
    eexists. split; [done|].
    pose proof (drives_nil_r _ _ _ _ Hd' (drives_say w3 ReverseComplete)) as Hd.
    rewrite Hsongs in Hd.
    split; [by eapply drives_mem|]. split; [done|]. split.
    + apply drives_plays. eapply drives_nil_r; [apply Hd|].
      apply drives_set_stack_mem.
    + simpl. apply last_snoc.
Qed.

End TraversalFacts.


Section TraversalSamples.

#[local] Open Scope string_scope.

Lemma good_script_clean scale : clean scale (good_script [end_tick]).
Proof.
  intros f w. unfold controls_session, sf_session. cbn [good_script ss_fopen negb].
  destruct (isMP3File f); eexists; reflexivity.
Qed.

Lemma sample_circular n :
  circular (mem (sample_world n)) sample_list sample_cells.
Proof.
  unfold circular. simpl. split; [|split; [|split; [done|split; [done|]]]].
  - repeat (constructor; [set_solver|]). constructor.
  - by vm_compute.
  - unfold sample_heap. rewrite !dom_insert_L. set_solver.
Qed.

Lemma C8_witness :
  ∃ w', playWithControlsRepeat double_scale sample_list 2 (sample_world 6)
        = Some w' ∧
        plays (since (sample_world 6) w')
        = ["a.mp3"; "b.wav"; "c.ogg"; "a.mp3"; "b.wav"; "c.ogg"] ∧
        last (trace w') = Some (EvOut RepeatComplete).
Proof.
  destruct (proj2 (C8_repeat_plays_rounds double_scale sample_list sample_cells
                     2 (sample_world 6) (circular_linked _ _ _ (sample_circular 6))
                     ltac:(done) ltac:(lia) ltac:(by vm_compute)))
    as (w' & H1 & H2 & H3 & H4 & H5).
  - repeat (constructor; [apply good_script_clean|]). constructor.
  - simpl. lia.
  - exists w'. split; [exact H1|]. split; [|exact H5].
    rewrite H4. reflexivity.
Defined.

Lemma C7_witness :
  ∃ w', playWithControlsReverse double_scale 5 sample_list (sample_world 3)
        = Some w' ∧
        mem w' = sample_heap ∧ stack_mem w' = ∅ ∧
        plays (since (sample_world 3) w') = ["c.ogg"; "b.wav"; "a.mp3"] ∧
        last (trace w') = Some (EvOut ReverseComplete).
Proof.
  destruct (proj2 (proj2 (C7_reverse_plays_reversed double_scale 5 sample_list
                     sample_cells (sample_world 3) (circular_linked _ _ _ (sample_circular 3))
                     ltac:(done) ltac:(simpl; lia))))
    as (w' & H1 & H2 & H3 & H4 & H5).
  - repeat (constructor; [apply good_script_clean|]). constructor.
  - simpl. lia.
  - exists w'. split; [exact H1|]. split; [exact H2|]. split; [exact H3|].
    split; [|exact H5]. rewrite H4. reflexivity.
Defined.

Lemma playWithControls_witness :
  ∃ w', playWithControls double_scale sample_list (sample_world 3) = Some w' ∧
        plays (since (sample_world 3) w') = ["a.mp3"; "b.wav"; "c.ogg"] ∧
        last (trace w') = Some (EvOut PlaylistComplete).
Proof.
  destruct (proj2 (playWithControls_plays_in_list_order double_scale
                     sample_list sample_cells (sample_world 3)
                     (circular_linked _ _ _ (sample_circular 3)) ltac:(done)))
    as (w' & H1 & H2 & H3).
  - repeat (constructor; [apply good_script_clean|]). constructor.
  - simpl. lia.
  - exists w'. split; [exact H1|]. split; [exact H2|exact H3].
Defined.

Lemma list_operations_witness :
  ∃ h' L',
    run_ops 12 sample_ops (∅, LinkedList_new) = Ok (h', L') ∧
    Rep h' L' [("c.ogg", "C")] ∧ well_formed h' L'.
Proof.
  apply (list_operations_keep_the_list_circular 12 sample_ops).
  - simpl. lia.
  - by vm_compute.
  - reflexivity.
Defined.

Lemma clear_double_free_witness :
  clear 3 (sample_heap, sample_list) = Undefined.
Proof.
  apply (clear_nonempty_double_free sample_heap sample_list sample_cells 3).
  - apply (sample_circular 0).
  - done.
  - simpl. lia.
Defined.

End TraversalSamples.


(* ---- the names ---- *)

Import Text.

Section TextFacts.
#[local] Open Scope char_scope.

Lemma chars_app (a b : string) : chars (a +:+ b) = chars a ++ chars b.
Proof. induction a as [|c a IH]; simpl; [done|by rewrite IH]. Qed.

Lemma chars_str (l : list ascii) : chars (str l) = l.
Proof. apply String.list_ascii_of_string_of_list_ascii. Qed.

Lemma str_chars (s : string) : str (chars s) = s.
Proof. apply String.string_of_list_ascii_of_string. Qed.

Lemma chars_inj (a b : string) : chars a = chars b → a = b.
Proof. intros E. by rewrite <- (str_chars a), E, str_chars. Qed.

Lemma has_any_of_app set a b :
  has_any_of set (a ++ b) = has_any_of set a || has_any_of set b.
Proof. apply existsb_app. Qed.

Lemma find_last_of_None set s :
  find_last_of set s = None ↔ has_any_of set s = false.
Proof.
  induction s as [|c s IH]; simpl; [done|].
  destruct (find_last_of set s) as [i|].
  - split; [done|]. intros [_ H]%orb_false_iff.
    apply IH in H. done.
  - destruct (mem_ascii c set); simpl; [done|]. split; [|done].
    intros _. by apply IH.
Qed.

Lemma find_last_of_app set pre c post :
  mem_ascii c set = true → has_any_of set post = false →
  find_last_of set (pre ++ c :: post) = Some (length pre).
Proof.
  intros Hc Hpost. induction pre as [|x pre IH]; simpl.
  - apply find_last_of_None in Hpost. by rewrite Hpost, Hc.
  - by rewrite IH.
Qed.

Lemma find_last_of_Some set s i :
  find_last_of set s = Some i →
  ∃ pre c post, s = pre ++ c :: post ∧ length pre = i ∧
    mem_ascii c set = true ∧ has_any_of set post = false.
Proof.
  revert i. induction s as [|x s IH]; intros i; simpl; [done|].
  destruct (find_last_of set s) as [j|] eqn:E.
  - intros [= <-]. destruct (IH j eq_refl) as (pre & c & post & -> & <- & Hc & Hp).
    by exists (x :: pre), c, post.
  - destruct (mem_ascii x set) eqn:Hx; [|done]. intros [= <-].
    exists [], x, s. repeat split; [done|]. by apply find_last_of_None.
Qed.

Lemma has_any_of_take set n s :
  has_any_of set s = false → has_any_of set (take n s) = false.
Proof.
  intros H. rewrite <- (take_drop n s), has_any_of_app in H.
  by apply orb_false_iff in H as [? _].
Qed.

Lemma has_any_of_drop set n s :
  has_any_of set s = false → has_any_of set (drop n s) = false.
Proof.
  intros H. rewrite <- (take_drop n s), has_any_of_app in H.
  by apply orb_false_iff in H as [_ ?].
Qed.

Lemma skip_suffix p s : ∃ n, skip p s = drop n s.
Proof.
  induction s as [|c s [n IH]]; simpl; [by exists O|].
  destruct (p c); [by exists (S n)|by exists O].
Qed.

Lemma skip_app p a b :
  forallb p a = true → skip p (a ++ b) = skip p b.
Proof.
  induction a as [|c a IH]; simpl; [done|].
  intros [-> H]%andb_true_iff. by apply IH.
Qed.

Lemma skip_stop p c s : p c = false → skip p (c :: s) = c :: s.
Proof. intros H. simpl. by rewrite H. Qed.

Lemma strip_numericPrefix_suffix s : ∃ n, strip_numericPrefix s = drop n s.
Proof.
  unfold strip_numericPrefix.
  destruct (skip_suffix isspace s) as [n1 E1]. rewrite E1.
  destruct (drop n1 s) as [|d r] eqn:Ed; [by exists O|].
  destruct (isdigit d); [|by exists O].
  destruct (skip_suffix isdigit (d :: r)) as [n2 E2]. rewrite E2.
  assert (∃ n3, match drop n2 (d :: r) with
                | "." :: r0 => r0
                | _ => drop n2 (d :: r)
                end = drop n3 (d :: r)) as [n3 E3].
  { destruct (drop n2 (d :: r)) as [|x r0] eqn:E; [by exists n2|].
    destruct (decide (x = ".")) as [->|Hx].
    - exists (n2 + 1)%nat. by rewrite <- drop_drop, E.
    - exists n2. rewrite E.
      destruct x as [[] [] [] [] [] [] [] []]; try done. }
  rewrite E3. destruct (skip_suffix isspace (drop n3 (d :: r))) as [n4 E4].
  rewrite E4, <- Ed, !drop_drop. by eexists.
Qed.

Lemma getCleanSongName_steps p :
  chars p ≠ [] →
  getCleanSongName p =
  if is_dots (stem_of (chars p)) then p
  else match strip_numericPrefix (stem_of (chars p)) with
       | [] => "[Unnamed]"%string
       | t => str t
       end.
Proof.
  intros H. unfold getCleanSongName, stem_of.
  destruct (chars p) as [|c l] eqn:E; [done|].
  destruct (is_dots _); [done|]. by destruct (strip_numericPrefix _).
Qed.

Lemma stem_of_no_separator s : has_any_of ["/"; "\"] (stem_of s) = false.
Proof.
  unfold stem_of.
  assert (has_any_of ["/"; "\"]
            match find_last_of ["/"; "\"] s with
            | Some lastSlash => substr_from (lastSlash + 1) s
            | None => s
            end = false) as H.
  { destruct (find_last_of _ s) as [i|] eqn:E.
    - apply find_last_of_Some in E as (pre & c & post & -> & <- & _ & Hp).
      unfold substr_from.
      replace (pre ++ c :: post) with ((pre ++ [c]) ++ post)
        by (by rewrite <- app_assoc).
      rewrite drop_app_length'; [done|rewrite length_app; simpl; lia].
    - by apply find_last_of_None. }
  destruct (rfind _ _) as [j|]; [|done].
  destruct (0 <? j)%nat; [|done]. unfold substr. rewrite drop_0.
  by apply has_any_of_take.
Qed.

Lemma digit_not_space c : isdigit c = true → isspace c = false.
Proof. destruct c as [[] [] [] [] [] [] [] []]; by vm_compute. Qed.

Lemma digit_not_separator c : isdigit c = true → mem_ascii c ["/"; "\"] = false.
Proof. destruct c as [[] [] [] [] [] [] [] []]; by vm_compute. Qed.

Lemma digit_not_dot c : isdigit c = true → c ≠ ".".
Proof. destruct c as [[] [] [] [] [] [] [] []]; by vm_compute. Qed.

Lemma space_not_separator c : isspace c = true → mem_ascii c ["/"; "\"] = false.
Proof. destruct c as [[] [] [] [] [] [] [] []]; by vm_compute. Qed.

Lemma space_not_dot c : isspace c = true → c ≠ ".".
Proof. destruct c as [[] [] [] [] [] [] [] []]; by vm_compute. Qed.

Lemma has_any_of_false set s :
  has_any_of set s = false ↔ Forall (λ c, mem_ascii c set = false) s.
Proof.
  induction s as [|c s IH]; simpl; [by split|].
  rewrite orb_false_iff, Forall_cons, IH. done.
Qed.

Lemma forallb_Forall (p : ascii → bool) s :
  forallb p s = true ↔ Forall (λ c, p c = true) s.
Proof.
  induction s as [|c s IH]; simpl; [by split|].
  rewrite andb_true_iff, Forall_cons, IH. done.
Qed.

Lemma no_separator_no_dot s :
  has_any_of ["/"; "\"; "."] s = false →
  has_any_of ["/"; "\"] s = false ∧ has_any_of ["."] s = false.
Proof.
  rewrite !has_any_of_false. intros H. split; eapply Forall_impl; try exact H.
  - intros c. simpl. rewrite !orb_false_iff. tauto.
  - intros c. simpl. rewrite !orb_false_iff. tauto.
Qed.

Lemma digits_no_separator s :
  forallb isdigit s = true → has_any_of ["/"; "\"] s = false.
Proof.
  rewrite forallb_Forall, has_any_of_false. intros H.
  eapply Forall_impl; [exact H|]. apply digit_not_separator.
Qed.

Lemma spaces_no_separator s :
  forallb isspace s = true → has_any_of ["/"; "\"] s = false.
Proof.
  rewrite forallb_Forall, has_any_of_false. intros H.
  eapply Forall_impl; [exact H|]. apply space_not_separator.
Qed.

Lemma digits_no_dot s :
  forallb isdigit s = true → has_any_of ["."] s = false.
Proof.
  rewrite forallb_Forall, has_any_of_false. intros H.
  eapply Forall_impl; [exact H|]. intros c Hc. simpl.
  apply digit_not_dot in Hc. rewrite orb_false_r.
  by apply Ascii.eqb_neq.
Qed.

(* what follows the base of a path: the file name *)
Lemma after_base b file :
  is_base b = true → has_any_of ["/"; "\"] file = false →
  match find_last_of ["/"; "\"] (chars b ++ file) with
  | Some lastSlash => substr_from (lastSlash + 1) (chars b ++ file)
  | None => chars b ++ file
  end = file.
Proof.
  unfold is_base. intros Hb Hf.
  destruct (chars b) as [|x l] eqn:E using rev_ind.
  - simpl. apply find_last_of_None in Hf. by rewrite Hf.
  - clear IHl. rewrite last_snoc in Hb. rewrite <- app_assoc. simpl.
    rewrite find_last_of_app by done. unfold substr_from.
    replace (l ++ x :: file) with ((l ++ [x]) ++ file)
      by (by rewrite <- app_assoc).
    rewrite drop_app_length'; [done|rewrite length_app; simpl; lia].
Qed.

Lemma stem_of_ext b f e :
  is_base b = true → has_any_of ["/"; "\"] f = false → f ≠ [] →
  has_any_of ["/"; "\"; "."] e = false →
  stem_of (chars b ++ f ++ "." :: e) = f.
Proof.
  intros Hb Hf Hne [He1 He2]%no_separator_no_dot. unfold stem_of.
  rewrite after_base; [|done|].
  - unfold rfind. rewrite find_last_of_app by done.
    destruct f as [|c f]; [done|]. simpl length.
    unfold substr. rewrite drop_0.
    change (0 <? S (length f))%nat with true. cbv iota.
    by rewrite (take_app_length (c :: f)).
  - rewrite has_any_of_app, Hf. simpl. by rewrite He1.
Qed.

Lemma stem_of_plain b f :
  is_base b = true → has_any_of ["/"; "\"; "."] f = false →
  stem_of (chars b ++ f) = f.
Proof.
  intros Hb [Hf1 Hf2]%no_separator_no_dot. unfold stem_of.
  rewrite after_base by done. unfold rfind.
  apply find_last_of_None in Hf2. by rewrite Hf2.
Qed.

Lemma skip_all p s : forallb p s = true → skip p s = [].
Proof.
  induction s as [|c s IH]; simpl; [done|].
  intros [-> H]%andb_true_iff. by apply IH.
Qed.

Lemma skip_start p s :
  match s with [] => false | c :: _ => negb (p c) end = true → skip p s = s.
Proof. destruct s as [|c s]; simpl; [done|]. by intros ->%negb_true_iff. Qed.

(* digits, a dot, white space, and a title that does not begin with
   white space *)
Lemma strip_numbered d sp t :
  d ≠ [] → forallb isdigit d = true → forallb isspace sp = true →
  match t with [] => false | c :: _ => negb (isspace c) end = true →
  strip_numericPrefix (d ++ "." :: sp ++ t) = t.
Proof.
  intros Hd Hdig Hsp Ht. unfold strip_numericPrefix.
  destruct d as [|x d]; [done|]. simpl in Hdig.
  apply andb_true_iff in Hdig as [Hx Hdig].
  rewrite <- app_comm_cons, (skip_stop isspace) by by apply digit_not_space.
  rewrite Hx. rewrite app_comm_cons, skip_app by (simpl; by rewrite Hx).
  rewrite skip_stop by done.
  rewrite skip_app by done. by apply skip_start.
Qed.

Lemma strip_digits d :
  d ≠ [] → forallb isdigit d = true → strip_numericPrefix d = [].
Proof.
  intros Hd Hdig. unfold strip_numericPrefix.
  destruct d as [|x d]; [done|]. pose proof Hdig as Hall. simpl in Hdig.
  apply andb_true_iff in Hdig as [Hx Hdig].
  rewrite (skip_stop isspace) by by apply digit_not_space.
  rewrite Hx. by rewrite (skip_all isdigit) by done.
Qed.

Lemma strip_plain t :
  match t with [] => false | c :: _ => negb (isspace c || isdigit c) end = true →
  strip_numericPrefix t = t.
Proof.
  destruct t as [|c t]; [done|]. intros [Hs Hd]%negb_true_iff%orb_false_iff.
  unfold strip_numericPrefix. rewrite skip_stop by done. by rewrite Hd.
Qed.

Lemma is_dots_digit x l : isdigit x = true → is_dots (x :: l) = false.
Proof.
  intros Hx. apply digit_not_dot in Hx. simpl.
  destruct x as [[] [] [] [] [] [] [] []]; try done.
Qed.

(** X9: getCleanSongName never gives the empty string; what it gives is
    the path itself (a file name made of dots only) or a text without
    path separator. *)
Theorem getCleanSongName_never_empty (fullPath : string) :
  getCleanSongName fullPath ≠ ""%string ∧
  (getCleanSongName fullPath = fullPath ∨
   has_any_of ["/"; "\"] (chars (getCleanSongName fullPath)) = false).
Proof.
  destruct (chars fullPath) as [|c l] eqn:E.
  { unfold getCleanSongName. rewrite E. split; [done|by right]. }
  rewrite getCleanSongName_steps by by rewrite E.
  destruct (is_dots _).
  { split; [|by left]. intros ->. done. }
  pose proof (stem_of_no_separator (chars fullPath)) as Hs.
  destruct (strip_numericPrefix_suffix (stem_of (chars fullPath))) as [n Hn].
  destruct (strip_numericPrefix _) as [|x t] eqn:Et.
  { split; [done|by right]. }
  split.
  - intros H. apply (f_equal chars) in H. by rewrite chars_str in H.
  - right. rewrite chars_str, Hn. by apply has_any_of_drop.
Qed.

(** X10: for a path made of a base (nothing, or a directory with its
    separator), a file name and an extension, getCleanSongName gives the
    title: the file name without a prefix of digits, a dot and white space
    (01. Song.mp3 gives Song), or the whole file name when it begins with
    neither white space nor a digit. *)
Theorem getCleanSongName_gives_the_title
    (base digits spaces title ext : string) :
  is_base base = true →
  has_any_of ["/"; "\"] (chars title) = false →
  has_any_of ["/"; "\"; "."] (chars ext) = false →
  (digits ≠ ""%string → forallb isdigit (chars digits) = true →
   forallb isspace (chars spaces) = true →
   starts_without isspace title = true →
   getCleanSongName
     (base +:+ digits +:+ "." +:+ spaces +:+ title +:+ "." +:+ ext) = title) ∧
  (starts_without (λ c, isspace c || isdigit c) title = true →
   title ≠ "."%string → title ≠ ".."%string →
   getCleanSongName (base +:+ title +:+ "." +:+ ext) = title).
Proof.
  intros Hb Ht He. split.
  - intros Hd Hdig Hsp Hst.
    assert (chars digits ≠ []) as Hd'.
    { intros E. apply Hd. apply chars_inj. by rewrite E. }
    rewrite getCleanSongName_steps.
    2:{ rewrite !chars_app. destruct (chars digits); [done|].
        by destruct (chars base). }
    rewrite !chars_app. simpl (chars ".").
    replace (chars base ++ chars digits ++ ["."] ++ chars spaces ++
             chars title ++ ["."] ++ chars ext)
      with (chars base ++ (chars digits ++ "." :: chars spaces ++ chars title)
            ++ "." :: chars ext)
      by (rewrite <- ?app_assoc; simpl; by rewrite <- ?app_assoc).
    rewrite stem_of_ext; [|done| |by destruct (chars digits)|done].
    2:{ rewrite has_any_of_app, digits_no_separator by done. simpl.
        rewrite has_any_of_app, spaces_no_separator by done. by simpl. }
    destruct (chars digits) as [|x d] eqn:Ed; [done|].
    rewrite <- app_comm_cons, is_dots_digit
      by (simpl in Hdig; by apply andb_true_iff in Hdig as [? _]).
    rewrite app_comm_cons, strip_numbered; [|done..].
    unfold starts_without in Hst.
    destruct (chars title) as [|y t] eqn:Et; [done|].
    by rewrite <- Et, str_chars.
  - intros Hst Hn1 Hn2. unfold starts_without in Hst.
    destruct (chars title) as [|y t] eqn:Et; [done|].
    rewrite getCleanSongName_steps.
    2:{ rewrite !chars_app, Et. by destruct (chars base). }
    rewrite !chars_app. simpl (chars "."). rewrite Et.
    replace (chars base ++ (y :: t) ++ ["."] ++ chars ext)
      with (chars base ++ (y :: t) ++ "." :: chars ext) by done.
    rewrite stem_of_ext by done.
    destruct (is_dots (y :: t)) eqn:Edots.
    { exfalso. destruct t as [|z [|? ?]]; simpl in Edots.
      - destruct (decide (y = ".")) as [->|Hy].
        + apply Hn1. apply chars_inj. by rewrite Et.
        + destruct y as [[] [] [] [] [] [] [] []]; done.
      - destruct (decide (y = ".")) as [->|Hy];
          [destruct (decide (z = ".")) as [->|Hz]|].
        + apply Hn2. apply chars_inj. by rewrite Et.
        + destruct z as [[] [] [] [] [] [] [] []]; done.
        + destruct y as [[] [] [] [] [] [] [] []]; done.
      - destruct y as [[] [] [] [] [] [] [] []]; try done;
          destruct z as [[] [] [] [] [] [] [] []]; done. }
    rewrite strip_plain by done. by rewrite <- Et, str_chars.
Qed.

(** X11: a file whose name is made of digits only, with or without an
    extension, is shown as [Unnamed]: the digits are taken for a track
    number and removed (1999.mp3 and 2001.mp3 get the same name). *)
Theorem getCleanSongName_digits_only_is_unnamed (base digits ext : string) :
  is_base base = true →
  digits ≠ ""%string → forallb isdigit (chars digits) = true →
  has_any_of ["/"; "\"; "."] (chars ext) = false →
  getCleanSongName (base +:+ digits +:+ "." +:+ ext) = "[Unnamed]"%string ∧
  getCleanSongName (base +:+ digits) = "[Unnamed]"%string.
Proof.
  intros Hb Hd Hdig He.
  assert (chars digits ≠ []) as Hd'.
  { intros E. apply Hd. apply chars_inj. by rewrite E. }
  destruct (chars digits) as [|x d] eqn:Ed; [done|].
  pose proof Hdig as Hall. simpl in Hdig.
  apply andb_true_iff in Hdig as [Hx Hdig].
  split.
  - rewrite getCleanSongName_steps.
    2:{ rewrite !chars_app, Ed. by destruct (chars base). }
    rewrite !chars_app, Ed. simpl (chars ".").
    replace (chars base ++ (x :: d) ++ ["."] ++ chars ext)
      with (chars base ++ (x :: d) ++ "." :: chars ext) by done.
    rewrite stem_of_ext; [|done|by apply digits_no_separator|done|done].
    rewrite is_dots_digit by done. by rewrite strip_digits.
  - rewrite getCleanSongName_steps.
    2:{ rewrite !chars_app, Ed. by destruct (chars base). }
    rewrite !chars_app, Ed.
    rewrite stem_of_plain; [|done|].
    2:{ apply has_any_of_false. apply forallb_Forall in Hall.
        eapply Forall_impl; [exact Hall|]. intros c Hc. simpl.
        pose proof (digit_not_separator c Hc) as H1. simpl in H1.
        apply orb_false_iff in H1 as [H1 H2].
        apply orb_false_iff in H2 as [H2 _].
        rewrite H1, H2. simpl. rewrite orb_false_r.
        apply Ascii.eqb_neq. by apply digit_not_dot. }
    rewrite is_dots_digit by done. by rewrite strip_digits.
Qed.

Lemma length_chars (s : string) : length (chars s) = String.length s.
Proof. induction s as [|c s IH]; simpl; [done|by rewrite IH]. Qed.

Lemma equal_ci_spec s1 : ∀ s2,
  length s1 = length s2 → (equal_ci s1 s2 = true ↔ lower s1 = lower s2).
Proof.
  induction s1 as [|c1 s1 IH]; intros [|c2 s2]; simpl; try done.
  intros [= Hlen]. rewrite andb_true_iff, Ascii.eqb_eq, (IH s2 Hlen).
  unfold lower. split; [by intros [-> ->]|by intros [= -> ->]].
Qed.

(** X12: caseInsensitiveCompareEqual holds of two strings exactly when
    they are the same once the letters A to Z are put in lower case (so
    strings of different lengths are never equal). *)
Theorem caseInsensitiveCompareEqual_iff (str1 str2 : string) :
  caseInsensitiveCompareEqual str1 str2 = true ↔
  lower (chars str1) = lower (chars str2).
Proof.
  unfold caseInsensitiveCompareEqual. rewrite andb_true_iff, Nat.eqb_eq.
  rewrite <- !length_chars. split.
  - intros [Hlen H]. by apply equal_ci_spec.
  - intros H. assert (length (chars str1) = length (chars str2)) as Hlen.
    { apply (f_equal length) in H. unfold lower in H.
      by rewrite !length_fmap in H. }
    split; [done|]. by apply equal_ci_spec.
Qed.

End TextFacts.

Section TextSamples.

Lemma getCleanSongName_witness :
  getCleanSongName "music/01. Song.mp3" = "Song"%string ∧
  getCleanSongName "music/Song.mp3" = "Song"%string.
Proof.
  destruct (getCleanSongName_gives_the_title "music/" "01" " " "Song" "mp3")
    as [H1 H2]; [reflexivity..|].
  split; [apply H1; [done|reflexivity..]|apply H2; [reflexivity|done..]].
Defined.

Lemma getCleanSongName_unnamed_witness :
  getCleanSongName "music/1999.mp3" = "[Unnamed]"%string ∧
  getCleanSongName "music/1999" = "[Unnamed]"%string.
Proof.
  apply (getCleanSongName_digits_only_is_unnamed "music/" "1999" "mp3");
    [reflexivity|done|reflexivity..].
Defined.

End TextSamples.


(* ---- display, search and the sorts ---- *)

Import Library.

Section LibraryFacts.
Implicit Types (h : gmap positive node) (cells : list (positive * entry)).

Lemma deref_Some h a nd : h !! a = Some nd → deref h (Some a) = Ok nd.
Proof. intros H. simpl. by rewrite H. Qed.

Lemma int_add_small a b :
  INT_MIN ≤ a + b ≤ INT_MAX → int_add a b = Ok (a + b).
Proof. intros H. unfold int_add. by rewrite decide_True. Qed.

Lemma display_rows_lseg h hd : ∀ rest c fuel i,
  lseg h (c :: rest) (Some hd) → hd ∉ rest.*1 →
  (length rest < fuel)%nat →
  Z.of_nat i + 1 + Z.of_nat (S (length rest)) ≤ INT_MAX →
  display_rows fuel h (Some hd) (Some c.1) (Z.of_nat i + 1) =
  Ok (rows_from i (c.2 :: rest.*2)).
Proof.
  induction rest as [|c' rest IH]; intros c fuel i Hl Hhd Hf Hi;
    (destruct fuel as [|fuel]; [simpl in Hf; lia|]).
  - destruct Hl as [Hc _]. simpl in Hc.
    cbn [display_rows]. rewrite (deref_Some _ _ _ Hc). cbn [mbind outcome_bind].
    rewrite int_add_small by (unfold INT_MIN, INT_MAX in *; cbn [length] in Hi; lia).
    cbn [mbind outcome_bind next]. by rewrite decide_True.
  - destruct Hl as [Hc Hl]. simpl in Hc.
    cbn [display_rows]. rewrite (deref_Some _ _ _ Hc). cbn [mbind outcome_bind].
    rewrite int_add_small by (unfold INT_MIN, INT_MAX in *; cbn [length] in Hi; lia).
    cbn [mbind outcome_bind next]. rewrite decide_False by (intros [= E]; set_solver).
    replace (Z.of_nat i + 1 + 1) with (Z.of_nat (S i) + 1) by lia.
    rewrite IH; [done|done|set_solver|simpl in Hf; lia|cbn [length] in Hi |- *; lia].
Qed.

(** X13: display() writes the title (the name of the list, or [Unnamed]),
    the rule, and then, for an empty list, the line that says so; for a
    list of n nodes, n rows (fewer than INT_MAX), one for each entry in
    list order, numbered from 1, with the clean name cut to 35 bytes and
    the artist cut to 20, and a blank line. *)
Theorem display_lists_every_entry h L cells fuel :
  linked h L cells → len L < INT_MAX → (length cells ≤ fuel)%nat →
  display fuel h L =
  Ok ([DisplayTitle (shown_name (listName L)); DisplayRule] ++
      match cells with
      | [] => [DisplayEmpty]
      | _ => rows_from 0 cells.*2 ++ [BlankLine]
      end).
Proof.
  intros (Hnd & Hl & Hhd & Hlen) Hmax Hf. unfold display. rewrite Hhd.
  destruct cells as [|c rest]; [done|]. cbn [hd_or].
  simpl in Hl, Hnd. apply NoDup_cons in Hnd as [Hc _].
  pose proof (display_rows_lseg h c.1 rest c fuel 0) as H.
  change (Z.of_nat 0 + 1) with 1 in H at 2.
  rewrite H; [done|done|done| |].
  - simpl in Hf. lia.
  - rewrite Hlen in Hmax. cbn [length] in Hmax |- *. lia.
Qed.

Lemma is_prefix_spec p s : is_prefix p s = true ↔ ∃ post, s = p ++ post.
Proof.
  revert s. induction p as [|a p IH]; intros s; simpl.
  - split; [by exists s|done].
  - destruct s as [|b s]; [split; [done|by intros [? ?]]|].
    rewrite andb_true_iff, IH, Ascii.eqb_eq. split.
    + intros [-> [post ->]]. by exists post.
    + intros [post [= -> ->]]. eauto.
Qed.

Lemma found_in_spec s sub :
  found_in s sub = true ↔ ∃ pre post, s = pre ++ sub ++ post.
Proof.
  unfold found_in. induction s as [|c s IH]; simpl.
  - destruct (is_prefix sub []) eqn:E.
    + apply is_prefix_spec in E as [post E]. split; [|done]. intros _.
      exists [], post. done.
    + split; [done|]. intros (pre & post & E').
      destruct pre; [|done]. simpl in E'.
      assert (is_prefix sub [] = true) by (apply is_prefix_spec; eauto).
      congruence.
  - destruct (is_prefix sub (c :: s)) eqn:E.
    + apply is_prefix_spec in E as [post E]. split; [|done]. intros _.
      exists [], post. done.
    + destruct (find s sub) as [i|]; simpl.
      * split; [|done]. intros _. destruct IH as [IH _].
        destruct (IH eq_refl) as (pre & post & ->). by exists (c :: pre), post.
      * split; [done|]. intros (pre & post & E').
        destruct pre as [|x pre].
        -- assert (is_prefix sub (c :: s) = true)
             by (apply is_prefix_spec; eauto). congruence.
        -- injection E' as -> ->. destruct IH as [_ IH].
           discriminate IH. eauto.
Qed.

Lemma search_rows_lseg h hd term : ∀ rest c fuel i found,
  lseg h (c :: rest) (Some hd) → hd ∉ rest.*1 →
  (length rest < fuel)%nat →
  Z.of_nat i + 1 + Z.of_nat (S (length rest)) ≤ INT_MAX →
  search_rows fuel h (Some hd) (Some c.1) (lower (chars term)) found
    (Z.of_nat i + 1) =
  Ok (matches_from term i (c.2 :: rest.*2),
      found || existsb (matching term) (c.2 :: rest.*2)).
Proof.
  induction rest as [|c' rest IH]; intros c fuel i found Hl Hhd Hf Hi;
    (destruct fuel as [|fuel]; [simpl in Hf; lia|]).
  - destruct Hl as [Hc _]. simpl in Hc.
    cbn [search_rows]. rewrite (deref_Some _ _ _ Hc). cbn [mbind outcome_bind].
    rewrite int_add_small by (unfold INT_MIN, INT_MAX in *; cbn [length] in Hi; lia).
    cbn [mbind outcome_bind next song artist]. rewrite decide_True by done.
    cbn [matches_from existsb fmap list_fmap]. unfold matching.
    rewrite app_nil_r, orb_false_r.
    destruct (found_in _ _); [by rewrite orb_true_r|by rewrite orb_false_r].
  - destruct Hl as [Hc Hl]. simpl in Hc.
    cbn [search_rows]. rewrite (deref_Some _ _ _ Hc). cbn [mbind outcome_bind].
    rewrite int_add_small by (unfold INT_MIN, INT_MAX in *; cbn [length] in Hi; lia).
    cbn [mbind outcome_bind next song artist]. rewrite decide_False by (intros [= E]; set_solver).
    replace (Z.of_nat i + 1 + 1) with (Z.of_nat (S i) + 1) by lia.
    rewrite IH; [|done|set_solver|simpl in Hf; lia|cbn [length] in Hi |- *; lia].
    cbn [mbind outcome_bind matches_from existsb fmap list_fmap].
    unfold matching. f_equal. f_equal.
    destruct (found_in _ _); [by rewrite orb_true_r|done].
Qed.

Lemma matches_from_elem term pos s a : ∀ es i,
  MatchFound pos s a ∈ matches_from term i es ↔
  ∃ j e, es !! j = Some e ∧ pos = Z.of_nat (i + j) + 1 ∧
         s = getCleanSongName e.1 ∧ a = e.2 ∧ matching term e = true.
Proof.
  induction es as [|e es IH]; intros i; simpl.
  - split; [by intros ?%elem_of_nil|by intros (j & e & ? & _)].
  - rewrite elem_of_app, IH. split.
    + intros [H|(j & e' & Hj & -> & -> & -> & Hm)].
      * destruct (matching term e) eqn:Hm; [|by apply elem_of_nil in H].
        apply list_elem_of_singleton in H as [= -> -> ->].
        exists O, e. rewrite Nat.add_0_r. done.
      * exists (S j), e'. repeat split; [done|f_equal; lia|done].
    + intros (j & e' & Hj & -> & -> & -> & Hm). destruct j as [|j].
      * injection Hj as ->. left. rewrite Hm, Nat.add_0_r.
        by apply list_elem_of_singleton.
      * right. exists j, e'. repeat split; [done|f_equal; lia|done].
Qed.

(** X14: search(term) on a list that is not empty writes the term and one
    match for each entry whose clean name contains the term, letter case
    apart, in list order, with its position counted from 1; and the line
    that nothing was found exactly when no entry matches. *)
Theorem search_reports_the_matching_positions h L cells fuel term :
  linked h L cells → cells ≠ [] → len L < INT_MAX →
  (length cells ≤ fuel)%nat →
  search fuel h L term =
  Ok (SearchingFor term :: matches_from term 0 cells.*2 ++
      (if existsb (matching term) cells.*2 then [] else [NoSongsFound])) ∧
  (∀ pos s a,
     MatchFound pos s a ∈ matches_from term 0 cells.*2 ↔
     ∃ j e, cells.*2 !! j = Some e ∧ pos = Z.of_nat j + 1 ∧
            s = getCleanSongName e.1 ∧ a = e.2 ∧
            ∃ pre post,
              lower (chars (getCleanSongName e.1)) =
              pre ++ lower (chars term) ++ post).
Proof.
  intros (Hnd & Hl & Hhd & Hlen) Hne Hmax Hf. split.
  - unfold search. rewrite Hhd.
    destruct cells as [|c rest]; [done|]. cbn [hd_or].
    simpl in Hl, Hnd. apply NoDup_cons in Hnd as [Hc _].
    pose proof (search_rows_lseg h c.1 term rest c fuel 0 false) as H.
    change (Z.of_nat 0 + 1) with 1 in H at 2.
    rewrite H;
      [|done|done|simpl in Hf; lia|rewrite Hlen in Hmax; cbn [length] in Hmax |- *; lia].
    cbn [mbind outcome_bind orb]. do 3 f_equal.
    by destruct (existsb _ _).
  - intros pos s a. rewrite matches_from_elem. unfold matching.
    setoid_rewrite found_in_spec. done.
Qed.

Lemma string_gt_irrefl a : string_gt a a = false.
Proof.
  induction a as [|x a IH]; simpl; [done|]. by rewrite Nat.ltb_irrefl.
Qed.

Lemma string_gt_asym a : ∀ b, string_gt a b = true → string_gt b a = false.
Proof.
  induction a as [|x a IH]; intros [|y b]; simpl; try done.
  destruct (Nat.ltb_spec (nat_of_ascii y) (nat_of_ascii x)),
    (Nat.ltb_spec (nat_of_ascii x) (nat_of_ascii y)); try done; try lia.
  apply IH.
Qed.

Lemma string_le_trans a : ∀ b c,
  string_gt a b = false → string_gt b c = false → string_gt a c = false.
Proof.
  induction a as [|x a IH]; intros [|y b] [|z c]; simpl; try done.
  destruct (Nat.ltb_spec (nat_of_ascii y) (nat_of_ascii x)),
    (Nat.ltb_spec (nat_of_ascii x) (nat_of_ascii y)),
    (Nat.ltb_spec (nat_of_ascii z) (nat_of_ascii y)),
    (Nat.ltb_spec (nat_of_ascii y) (nat_of_ascii z)),
    (Nat.ltb_spec (nat_of_ascii z) (nat_of_ascii x)),
    (Nat.ltb_spec (nat_of_ascii x) (nat_of_ascii z));
    try done; try lia.
  apply IH.
Qed.

Section Sorting.
Context (key : entry → list ascii).

Lemma key_le_trans : Transitive (key_le key).
Proof. intros x y z. unfold key_le. apply string_le_trans. Qed.

Lemma bubble_cons x rest : ∃ b B, (bubble key x rest).1 = b :: B.
Proof.
  destruct rest as [|y rest]; simpl; [by eexists _, _|].
  destruct (string_gt _ _); simpl; by eexists _, _.
Qed.

Lemma bubble_perm rest : ∀ x, (bubble key x rest).1 ≡ₚ x :: rest.
Proof.
  induction rest as [|y rest IH]; intros x; simpl; [done|].
  destruct (string_gt _ _); simpl.
  - rewrite IH. apply perm_swap.
  - by rewrite IH.
Qed.

Lemma length_filter_perm (P : entry → Prop) `{∀ e, Decision (P e)} l1 l2 :
  l1 ≡ₚ l2 → length (filter P l1) = length (filter P l2).
Proof. by intros ->. Qed.

Lemma bubble_inversions rest : ∀ x,
  (inversions key (bubble key x rest).1 +
   (if (bubble key x rest).2 then 1 else 0) ≤ inversions key (x :: rest))%nat.
Proof.
  induction rest as [|y rest IH]; intros x; [simpl; lia|].
  cbn [bubble]. destruct (string_gt (key x) (key y)) eqn:E; cbn [fst snd].
  - specialize (IH x). cbn [inversions] in IH |- *.
    rewrite (length_filter_perm _ _ _ (bubble_perm rest x)).
    rewrite filter_cons_False by (by rewrite (string_gt_asym _ _ E)).
    rewrite (filter_cons_True _ y) by done. cbn [length].
    destruct (bubble key x rest).2; lia.
  - specialize (IH y). cbn [inversions] in IH |- *.
    rewrite (length_filter_perm _ _ _ (bubble_perm rest y)).
    destruct (bubble key y rest).2; lia.
Qed.

Lemma bubble_noswap rest : ∀ x,
  (bubble key x rest).2 = false →
  (bubble key x rest).1 = x :: rest ∧ Sorted (key_le key) (x :: rest).
Proof.
  induction rest as [|y rest IH]; intros x; simpl.
  - intros _. split; [done|]. by repeat constructor.
  - destruct (string_gt (key x) (key y)) eqn:E; simpl; [done|].
    intros H. destruct (IH y H) as [-> Hs]. split; [done|].
    constructor; [done|]. by constructor.
Qed.

(* entries with the same key keep their order *)
Lemma bubble_stable k rest : ∀ x,
  filter (λ e, key e = k) (bubble key x rest).1 =
  filter (λ e, key e = k) (x :: rest).
Proof.
  induction rest as [|y rest IH]; intros x; simpl; [done|].
  destruct (string_gt (key x) (key y)) eqn:E; cbn [fst].
  - assert (key x ≠ key y) as Hne.
    { intros Heq. rewrite Heq, string_gt_irrefl in E. done. }
    rewrite (filter_cons _ y), IH, !(filter_cons _ x), (filter_cons _ y).
    repeat case_decide; try done. congruence.
  - by rewrite (filter_cons _ x), IH, (filter_cons _ x).
Qed.

Lemma inversions_bound es : (inversions key es ≤ length es * length es)%nat.
Proof.
  induction es as [|x es IH]; simpl; [lia|].
  pose proof (length_filter (λ y, string_gt (key x) (key y) = true) es). nia.
Qed.

Lemma swapNodesData_ok h a b na nb :
  a ≠ b → h !! a = Some na → h !! b = Some nb →
  swapNodesData h (Some a) (Some b) =
  Ok (<[b := Node (song na) (artist na) (next nb)]>
        (<[a := Node (song nb) (artist nb) (next na)]> h)).
Proof.
  intros Hab Ha Hb. unfold swapNodesData. rewrite decide_True by done.
  by rewrite (deref_Some _ _ _ Ha), (deref_Some _ _ _ Hb).
Qed.

(* one pass over the nodes is one pass over the entries; the nodes keep
   their places and their links *)
Lemma sort_pass_lseg tl : ∀ rest a x sw h,
  NoDup (a :: rest.*1) → lseg h ((a, x) :: rest) tl →
  ∃ h', sort_pass key (length rest) h (Some a) sw =
          Ok (h', sw || (bubble key x rest.*2).2) ∧
        lseg h' (zip (a :: rest.*1) (bubble key x rest.*2).1) tl ∧
        (∀ p, p ∉ a :: rest.*1 → h' !! p = h !! p).
Proof.
  induction rest as [|[b y] rest IH]; intros a x sw h Hnd Hl.
  - exists h. simpl. rewrite orb_false_r. done.
  - destruct Hl as (Ha & Hb & Hl). cbn [fst snd hd_or] in Ha, Hb.
    apply NoDup_cons in Hnd as [Hna Hnd]. pose proof Hnd as Hnd'.
    apply NoDup_cons in Hnd' as [Hnb Hnd'].
    assert (a ≠ b) as Hab by set_solver.
    assert (a ∉ rest.*1) as Har by set_solver.
    cbn [length sort_pass]. rewrite (deref_Some _ _ _ Ha).
    cbn [mbind outcome_bind next]. rewrite (deref_Some _ _ _ Hb).
    cbn [mbind outcome_bind song artist fmap list_fmap bubble snd fst].
    rewrite <- !surjective_pairing.
    destruct (string_gt (key x) (key y)) eqn:E.
    + rewrite (swapNodesData_ok _ _ _ _ _ Hab Ha Hb).
      cbn [mbind outcome_bind song artist next].
      set (h1 := <[b := _]> (<[a := _]> h)).
      destruct (IH b x true h1) as (h' & Hrun & Hl' & Hfr).
      * done.
      * split; [by unfold h1; rewrite lookup_insert_eq|].
        unfold h1. by do 2 (apply lseg_insert_frame; [done|]).
      * exists h'. rewrite Hrun. cbn [orb fst snd]. rewrite orb_true_r.
        split; [done|]. split.
        -- cbn [zip zip_with]. split; [|done]. cbn [fst snd].
           rewrite Hfr by set_solver. unfold h1.
           rewrite lookup_insert_ne, lookup_insert_eq by done.
           destruct (bubble_cons x rest.*2) as (z & B & ->). done.
        -- intros p Hp. rewrite Hfr by set_solver. unfold h1.
           rewrite !lookup_insert_ne by set_solver. done.
    + destruct (IH b y sw h) as (h' & Hrun & Hl' & Hfr); [done|by split|].
      exists h'. rewrite Hrun. cbn [fst snd]. split; [done|]. split.
      * cbn [zip zip_with]. split; [|done]. cbn [fst snd].
        rewrite Hfr by set_solver. rewrite Ha.
        destruct (bubble_cons y rest.*2) as (z & B & ->). done.
      * intros p Hp. apply Hfr. set_solver.
Qed.

Lemma sort_loop_lseg L a0 : ∀ fuel cells h,
  head L = Some a0 → len L = Z.of_nat (length cells) → len L ≤ INT_MAX →
  hd_or cells None = Some a0 →
  NoDup cells.*1 → lseg h cells (Some a0) →
  (inversions key cells.*2 < fuel)%nat →
  ∃ h' es,
    sort_loop key fuel h L = Ok h' ∧
    es ≡ₚ cells.*2 ∧
    Sorted (key_le key) es ∧
    (∀ k, filter (λ e, key e = k) es = filter (λ e, key e = k) cells.*2) ∧
    lseg h' (zip cells.*1 es) (Some a0) ∧
    (∀ p, p ∉ cells.*1 → h' !! p = h !! p).
Proof.
  induction fuel as [|fuel IH]; intros cells h Hhd Hlen Hmax Hfirst Hnd Hl Hf;
    [lia|].
  destruct cells as [|[a x] rest]; [done|]. injection Hfirst as <-.
  cbn [sort_loop].
  rewrite int_add_small
    by (unfold INT_MIN, INT_MAX in *; rewrite Hlen in Hmax |- *;
        cbn [length] in *; lia).
  cbn [mbind outcome_bind].
  replace (Z.to_nat (len L + -1)) with (length rest)
    by (rewrite Hlen; cbn [length]; lia).
  rewrite Hhd.
  destruct (sort_pass_lseg (Some a) rest a x false h Hnd Hl)
    as (h1 & Hrun & Hl1 & Hfr1).
  rewrite Hrun. cbn [mbind outcome_bind orb].
  pose proof (bubble_perm rest.*2 x) as Hperm.
  pose proof (bubble_inversions rest.*2 x) as Hinv.
  pose proof (bubble_stable) as Hst.
  destruct (bubble key x rest.*2).2 eqn:Esw.
  - set (B := (bubble key x rest.*2).1) in *.
    assert (length B = S (length rest)) as HlenB.
    { rewrite Hperm. cbn [length]. by rewrite length_fmap. }
    edestruct (IH (zip (a :: rest.*1) B) h1) as (h' & es & Hloop & Hp & Hs & Hk & Hl' & Hfr).
    + done.
    + rewrite length_zip, HlenB. cbn [length]. rewrite length_fmap.
      rewrite Hlen. cbn [length]. lia.
    + done.
    + destruct B; [done|]. done.
    + rewrite fst_zip; [done|]. cbn [length]. rewrite length_fmap. lia.
    + done.
    + rewrite snd_zip by (cbn [length]; rewrite length_fmap; lia).
      cbn [fmap list_fmap fst snd] in Hf, Hinv |- *. lia.
    + rewrite fst_zip in Hl', Hfr by (cbn [length]; rewrite length_fmap; lia).
      rewrite snd_zip in Hp, Hk by (cbn [length]; rewrite length_fmap; lia).
      exists h', es. split; [done|]. split; [by rewrite Hp, Hperm|].
      split; [done|]. split.
      { intros k. rewrite Hk. unfold B. apply Hst. }
      split; [done|]. intros p Hp'. rewrite Hfr by done. by apply Hfr1.
  - destruct (bubble_noswap rest.*2 x Esw) as [EB Hs].
    rewrite EB in Hl1. exists h1, (x :: rest.*2). split; [done|].
    split; [done|]. split; [done|]. split; [done|]. done.
Qed.

(* a sort leaves the nodes and their links as they are and puts the
   entries in order; entries with the same key keep their order *)
Lemma sort_by_spec h L cells fuel :
  linked h L cells → len L ≤ INT_MAX →
  (length cells * length cells < fuel)%nat →
  ∃ h' es,
    sort_by key fuel h L = Ok h' ∧
    linked h' L (zip cells.*1 es) ∧
    es ≡ₚ cells.*2 ∧
    StronglySorted (key_le key) es ∧
    (∀ k, filter (λ e, key e = k) es = filter (λ e, key e = k) cells.*2) ∧
    (∀ p, p ∉ cells.*1 → h' !! p = h !! p).
Proof.
  intros (Hnd & Hl & Hhd & Hlen) Hmax Hf. unfold sort_by. rewrite Hhd.
  destruct cells as [|[a x] rest].
  { exists h, []. simpl. repeat split; try done; constructor. }
  cbn [hd_or fst] in *. destruct Hl as [Ha Hl]. cbn [fst snd] in Ha.
  rewrite (deref_Some _ _ _ Ha). cbn [mbind outcome_bind next].
  destruct rest as [|[b y] rest].
  { rewrite decide_True by done. exists h, [x]. split; [done|].
    split; [by repeat split|]. split; [done|].
    split; [repeat constructor|done]. }
  rewrite decide_False.
  2:{ simpl. intros [= ->]. apply NoDup_cons in Hnd as [Hn _]. set_solver. }
  destruct (sort_loop_lseg L a fuel ((a, x) :: (b, y) :: rest) h)
    as (h' & es & Hloop & Hp & Hs & Hk & Hl' & Hfr);
    [done|done|done|done|done|by split| |].
  { pose proof (inversions_bound ((a, x) :: (b, y) :: rest).*2) as Hb.
    rewrite length_fmap in Hb. lia. }
  exists h', es. split; [done|].
  assert (length es = length ((a, x) :: (b, y) :: rest)) as Hlen'.
  { rewrite Hp. by rewrite length_fmap. }
  split; [|split; [done|split; [by apply Sorted_StronglySorted; [apply key_le_trans|]|done]]].
  repeat split.
  - rewrite fst_zip; [done|]. rewrite length_fmap. lia.
  - destruct es as [|e es]; [done|]. cbn [fmap list_fmap fst zip zip_with hd_or] in Hl' |- *. done.
  - destruct es as [|e es]; [done|]. done.
  - rewrite Hlen, length_zip, length_fmap, Hlen'. f_equal. lia.
Qed.

End Sorting.

Lemma StronglySorted_filter (R : relation entry) (P : entry → Prop)
    `{∀ e, Decision (P e)} l :
  StronglySorted R l → StronglySorted R (filter P l).
Proof.
  induction 1 as [|x l Hs IH Hx]; [constructor|].
  rewrite filter_cons. case_decide; [|done].
  constructor; [done|]. rewrite Forall_forall in Hx |- *.
  intros y [_ Hy]%list_elem_of_filter. by apply Hx.
Qed.

(** X15: sortBySong() on a circular list (fewer than fuel passes are
    needed when fuel exceeds the square of the length) ends and leaves
    every node where it was, with its link, and the same entries, now in
    the order of their clean names in lower case (bytes compared as
    unsigned values); entries whose names are equal in that sense keep
    their order, and no other node of the heap is touched. *)
Theorem sortBySong_sorts h L cells fuel :
  linked h L cells → len L ≤ INT_MAX →
  (length cells * length cells < fuel)%nat →
  ∃ h' es,
    sortBySong fuel h L = Ok h' ∧
    linked h' L (zip cells.*1 es) ∧
    es ≡ₚ cells.*2 ∧
    StronglySorted (key_le song_key) es ∧
    (∀ k, filter (λ e, song_key e = k) es =
          filter (λ e, song_key e = k) cells.*2) ∧
    (∀ p, p ∉ cells.*1 → h' !! p = h !! p).
Proof. apply sort_by_spec. Qed.

(** X16: sortByArtist() on a circular list ends and leaves every node
    where it was, with its link, and the same entries, now in the order
    of their artists in lower case; entries whose artists are equal in
    that sense keep their order, and no other node of the heap is
    touched. *)
Theorem sortByArtist_sorts h L cells fuel :
  linked h L cells → len L ≤ INT_MAX →
  (length cells * length cells < fuel)%nat →
  ∃ h' es,
    sortByArtist fuel h L = Ok h' ∧
    linked h' L (zip cells.*1 es) ∧
    es ≡ₚ cells.*2 ∧
    StronglySorted (key_le artist_key) es ∧
    (∀ k, filter (λ e, artist_key e = k) es =
          filter (λ e, artist_key e = k) cells.*2) ∧
    (∀ p, p ∉ cells.*1 → h' !! p = h !! p).
Proof. apply sort_by_spec. Qed.

(** X17: sortBySong() and then sortByArtist() leave the entries in the
    order of their artists and, among the entries of one artist, in the
    order of their clean names: the second sort keeps the order the first
    one made. *)
Theorem sort_by_song_then_by_artist h L cells fuel :
  linked h L cells → len L ≤ INT_MAX →
  (length cells * length cells < fuel)%nat →
  ∃ h1 h2 es,
    sortBySong fuel h L = Ok h1 ∧
    sortByArtist fuel h1 L = Ok h2 ∧
    linked h2 L (zip cells.*1 es) ∧
    es ≡ₚ cells.*2 ∧
    StronglySorted (key_le artist_key) es ∧
    (∀ k, StronglySorted (key_le song_key)
            (filter (λ e, artist_key e = k) es)).
Proof.
  intros Hl Hmax Hf.
  destruct (sort_by_spec song_key h L cells fuel Hl Hmax Hf)
    as (h1 & es1 & Hrun1 & Hl1 & Hp1 & Hs1 & _ & _).
  assert (length es1 = length cells) as Hlen1
    by (by rewrite Hp1, length_fmap).
  assert ((zip cells.*1 es1).*1 = cells.*1) as Hfst
    by (apply fst_zip; rewrite length_fmap; lia).
  assert ((zip cells.*1 es1).*2 = es1) as Hsnd
    by (apply snd_zip; rewrite length_fmap; lia).
  destruct (sort_by_spec artist_key h1 L (zip cells.*1 es1) fuel Hl1 Hmax)
    as (h2 & es2 & Hrun2 & Hl2 & Hp2 & Hs2 & Hk2 & _).
  { rewrite length_zip, length_fmap, Hlen1. lia. }
  rewrite Hfst in Hl2. rewrite Hsnd in Hp2, Hk2.
  exists h1, h2, es2. split; [done|]. split; [done|]. split; [done|].
  split; [by rewrite Hp2|]. split; [done|].
  intros k. rewrite Hk2. by apply StronglySorted_filter.
Qed.

End LibraryFacts.

Section LibrarySamples.

Lemma shelf_linked : linked shelf_heap shelf_list shelf_cells.
Proof.
  unfold linked. simpl. split; [|split; [|done]].
  - repeat (constructor; [set_solver|]). constructor.
  - by vm_compute.
Qed.

Lemma display_witness :
  display 3 shelf_heap shelf_list =
  Ok [DisplayTitle "shelf"; DisplayRule;
      DisplayRow 1 "Zebra" "Queen"; DisplayRow 2 "apple" "abba";
      DisplayRow 3 "Mango" "Beatles"; BlankLine].
Proof.
  apply (display_lists_every_entry shelf_heap shelf_list shelf_cells 3).
  - apply shelf_linked.
  - done.
  - simpl. lia.
Defined.

Lemma search_witness :
  search 3 shelf_heap shelf_list "AN" =
  Ok [SearchingFor "AN"; MatchFound 3 "Mango" "Beatles"].
Proof.
  apply (search_reports_the_matching_positions
           shelf_heap shelf_list shelf_cells 3 "AN").
  - apply shelf_linked.
  - done.
  - done.
  - simpl. lia.
Defined.

Lemma sortBySong_witness :
  ∃ h' es,
    sortBySong 10 shelf_heap shelf_list = Ok h' ∧
    linked h' shelf_list (zip shelf_cells.*1 es) ∧
    es ≡ₚ shelf_cells.*2 ∧
    StronglySorted (key_le song_key) es ∧
    (∀ k, filter (λ e, song_key e = k) es =
          filter (λ e, song_key e = k) shelf_cells.*2) ∧
    (∀ p, p ∉ shelf_cells.*1 → h' !! p = shelf_heap !! p).
Proof.
  apply (sortBySong_sorts shelf_heap shelf_list shelf_cells 10).
  - apply shelf_linked.
  - done.
  - simpl. lia.
Defined.

Lemma sortByArtist_witness :
  ∃ h' es,
    sortByArtist 10 shelf_heap shelf_list = Ok h' ∧
    linked h' shelf_list (zip shelf_cells.*1 es) ∧
    es ≡ₚ shelf_cells.*2 ∧
    StronglySorted (key_le artist_key) es ∧
    (∀ k, filter (λ e, artist_key e = k) es =
          filter (λ e, artist_key e = k) shelf_cells.*2) ∧
    (∀ p, p ∉ shelf_cells.*1 → h' !! p = shelf_heap !! p).
Proof.
  apply (sortByArtist_sorts shelf_heap shelf_list shelf_cells 10).
  - apply shelf_linked.
  - done.
  - simpl. lia.
Defined.

Lemma sort_by_song_then_by_artist_witness :
  ∃ h1 h2 es,
    sortBySong 10 shelf_heap shelf_list = Ok h1 ∧
    sortByArtist 10 h1 shelf_list = Ok h2 ∧
    linked h2 shelf_list (zip shelf_cells.*1 es) ∧
    es ≡ₚ shelf_cells.*2 ∧
    StronglySorted (key_le artist_key) es ∧
    (∀ k, StronglySorted (key_le song_key)
            (filter (λ e, artist_key e = k) es)).
Proof.
  apply (sort_by_song_then_by_artist shelf_heap shelf_list shelf_cells 10).
  - apply shelf_linked.
  - done.
  - simpl. lia.
Defined.

End LibrarySamples.


(* ---- the stack, and the play of one entry ---- *)

Import Drivers.

Section DriverFacts.
Context (scale : Z → Z → Z → Z).
#[local] Arguments playerWithControls : simpl never.

Lemma Stack_push_pop it s w :
  Stack_pop (Stack_push it s w).1 (Stack_push it s w).2 = Some (it, s, w).
Proof.
  unfold Stack_push, Stack_pop, Stack_isEmpty. simpl.
  rewrite lookup_insert_eq. simpl.
  rewrite delete_insert_id by (apply not_elem_of_dom, is_fresh).
  by destruct s, w.
Qed.

Lemma push_items_snoc its it : ∀ s w,
  push_items (its ++ [it]) s w =
  Stack_push it (push_items its s w).1 (push_items its s w).2.
Proof.
  induction its as [|x its IH]; intros s w.
  - cbn [push_items app fst snd]. by destruct (Stack_push it s w).
  - rewrite <- app_comm_cons. cbn [push_items].
    destruct (Stack_push x s w) as [s1 w1]. apply IH.
Qed.

(** X18: a stack gives back what was pushed, last in first out: after any
    items have been pushed on a stack, as many pops return them in the
    reverse order and leave the stack and the memory as they were before
    the pushes; a pop of the empty stack returns nullptr and changes
    nothing. *)
Theorem stack_pops_in_reverse (its : list (option positive)) (s : Stack)
    (w : World) :
  pop_times (length its) (push_items its s w).1 (push_items its s w).2 =
    Some (reverse its, s, w) ∧
  Stack_pop (mkStack None) w = Some (None, mkStack None, w).
Proof.
  split; [|done]. revert s w.
  induction its as [|it its IH] using rev_ind; intros s w; [done|].
  rewrite push_items_snoc, length_app, Nat.add_1_r, reverse_snoc.
  cbn [pop_times]. rewrite Stack_push_pop. cbn [mbind option_bind].
  by rewrite IH.
Qed.

Lemma read_choice_spec n : ∀ inputs w choice w',
  read_choice inputs n w = Some (choice, w') →
  first_valid n inputs = Some choice ∧ drives w w' [] ∧
  sessions w' = sessions w.
Proof.
  induction inputs as [|x inputs IH]; intros w choice w'; [done|].
  cbn [read_choice first_valid]. destruct x as [c|].
  - case_decide.
    + intros [= <- <-]. split; [done|]. split; [|done].
      exists [EvOut (SinglePrompt n); EvCinInt (Some c)].
      simpl. by rewrite <- app_assoc.
    + intros (Hv & Hd & Hs)%IH. split; [done|]. split; [|by rewrite Hs].
      eapply (drives_trans _ _ _ [] []); [|exact Hd].
      exists [EvOut (SinglePrompt n); EvCinInt (Some c); EvOut (SingleInvalid n)].
      simpl. by rewrite <- !app_assoc.
  - intros (Hv & Hd & Hs)%IH. split; [done|]. split; [|by rewrite Hs].
    eapply (drives_trans _ _ _ [] []); [|exact Hd].
    exists [EvOut (SinglePrompt n); EvCinInt None; EvOut (SingleInvalid n)].
    simpl. by rewrite <- !app_assoc.
Qed.

Lemma read_choice_total n : ∀ inputs w choice,
  first_valid n inputs = Some choice →
  ∃ w', read_choice inputs n w = Some (choice, w').
Proof.
  induction inputs as [|x inputs IH]; intros w choice; [done|].
  cbn [read_choice first_valid]. destruct x as [c|].
  - case_decide; [intros [= <-]; by eexists|apply IH].
  - apply IH.
Qed.

Lemma first_valid_range n : ∀ inputs choice,
  first_valid n inputs = Some choice → 1 ≤ choice ≤ n.
Proof.
  induction inputs as [|[c|] inputs IH]; intros choice; simpl; [done| |apply IH].
  case_decide; [intros [= <-]; lia|apply IH].
Qed.

Lemma walk_lseg h cells tl : ∀ k j c,
  lseg h cells tl → cells !! j = Some c → (j + k < length cells)%nat →
  ∃ c', cells !! (j + k)%nat = Some c' ∧ walk k h (Some c.1) = Some (Some c'.1).
Proof.
  induction k as [|k IH]; intros j c Hl Hj Hlt.
  - exists c. by rewrite Nat.add_0_r.
  - pose proof (lseg_nth _ _ _ _ _ Hl Hj) as Hn.
    destruct (lookup_lt_is_Some_2 cells (S j)) as [c1 Hc1]; [lia|].
    rewrite (drop_S _ _ _ Hc1) in Hn. cbn [hd_or] in Hn.
    destruct (IH (S j) c1 Hl Hc1) as (c' & Hc' & Hw); [lia|].
    exists c'. split; [by rewrite <- Nat.add_succ_comm|].
    cbn [walk mbind option_bind]. by rewrite Hn.
Qed.

(** X19: playWithControlsSingle on a circular list that is not empty
    shows the list and starts one session, on the entry whose number is
    the first valid one typed (between 1 and the length); numbers out of
    range and input that is no number are asked again. It returns
    whenever such a number is typed and the scripts are ones on which a
    session returns 0; the nodes of the list are not changed. *)
Theorem playWithControlsSingle_plays_the_chosen_entry fuel li cells w :
  linked (mem w) li cells → cells ≠ [] → len li < INT_MAX →
  (length cells ≤ fuel)%nat →
  (∀ shown w',
     playWithControlsSingle scale fuel li w = Some (shown, w') →
     ∃ choice c,
       first_valid (len li) (numbers w) = Some choice ∧
       cells !! Z.to_nat (choice - 1) = Some c ∧
       plays (since w w') = [c.2.1] ∧ mem w' = mem w ∧
       shown = SingleTitle (shown_name (listName li)) ::
               (Listed <$>
                  [DisplayTitle (shown_name (listName li)); DisplayRule] ++
                  rows_from 0 cells.*2 ++ [BlankLine]) ++
               [SingleRule]) ∧
  (∀ choice,
     first_valid (len li) (numbers w) = Some choice →
     Forall (clean scale) (sessions w) → sessions w ≠ [] →
     ∃ shown w', playWithControlsSingle scale fuel li w = Some (shown, w')).
Proof.
  intros Hlk Hne Hmax Hf.
  pose proof (display_lists_every_entry _ _ _ _ Hlk Hmax Hf) as Hdisp.
  pose proof Hlk as (Hnd & Hl & Hhd & Hlen).
  destruct cells as [|c0 rest] eqn:Ecells; [done|]. rewrite <- Ecells in *.
  assert (head li = Some c0.1) as Hhd' by (by rewrite Hhd, Ecells).
  assert (cells !! 0%nat = Some c0) as H0 by (by rewrite Ecells).
  unfold playWithControlsSingle. rewrite Hhd', Hdisp.
  split.
  - intros shown w'.
    destruct (read_choice (numbers w) (len li) w) as [[choice w1]|] eqn:Er;
      [|done].
    apply read_choice_spec in Er as (Hv & Hd1 & Hs1).
    pose proof (first_valid_range _ _ _ Hv) as Hr.
    pose proof (drives_mem _ _ _ Hd1) as Hm1.
    cbn [mbind option_bind]. rewrite Hm1.
    destruct (walk_lseg (mem w) cells (Some c0.1) (Z.to_nat (choice - 1))
                0 c0) as (c & Hc & Hw); [by rewrite Ecells in Hl |- *|done|lia|].
    rewrite Hw. cbn [mbind option_bind].
    pose proof (lseg_nth _ _ _ _ _ Hl Hc) as Hn. rewrite Hn.
    cbn [mbind option_bind song artist].
    destruct (playerWithControls scale c.2.1 _) as [[code w2]|] eqn:Ep; [|done].
    intros [= <- <-]. apply drives_session in Ep as (Hd2 & _).
    exists choice, c. split; [done|]. split; [done|].
    assert (drives w w2 [c.2.1]) as Hd.
    { eapply (drives_trans _ _ _ [] [c.2.1]); [exact Hd1|].
      eapply (drives_trans _ _ _ [] [c.2.1]); [apply drives_say|exact Hd2]. }
    split; [by apply drives_plays|]. split; [by eapply drives_mem|done].
  - intros choice Hv Hcl Hse.
    destruct (read_choice_total (len li) (numbers w) w choice Hv) as [w1 Er].
    rewrite Er. pose proof Er as (_ & Hd1 & Hs1)%read_choice_spec.
    pose proof (first_valid_range _ _ _ Hv) as Hr.
    pose proof (drives_mem _ _ _ Hd1) as Hm1.
    cbn [mbind option_bind]. rewrite Hm1.
    destruct (walk_lseg (mem w) cells (Some c0.1) (Z.to_nat (choice - 1))
                0 c0) as (c & Hc & Hw); [by rewrite Ecells in Hl |- *|done|lia|].
    rewrite Hw. cbn [mbind option_bind].
    pose proof (lseg_nth _ _ _ _ _ Hl Hc) as Hn. rewrite Hn.
    cbn [mbind option_bind song artist].
    destruct (clean_session scale c.2.1
                (say (SingleBanner c.2.1 c.2.2) w1)) as (w2 & Hp & _).
    + simpl. by rewrite Hs1.
    + simpl. by rewrite Hs1.
    + rewrite Hp. by eexists _, _.
Qed.

End DriverFacts.

Section DriverSamples.

Lemma playWithControlsSingle_witness :
  ∃ shown w',
    playWithControlsSingle double_scale 3 sample_list
      (set_numbers [Some 7; None; Some 2] (sample_world 1)) = Some (shown, w') ∧
    plays (since (set_numbers [Some 7; None; Some 2] (sample_world 1)) w') =
      ["b.wav"%string].
Proof.
  destruct (playWithControlsSingle_plays_the_chosen_entry double_scale 3
              sample_list sample_cells
              (set_numbers [Some 7; None; Some 2] (sample_world 1)))
    as [H1 H2].
  - apply (circular_linked _ _ _ (sample_circular 1)).
  - done.
  - done.
  - simpl. lia.
  - destruct (H2 2) as (shown & w' & Hrun).
    + reflexivity.
    + repeat (constructor; [apply good_script_clean|]). constructor.
    + done.
    + exists shown, w'. split; [exact Hrun|].
      destruct (H1 _ _ Hrun) as (choice & c & Hv & Hc & Hp & _).
      injection Hv as <-. injection Hc as <-. exact Hp.
Defined.

End DriverSamples.


(* ---- saving and loading ---- *)

Import Store.

Section StoreFacts.
Implicit Types (h : gmap positive node) (cells : list (positive * entry)).

Lemma lseg_in_dom h cells tl a : lseg h cells tl → a ∈ cells.*1 → a ∈ dom h.
Proof.
  intros Hl (c & -> & Hc)%list_elem_of_fmap.
  destruct (lseg_lookup _ _ _ _ Hl Hc) as [n Hn].
  apply elem_of_dom. by eexists.
Qed.

Lemma length_omap_le {A B} (f : A → option B) (l : list A) :
  (length (omap f l) ≤ length l)%nat.
Proof.
  induction l as [|x l IH]; [done|]. cbn [omap list_omap length].
  change (list_omap A B f l) with (omap f l).
  destruct (f x); cbn [length]; lia.
Qed.

(* add_end on a list in a heap that holds other nodes as well *)
Lemma add_end_linked h L cells s a fuel :
  linked h L cells →
  (length cells < fuel)%nat →
  Z.of_nat (length cells) < INT_MAX →
  ∃ h' L' p,
    add_end fuel s a (h, L) = Ok (h', L') ∧
    linked h' L' (cells ++ [(p, (s, a))]) ∧
    listName L' = listName L ∧ taken L' = taken L ∧
    (p ∉ dom h) ∧
    (∀ q, q ∉ cells.*1 → q ∈ dom h → h' !! q = h !! q).
Proof.
  intros Hc Hf Hm. destruct Hc as (Hnd & Hl & Hh & Hlen).
  assert (Hp : fresh (dom h) ∉ cells.*1).
  { intros Hin. apply (is_fresh (dom h)). by eapply lseg_in_dom. }
  pose proof (is_fresh (dom h)) as Hpd.
  set (p := fresh (dom h)) in *.
  unfold add_end, new_node. fold p. cbv zeta.
  destruct (snoc_cases cells) as [->|(front & c & ->)].
  - simpl in *. rewrite Hh. simpl.
    rewrite lookup_insert_eq. simpl.
    rewrite Hlen, int_add_ok by (unfold INT_MIN, INT_MAX in *; simpl; lia).
    simpl. eexists _, _, p. split; [done|].
    split; [|split; [done|split; [done|split; [done|]]]].
    + unfold linked; simpl. repeat split.
      * apply NoDup_singleton.
      * by rewrite insert_insert_eq, lookup_insert_eq.
    + intros q _ Hq. rewrite insert_insert_eq, lookup_insert_ne; [done|].
      intros <-. done.
  - assert (Hne : front ++ [c] ≠ []) by (by destruct front).
    destruct (hd_or (front ++ [c]) None) as [hd|] eqn:Ehd;
      [|by destruct front].
    rewrite Hh. simpl.
    opose proof* (find_last_lseg (<[p:=Node s a None]> h) hd c front fuel) as Hfl.
    { apply lseg_insert_frame; done. }
    { by apply hd_notin_tail. }
    { rewrite length_app in Hf. simpl in Hf. lia. }
    rewrite Ehd in Hfl. rewrite Hfl. simpl.
    assert (Hcp : c.1 ≠ p) by (intros <-; set_solver).
    rewrite lookup_insert_ne by done.
    apply lseg_app in Hl as [Hl1 Hl2]. simpl in Hl2. destruct Hl2 as [Hl2 _].
    rewrite Hl2. simpl.
    rewrite lookup_insert_ne by done. rewrite lookup_insert_eq. simpl.
    rewrite Hlen, int_add_ok by (unfold INT_MIN, INT_MAX in *; simpl; lia).
    simpl. eexists _, _, p. split; [done|].
    split; [|split; [done|split; [done|split; [done|]]]].
    + unfold linked; simpl.
      rewrite !hd_or_app, !fmap_app in *. simpl in *.
      rewrite Ehd.
      apply NoDup_app in Hnd as Hnd'. destruct Hnd' as (Hnf & Hnfc & _).
      repeat split.
      * rewrite <- app_assoc. apply NoDup_app. repeat split; [done|set_solver|].
        apply NoDup_cons. split; [set_solver|apply NoDup_singleton].
      * rewrite <- app_assoc. apply lseg_app. simpl. repeat split.
        -- apply lseg_insert_frame; [set_solver|].
           apply lseg_insert_frame; [set_solver|].
           apply lseg_insert_frame; [set_solver|done].
        -- rewrite lookup_insert_ne by done. by rewrite lookup_insert_eq.
        -- by rewrite lookup_insert_eq.
      * done.
      * rewrite !length_app in *. simpl in *. lia.
    + intros q Hq Hqd. rewrite fmap_app in Hq. simpl in Hq.
      rewrite !lookup_insert_ne; [done|intros <-; done|set_solver|intros <-; done].
Qed.

Lemma load_songs_spec filename h0 : ∀ items fuel h L cells warnings,
  linked h L cells →
  (∀ q, q ∈ cells.*1 → q ∉ dom h0) →
  (∀ q, q ∈ dom h0 → h !! q = h0 !! q) →
  (length cells + length (omap entry_of items) ≤ fuel)%nat →
  Z.of_nat (length cells + length (omap entry_of items)) ≤ INT_MAX →
  ∃ h' L' cells' warnings',
    load_songs fuel filename items (h, L) warnings = Ok ((h', L'), warnings') ∧
    linked h' L' (cells ++ cells') ∧
    cells'.*2 = omap entry_of items ∧
    listName L' = listName L ∧ taken L' = taken L ∧
    (∀ q, q ∈ (cells ++ cells').*1 → q ∉ dom h0) ∧
    (∀ q, q ∈ dom h0 → h' !! q = h0 !! q) ∧
    (length (omap entry_of items) = length items → warnings' = warnings).
Proof.
  induction items as [|songObj items IH];
    intros fuel h L cells warnings Hl Hout Hfr Hf Hmax.
  { exists h, L, [], warnings. rewrite app_nil_r. done. }
  cbn [load_songs omap list_omap] in *.
  destruct (contains songObj "song" && contains songObj "artist" &&
            is_string (at_key songObj "song") &&
            is_string (at_key songObj "artist")) eqn:E.
  - assert (entry_of songObj = Some (get_string (at_key songObj "song"),
                                      get_string (at_key songObj "artist")))
      as Ee by (unfold entry_of; by rewrite E).
    rewrite Ee in Hf, Hmax |- *. cbn [length] in Hf, Hmax.
    destruct (add_end_linked h L cells
                (get_string (at_key songObj "song"))
                (get_string (at_key songObj "artist")) fuel Hl)
      as (h1 & L1 & p & Hadd & Hl1 & Hn1 & Ht1 & Hp & Hfr1); [lia|lia|].
    rewrite Hadd. cbn [mbind outcome_bind].
    destruct (IH fuel h1 L1 (cells ++ [(p, (get_string (at_key songObj "song"),
                                          get_string (at_key songObj "artist")))])
                warnings Hl1)
      as (h' & L' & cells' & warnings' & Hrun & Hl' & Hes & Hn & Ht & Hout' & Hfr' & Hw).
    + intros q. rewrite fmap_app, elem_of_app. intros [Hq|Hq]; [by apply Hout|].
      apply list_elem_of_singleton in Hq as ->. intros Hq.
      apply Hp. apply elem_of_dom. rewrite Hfr by done. by apply elem_of_dom.
    + intros q Hq. rewrite Hfr1; [by apply Hfr| |].
      * intros Hin. by apply (Hout q).
      * apply elem_of_dom. rewrite Hfr by done. by apply elem_of_dom.
    + rewrite length_app. simpl. lia.
    + rewrite length_app. simpl. lia.
    + exists h', L', ((p, (get_string (at_key songObj "song"),
                          get_string (at_key songObj "artist"))) :: cells'),
        warnings'.
      split; [done|]. rewrite <- app_assoc in Hl', Hout'.
      split; [done|]. split; [cbn [fmap list_fmap snd]; by rewrite <- Hes|].
      split; [congruence|]. split; [congruence|]. split; [done|].
      split; [done|]. intros Hlen. apply Hw. simpl in Hlen. lia.
  - assert (entry_of songObj = None) as Ee by (unfold entry_of; by rewrite E).
    rewrite Ee in Hf, Hmax |- *.
    destruct (IH fuel h L cells (warnings ++ [SkippedEntry filename]) Hl Hout Hfr)
      as (h' & L' & cells' & warnings' & Hrun & Hl' & Hes & Hn & Ht & Hout' & Hfr' & Hw);
      [done|done|].
    exists h', L', cells', warnings'. split; [done|].
    repeat (split; [done|]). intros Hlen. exfalso.
    pose proof (length_omap_le entry_of items) as Hle. simpl in Hlen. lia.
Qed.

Lemma length_str (l : list ascii) : String.length (str l) = length l.
Proof. by rewrite <- length_chars, chars_str. Qed.

Lemma load_name_spec (L : LinkedList) (playlistJson : json) :
  head (load_name L playlistJson).1 = head L ∧
  len (load_name L playlistJson).1 = len L ∧
  taken (load_name L playlistJson).1 = taken L ∧
  (String.length (listName (load_name L playlistJson).1) ≤ 100)%nat ∧
  has_any_of ["000"%char] (chars (listName (load_name L playlistJson).1))
    = false.
Proof.
  unfold load_name. destruct (_ && _); [|simpl; repeat split; lia].
  destruct (has_any_of _ _) eqn:Enul; [simpl; repeat split; lia|].
  destruct (Nat.ltb_spec 100 (String.length
              (get_string (at_key playlistJson "listName")))); simpl.
  - repeat split; try done.
    + rewrite length_str. unfold substr. rewrite length_take. lia.
    + rewrite chars_str. unfold substr. rewrite drop_0.
      by apply has_any_of_take.
  - done.
Qed.

(** X20: loadFromFile into an empty list, for a file whose text is JSON,
    whatever the value is (an object or not, with or without songs):
    returns true and marks the list as taken; the list holds one node for
    each element of "songs" that is an object with strings "song" and
    "artist", in the order of the array, and nothing for the others; its
    name has 100 bytes at most and no null byte; the nodes of the other
    lists are not touched. *)
Theorem loadFromFile_builds_the_list fuel h L filename playlistJson :
  head L = None → len L = 0 →
  Z.of_nat (length (entries_of playlistJson)) < INT_MAX →
  (length (entries_of playlistJson) ≤ fuel)%nat →
  ∃ h' L' cells warnings,
    loadFromFile fuel (h, L) filename (Some (Some playlistJson)) =
      Ok (true, (h', L'), warnings) ∧
    linked h' L' cells ∧ cells.*2 = entries_of playlistJson ∧
    taken L' = true ∧
    (String.length (listName L') ≤ 100)%nat ∧
    has_any_of ["000"%char] (chars (listName L')) = false ∧
    (∀ q, q ∈ dom h → h' !! q = h !! q).
Proof.
  intros Hhd Hlen Hmax Hf. unfold loadFromFile.
  rewrite clear_empty by done. cbn [mbind outcome_bind fst snd].
  pose proof (load_name_spec L playlistJson) as (Hh1 & Hl1 & Ht1 & Hn1 & Hz1).
  destruct (load_name L playlistJson) as [L1 w1]. cbn [fst snd] in *.
  unfold entries_of in *.
  destruct (contains playlistJson "songs" &&
            is_array (at_key playlistJson "songs")).
  - destruct (load_songs_spec filename h
                (array_items (at_key playlistJson "songs")) fuel h L1 [] w1)
      as (h' & L' & cells & w' & Hrun & Hlk & Hes & Hn & Ht & _ & Hfr & _).
    + unfold linked. simpl. split; [constructor|]. split; [done|].
      split; [congruence|simpl; lia].
    + intros q Hq. by apply elem_of_nil in Hq.
    + done.
    + simpl. lia.
    + simpl. lia.
    + rewrite Hrun. cbn [mbind outcome_bind fst snd].
      eexists h', _, cells, _. split; [done|].
      split; [by destruct Hlk as (? & ? & ? & ?)|].
      split; [done|]. split; [done|]. simpl. rewrite Hn. done.
  - cbn [mbind outcome_bind fst snd]. eexists h, _, [], _. split; [done|].
    split; [|done]. unfold linked. simpl. split; [constructor|].
    split; [done|]. split; [congruence|simpl; lia].
Qed.

Lemma save_songs_lseg h hd : ∀ rest c fuel acc,
  lseg h (c :: rest) (Some hd) → hd ∉ rest.*1 →
  (length rest < fuel)%nat →
  save_songs fuel h (Some hd) (Some c.1) acc =
  Ok (acc ++ ((λ e : entry, song_object e.1 e.2) <$> (c.2 :: rest.*2))).
Proof.
  induction rest as [|c' rest IH]; intros c fuel acc Hl Hhd Hf;
    (destruct fuel as [|fuel]; [simpl in Hf; lia|]).
  - destruct Hl as [Hc _]. simpl in Hc.
    cbn [save_songs]. rewrite (deref_Some _ _ _ Hc).
    cbn [mbind outcome_bind next song artist]. by rewrite decide_True.
  - destruct Hl as [Hc Hl]. simpl in Hc.
    cbn [save_songs]. rewrite (deref_Some _ _ _ Hc).
    cbn [mbind outcome_bind next song artist].
    rewrite decide_False by (intros [= E]; set_solver).
    rewrite IH; [|done|set_solver|simpl in Hf; lia].
    by rewrite <- app_assoc.
Qed.

Lemma entry_of_song_object s a : entry_of (song_object s a) = Some (s, a).
Proof. by vm_compute. Qed.

Lemma omap_entry_of_objects (es : list entry) :
  omap entry_of ((λ e : entry, song_object e.1 e.2) <$> es) = es.
Proof.
  induction es as [|[s a] es IH]; [done|].
  cbn [fmap list_fmap omap list_omap fst snd]. rewrite entry_of_song_object.
  f_equal. exact IH.
Qed.

Lemma s32_small z : INT_MIN ≤ z ≤ INT_MAX → s32 z = z.
Proof. unfold s32, INT_MIN, INT_MAX. intros H. rewrite Z.mod_small; lia. Qed.

(** X21: save and load: on a circular list saveToFile, when the stream
    opens, the value is serialised and the write is good, returns true
    with the text of a value from which loadFromFile, into any empty
    list, builds a list with the same entries in the same order, taken,
    without a warning about an entry or the length; the name comes back
    as it was when it has no null byte and 100 bytes at most. *)
Theorem save_then_load_restores_the_list fuel h L cells filename :
  linked h L cells → len L < INT_MAX → (length cells < fuel)%nat →
  ∃ playlistJson,
    saveToFile fuel h L filename true true true = Ok (Some playlistJson, []) ∧
    ∀ h0 L0, head L0 = None → len L0 = 0 →
      ∃ h' L' cells' warnings,
        loadFromFile fuel (h0, L0) filename (Some (Some playlistJson)) =
          Ok (true, (h', L'), warnings) ∧
        linked h' L' cells' ∧ cells'.*2 = cells.*2 ∧ taken L' = true ∧
        (∀ q, q ∈ dom h0 → h' !! q = h0 !! q) ∧
        (has_any_of ["000"%char] (chars (listName L)) = false →
         (String.length (listName L) ≤ 100)%nat →
         listName L' = listName L ∧ warnings = []).
Proof.
  intros Hlk Hmax Hf. pose proof Hlk as (Hnd & Hl & Hhd & Hlen).
  assert (∃ songsArray,
            match head L with
            | None => Ok []
            | Some _ => save_songs fuel h (head L) (head L) []
            end = Ok songsArray ∧
            omap entry_of songsArray = cells.*2 ∧
            length songsArray = length cells) as (songs & Hsave & Hes & Hsl).
  { rewrite Hhd. destruct cells as [|c rest]; [by exists []|].
    cbn [hd_or]. simpl in Hl, Hnd. apply NoDup_cons in Hnd as [Hc _].
    rewrite (save_songs_lseg h c.1 rest c fuel []);
      [|done|done|simpl in Hf; lia].
    eexists. split; [done|]. rewrite app_nil_l.
    split; [exact (omap_entry_of_objects ((c :: rest).*2))|].
    rewrite length_fmap. cbn [length]. by rewrite length_fmap. }
  unfold saveToFile. rewrite Hsave. cbn [mbind outcome_bind negb].
  eexists. split; [done|]. intros h0 L0 Hhd0 Hlen0.
  set (v := JObject _).
  assert (entries_of v = cells.*2) as Hents.
  { unfold entries_of, v, contains, at_key.
    rewrite lookup_insert_eq. simpl. done. }
  unfold loadFromFile. rewrite clear_empty by done.
  cbn [mbind outcome_bind fst snd].
  assert (contains v "songs" && is_array (at_key v "songs") = true) as ->.
  { unfold v, contains, at_key. by rewrite lookup_insert_eq. }
  assert (array_items (at_key v "songs") = songs) as ->.
  { unfold v, at_key. by rewrite lookup_insert_eq. }
  pose proof (load_name_spec L0 v) as (Hh1 & Hl1 & Ht1 & _ & _).
  assert (has_any_of ["000"%char] (chars (listName L)) = false →
          (String.length (listName L) ≤ 100)%nat →
          load_name L0 v = (set_listName L0 (listName L), [])) as Hname.
  { intros Hz Hn. unfold load_name, v, contains, at_key.
    rewrite lookup_insert_ne, lookup_insert_ne, lookup_insert_eq by done.
    simpl. rewrite Hz.
    destruct (Nat.ltb_spec 100 (String.length (listName L))); [lia|done]. }
  destruct (load_name L0 v) as [L1 w1] eqn:Ename. cbn [fst snd] in *.
  destruct (load_songs_spec filename h0 songs fuel h0 L1 [] w1)
    as (h' & L' & cells' & w' & Hrun & Hlk' & Hes' & Hn & Ht & _ & Hfr & Hw).
  - unfold linked. simpl. split; [constructor|]. split; [done|].
    split; [congruence|simpl; lia].
  - intros q Hq. by apply elem_of_nil in Hq.
  - done.
  - rewrite Hes, length_fmap. simpl. lia.
  - rewrite Hes, length_fmap. simpl. lia.
  - rewrite Hrun. cbn [mbind outcome_bind fst snd].
    eexists h', _, cells', _. split; [done|].
    split; [by destruct Hlk' as (? & ? & ? & ?)|].
    split; [by rewrite Hes', Hes|]. split; [done|]. split; [done|].
    intros Hz Hnl. specialize (Hname Hz Hnl). injection Hname as -> ->.
    simpl. split; [by rewrite Hn|].
    rewrite Hw by (by rewrite Hes, length_fmap, Hsl).
    unfold check_length, v, contains, at_key.
    rewrite lookup_insert_ne, lookup_insert_eq by done. simpl.
    destruct Hlk' as (_ & _ & _ & Hlen').
    rewrite decide_False; [done|].
    intros Hne. apply Hne. rewrite Hlen'. simpl.
    rewrite s32_small by (unfold INT_MIN, INT_MAX in *; lia).
    rewrite Hlen, <- (length_fmap snd cells'), Hes', Hes, length_fmap. done.
Qed.

End StoreFacts.

Section StoreSamples.

Lemma loadFromFile_witness :
  ∃ h' L' cells warnings,
    loadFromFile 2 (∅, LinkedList_new) "playlist1.json"
      (Some (Some sample_json)) = Ok (true, (h', L'), warnings) ∧
    linked h' L' cells ∧
    cells.*2 = [("a.mp3", "A"); ("b.wav", "B")]%string ∧
    taken L' = true ∧
    (String.length (listName L') ≤ 100)%nat ∧
    has_any_of ["000"%char] (chars (listName L')) = false ∧
    (∀ q, q ∈ dom (∅ : gmap positive node) → h' !! q = (∅ : gmap positive node) !! q).
Proof.
  apply (loadFromFile_builds_the_list 2 ∅ LinkedList_new "playlist1.json"
           sample_json).
  - reflexivity.
  - reflexivity.
  - by vm_compute.
  - by vm_compute.
Defined.

Lemma save_then_load_witness :
  ∃ playlistJson,
    saveToFile 4 shelf_heap shelf_list "playlist1.json" true true true =
      Ok (Some playlistJson, []) ∧
    ∀ h0 L0, head L0 = None → len L0 = 0 →
      ∃ h' L' cells' warnings,
        loadFromFile 4 (h0, L0) "playlist1.json" (Some (Some playlistJson)) =
          Ok (true, (h', L'), warnings) ∧
        linked h' L' cells' ∧ cells'.*2 = shelf_cells.*2 ∧ taken L' = true ∧
        (∀ q, q ∈ dom h0 → h' !! q = h0 !! q) ∧
        (has_any_of ["000"%char] (chars (listName shelf_list)) = false →
         (String.length (listName shelf_list) ≤ 100)%nat →
         listName L' = listName shelf_list ∧ warnings = []).
Proof.
  apply (save_then_load_restores_the_list 4 shelf_heap shelf_list shelf_cells
           "playlist1.json").
  - apply shelf_linked.
  - done.
  - simpl. lia.
Defined.

End StoreSamples.


(* ---- the playlists side by side ---- *)

Section SharedHeap.
Implicit Types (h : gmap positive node) (cells : list (positive * entry)).

Lemma linked_fresh h L cells : linked h L cells → fresh (dom h) ∉ cells.*1.
Proof.
  intros (_ & Hl & _) Hin. apply (is_fresh (dom h)). by eapply lseg_in_dom.
Qed.

(* the nodes that are not of the list are left as they are *)
Lemma aside_refl h cells : aside h cells h cells.
Proof. split; [by left|done]. Qed.

Lemma aside_trans h cells h1 cells1 h2 cells2 :
  aside h cells h1 cells1 → aside h1 cells1 h2 cells2 →
  aside h cells h2 cells2.
Proof.
  intros [Ha1 Ha2] [Hb1 Hb2]. split.
  - intros q Hq. destruct (Hb1 q Hq) as [H1|H1]; [by apply Ha1|].
    destruct (decide (q ∈ cells.*1)) as [|Hn]; [by left|]. right.
    intros Hd. apply H1. apply elem_of_dom. rewrite Ha2 by done.
    by apply elem_of_dom.
  - intros q Hd Hn. rewrite Hb2; [by apply Ha2| |].
    + apply elem_of_dom. rewrite Ha2 by done. by apply elem_of_dom.
    + intros Hq. destruct (Ha1 q Hq); done.
Qed.

Lemma aside_add_end h L cells s a fuel :
  linked h L cells →
  (length cells < fuel)%nat →
  Z.of_nat (length cells) < INT_MAX →
  ∃ h' L' p,
    add_end fuel s a (h, L) = Ok (h', L') ∧
    linked h' L' (cells ++ [(p, (s, a))]) ∧
    listName L' = listName L ∧ taken L' = taken L ∧
    aside h cells h' (cells ++ [(p, (s, a))]).
Proof.
  intros Hlk Hf Hm.
  destruct (add_end_linked h L cells s a fuel Hlk Hf Hm)
    as (h' & L' & p & Hrun & Hl' & Hn & Ht & Hp & Hfr).
  exists h', L', p. repeat (split; [done|]). split.
  - intros q. rewrite fmap_app, elem_of_app. intros [Hq|Hq]; [by left|].
    apply list_elem_of_singleton in Hq as ->. by right.
  - intros q Hd Hq. by apply Hfr.
Qed.

(* the new node and the nodes of the list apart, a node of the heap is
   not written to *)
Ltac aside_new p :=
  split;
  [ intros q Hq; rewrite ?fmap_app, ?fmap_cons in Hq; simpl in Hq;
    destruct (decide (q = p)) as [->|Hqp]; [by right|left; set_solver]
  | intros q Hqd Hqc;
    rewrite ?lookup_delete_ne, ?lookup_insert_ne; first [done | set_solver];
    intros <-; done ].

Ltac aside_old :=
  split;
  [ intros q Hq; left; rewrite ?fmap_app, ?fmap_cons in Hq |- *;
    simpl in Hq |- *; set_solver
  | intros q Hqd Hqc;
    rewrite ?lookup_delete_ne, ?lookup_insert_ne; first [done | set_solver] ].

Lemma add_beg_linked h L cells s a fuel :
  linked h L cells →
  (length cells < fuel)%nat →
  Z.of_nat (length cells) < INT_MAX →
  ∃ h' L' p,
    add_beg fuel s a (h, L) = Ok (h', L') ∧
    linked h' L' ((p, (s, a)) :: cells) ∧
    listName L' = listName L ∧ taken L' = taken L ∧
    aside h cells h' ((p, (s, a)) :: cells).
Proof.
  intros Hc Hf Hm. pose proof (linked_fresh _ _ _ Hc) as Hp.
  destruct Hc as (Hnd & Hl & Hh & Hlen).
  pose proof (is_fresh (dom h)) as Hpd.
  set (p := fresh (dom h)) in *.
  unfold add_beg, new_node. fold p. cbv zeta.
  destruct (snoc_cases cells) as [->|(front & c & ->)].
  - simpl in *. rewrite Hh. simpl.
    rewrite lookup_insert_eq. simpl.
    rewrite Hlen, int_add_ok by (unfold INT_MIN, INT_MAX in *; simpl; lia).
    simpl. eexists _, _, p. split; [done|].
    split; [|split; [done|split; [done|]]]. unfold linked; simpl.
    repeat split.
    + apply NoDup_singleton.
    + by rewrite insert_insert_eq, lookup_insert_eq.
    + aside_new p.
  - assert (Hne : front ++ [c] ≠ []) by (by destruct front).
    destruct (hd_or (front ++ [c]) None) as [hd|] eqn:Ehd;
      [|by destruct front].
    rewrite Hh. simpl.
    assert (Hhdin : hd ∈ (front ++ [c]).*1) by (by apply hd_or_in).
    opose proof* (find_last_lseg (<[p:=Node s a None]> h) hd c front fuel) as Hfl.
    { apply lseg_insert_frame; done. }
    { revert Hnd Ehd. clear.
      destruct front as [|c0 front]; simpl; [set_solver|].
      intros Hnd [= <-]. by apply NoDup_cons in Hnd as [? _]. }
    { rewrite length_app in Hf. simpl in Hf. lia. }
    rewrite Ehd in Hfl. rewrite Hfl.
    simpl. rewrite lookup_insert_eq. simpl.
    rewrite insert_insert_eq.
    assert (Hcp : c.1 ≠ p) by (intros <-; set_solver).
    rewrite lookup_insert_ne by done.
    apply lseg_app in Hl as [Hl1 Hl2]. simpl in Hl2. destruct Hl2 as [Hl2 _].
    rewrite Hl2. simpl.
    rewrite Hlen, int_add_ok by (unfold INT_MIN, INT_MAX in *; simpl; lia).
    simpl. eexists _, _, p. split; [done|].
    split; [|split; [done|split; [done|]]]. unfold linked; simpl.
    rewrite fmap_app in *. simpl in *.
    apply NoDup_app in Hnd as Hnd'. destruct Hnd' as (Hnf & Hnfc & _).
    repeat split.
    + apply NoDup_cons. split; [set_solver|done].
    + rewrite lookup_insert_ne by done. rewrite lookup_insert_eq.
      by rewrite (hd_or_nonempty _ _ None), Ehd.
    + apply lseg_app. simpl. split.
      * apply lseg_insert_frame; [set_solver|].
        apply lseg_insert_frame; [set_solver|done].
      * by rewrite lookup_insert_eq.
    + rewrite length_app in *. simpl in *. lia.
    + aside_new p.
Qed.

Lemma add_at_linked h L cells s a pos fuel :
  linked h L cells →
  (length cells < fuel)%nat →
  Z.of_nat (length cells) < INT_MAX →
  ∃ h' L' p,
    add_at fuel s a pos (h, L) = Ok (h', L') ∧
    linked h' L'
      (if decide (1 ≤ pos ≤ Z.of_nat (length cells) + 1)
       then take (Z.to_nat (pos - 1)) cells ++ (p, (s, a)) :: drop (Z.to_nat (pos - 1)) cells
       else cells) ∧
    listName L' = listName L ∧ taken L' = taken L ∧
    aside h cells h'
      (if decide (1 ≤ pos ≤ Z.of_nat (length cells) + 1)
       then take (Z.to_nat (pos - 1)) cells ++ (p, (s, a)) :: drop (Z.to_nat (pos - 1)) cells
       else cells).
Proof.
  intros Hc Hf Hm.
  unfold add_at.
  assert (Hlen : len L = Z.of_nat (length cells)) by apply Hc.
  rewrite Hlen, int_add_ok by (unfold INT_MIN, INT_MAX in *; simpl; lia).
  rewrite bind_Ok.
  destruct (decide (pos < 1 ∨ pos > Z.of_nat (length cells) + 1)) as [Hout|Hin].
  { exists h, L, 1%positive. rewrite decide_False by lia.
    repeat (split; [done|]). apply aside_refl. }
  destruct (decide (1 ≤ pos ≤ Z.of_nat (length cells) + 1)) as [_|?]; [|lia].
  destruct (decide (pos = 1)) as [->|Hn1].
  { destruct (add_beg_linked h L cells s a fuel) as (h' & L' & p & ? & ? & ?); [done..|].
    exists h', L', p. simpl. rewrite ?take_0, ?drop_0. done. }
  destruct (decide (pos = Z.of_nat (length cells) + 1)) as [->|Hn2].
  { destruct (aside_add_end h L cells s a fuel) as (h' & L' & p & ? & ? & ?); [done..|].
    exists h', L', p.
    replace (Z.to_nat (Z.of_nat (length cells) + 1 - 1)) with (length cells) by lia.
    by rewrite take_ge, drop_ge by lia. }
  pose proof (linked_fresh _ _ _ Hc) as Hp.
  destruct Hc as (Hnd & Hl & Hh & _).
  pose proof (is_fresh (dom h)) as Hpd.
  set (p := fresh (dom h)) in *.
  unfold new_node. fold p. cbv zeta.
  set (n := Z.to_nat (pos - 2)).
  replace (Z.to_nat (pos - 1)) with (S n) by lia.
  destruct (split_at cells n) as (c & Hcn & Hsplit); [lia|].
  set (pre := take n cells) in *. set (post := drop (S n) cells) in *.
  assert (Hpost : post ≠ []).
  { intros E. apply (f_equal length) in E. unfold post in E.
    rewrite length_drop in E. simpl in E. lia. }
  assert (Hpre : length pre = n) by (unfold pre; rewrite length_take; lia).
  rewrite (take_S_r _ _ c) by done. fold pre.
  clearbody pre post. subst cells. clear Hcn.
  destruct (hd_or (pre ++ c :: post) None) as [hd|] eqn:Ehd; [|by destruct pre].
  rewrite Hh.
  opose proof* (advance_lseg (<[p:=Node s a None]> h) hd c post pre) as Hadv; [done| | |].
  { apply lseg_insert_frame; done. }
  { by apply hd_notin_tail. }
  rewrite Ehd, Hpre in Hadv. rewrite Hadv. simpl.
  assert (Hcp : c.1 ≠ p) by (intros <-; set_solver).
  assert (Hpc : p ≠ c.1) by done.
  rewrite (lookup_insert_ne _ p c.1) by done.
  apply lseg_app in Hl as [Hl1 Hl2]. simpl in Hl2. destruct Hl2 as [Hl2 Hl3].
  rewrite Hl2. simpl. rewrite lookup_insert_eq. simpl.
  rewrite !(lookup_insert_ne _ p c.1) by done.
  rewrite Hl2. simpl.
  eexists _, _, p. split; [done|].
  split; [|split; [done|split; [done|]]]. unfold linked; simpl.
  rewrite <- app_assoc. simpl.
  rewrite !fmap_app in *. simpl in *.
  apply NoDup_app in Hnd as Hnd'. destruct Hnd' as (Hnf & Hnfc & Hnd').
  apply NoDup_cons in Hnd' as [Hc1 Hnd'].
  assert (Ehd' : hd_or (pre ++ c :: (p, (s, a)) :: post) None = Some hd).
  { revert Ehd. by destruct pre. }
  rewrite Ehd'.
  repeat split.
  + apply NoDup_app. repeat split; [done|set_solver|].
    apply NoDup_cons. split; [set_solver|]. apply NoDup_cons. split; [set_solver|done].
  + apply lseg_app. simpl. repeat split.
    * do 3 (apply lseg_insert_frame; [set_solver|]). done.
    * by rewrite lookup_insert_eq.
    * rewrite lookup_insert_ne by done. by rewrite lookup_insert_eq.
    * do 3 (apply lseg_insert_frame; [set_solver|]). done.
  + done.
  + rewrite !length_app in *. simpl in *. lia.
  + aside_new p.
Qed.

Lemma del_beg_linked h L cells fuel :
  linked h L cells →
  (length cells < fuel)%nat →
  Z.of_nat (length cells) ≤ INT_MAX →
  ∃ h' L',
    del_beg fuel (h, L) = Ok (h', L') ∧
    linked h' L' (tail cells) ∧
    listName L' = listName L ∧ taken L' = taken L ∧
    aside h cells h' (tail cells).
Proof.
  intros Hc Hf Hm.
  destruct Hc as (Hnd & Hl & Hh & Hlen).
  unfold del_beg. destruct L as [hdL nm ln tk]. cbn [head len] in *. subst hdL ln.
  destruct cells as [|c0 rest].
  { eexists _, _. split; [done|]. repeat (split; [done|]). apply aside_refl. }
  cbn [hd_or head set_len set_head len].
  rewrite int_add_ok by (unfold INT_MIN, INT_MAX in *; simpl in *; lia).
  rewrite bind_Ok.
  destruct Hl as [Hl0 Hl]. cbn [fst snd hd_or] in *.
  rewrite (deref_ok _ _ _ Hl0), bind_Ok. cbn [next].
  destruct (snoc_cases rest) as [->|(front & cl & ->)].
  - cbn [hd_or]. rewrite decide_True by done.
    rewrite (free_ok _ _ _ Hl0), bind_Ok.
    eexists _, _. split; [done|]. split; [|split; [done|split; [done|]]].
    { unfold linked. simpl. repeat split. apply NoDup_nil_2. }
    aside_old.
  - rewrite fmap_cons in Hnd. apply NoDup_cons in Hnd as [Hc0 Hnd].
    assert (Hne : front ++ [cl] ≠ []) by (by destruct front).
    destruct (hd_or (front ++ [cl]) None) as [r|] eqn:Er; [|by destruct front].
    assert (Er' : hd_or (front ++ [cl]) (Some c0.1) = Some r).
    { by rewrite (hd_or_nonempty _ _ None). }
    rewrite Er'.
    assert (Hr : r ∈ (front ++ [cl]).*1) by (by apply hd_or_in).
    rewrite decide_False by (intros [= ->]; done).
    opose proof* (find_last_lseg h c0.1 cl (c0 :: front) fuel) as Hfl.
    { simpl. split; done. }
    { done. }
    { simpl in *. rewrite length_app in Hf. simpl in Hf. lia. }
    cbn [hd_or app fst] in Hfl. rewrite Hfl, bind_Ok.
    pose proof Hl as Hl'. apply lseg_app in Hl' as [Hl1 [Hl2 _]]. cbn [hd_or fst snd] in *.
    rewrite (store_next_ok _ _ _ _ Hl2), bind_Ok. cbn [song artist].
    assert (Hcl : cl.1 ≠ c0.1) by (intros E; rewrite fmap_app in Hc0; set_solver).
    erewrite free_ok by (rewrite lookup_insert_ne; done). rewrite bind_Ok.
    eexists _, _. split; [done|]. split; [|split; [done|split; [done|]]].
    unfold linked. cbn [tail head len]. rewrite Er.
    rewrite fmap_app in *. simpl in *.
    apply NoDup_app in Hnd as Hnd'. destruct Hnd' as (Hnf & Hnfc & _).
    repeat split; [done| | |..].
    + apply lseg_app. simpl. repeat split.
      * apply lseg_delete_frame; [set_solver|].
        apply lseg_insert_frame; [set_solver|done].
      * rewrite lookup_delete_ne by done. by rewrite lookup_insert_eq.
    + rewrite !length_app in *. simpl in *. lia.
    + aside_old.
Qed.

Lemma del_end_linked h L cells fuel :
  linked h L cells →
  (length cells < fuel)%nat →
  Z.of_nat (length cells) ≤ INT_MAX →
  ∃ h' L',
    del_end fuel (h, L) = Ok (h', L') ∧
    linked h' L' (take (length cells - 1) cells) ∧
    listName L' = listName L ∧ taken L' = taken L ∧
    aside h cells h' (take (length cells - 1) cells).
Proof.
  intros Hc Hf Hm.
  destruct Hc as (Hnd & Hl & Hh & Hlen).
  unfold del_end. destruct L as [hdL nm ln tk]. cbn [head len] in *. subst hdL ln.
  destruct (snoc_cases cells) as [->|(front' & cl & ->)].
  { eexists _, _. split; [done|]. repeat (split; [done|]). apply aside_refl. }
  assert (Hne : front' ++ [cl] ≠ []) by (by destruct front').
  destruct (hd_or (front' ++ [cl]) None) as [hd|] eqn:Ehd; [|by destruct front'].
  cbn [head set_len set_head len].
  rewrite int_add_ok
    by (rewrite length_app in *; unfold INT_MIN, INT_MAX in *; simpl in *; lia).
  rewrite bind_Ok.
  replace (length (front' ++ [cl]) - 1)%nat with (length front')
    by (rewrite length_app; simpl; lia).
  rewrite take_app_length.
  destruct (snoc_cases front') as [->|(front & f & ->)].
  - simpl in *. injection Ehd as <-. destruct Hl as [Hl0 _].
    rewrite Hl0. simpl. rewrite decide_True by done.
    rewrite ?Hl0. simpl.
    eexists _, _. split; [done|]. split; [|split; [done|split; [done|]]].
    { unfold linked. simpl. repeat split. apply NoDup_nil_2. }
    aside_old.
  - rewrite <- app_assoc in *. cbn [app] in *.
    pose proof (hd_notin_tail _ _ Hnd Ehd) as Hhdt.
    pose proof (hd_or_in _ _ Ehd) as Hhdin.
    assert (Ehd' : hd_or (front ++ [f]) None = Some hd).
    { revert Ehd. by destruct front. }
    assert (Hnext : ∃ nd, h !! hd = Some nd ∧ next nd ≠ Some hd) .
    { revert Hl Ehd Hhdt. clear. destruct front as [|c0 front]; simpl.
      - intros [H0 _] [= <-] ?. eexists; split; [done|]. simpl. intros [= E]. set_solver.
      - intros [H0 _] [= <-] ?. eexists; split; [done|]. simpl.
        destruct front; simpl in *; intros [= E]; set_solver. }
    destruct Hnext as (nd & Hnd0 & Hnn).
    rewrite (deref_ok _ _ _ Hnd0), bind_Ok.
    rewrite decide_False by done.
    opose proof* (find_last_follow_lseg h hd f cl front None fuel) as Hfl; [done..| |].
    { rewrite !length_app in Hf. simpl in Hf. lia. }
    rewrite Ehd in Hfl. rewrite Hfl, bind_Ok. cbn [fst snd].
    apply lseg_app in Hl as [Hl1 (Hl2 & Hl3 & _)]. cbn [hd_or fst snd] in *.
    rewrite (store_next_ok _ _ _ _ Hl2), bind_Ok. cbn [song artist].
    rewrite !fmap_app in *. simpl in Hnd, Hhdin.
    apply NoDup_app in Hnd as Hnd'. destruct Hnd' as (Hnf & Hnfc & Hnd').
    apply NoDup_cons in Hnd' as [Hfc _].
    assert (Hfcl : f.1 ≠ cl.1) by set_solver.
    erewrite free_ok by (rewrite lookup_insert_ne; done). rewrite bind_Ok.
    eexists _, _. split; [done|]. split; [|split; [done|split; [done|]]].
    unfold linked. cbn [head len]. rewrite Ehd'.
    rewrite !fmap_app. simpl.
    repeat split.
    + apply NoDup_app. repeat split; [done|set_solver|apply NoDup_singleton].
    + apply lseg_app. simpl. repeat split.
      * apply lseg_delete_frame; [set_solver|].
        apply lseg_insert_frame; [set_solver|done].
      * rewrite lookup_delete_ne by done. by rewrite lookup_insert_eq.
    + rewrite !length_app in *. simpl in *. lia.
    + aside_old.
Qed.

Lemma del_at_linked h L cells pos fuel :
  linked h L cells →
  (length cells < fuel)%nat →
  Z.of_nat (length cells) ≤ INT_MAX →
  ∃ h' L',
    del_at fuel pos (h, L) = Ok (h', L') ∧
    linked h' L'
      (if decide (1 ≤ pos ≤ Z.of_nat (length cells))
       then delete (Z.to_nat (pos - 1)) cells else cells) ∧
    listName L' = listName L ∧ taken L' = taken L ∧
    aside h cells h'
      (if decide (1 ≤ pos ≤ Z.of_nat (length cells))
       then delete (Z.to_nat (pos - 1)) cells else cells).
Proof.
  intros Hc Hf Hm.
  unfold del_at.
  assert (Hlen : len L = Z.of_nat (length cells)) by apply Hc.
  assert (Hh : head L = hd_or cells None) by apply Hc.
  destruct (head L) as [hd|] eqn:EhL.
  2:{ exists h, L. destruct cells; [|done]. simpl. rewrite decide_False by lia.
      repeat (split; [done|]). apply aside_refl. }
  rewrite Hlen.
  destruct (decide (pos < 1 ∨ pos > Z.of_nat (length cells))) as [Hout|Hin].
  { exists h, L. rewrite decide_False by lia.
    repeat (split; [done|]). apply aside_refl. }
  destruct (decide (1 ≤ pos ≤ Z.of_nat (length cells))) as [_|?]; [|lia].
  destruct (decide (pos = 1)) as [->|Hn1].
  { destruct (del_beg_linked h L cells fuel) as (h' & L' & ? & ? & ?); [done..|].
    exists h', L'. simpl. by destruct cells. }
  destruct (decide (pos = Z.of_nat (length cells))) as [->|Hn2].
  { destruct (del_end_linked h L cells fuel)
      as (h' & L' & ? & Hc' & ? & ? & Ha'); [done..|].
    exists h', L'. split; [done|].
    replace (Z.to_nat (Z.of_nat (length cells) - 1)) with (length cells - 1)%nat by lia.
    assert (delete (length cells - 1)%nat cells =
            take (length cells - 1)%nat cells) as ->; [|done].
    clear. destruct (snoc_cases cells) as [->|(front & c & ->)]; [done|].
    rewrite length_app. simpl.
    replace (length front + 1 - 1)%nat with (length front) by lia.
    rewrite take_app_length, delete_middle, app_nil_r. done. }
  destruct Hc as (Hnd & Hl & _ & _).
  set (n := Z.to_nat (pos - 2)).
  replace (Z.to_nat (pos - 1)) with (S n) by lia.
  destruct (split_at cells n) as (f & Hfn & Hsplit); [lia|].
  destruct (split_at (drop (S n) cells) 0) as (c & Hc0 & Hsplit2).
  { rewrite length_drop. lia. }
  rewrite take_0, drop_drop in Hsplit2. simpl in Hsplit2.
  rewrite Hsplit2 in Hsplit.
  set (pre := take n cells) in *. set (post := drop (S (n + 1)) cells) in *.
  assert (Hpost : post ≠ []).
  { intros E. apply (f_equal length) in E. unfold post in E.
    rewrite length_drop in E. simpl in E. lia. }
  assert (Hpre : length pre = n) by (unfold pre; rewrite length_take; lia).
  assert (Hdel : delete (S n) cells = pre ++ f :: post).
  { rewrite Hsplit at 1. rewrite <- Hpre.
    change (f :: c :: post) with ([f] ++ c :: post).
    rewrite app_assoc.
    replace (S (length pre)) with (length (pre ++ [f])) by (rewrite length_app; simpl; lia).
    rewrite delete_middle, <- app_assoc. done. }
  rewrite Hdel.
  clearbody pre post. clear Hdel Hsplit2 Hc0 Hfn. subst cells.
  symmetry in Hh. rewrite Hh in Hl.
  opose proof* (advance_follow_lseg h hd f c post pre None) as Hadv; [done|done| |].
  { by apply hd_notin_tail. }
  rewrite Hh, Hpre in Hadv.
  rewrite Hadv, bind_Ok. cbn [fst snd].
  apply lseg_app in Hl as [Hl1 (Hl2 & Hl3 & Hl4)]. cbn [hd_or fst snd] in *.
  rewrite (deref_ok _ _ _ Hl3), bind_Ok. cbn [next].
  rewrite (store_next_ok _ _ _ _ Hl2), bind_Ok. cbn [song artist].
  rewrite !fmap_app in *. simpl in Hnd.
  apply NoDup_app in Hnd as Hnd'. destruct Hnd' as (Hnf & Hnfc & Hnd').
  apply NoDup_cons in Hnd' as [Hfc Hnd']. apply NoDup_cons in Hnd' as [Hcp Hnd'].
  assert (Hfcl : f.1 ≠ c.1) by set_solver.
  erewrite free_ok by (rewrite lookup_insert_ne; done). rewrite bind_Ok.
  rewrite int_add_ok
    by (rewrite length_app in *; unfold INT_MIN, INT_MAX in *; simpl in *; lia).
  rewrite bind_Ok.
  eexists _, _. split; [done|]. split; [|split; [done|split; [done|]]].
  unfold linked. cbn [head len set_len].
  assert (Ehd' : hd_or (pre ++ f :: post) None = Some hd).
  { revert Hh. by destruct pre. }
  rewrite Ehd'. rewrite !fmap_app. simpl.
  repeat split.
  + apply NoDup_app. repeat split; [done|set_solver|].
    apply NoDup_cons. split; [set_solver|done].
  + apply lseg_app. simpl. repeat split.
    * apply lseg_delete_frame; [set_solver|].
      apply lseg_insert_frame; [set_solver|done].
    * rewrite lookup_delete_ne by done. by rewrite lookup_insert_eq.
    * apply lseg_delete_frame; [set_solver|].
      apply lseg_insert_frame; [set_solver|done].
  + done.
  + rewrite !length_app in *. simpl in *. lia.
  + aside_old.
Qed.

Lemma apply_op_linked h L cells o fuel :
  linked h L cells →
  (length cells < fuel)%nat →
  Z.of_nat (length cells) < INT_MAX →
  o ≠ OpClear ∨ cells = [] →
  ∃ h' L' cells',
    apply_op fuel o (h, L) = Ok (h', L') ∧
    linked h' L' cells' ∧ cells'.*2 = abs_op o cells.*2 ∧
    listName L' = listName L ∧ taken L' = taken L ∧
    aside h cells h' cells'.
Proof.
  intros Hc Hf Hm Hcl. destruct o; cbn [apply_op abs_op].
  - destruct (add_beg_linked h L cells s a fuel)
      as (h' & L' & p & ? & ? & ? & ? & ?); [done..|].
    by eexists h', L', _.
  - destruct (aside_add_end h L cells s a fuel)
      as (h' & L' & p & ? & ? & ? & ? & ?); [done..|].
    eexists h', L', _. split; [done|]. split; [done|]. split; [|done].
    by rewrite fmap_app.
  - destruct (add_at_linked h L cells s a pos fuel)
      as (h' & L' & p & ? & ? & ? & ? & ?); [done..|].
    eexists h', L', _. split; [done|]. split; [done|]. split; [|done].
    rewrite length_fmap. case_decide; [|done].
    by rewrite fmap_app, fmap_cons, fmap_take, fmap_drop.
  - destruct (del_beg_linked h L cells fuel)
      as (h' & L' & ? & ? & ? & ? & ?); [done..|lia|].
    eexists h', L', _. split; [done|]. split; [done|]. split; [|done].
    by destruct cells.
  - destruct (del_end_linked h L cells fuel)
      as (h' & L' & ? & ? & ? & ? & ?); [done..|lia|].
    eexists h', L', _. split; [done|]. split; [done|]. split; [|done].
    by rewrite fmap_take, length_fmap.
  - destruct (del_at_linked h L cells pos fuel)
      as (h' & L' & ? & ? & ? & ? & ?); [done..|lia|].
    eexists h', L', _. split; [done|]. split; [done|]. split; [|done].
    rewrite length_fmap. case_decide; [|done].
    by rewrite list_fmap_delete.
  - destruct Hcl as [?| ->]; [done|].
    exists h, L, []. split; [apply clear_empty; apply Hc|].
    split; [done|]. repeat (split; [done|]). apply aside_refl.
Qed.

Lemma run_ops_linked fuel ops : ∀ h L cells es',
  linked h L cells →
  (length cells + length ops < fuel)%nat →
  Z.of_nat (length cells + length ops) ≤ INT_MAX →
  abs_run ops cells.*2 = Some es' →
  ∃ h' L' cells',
    run_ops fuel ops (h, L) = Ok (h', L') ∧
    linked h' L' cells' ∧ cells'.*2 = es' ∧
    listName L' = listName L ∧ taken L' = taken L ∧
    aside h cells h' cells'.
Proof.
  induction ops as [|o ops IH]; intros h L cells es' Hc Hf Hm Habs.
  - simpl in *. injection Habs as <-. exists h, L, cells.
    repeat (split; [done|]). apply aside_refl.
  - cbn [run_ops]. cbn [length] in *.
    assert (Hcl : o ≠ OpClear ∨ cells = []).
    { destruct o; try (by left). right. simpl in Habs.
      destruct cells; [done|]. done. }
    destruct (apply_op_linked h L cells o fuel)
      as (h1 & L1 & cells1 & -> & Hc1 & He1 & Hn1 & Ht1 & Ha1);
      [done|lia|lia|done|].
    rewrite bind_Ok.
    assert (Hlen1 : (length cells1 ≤ S (length cells))%nat).
    { rewrite <- (length_fmap snd cells1), He1, <- (length_fmap snd cells).
      apply abs_op_length. }
    assert (Habs1 : abs_run ops cells1.*2 = Some es').
    { rewrite He1. destruct Hcl as [Hcl| ->].
      - destruct o; try done.
      - destruct o; try done. }
    destruct (IH h1 L1 cells1 es') as (h' & L' & cells' & ? & ? & ? & ? & ? & Ha2);
      [done|lia|lia|done|].
    exists h', L', cells'. split; [done|]. split; [done|]. split; [done|].
    split; [congruence|]. split; [congruence|]. by eapply aside_trans.
Qed.

Lemma lseg_same h h' cells tl :
  (∀ q, q ∈ cells.*1 → h' !! q = h !! q) → lseg h cells tl → lseg h' cells tl.
Proof.
  induction cells as [|c cells IH]; simpl; [done|].
  intros Hq [Hc Hl]. split.
  - rewrite Hq; [done|set_solver].
  - apply IH; [|done]. intros q Hin. apply Hq. set_solver.
Qed.

(** X27: the operations on one playlist leave the others alone: in a heap
    that holds other nodes as well, every sequence of add_beg, add_end,
    add_at, del_beg, del_end, del_at (and clear() on the empty list) on a
    circular list runs without undefined behaviour and leaves that list
    circular with the entries the operations describe; every node of the
    heap that is not of the list is as it was, and every other circular
    list of the heap that shares no node with it is the same list
    afterwards. *)
Theorem list_operations_leave_the_other_lists_alone fuel ops h L cells es' :
  linked h L cells →
  (length cells + length ops < fuel)%nat →
  Z.of_nat (length cells + length ops) ≤ INT_MAX →
  abs_run ops cells.*2 = Some es' →
  ∃ h' L' cells',
    run_ops fuel ops (h, L) = Ok (h', L') ∧
    linked h' L' cells' ∧ cells'.*2 = es' ∧
    (∀ q, q ∈ dom h → q ∉ cells.*1 → h' !! q = h !! q) ∧
    (∀ L2 cells2,
       linked h L2 cells2 → (∀ q, q ∈ cells2.*1 → q ∉ cells.*1) →
       linked h' L2 cells2).
Proof.
  intros Hc Hf Hm Habs.
  destruct (run_ops_linked fuel ops h L cells es' Hc Hf Hm Habs)
    as (h' & L' & cells' & Hrun & Hl & He & _ & _ & Ha1 & Ha2).
  exists h', L', cells'. repeat (split; [done|]).
  intros L2 cells2 (Hnd2 & Hl2 & Hh2 & Hlen2) Hdis.
  split; [done|]. split; [|done].
  eapply lseg_same; [|exact Hl2]. intros q Hq. apply Ha2; [|by apply Hdis].
  by eapply lseg_in_dom.
Qed.

End SharedHeap.

Section SharedHeapSamples.

Lemma list_operations_shared_witness :
  ∃ h' L' cells',
    run_ops 12 [OpDelBeg; OpAddEnd "d.flac" "D"; OpDelAt 2]
      (shelf_heap, LinkedList_new) = Ok (h', L') ∧
    linked h' L' cells' ∧ cells'.*2 = [("d.flac", "D")]%string ∧
    (∀ q, q ∈ dom shelf_heap → q ∉ ([] : list (positive * entry)).*1 →
          h' !! q = shelf_heap !! q) ∧
    (∀ L2 cells2,
       linked shelf_heap L2 cells2 →
       (∀ q, q ∈ cells2.*1 → q ∉ ([] : list (positive * entry)).*1) →
       linked h' L2 cells2).
Proof.
  apply (list_operations_leave_the_other_lists_alone 12
           [OpDelBeg; OpAddEnd "d.flac" "D"; OpDelAt 2]
           shelf_heap LinkedList_new []).
  - unfold linked. simpl. split; [constructor|done].
  - simpl. lia.
  - by vm_compute.
  - reflexivity.
Defined.

End SharedHeapSamples.


(* ---- the menus ---- *)

Import Menu.

Section MenuFacts.
Implicit Types (h : gmap positive node) (cells : list (positive * entry)).

Lemma getValidatedInput_loop_spec prompt lo hi : ∀ inputs c,
  match first_between lo hi inputs with
  | Some v =>
      lo ≤ v ≤ hi ∧
      ∃ c', getValidatedInput_loop inputs prompt lo hi c = Ok (v, c') ∧
            typed_numbers c' = after_first_between lo hi inputs ∧
            typed_chars c' = typed_chars c ∧
            ∃ said, screen c' = screen c ++ said ++ [Ask prompt] ∧
                    Forall (λ m, m = Ask prompt ∨ m = InvalidInput lo hi) said
  | None => getValidatedInput_loop inputs prompt lo hi c = OutOfFuel
  end.
Proof.
  induction inputs as [|x inputs IH]; intros c; [done|].
  cbn [first_between getValidatedInput_loop after_first_between].
  destruct x as [choice|].
  - case_decide as Hr.
    + split; [lia|]. eexists. split; [done|]. simpl.
      split; [done|]. split; [done|]. exists []. done.
    + specialize (IH (write (InvalidInput lo hi)
                        (set_typed_numbers inputs (write (Ask prompt) c)))).
      destruct (first_between lo hi inputs) as [v|]; [|done].
      destruct IH as (Hv & c' & Hrun & Hn & Hc & said & Hs & Hall).
      split; [done|]. exists c'. split; [done|]. split; [done|].
      split; [done|].
      exists (Ask prompt :: InvalidInput lo hi :: said). split.
      * rewrite Hs. simpl. by rewrite <- !app_assoc.
      * repeat (constructor; [auto|]). done.
  - specialize (IH (write (InvalidInput lo hi)
                      (set_typed_numbers inputs (write (Ask prompt) c)))).
    destruct (first_between lo hi inputs) as [v|]; [|done].
    destruct IH as (Hv & c' & Hrun & Hn & Hc & said & Hs & Hall).
    split; [done|]. exists c'. split; [done|]. split; [done|].
    split; [done|].
    exists (Ask prompt :: InvalidInput lo hi :: said). split.
    * rewrite Hs. simpl. by rewrite <- !app_assoc.
    * repeat (constructor; [auto|]). done.
Qed.

(** X22: getValidatedInput returns the first number typed that lies
    between minVal and maxVal, whatever is typed before it (numbers out
    of range, text that is no number), each of which is answered by the
    message of the invalid input and a new prompt; it never returns a
    value out of the range, and when no such number is typed it does not
    return. *)
Theorem getValidatedInput_returns_the_first_valid prompt minVal maxVal c :
  match first_between minVal maxVal (typed_numbers c) with
  | Some v =>
      minVal ≤ v ≤ maxVal ∧
      ∃ c', getValidatedInput prompt minVal maxVal c = Ok (v, c') ∧
            typed_numbers c' =
              after_first_between minVal maxVal (typed_numbers c) ∧
            typed_chars c' = typed_chars c ∧
            ∃ said, screen c' = screen c ++ said ++ [Ask prompt] ∧
                    Forall (λ m, m = Ask prompt ∨
                                 m = InvalidInput minVal maxVal) said
  | None => getValidatedInput prompt minVal maxVal c = OutOfFuel
  end.
Proof. apply getValidatedInput_loop_spec. Qed.

(** X23: handleDeleteMiddle on a list that is not empty shows the list,
    asks for a position until a number between 1 and the length is
    typed, and deletes the entry at that position: the position that
    reaches del_at is always in range, the list afterwards is the list
    before without that entry, circular as before, and the nodes of the
    other lists are not touched. *)
Theorem handleDeleteMiddle_deletes_the_chosen_entry fuel h li cells c pos :
  linked h li cells → cells ≠ [] → len li < INT_MAX →
  (length cells < fuel)%nat →
  first_between 1 (len li) (typed_numbers c) = Some pos →
  ∃ h' li' c',
    handleDeleteMiddle fuel (h, li) c = Ok ((h', li'), c') ∧
    1 ≤ pos ≤ len li ∧
    linked h' li' (delete (Z.to_nat (pos - 1)) cells) ∧
    listName li' = listName li ∧
    (∀ q, q ∈ dom h → q ∉ cells.*1 → h' !! q = h !! q) ∧
    last (screen c') = Some (DeletedFrom pos).
Proof.
  intros Hlk Hne Hmax Hf Hpos.
  pose proof Hlk as (_ & _ & Hhd & Hlen).
  unfold handleDeleteMiddle.
  destruct (head li) as [a|] eqn:Ea; [|by destruct cells].
  rewrite (display_lists_every_entry h li cells fuel Hlk Hmax) by lia.
  cbn [mbind outcome_bind].
  match goal with |- context [getValidatedInput ?p 1 (len li) ?c0] =>
    pose proof (getValidatedInput_loop_spec p 1 (len li)
                  (typed_numbers c0) c0) as Hin;
    change (getValidatedInput_loop (typed_numbers c0) p 1 (len li) c0)
      with (getValidatedInput p 1 (len li) c0) in Hin
  end.
  cbn [typed_numbers write write_all] in Hin. rewrite Hpos in Hin.
  destruct Hin as (Hr & c' & Hrun & _). rewrite Hrun.
  cbn [mbind outcome_bind].
  destruct (del_at_linked h li cells pos fuel Hlk Hf)
    as (h' & li' & Hdel & Hc' & Hn & _ & Ha); [lia|].
  rewrite Hdel. cbn [mbind outcome_bind].
  rewrite decide_True in Hc', Ha by lia.
  exists h', li', (write (DeletedFrom pos) c'). split; [done|].
  split; [done|]. split; [done|]. split; [done|].
  split; [apply Ha|]. simpl. apply last_snoc.
Qed.

Lemma length_append (a b : string) :
  String.length (a +:+ b) = (String.length a + String.length b)%nat.
Proof. induction a as [|x a IH]; simpl; [done|by rewrite IH]. Qed.

Lemma shortened_length max name :
  (3 ≤ max)%nat → (String.length (shortened max name) ≤ max)%nat.
Proof.
  intros Hm. unfold shortened.
  destruct (Nat.ltb_spec max (String.length name)); [|done].
  rewrite length_append, length_str. unfold substr.
  rewrite length_take. simpl. lia.
Qed.

Lemma printList_rows_lseg h hd : ∀ rest e fuel i c,
  lseg h (e :: rest) (Some hd) → hd ∉ rest.*1 →
  (length rest < fuel)%nat →
  Z.of_nat i + Z.of_nat (S (length rest)) ≤ INT_MAX →
  printList_rows fuel h (Some hd) (Some e.1) (Z.of_nat i) c =
  Ok (Z.of_nat (i + S (length rest)),
      write_all (contents_from i (e.2 :: rest.*2)) c).
Proof.
  induction rest as [|e' rest IH]; intros e fuel i c Hl Hhd Hf Hi;
    (destruct fuel as [|fuel]; [simpl in Hf; lia|]).
  - destruct Hl as [He _]. simpl in He.
    cbn [printList_rows]. rewrite (deref_Some _ _ _ He).
    cbn [mbind outcome_bind].
    rewrite int_add_small by (unfold INT_MIN, INT_MAX in *; cbn [length] in Hi; lia).
    cbn [mbind outcome_bind next song artist]. rewrite decide_True by done.
    do 2 f_equal. cbn [length]. lia.
  - destruct Hl as [He Hl]. simpl in He.
    cbn [printList_rows]. rewrite (deref_Some _ _ _ He).
    cbn [mbind outcome_bind].
    rewrite int_add_small by (unfold INT_MIN, INT_MAX in *; cbn [length] in Hi; lia).
    cbn [mbind outcome_bind next song artist].
    rewrite decide_False by (intros [= E]; set_solver).
    replace (Z.of_nat i + 1) with (Z.of_nat (S i)) by lia.
    rewrite IH; [|done|set_solver|simpl in Hf; lia|cbn [length] in Hi |- *; lia].
    f_equal. f_equal; [cbn [length]; f_equal; lia|].
    unfold write_all, write. cbn [typed_numbers typed_chars screen].
    cbn [contents_from fmap list_fmap]. unfold contents_row at 2.
    replace (Z.of_nat i + 1) with (Z.of_nat (S i)) by lia.
    by rewrite <- app_assoc.
Qed.

Lemma contents_from_short n s a : ∀ es i,
  ContentsRow n s a ∈ contents_from i es →
  (String.length s ≤ 30)%nat ∧ (String.length a ≤ 15)%nat.
Proof.
  induction es as [|x es IH]; intros i Hin.
  - by apply elem_of_nil in Hin.
  - cbn [contents_from] in Hin. apply elem_of_cons in Hin as [Heq|Hin].
    + injection Heq as -> -> ->. split; apply shortened_length; lia.
    + by eapply IH.
Qed.

(** X26: printList, the display of the menu, on a circular list that is
    not empty writes the header, then one row for each entry, in list
    order, numbered from 1, with the clean name in 30 bytes at most and
    the artist in 15 at most (longer ones are cut and end in three dots),
    and the total, which is the number of nodes. *)
Theorem printList_lists_every_entry fuel h li cells c :
  linked h li cells → cells ≠ [] → len li ≤ INT_MAX →
  (length cells ≤ fuel)%nat →
  ∃ c',
    printList fuel h li c = Ok c' ∧
    screen c' =
      screen c ++
      [Header (safeTitle ("Playlist: " +:+ listName li)); ContentsTop] ++
      contents_from 0 cells.*2 ++
      [ContentsBottom; TotalSongs (Z.of_nat (length cells))] ∧
    typed_numbers c' = typed_numbers c ∧ typed_chars c' = typed_chars c ∧
    (∀ n s a, ContentsRow n s a ∈ contents_from 0 cells.*2 →
       (String.length s ≤ 30)%nat ∧ (String.length a ≤ 15)%nat).
Proof.
  intros (Hnd & Hl & Hhd & Hlen) Hne Hmax Hf.
  destruct cells as [|e rest]; [done|]. cbn [hd_or] in *.
  unfold printList, isEmpty. rewrite Hhd.
  simpl in Hl, Hnd. apply NoDup_cons in Hnd as [He _].
  pose proof (printList_rows_lseg h e.1 rest e fuel 0) as Hrows.
  cbn [Z.of_nat] in Hrows. rewrite Hrows;
    [|done|done|simpl in Hf; lia|rewrite Hlen in Hmax; cbn [length] in Hmax |- *; lia].
  cbn [mbind outcome_bind fst snd]. eexists. split; [done|].
  split; [|split; [done|split; [done|]]].
  - cbn [write write_all screen]. rewrite <- !app_assoc. simpl. done.
  - intros n s a. apply contents_from_short.
Qed.

(* clear() on a list that is not empty, in a heap that may hold other
   lists *)
Lemma clear_linked_undefined h L cells fuel :
  linked h L cells → cells ≠ [] → (length cells ≤ fuel)%nat →
  clear fuel (h, L) = Undefined.
Proof.
  intros (Hnd & Hl & Hh & Hlen) Hne Hf.
  unfold clear. destruct cells as [|c0 rest]; [done|]. clear Hne.
  cbn [hd_or] in *. rewrite Hh.
  destruct Hl as [Hl0 Hl]. cbn [fst snd] in *.
  rewrite (deref_ok _ _ _ Hl0), bind_Ok. cbn [next].
  rewrite fmap_cons in Hnd. apply NoDup_cons in Hnd as [Hc0 Hnd].
  assert (Hx : ∃ x, hd_or rest (Some c0.1) = Some x) by (destruct rest; simpl; eauto).
  destruct Hx as [x Hx]. rewrite Hx.
  rewrite (store_next_ok _ _ _ _ Hl0), bind_Ok. cbn [song artist].
  rewrite <- Hx.
  rewrite free_chain_lseg; [|by apply lseg_insert_frame|done].
  simpl in Hf. rewrite decide_True by lia.
  destruct (fuel - length rest)%nat as [|k] eqn:Ek; [lia|].
  cbn [free_chain].
  assert (Hlk : delete_all rest.*1
                  (<[c0.1:={| song := c0.2.1; artist := c0.2.2; next := None |}]> h)
                  !! c0.1 = Some (Node c0.2.1 c0.2.2 None)).
  { rewrite delete_all_lookup_ne by done. by rewrite lookup_insert_eq. }
  rewrite (deref_ok _ _ _ Hlk), bind_Ok.
  rewrite (free_ok _ _ _ Hlk), bind_Ok. cbn [next].
  destruct k; cbn [free_chain]; rewrite bind_Ok; simpl; by rewrite lookup_delete_eq.
Qed.

(** X24: handleDeleteList on a playlist that holds a song: when the
    answer to the question is Y or y, clear() runs and deletes the head
    node twice, so the deletion has no defined result; with any other
    answer the list and the heap are left as they are. *)
Theorem handleDeleteList_on_a_list_with_songs fuel h li cells listIndex c
    confirm rest :
  linked h li cells → cells ≠ [] → (length cells ≤ fuel)%nat →
  INT_MIN ≤ listIndex + 1 ≤ INT_MAX →
  typed_chars c = confirm :: rest →
  (confirm = "Y"%char ∨ confirm = "y"%char →
   handleDeleteList fuel (h, li) listIndex c = Undefined) ∧
  (toupper confirm ≠ "Y"%char →
   ∃ c', handleDeleteList fuel (h, li) listIndex c = Ok ((h, li), c') ∧
         last (screen c') = Some DeletionCancelled).
Proof.
  intros Hlk Hne Hf Hidx Htyped. unfold handleDeleteList.
  rewrite int_add_ok by done. cbn [mbind outcome_bind typed_chars write].
  rewrite Htyped. split.
  - intros Hy.
    assert (Ascii.eqb (toupper confirm) "Y" = true) as ->
      by (by destruct Hy as [-> | ->]).
    by rewrite (clear_linked_undefined h li cells fuel).
  - intros Hn. apply Ascii.eqb_neq in Hn. rewrite Hn.
    eexists. split; [done|]. simpl. apply last_snoc.
Qed.

(** X25: the clean-up at the end of main(): when every playlist is a
    circular list and one that is taken holds a song, the clear() of the
    clean-up deletes a head node twice and the exit has no defined
    result; when every taken playlist is empty the clean-up changes
    nothing. *)
Theorem clean_up_at_exit fuel h playlists :
  Forall (λ L, ∃ cells, linked h L cells ∧ (length cells ≤ fuel)%nat)
    playlists →
  (Exists (λ L, taken L = true ∧ head L ≠ None) playlists →
   clean_up fuel h playlists = Undefined) ∧
  (Forall (λ L, taken L = true → head L = None) playlists →
   clean_up fuel h playlists = Ok (h, playlists)).
Proof.
  induction playlists as [|L rest IH]; intros Hall.
  { split; [by intros ?%Exists_nil|done]. }
  apply Forall_cons in Hall as [(cells & Hlk & Hf) Hall].
  destruct (IH Hall) as [IH1 IH2]. cbn [clean_up]. split.
  - intros Hex. destruct (taken L) eqn:Et.
    + destruct (head L) as [a|] eqn:Ea.
      * rewrite (clear_linked_undefined h L cells fuel); [done|done| |done].
        destruct Hlk as (_ & _ & Hhd & _). intros ->. by rewrite Ea in Hhd.
      * rewrite clear_empty by done. cbn [mbind outcome_bind fst snd].
        apply Exists_cons in Hex as [[_ Hex]|Hex]; [done|].
        by rewrite IH1.
    + cbn [mbind outcome_bind fst snd].
      apply Exists_cons in Hex as [[Hex _]|Hex]; [congruence|].
      by rewrite IH1.
  - intros Hemp. apply Forall_cons in Hemp as [He Hemp].
    destruct (taken L) eqn:Et.
    + rewrite clear_empty by auto. cbn [mbind outcome_bind fst snd].
      by rewrite IH2.
    + cbn [mbind outcome_bind fst snd]. by rewrite IH2.
Qed.

End MenuFacts.

Section MenuSamples.

Lemma printList_witness :
  ∃ c',
    printList 3 shelf_heap shelf_list (mkConsole [] [] []) = Ok c' ∧
    screen c' =
      [Header "Playlist: shelf"; ContentsTop;
       ContentsRow 1 "Zebra" "Queen"; ContentsRow 2 "apple" "abba";
       ContentsRow 3 "Mango" "Beatles"; ContentsBottom; TotalSongs 3].
Proof.
  destruct (printList_lists_every_entry 3 shelf_heap shelf_list shelf_cells
              (mkConsole [] [] [])) as (c' & Hrun & Hs & _).
  - apply shelf_linked.
  - done.
  - done.
  - simpl. lia.
  - exists c'. split; [exact Hrun|exact Hs].
Defined.

Lemma handleDeleteMiddle_witness :
  ∃ h' li' c',
    handleDeleteMiddle 4 (sample_heap, sample_list)
      (mkConsole [Some 9; None; Some 2] [] []) = Ok ((h', li'), c') ∧
    1 ≤ 2 ≤ len sample_list ∧
    linked h' li' (delete (Z.to_nat (2 - 1)) sample_cells) ∧
    listName li' = listName sample_list ∧
    (∀ q, q ∈ dom sample_heap → q ∉ sample_cells.*1 →
          h' !! q = sample_heap !! q) ∧
    last (screen c') = Some (DeletedFrom 2).
Proof.
  apply (handleDeleteMiddle_deletes_the_chosen_entry 4 sample_heap sample_list
           sample_cells (mkConsole [Some 9; None; Some 2] [] []) 2).
  - apply (circular_linked _ _ _ (sample_circular 0)).
  - done.
  - done.
  - simpl. lia.
  - reflexivity.
Defined.

Lemma handleDeleteList_witness :
  handleDeleteList 3 (shelf_heap, shelf_list) 0 (mkConsole [] ["y"%char] [])
    = Undefined.
Proof.
  apply (handleDeleteList_on_a_list_with_songs 3 shelf_heap shelf_list
           shelf_cells 0 (mkConsole [] ["y"%char] []) "y"%char []).
  - apply shelf_linked.
  - done.
  - simpl. lia.
  - done.
  - reflexivity.
  - by right.
Defined.

Lemma clean_up_witness :
  clean_up 3 shelf_heap [LinkedList_new; shelf_list] = Undefined.
Proof.
  apply (clean_up_at_exit 3 shelf_heap [LinkedList_new; shelf_list]).
  - constructor.
    + exists []. split; [|simpl; lia].
      unfold linked. simpl. split; [constructor|done].
    + constructor; [|constructor]. exists shelf_cells.
      split; [apply shelf_linked|simpl; lia].
  - apply Exists_cons_tl, Exists_cons_hd. by split.
Defined.

End MenuSamples.
